(** * ProjectScanner: call graph construction and the analyzers built on it

    A shallow embedding of [src/user-scripts/project-scanner/scanner.ts].
    The syntax tree that ts-morph hands to the scanner is represented by
    plain records (the [*Decl] types); everything the scanner computes from
    them is a function below.  JavaScript strings are sequences of code
    units; the embedding uses [string], i.e. code units below 256. *)

From stdpp Require Import base option gmap strings.
From Stdlib Require Import Ascii String List Arith Lia Permutation Sorted.
Import ListNotations.
Local Open Scope string_scope.
Local Open Scope list_scope.

(** ** JavaScript string primitives used by the scanner *)

Module Js.

(** [s.startsWith(p)] *)
Fixpoint startsWith (p s : string) : bool :=
  match p, s with
  | EmptyString, _ => true
  | String a p', String b s' => Ascii.eqb a b && startsWith p' s'
  | String _ _, EmptyString => false
  end.

(** [s.endsWith(p)] *)
Definition endsWith (p s : string) : bool :=
  let n := String.length s in
  let k := String.length p in
  (k <=? n)%nat && String.eqb (String.substring (n - k) k s) p.

(** [s.includes(p)] *)
Fixpoint includes (p s : string) : bool :=
  startsWith p s ||
  match s with
  | EmptyString => false
  | String _ s' => includes p s'
  end.

(** [s.lastIndexOf('/')], [None] standing for [-1] *)
Fixpoint lastIndexOf (c : ascii) (s : string) : option nat :=
  match s with
  | EmptyString => None
  | String a s' =>
      match lastIndexOf c s' with
      | Some i => Some (S i)
      | None => if Ascii.eqb a c then Some 0 else None
      end
  end.

(** [s.substring(0, s.lastIndexOf(c))]; a negative end is clamped to 0 *)
Definition uptoLast (c : ascii) (s : string) : string :=
  match lastIndexOf c s with
  | Some i => String.substring 0 i s
  | None => EmptyString
  end.

(** [s.split(c)] for a one-character separator *)
Fixpoint split (c : ascii) (s : string) : list string :=
  match s with
  | EmptyString => [EmptyString]
  | String a s' =>
      if Ascii.eqb a c then EmptyString :: split c s'
      else match split c s' with
           | w :: ws => String a w :: ws
           | [] => [String a EmptyString]
           end
  end.

(** [xs.join(sep)] *)
Fixpoint join (sep : string) (xs : list string) : string :=
  match xs with
  | [] => EmptyString
  | [x] => x
  | x :: rest => x +:+ sep +:+ join sep rest
  end.

(** truthiness of a string value *)
Definition truthy (s : string) : bool := negb (String.eqb s EmptyString).

(** [o || d] on an optional string: [undefined] and [''] both give [d] *)
Definition orElse (o : option string) (d : string) : string :=
  match o with
  | Some s => if truthy s then s else d
  | None => d
  end.

End Js.

(** ** Regular expressions

    The fragment the scanner's patterns are written in: sequences of
    character classes, each taken once or under a greedy [?], [*] or [+],
    with capture groups around runs of them.  [exec] is the backtracking
    matcher of ECMAScript restricted to that fragment. *)

Module Regex.

Definition cclass := ascii -> bool.

Inductive re : Type :=
| Eps
| Chr (c : cclass)
| Opt (c : cclass)
| Star (c : cclass)
| Plus (c : cclass)
| Seq (r1 r2 : re)
| Grp (r : re).

Definition just (a : ascii) : cclass := fun b => Ascii.eqb a b.
Definition but (a : ascii) : cclass := fun b => negb (Ascii.eqb a b).

(** [\w] *)
Definition word : cclass := fun a =>
  let n := nat_of_ascii a in
  (((48 <=? n) && (n <=? 57)) || ((65 <=? n) && (n <=? 90))
   || ((97 <=? n) && (n <=? 122)) || (n =? 95))%nat.

(** [\s], on code units below 256 *)
Definition space : cclass := fun a =>
  let n := nat_of_ascii a in
  (((9 <=? n) && (n <=? 13)) || (n =? 32) || (n =? 160))%nat.

(** [.] : anything but a line terminator *)
Definition dot : cclass := fun a =>
  let n := nat_of_ascii a in negb ((n =? 10) || (n =? 13))%nat.

(** a literal run of characters *)
Fixpoint lit (s : string) : re :=
  match s with
  | EmptyString => Eps
  | String a s' => Seq (Chr (just a)) (lit s')
  end.

Fixpoint seq (rs : list re) : re :=
  match rs with
  | [] => Eps
  | [r] => r
  | r :: rs' => Seq r (seq rs')
  end.

Section Exec.
Context {A : Type}.

(** greedy [c*]: the longest run first, giving characters back while the
    continuation fails *)
Fixpoint star (c : cclass) (k : string -> option A) (s : string) : option A :=
  match s with
  | String a s' =>
      if c a then
        match star c k s' with
        | Some r => Some r
        | None => k s
        end
      else k s
  | EmptyString => k s
  end.

Fixpoint exec (r : re) (s : string) (caps : list string)
         (k : string -> list string -> option A) : option A :=
  match r with
  | Eps => k s caps
  | Chr c =>
      match s with
      | String a s' => if c a then k s' caps else None
      | EmptyString => None
      end
  | Opt c =>
      match s with
      | String a s' =>
          if c a then
            match k s' caps with
            | Some r => Some r
            | None => k s caps
            end
          else k s caps
      | EmptyString => k s caps
      end
  | Star c => star c (fun s' => k s' caps) s
  | Plus c =>
      match s with
      | String a s' => if c a then star c (fun s'' => k s'' caps) s' else None
      | EmptyString => None
      end
  | Seq r1 r2 => exec r1 s caps (fun s1 caps1 => exec r2 s1 caps1 k)
  | Grp r1 =>
      exec r1 s caps (fun s1 caps1 =>
        k s1 (caps1 ++ [String.substring 0 (String.length s - String.length s1) s]))
  end.
End Exec.

(** A match: the text before it, the captures, the text after it. *)
Record result := { before : string; groups : list string; after : string }.

(** the pattern tried at the very start of [s] *)
Definition matchHere (r : re) (s : string) : option result :=
  exec r s [] (fun rest caps =>
    Some {| before := EmptyString; groups := caps; after := rest |}).

Definition shift (a : ascii) (m : result) : result :=
  {| before := String a (before m); groups := groups m; after := after m |}.

(** the leftmost match of an unanchored pattern *)
Fixpoint search (r : re) (s : string) : option result :=
  match matchHere r s with
  | Some m => Some m
  | None =>
      match s with
      | String a s' => option_map (shift a) (search r s')
      | EmptyString => None
      end
  end.

Record regex := { anchored : bool; body : re }.

(** [s.match(rx)] for a pattern without the [g] flag: the capture groups
    of the leftmost match, or [None] for [null] *)
Definition jsMatch (rx : regex) (s : string) : option (list string) :=
  option_map groups
    (if anchored rx then matchHere (body rx) s else search (body rx) s).

(** [s.replace(rx, '')] for a pattern without the [g] flag *)
Definition jsRemove (rx : regex) (s : string) : string :=
  match (if anchored rx then matchHere (body rx) s else search (body rx) s) with
  | Some m => before m +:+ after m
  | None => s
  end.

Definition nthGroup (n : nat) (gs : list string) : string := nth n gs EmptyString.

(** The scanner's patterns. *)

(** [/inject\s*\(\s*(\w+)\s*\)/] *)
Definition injectCore : re :=
  seq [lit "inject"; Star space; Chr (just "("); Star space; Grp (Plus word);
       Star space; Chr (just ")")].

Definition rxInjectInit : regex := {| anchored := false; body := injectCore |}.

(** [/^inject\s*\(\s*(\w+)\s*\)/] *)
Definition rxLocalInject : regex := {| anchored := true; body := injectCore |}.

(** [\s*\.\s*(\w+)] *)
Definition dotMember : re :=
  seq [Star space; Chr (just "."); Star space; Grp (Plus word)].

(** [this\.(_?\w+)] *)
Definition thisProp : re :=
  Seq (lit "this.") (Grp (Seq (Opt (just "_")) (Plus word))).

(** [/^this\.(_?\w+)\s*\.\s*(\w+)/] *)
Definition rxSimple : regex :=
  {| anchored := true; body := Seq thisProp dotMember |}.

(** [/^this\.(_?\w+)\s*\.\s*(\w+)\s*\.\s*(\w+)/] *)
Definition rxNested : regex :=
  {| anchored := true; body := seq [thisProp; dotMember; dotMember] |}.

(** [/inject\s*\(\s*(\w+)\s*\)\s*\.\s*(\w+)/] *)
Definition rxInjectCall : regex :=
  {| anchored := false; body := Seq injectCore dotMember |}.

(** [/^(\w+)\s*\.\s*(\w+)/] *)
Definition rxLocalVar : regex :=
  {| anchored := true; body := Seq (Grp (Plus word)) dotMember |}.

(** [/(\w+)\s*\(/] *)
Definition rxMethodCall : regex :=
  {| anchored := false;
     body := seq [Grp (Plus word); Star space; Chr (just "(")] |}.

(** [/this\.(_?\w+)\./] *)
Definition rxServiceUse : regex :=
  {| anchored := false; body := Seq thisProp (Chr (just ".")) |}.

(** [/<.*>/] *)
Definition rxGenericArgs : regex :=
  {| anchored := false; body := seq [Chr (just "<"); Star dot; Chr (just ">")] |}.

End Regex.

(** ** Insertion-ordered containers

    A JavaScript [Map] iterates in insertion order and [set] on a present key
    keeps the key's position; a [Set] iterates in insertion order and [add]
    of a present element changes nothing.  Several outputs of the scanner
    ([calledBy], the rankings, the order cycles are found in) depend on that
    order, so both are lists. *)

Module OMap.

Definition t (V : Type) := list (string * V).

Fixpoint get {V} (k : string) (m : t V) : option V :=
  match m with
  | [] => None
  | (k', v) :: m' => if String.eqb k k' then Some v else get k m'
  end.

Definition has {V} (k : string) (m : t V) : bool :=
  match get k m with Some _ => true | None => false end.

Fixpoint set {V} (k : string) (v : V) (m : t V) : t V :=
  match m with
  | [] => [(k, v)]
  | (k', v') :: m' =>
      if String.eqb k k' then (k', v) :: m' else (k', v') :: set k v m'
  end.

Definition keys {V} (m : t V) : list string := map fst m.

Definition entries {V} (m : t V) : list (string * V) := m.

End OMap.

(** A plain object used as a record of arrays, its own properties in
    insertion order.  The scanner's keys are qualified names and function
    names, none of them an array index, so no key is moved to the front. *)
Module Obj.

(** [o[k] = v] for an array [v]: under the key [__proto__] the assignment
    sets the prototype of [o] and gives it no property of its own *)
Definition assign {V} (k : string) (v : V) (o : OMap.t V) : OMap.t V :=
  if String.eqb k "__proto__" then o else OMap.set k v o.

End Obj.

Module OSet.

Definition t := list string.

Definition has (x : string) (s : t) : bool := existsb (String.eqb x) s.

Definition add (x : string) (s : t) : t := if has x s then s else s ++ [x].

(** [new Set(xs)] *)
Definition ofList (xs : list string) : t := fold_left (fun s x => add x s) xs [].

Definition size (s : t) : nat := length s.

End OSet.

(** ** The syntax tree, as far as the scanner queries it *)

Record ParamDecl := {
  pa_name : string;
  pa_typeNode : option string;      (* [getTypeNode()?.getText()] *)
  pa_type : string                  (* [getType().getText()] *)
}.

Record MethodDecl := {
  md_name : string;
  md_line : nat;
  md_params : list ParamDecl;
  md_returnType : string;
  md_modifiers : list string;
  md_decorators : list string;      (* decorator names *)
  md_callees : list string          (* callee text of every call expression
                                       below the method, in traversal order *)
}.

Record PropertyDecl := {
  pd_name : string;
  pd_line : nat;
  pd_type : string;
  pd_modifiers : list string;
  pd_decorators : list string;
  pd_initializer : option string
}.

Inductive BindingType := event | property | interpolation | structural.

Record TemplateBinding := { tb_type : BindingType; tb_expression : string }.

(** A decorator with the bindings [parseAngularTemplate] extracts from the
    template its first argument designates (the external file named by
    [templateUrl], then the inline [template]); a decorator without
    arguments has none. *)
Record DecoratorDecl := {
  dd_name : string;
  dd_bindings : list TemplateBinding
}.

Record ClassDecl := {
  cd_name : option string;
  cd_line : nat;
  cd_extends : option string;
  cd_implements : list string;
  cd_decorators : list DecoratorDecl;
  cd_methods : list MethodDecl;
  cd_properties : list PropertyDecl;
  cd_constructors : list (list ParamDecl);
  cd_exported : bool
}.

(** a variable declaration found below a function: name and initializer text *)
Record LocalVarDecl := { lv_name : string; lv_initializer : option string }.

Record FunctionDecl := {
  fd_name : option string;
  fd_line : nat;
  fd_params : list ParamDecl;
  fd_returnType : string;
  fd_callees : list string;
  fd_locals : list LocalVarDecl;
  fd_exported : bool
}.

Inductive InitKind := ArrowFunction | FunctionExpression | OtherExpression.

Record Initializer := {
  in_kind : InitKind;
  in_params : list ParamDecl;
  in_returnType : string;
  in_callees : list string;
  in_locals : list LocalVarDecl
}.

Record VariableDecl := {
  vd_name : string;
  vd_line : nat;
  vd_initializer : option Initializer;
  vd_exported : bool                (* [varStatement?.isExported() ?? false] *)
}.

Record ImportDecl := { im_module : string; im_named : list string }.

Record SourceFile := {
  sf_path : string;
  sf_relativePath : string;         (* [path.relative(config.path, filePath)]
                                       with [/] separators *)
  sf_imports : list ImportDecl;
  sf_exportDecls : list (list string);
  sf_classes : list ClassDecl;
  sf_functions : list FunctionDecl;
  sf_variables : list VariableDecl
}.

(** ** The scanner's model ([types.ts]) *)

Record ParamInfo := { p_name : string; p_type : string }.

Record MethodInfo := {
  m_name : string;
  m_line : nat;
  m_params : list ParamInfo;
  m_returnType : string;
  m_modifiers : list string;
  m_decorators : list string;
  m_calls : list string;
  m_calledBy : list string;
  m_callChain : option (list (list string))
}.

Record PropertyInfo := {
  pr_name : string;
  pr_line : nat;
  pr_type : string;
  pr_modifiers : list string;
  pr_decorators : list string;
  pr_initializer : option string
}.

Record ClassInfo := {
  c_name : string;
  c_line : nat;
  c_extends : option string;
  c_implements : list string;
  c_decorators : list string;
  c_methods : list MethodInfo;
  c_properties : list PropertyInfo
}.

Record FunctionInfo := {
  f_name : string;
  f_line : nat;
  f_params : list ParamInfo;
  f_returnType : string;
  f_calls : list string;
  f_exported : bool
}.

Record ImportInfo := { i_module : string; i_named : list string }.

Record FileInfo := {
  path : string;
  relativePath : string;
  imports : list ImportInfo;
  exports : list string;
  classes : list ClassInfo;
  functions : list FunctionInfo;
  templateBindings : option (list TemplateBinding)
}.

Inductive DeadKind := dead_method | dead_function.

Record DeadCodeItem := {
  d_type : DeadKind;
  d_name : string;
  d_fullName : string;
  d_file : string;
  d_line : nat;
  d_reason : string
}.

Record InheritanceInfo := {
  h_className : string;
  h_extends : string;
  h_inheritedMethods : list string;
  h_overriddenMethods : list string
}.

Record CircularDependency := { cycle : list string; description : string }.

Record CalledMethod := { cm_name : string; cm_callerCount : nat }.
Record UsedService := { us_name : string; us_usageCount : nat }.
Record LargeClass := { lc_name : string; lc_methodCount : nat; lc_file : string }.
Record ImportingFile := { if_file : string; if_importCount : nat }.

Record SummaryStats := {
  mostCalledMethods : list CalledMethod;
  mostUsedServices : list UsedService;
  largestClasses : list LargeClass;
  filesByImports : list ImportingFile
}.

Record InterfaceImplementation := {
  interfaceName : string;
  implementedBy : list string
}.

Inductive Framework := angular | react | generic.

(** ** The scanner's instance state *)

Record Scanner := {
  callGraph : OMap.t OSet.t;
  reverseCallGraph : OMap.t OSet.t;
  classMethodsMap : gmap string OSet.t;
  injectionMap : gmap string (gmap string string);
  nestedInjectionMap : gmap string (gmap string string);
  localInjectionMap : gmap string (gmap string string)
}.

Definition emptyScanner : Scanner :=
  {| callGraph := []; reverseCallGraph := [];
     classMethodsMap := ∅; injectionMap := ∅;
     nestedInjectionMap := ∅; localInjectionMap := ∅ |}.

Definition withCallGraph (g : OMap.t OSet.t) (s : Scanner) : Scanner :=
  {| callGraph := g; reverseCallGraph := reverseCallGraph s;
     classMethodsMap := classMethodsMap s; injectionMap := injectionMap s;
     nestedInjectionMap := nestedInjectionMap s;
     localInjectionMap := localInjectionMap s |}.

Definition withReverseCallGraph (g : OMap.t OSet.t) (s : Scanner) : Scanner :=
  {| callGraph := callGraph s; reverseCallGraph := g;
     classMethodsMap := classMethodsMap s; injectionMap := injectionMap s;
     nestedInjectionMap := nestedInjectionMap s;
     localInjectionMap := localInjectionMap s |}.

Definition withClassMethodsMap (g : gmap string OSet.t) (s : Scanner) : Scanner :=
  {| callGraph := callGraph s; reverseCallGraph := reverseCallGraph s;
     classMethodsMap := g; injectionMap := injectionMap s;
     nestedInjectionMap := nestedInjectionMap s;
     localInjectionMap := localInjectionMap s |}.

Definition withInjectionMap (g : gmap string (gmap string string)) (s : Scanner) : Scanner :=
  {| callGraph := callGraph s; reverseCallGraph := reverseCallGraph s;
     classMethodsMap := classMethodsMap s; injectionMap := g;
     nestedInjectionMap := nestedInjectionMap s;
     localInjectionMap := localInjectionMap s |}.

Definition withNestedInjectionMap (g : gmap string (gmap string string)) (s : Scanner) : Scanner :=
  {| callGraph := callGraph s; reverseCallGraph := reverseCallGraph s;
     classMethodsMap := classMethodsMap s; injectionMap := injectionMap s;
     nestedInjectionMap := g;
     localInjectionMap := localInjectionMap s |}.

Definition withLocalInjectionMap (g : gmap string (gmap string string)) (s : Scanner) : Scanner :=
  {| callGraph := callGraph s; reverseCallGraph := reverseCallGraph s;
     classMethodsMap := classMethodsMap s; injectionMap := injectionMap s;
     nestedInjectionMap := nestedInjectionMap s;
     localInjectionMap := g |}.

(** Methods of the scanner read and write the instance state. *)
Definition Scan (A : Type) : Type := Scanner -> A * Scanner.

Definition ret {A} (a : A) : Scan A := fun s => (a, s).

Definition bind {A B} (m : Scan A) (f : A -> Scan B) : Scan B :=
  fun s => let (a, s') := m s in f a s'.

Definition modify (f : Scanner -> Scanner) : Scan unit := fun s => (tt, f s).

Definition gets {A} (f : Scanner -> A) : Scan A := fun s => (f s, s).

Notation "x <- m ;; k" := (bind m (fun x => k))
  (at level 100, m at next level, right associativity).
Notation "m ;;; k" := (bind m (fun _ => k))
  (at level 100, right associativity).

(** [xs.map(f)] where [f] touches the instance state *)
Fixpoint mapS {A B} (f : A -> Scan B) (xs : list A) : Scan (list B) :=
  match xs with
  | [] => ret []
  | x :: xs' => y <- f x ;; ys <- mapS f xs' ;; ret (y :: ys)
  end.

(** [xs.forEach(f)] *)
Fixpoint forS {A} (f : A -> Scan unit) (xs : list A) : Scan unit :=
  match xs with
  | [] => ret tt
  | x :: xs' => f x ;;; forS f xs'
  end.

(** ** Pass 1: class methods and injection bindings ([collectClassInfo]) *)

(** [m.get(k)] used as a condition: present and not the empty string *)
Definition getTruthy (m : gmap string string) (k : string) : option string :=
  match m !! k with
  | Some v => if Js.truthy v then Some v else None
  | None => None
  end.

Definition propertyInjections (props : list PropertyDecl)
    (injections : gmap string string) : gmap string string :=
  fold_left (fun inj prop =>
    let initializer := Js.orElse (pd_initializer prop) "" in
    match Regex.jsMatch Regex.rxInjectInit initializer with
    | Some gs => <[pd_name prop := Regex.nthGroup 0 gs]> inj
    | None => inj
    end) props injections.

Definition constructorInjections (known : gmap string OSet.t)
    (params : list ParamDecl) (injections : gmap string string) : gmap string string :=
  fold_left (fun inj param =>
    match pa_typeNode param with
    | Some typeName =>
        if Js.endsWith "Service" typeName || bool_decide (is_Some (known !! typeName))
        then <[pa_name param := typeName]> inj
        else inj
    | None => inj
    end) params injections.

(** One iteration of the loop over classes; [classPropertiesMap] is the
    local map that becomes [nestedInjectionMap]. *)
Definition collectClass (cls : ClassDecl)
    (classPropertiesMap : gmap string (gmap string string))
    : Scan (gmap string (gmap string string)) :=
  match cd_name cls with
  | None => ret classPropertiesMap
  | Some className =>
      if negb (Js.truthy className) then ret classPropertiesMap else
      let methods := OSet.ofList (map md_name (cd_methods cls)) in
      modify (fun s => withClassMethodsMap (<[className := methods]> (classMethodsMap s)) s) ;;;
      known <- gets classMethodsMap ;;
      let injections := propertyInjections (cd_properties cls) ∅ in
      let injections :=
        match cd_constructors cls with
        | ctor :: _ => constructorInjections known ctor injections
        | [] => injections
        end in
      if bool_decide (injections = ∅) then ret classPropertiesMap
      else
        modify (fun s => withInjectionMap (<[className := injections]> (injectionMap s)) s) ;;;
        ret (<[className := injections]> classPropertiesMap)
  end.

Fixpoint collectClasses (clss : list ClassDecl)
    (classPropertiesMap : gmap string (gmap string string))
    : Scan (gmap string (gmap string string)) :=
  match clss with
  | [] => ret classPropertiesMap
  | cls :: rest =>
      cpm <- collectClass cls classPropertiesMap ;; collectClasses rest cpm
  end.

Definition collectClassInfo (files : list SourceFile) : Scan unit :=
  classPropertiesMap <- collectClasses (flat_map sf_classes files) ∅ ;;
  modify (withNestedInjectionMap classPropertiesMap).

(** ** Extraction ([scanFile] and what it calls) *)

(** [callName.replace(/\s+/g, ' ')] *)
Fixpoint collapseSpaces (inRun : bool) (s : string) : string :=
  match s with
  | EmptyString => EmptyString
  | String a s' =>
      if Regex.space a
      then if inRun then collapseSpaces true s'
           else String " " (collapseSpaces true s')
      else String a (collapseSpaces false s')
  end.

Fixpoint trimStart (s : string) : string :=
  match s with
  | String a s' => if Regex.space a then trimStart s' else s
  | EmptyString => EmptyString
  end.

Fixpoint trimEnd (s : string) : string :=
  match s with
  | String a s' =>
      let r := trimEnd s' in
      if Regex.space a && String.eqb r EmptyString then EmptyString else String a r
  | EmptyString => EmptyString
  end.

Definition trim (s : string) : string := trimEnd (trimStart s).

Definition extractCalls (callees : list string) : list string :=
  let calls :=
    fold_left (fun calls callee =>
      let callName := trim (collapseSpaces false callee) in
      if Js.truthy callName then calls ++ [callName] else calls) callees [] in
  OSet.ofList calls.

Definition extractLocalInjections (locals : list LocalVarDecl) : gmap string string :=
  fold_left (fun localMap varDecl =>
    let initText := Js.orElse (lv_initializer varDecl) "" in
    match Regex.jsMatch Regex.rxLocalInject initText with
    | Some gs => <[lv_name varDecl := Regex.nthGroup 0 gs]> localMap
    | None => localMap
    end) locals ∅.

(** [if (!g.has(key)) g.set(key, new Set()); g.get(key)!.add(caller)] *)
Definition addCaller (key caller : string) (g : OMap.t OSet.t) : OMap.t OSet.t :=
  let g1 := if OMap.has key g then g else OMap.set key [] g in
  match OMap.get key g1 with
  | Some callers => OMap.set key (OSet.add caller callers) g1
  | None => g1
  end.

Definition cleanType (typeStr : string) : string := Js.orElse (Some typeStr) "any".

Definition scanParam (p : ParamDecl) : ParamInfo :=
  {| p_name := pa_name p; p_type := cleanType (pa_type p) |}.

Definition decoratorText (name : string) : string := "@" +:+ name.

Definition scanMethod (method : MethodDecl) (className : string) : Scan MethodInfo :=
  let methodName := md_name method in
  let fullName := className +:+ "." +:+ methodName in
  let calls := extractCalls (md_callees method) in
  modify (fun s => withCallGraph (OMap.set fullName (OSet.ofList calls) (callGraph s)) s) ;;;
  forS (fun call =>
    modify (fun s => withReverseCallGraph (addCaller call fullName (reverseCallGraph s)) s))
    calls ;;;
  ret {| m_name := methodName;
         m_line := md_line method;
         m_params := map scanParam (md_params method);
         m_returnType := cleanType (md_returnType method);
         m_modifiers := md_modifiers method;
         m_decorators := map decoratorText (md_decorators method);
         m_calls := calls;
         m_calledBy := [];
         m_callChain := None |}.

Definition scanProperty (prop : PropertyDecl) : PropertyInfo :=
  {| pr_name := pd_name prop;
     pr_line := pd_line prop;
     pr_type := cleanType (pd_type prop);
     pr_modifiers := pd_modifiers prop;
     pr_decorators := map decoratorText (pd_decorators prop);
     pr_initializer := option_map (String.substring 0 100) (pd_initializer prop) |}.

Definition scanClass (cls : ClassDecl) : Scan ClassInfo :=
  let className := Js.orElse (cd_name cls) "anonymous" in
  methods <- mapS (fun m => scanMethod m className) (cd_methods cls) ;;
  ret {| c_name := className;
         c_line := cd_line cls;
         c_extends := cd_extends cls;
         c_implements := cd_implements cls;
         c_decorators := map (fun d => decoratorText (dd_name d)) (cd_decorators cls);
         c_methods := methods;
         c_properties := map scanProperty (cd_properties cls) |}.

Definition getClasses (sourceFile : SourceFile) : Scan (list ClassInfo) :=
  mapS scanClass (sf_classes sourceFile).

(** The part [scanFunction] and the variable branch of [getFunctions]
    share: the forward graph entry and the local injection bindings. *)
Definition registerFunction (fnName : string) (calls : list string)
    (locals : list LocalVarDecl) : Scan unit :=
  modify (fun s => withCallGraph (OMap.set fnName (OSet.ofList calls) (callGraph s)) s) ;;;
  let localInjections := extractLocalInjections locals in
  if bool_decide (localInjections = ∅) then ret tt
  else modify (fun s =>
         withLocalInjectionMap (<[fnName := localInjections]> (localInjectionMap s)) s).

Definition scanFunction (fn : FunctionDecl) : Scan FunctionInfo :=
  let fnName := Js.orElse (fd_name fn) "anonymous" in
  let calls := extractCalls (fd_callees fn) in
  registerFunction fnName calls (fd_locals fn) ;;;
  ret {| f_name := fnName;
         f_line := fd_line fn;
         f_params := map scanParam (fd_params fn);
         f_returnType := cleanType (fd_returnType fn);
         f_calls := calls;
         f_exported := fd_exported fn |}.

(** the body of the loop over variable declarations in [getFunctions] *)
Definition scanVariable (varDecl : VariableDecl) : Scan (list FunctionInfo) :=
  match vd_initializer varDecl with
  | None => ret []
  | Some initializer =>
      match in_kind initializer with
      | OtherExpression => ret []
      | _ =>
          let fnName := vd_name varDecl in
          let calls := extractCalls (in_callees initializer) in
          registerFunction fnName calls (in_locals initializer) ;;;
          ret [ {| f_name := fnName;
                   f_line := vd_line varDecl;
                   f_params := map scanParam (in_params initializer);
                   f_returnType := cleanType (in_returnType initializer);
                   f_calls := calls;
                   f_exported := vd_exported varDecl |} ]
      end
  end.

Definition getFunctions (sourceFile : SourceFile) : Scan (list FunctionInfo) :=
  declared <- mapS scanFunction (sf_functions sourceFile) ;;
  bound <- mapS scanVariable (sf_variables sourceFile) ;;
  ret (declared ++ concat bound).

Definition getImports (sourceFile : SourceFile) : list ImportInfo :=
  map (fun imp => {| i_module := im_module imp; i_named := im_named imp |})
      (sf_imports sourceFile).

Definition getExports (sourceFile : SourceFile) : list string :=
  concat (sf_exportDecls sourceFile)
  ++ flat_map (fun cls =>
       if cd_exported cls then [Js.orElse (cd_name cls) "anonymous"] else [])
       (sf_classes sourceFile)
  ++ flat_map (fun fn =>
       if fd_exported fn then [Js.orElse (fd_name fn) "anonymous"] else [])
       (sf_functions sourceFile).

Definition scanFile (sourceFile : SourceFile) : Scan FileInfo :=
  clss <- getClasses sourceFile ;;
  fns <- getFunctions sourceFile ;;
  ret {| path := sf_path sourceFile;
         relativePath := sf_relativePath sourceFile;
         imports := getImports sourceFile;
         exports := getExports sourceFile;
         classes := clss;
         functions := fns;
         templateBindings := None |}.

(** ** Template bindings *)

Definition componentDecorator (cls : ClassDecl) : option DecoratorDecl :=
  find (fun d => String.eqb (dd_name d) "Component") (cd_decorators cls).

Definition scanAngularTemplate (sourceFile : SourceFile) : list TemplateBinding :=
  flat_map (fun cls =>
    match componentDecorator cls with
    | Some d => dd_bindings d
    | None => []
    end) (sf_classes sourceFile).

Definition addTemplateBindingsToCallGraph (fileInfo : FileInfo)
    (bindings : list TemplateBinding) : Scan unit :=
  match classes fileInfo with
  | [] => ret tt
  | cls0 :: _ =>
      let className := c_name cls0 in
      if negb (Js.truthy className) then ret tt else
      forS (fun binding =>
        match Regex.jsMatch Regex.rxMethodCall (tb_expression binding) with
        | Some gs =>
            let fullName := className +:+ "." +:+ Regex.nthGroup 0 gs in
            modify (fun s =>
              withReverseCallGraph
                (addCaller fullName ("template:" +:+ relativePath fileInfo)
                   (reverseCallGraph s)) s)
        | None => ret tt
        end) bindings
  end.

Definition withTemplateBindings (bs : list TemplateBinding) (f : FileInfo) : FileInfo :=
  {| path := path f; relativePath := relativePath f; imports := imports f;
     exports := exports f; classes := classes f; functions := functions f;
     templateBindings := Some bs |}.

(** the body of the loop over source files in [scan] *)
Definition scanSourceFile (framework : Framework) (sourceFile : SourceFile)
    : Scan FileInfo :=
  fileInfo <- scanFile sourceFile ;;
  match framework with
  | angular =>
      let bindings := scanAngularTemplate sourceFile in
      match bindings with
      | [] => ret fileInfo
      | _ :: _ =>
          let fileInfo' := withTemplateBindings bindings fileInfo in
          addTemplateBindingsToCallGraph fileInfo' bindings ;;;
          ret fileInfo'
      end
  | _ => ret fileInfo
  end.

(** ** Pass 2: cross-file resolution ([resolveCrossFileCalls]) *)

Definition qualified (cls method : string) : string := cls +:+ "." +:+ method.

(** rule 1, [this.<id>.<method>] *)
Definition resolveSimple (this : Scanner) (injections : gmap string string)
    (call : string) (resolvedCall : option string) : option string :=
  match Regex.jsMatch Regex.rxSimple call with
  | Some gs =>
      let propName := Regex.nthGroup 0 gs in
      let methodName := Regex.nthGroup 1 gs in
      match getTruthy injections propName with
      | Some serviceClass =>
          match nestedInjectionMap this !! serviceClass with
          | Some nestedProps =>
              if bool_decide (is_Some (nestedProps !! methodName))
              then resolvedCall
              else Some (qualified serviceClass methodName)
          | None => Some (qualified serviceClass methodName)
          end
      | None => resolvedCall
      end
  | None => resolvedCall
  end.

(** rule 2, [this.<id>.<nested>.<method>] *)
Definition resolveNested (this : Scanner) (injections : gmap string string)
    (call : string) (resolvedCall : option string) : option string :=
  match Regex.jsMatch Regex.rxNested call with
  | Some gs =>
      let propName := Regex.nthGroup 0 gs in
      let nestedProp := Regex.nthGroup 1 gs in
      let methodName := Regex.nthGroup 2 gs in
      match getTruthy injections propName with
      | Some serviceClass =>
          match nestedInjectionMap this !! serviceClass with
          | Some nestedInjections =>
              match getTruthy nestedInjections nestedProp with
              | Some nestedServiceClass => Some (qualified nestedServiceClass methodName)
              | None => resolvedCall
              end
          | None => resolvedCall
          end
      | None => resolvedCall
      end
  | None => resolvedCall
  end.

(** rule 3, [inject(Type).<method>] *)
Definition resolveInject (this : Scanner) (call : string)
    (resolvedCall : option string) : option string :=
  match Regex.jsMatch Regex.rxInjectCall call with
  | Some gs =>
      let serviceClass := Regex.nthGroup 0 gs in
      let methodName := Regex.nthGroup 1 gs in
      if bool_decide (is_Some (classMethodsMap this !! serviceClass))
      then Some (qualified serviceClass methodName)
      else resolvedCall
  | None => resolvedCall
  end.

(** rule 4, [<id>.<method>] through the function's local bindings; tried
    only while nothing is resolved yet *)
Definition resolveLocalVar (this : Scanner) (localInjections : gmap string string)
    (call : string) (resolvedCall : option string) : option string :=
  match resolvedCall with
  | Some _ => resolvedCall
  | None =>
      match Regex.jsMatch Regex.rxLocalVar call with
      | Some gs =>
          let varName := Regex.nthGroup 0 gs in
          let methodName := Regex.nthGroup 1 gs in
          match getTruthy localInjections varName with
          | Some serviceClass =>
              if bool_decide (is_Some (classMethodsMap this !! serviceClass))
              then Some (qualified serviceClass methodName)
              else resolvedCall
          | None => resolvedCall
          end
      | None => resolvedCall
      end
  end.

(** the value of [resolvedCall] when the class branch reaches
    [if (resolvedCall)] *)
Definition resolveMethodCall (this : Scanner) (injections : gmap string string)
    (call : string) : option string :=
  let resolvedCall := None in
  let resolvedCall := resolveSimple this injections call resolvedCall in
  let resolvedCall := resolveNested this injections call resolvedCall in
  let resolvedCall := resolveInject this call resolvedCall in
  resolvedCall.

(** the same for the function branch *)
Definition resolveFunctionCall (this : Scanner) (localInjections : gmap string string)
    (call : string) : option string :=
  let resolvedCall := None in
  let resolvedCall := resolveInject this call resolvedCall in
  let resolvedCall := resolveLocalVar this localInjections call resolvedCall in
  resolvedCall.

(** [if (resolvedCall) { ... add(caller) }] *)
Definition recordResolved (resolvedCall : option string) (caller : string) : Scan unit :=
  match resolvedCall with
  | Some callee =>
      if Js.truthy callee
      then modify (fun s =>
             withReverseCallGraph (addCaller callee caller (reverseCallGraph s)) s)
      else ret tt
  | None => ret tt
  end.

Definition resolveMethod (className : string) (injections : gmap string string)
    (method : MethodInfo) : Scan unit :=
  let callerFullName := className +:+ "." +:+ m_name method in
  forS (fun call =>
    this <- gets id ;;
    recordResolved (resolveMethodCall this injections call) callerFullName)
    (m_calls method).

Definition resolveClass (cls : ClassInfo) : Scan unit :=
  let className := c_name cls in
  this <- gets id ;;
  let injections := default ∅ (injectionMap this !! className) in
  forS (resolveMethod className injections) (c_methods cls).

Definition resolveFunction (fn : FunctionInfo) : Scan unit :=
  let callerFullName := f_name fn in
  this <- gets id ;;
  let localInjections := default ∅ (localInjectionMap this !! f_name fn) in
  forS (fun call =>
    this <- gets id ;;
    recordResolved (resolveFunctionCall this localInjections call)
      ("function:" +:+ callerFullName))
    (f_calls fn).

Definition resolveFile (fileInfo : FileInfo) : Scan unit :=
  forS resolveClass (classes fileInfo) ;;;
  forS resolveFunction (functions fileInfo).

Definition resolveCrossFileCalls (fileInfos : list FileInfo) : Scan unit :=
  forS resolveFile fileInfos.

(** ** The [calledBy] back-fill ([buildCallGraph]) *)

Definition withCalledBy (callers : list string) (m : MethodInfo) : MethodInfo :=
  {| m_name := m_name m; m_line := m_line m; m_params := m_params m;
     m_returnType := m_returnType m; m_modifiers := m_modifiers m;
     m_decorators := m_decorators m; m_calls := m_calls m;
     m_calledBy := callers; m_callChain := m_callChain m |}.

Definition withCallChain (chains : list (list string)) (m : MethodInfo) : MethodInfo :=
  {| m_name := m_name m; m_line := m_line m; m_params := m_params m;
     m_returnType := m_returnType m; m_modifiers := m_modifiers m;
     m_decorators := m_decorators m; m_calls := m_calls m;
     m_calledBy := m_calledBy m; m_callChain := Some chains |}.

Definition withMethods (ms : list MethodInfo) (c : ClassInfo) : ClassInfo :=
  {| c_name := c_name c; c_line := c_line c; c_extends := c_extends c;
     c_implements := c_implements c; c_decorators := c_decorators c;
     c_methods := ms; c_properties := c_properties c |}.

Definition withClasses (cs : list ClassInfo) (f : FileInfo) : FileInfo :=
  {| path := path f; relativePath := relativePath f; imports := imports f;
     exports := exports f; classes := cs; functions := functions f;
     templateBindings := templateBindings f |}.

(** A pass that assigns to fields of the methods in place, as a rebuild of
    the files around the updated methods. *)
Definition updateMethods (f : ClassInfo -> MethodInfo -> MethodInfo)
    (fileInfos : list FileInfo) : list FileInfo :=
  map (fun file =>
    withClasses (map (fun cls => withMethods (map (f cls) (c_methods cls)) cls)
                     (classes file)) file) fileInfos.

Definition backfill (this : Scanner) (cls : ClassInfo) (method : MethodInfo) : MethodInfo :=
  match OMap.get (c_name cls +:+ "." +:+ m_name method) (reverseCallGraph this) with
  | Some callers => withCalledBy callers method
  | None => method
  end.

Definition buildCallGraph (this : Scanner) (fileInfos : list FileInfo) : list FileInfo :=
  updateMethods (backfill this) fileInfos.

(** [result[caller] = [...calls]] for every entry of the map, on a plain
    object *)
Definition serializeCallGraph (this : Scanner) : list (string * list string) :=
  fold_left (fun result e => Obj.assign (fst e) (snd e) result)
    (OMap.entries (callGraph this)) [].

(** ** Dead code ([detectDeadCode]) *)

Definition lifecycleHooks : list string :=
  ["ngOnInit"; "ngOnDestroy"; "ngOnChanges"; "ngDoCheck";
   "ngAfterContentInit"; "ngAfterContentChecked";
   "ngAfterViewInit"; "ngAfterViewChecked";
   "constructor"; "canActivate"; "canDeactivate"; "resolve"].

Definition deadMethod (file : FileInfo) (cls : ClassInfo) (method : MethodInfo)
    : list DeadCodeItem :=
  if (length (m_calledBy method) =? 0)%nat then
    if OSet.has (m_name method) lifecycleHooks then []
    else if Js.startsWith "_" (m_name method) && OSet.has "private" (m_modifiers method)
    then []
    else [ {| d_type := dead_method;
              d_name := m_name method;
              d_fullName := c_name cls +:+ "." +:+ m_name method;
              d_file := relativePath file;
              d_line := m_line method;
              d_reason := "No callers found" |} ]
  else [].

Definition deadFunction (this : Scanner) (file : FileInfo) (fn : FunctionInfo)
    : list DeadCodeItem :=
  let unused :=
    match OMap.get (f_name fn) (reverseCallGraph this) with
    | None => true
    | Some callers => (OSet.size callers =? 0)%nat
    end in
  if unused then
    if f_exported fn then []
    else [ {| d_type := dead_function;
              d_name := f_name fn;
              d_fullName := f_name fn;
              d_file := relativePath file;
              d_line := f_line fn;
              d_reason := "No callers found and not exported" |} ]
  else [].

Definition deadInFile (this : Scanner) (file : FileInfo) : list DeadCodeItem :=
  flat_map (fun cls => flat_map (deadMethod file cls) (c_methods cls)) (classes file)
  ++ flat_map (deadFunction this file) (functions file).

Definition detectDeadCode (this : Scanner) (fileInfos : list FileInfo)
    : list DeadCodeItem :=
  flat_map (deadInFile this) fileInfos.

(** ** Inheritance ([analyzeInheritance]) *)

Definition addAll (xs : list string) (s : OSet.t) : OSet.t :=
  fold_left (fun s x => OSet.add x s) xs s.

(** [getAllAncestorMethods]; every call that recurses has put one more
    superclass name into [visited], so the walk is bounded by the number of
    cache entries, which is what [fuel] starts from. *)
Fixpoint getAllAncestorMethods (fuel : nat)
    (classMethodsCache : OMap.t OSet.t) (classExtendsCache : OMap.t (option string))
    (className : string) (visited : OSet.t) : OSet.t :=
  match fuel with
  | O => []
  | S fuel' =>
      match OMap.get className classExtendsCache with
      | Some (Some parentName) =>
          if negb (Js.truthy parentName) || OSet.has parentName visited then []
          else
            let visited := OSet.add parentName visited in
            let allMethods :=
              addAll (default [] (OMap.get parentName classMethodsCache)) [] in
            addAll (getAllAncestorMethods fuel' classMethodsCache classExtendsCache
                      parentName visited) allMethods
      | _ => []
      end
  end.

Definition inheritanceOf (classMethodsCache : OMap.t OSet.t)
    (classExtendsCache : OMap.t (option string)) (cls : ClassInfo)
    : list InheritanceInfo :=
  match c_extends cls with
  | Some ext =>
      if negb (Js.truthy ext) then [] else
      let allAncestorMethods :=
        getAllAncestorMethods (S (length classExtendsCache))
          classMethodsCache classExtendsCache (c_name cls) [] in
      if (0 <? OSet.size allAncestorMethods)%nat then
        let childMethods := OSet.ofList (map m_name (c_methods cls)) in
        [ {| h_className := c_name cls;
             h_extends := ext;
             h_inheritedMethods :=
               filter (fun m => negb (OSet.has m childMethods)) allAncestorMethods;
             h_overriddenMethods :=
               filter (fun m => OSet.has m childMethods) allAncestorMethods |} ]
      else []
  | None => []
  end.

Definition analyzeInheritance (fileInfos : list FileInfo) : list InheritanceInfo :=
  let clss := flat_map classes fileInfos in
  let classMethodsCache :=
    fold_left (fun c cls =>
      OMap.set (c_name cls) (OSet.ofList (map m_name (c_methods cls))) c) clss [] in
  let classExtendsCache :=
    fold_left (fun c cls => OMap.set (c_name cls) (c_extends cls) c) clss [] in
  flat_map (inheritanceOf classMethodsCache classExtendsCache) clss.

(** ** Circular dependencies ([detectCircularDependencies]) *)

(** [s.replace(pat, rep)] with a string pattern: the first occurrence *)
Fixpoint replaceFirst (pat rep : string) (s : string) : string :=
  if Js.startsWith pat s
  then rep +:+ String.substring (String.length pat) (String.length s) s
  else match s with
       | String a s' => String a (replaceFirst pat rep s')
       | EmptyString => EmptyString
       end.

(** [p.replace(/\\/g, '/')] *)
Fixpoint slashes (s : string) : string :=
  match s with
  | String a s' => String (if Ascii.eqb a "\" then "/"%char else a) (slashes s')
  | EmptyString => EmptyString
  end.

Definition walkImport (fromDir : string) (parts : list string) : string :=
  fold_left (fun currentPath part =>
    if String.eqb part "." then currentPath
    else if String.eqb part ".." then Js.uptoLast "/" currentPath
    else if Js.truthy currentPath then currentPath +:+ "/" +:+ part else part)
    parts fromDir.

Definition importExtensions : list string :=
  [".ts"; ".tsx"; ".js"; ".jsx"; "/index.ts"; "/index.js"].

(** [projectPaths] are the paths of the project's source files, which is
    all [resolveImportPath] asks of [this.project]. *)
Definition resolveImportPath (projectPaths : list string)
    (fromFile importPath : string) : option string :=
  let fromDir := Js.uptoLast "/" fromFile in
  let currentPath := walkImport fromDir (Js.split "/" importPath) in
  let probe :=
    find (fun ext =>
      let fullPath := currentPath +:+ ext in
      existsb (fun p => Js.endsWith fullPath (slashes p)) projectPaths)
      importExtensions in
  match probe with
  | Some ext =>
      Some (currentPath +:+
            (if Js.startsWith "/" ext then ext
             else replaceFirst ".js" ".ts" (replaceFirst ".ts" ".ts" ext)))
  | None =>
      if Js.endsWith ".ts" currentPath || Js.endsWith ".js" currentPath
      then Some currentPath else None
  end.

Definition fileDeps (projectPaths : list string) (file : FileInfo) : OSet.t :=
  fold_left (fun deps imp =>
    if Js.startsWith "." (i_module imp) then
      match resolveImportPath projectPaths (relativePath file) (i_module imp) with
      | Some resolved => if Js.truthy resolved then OSet.add resolved deps else deps
      | None => deps
      end
    else deps) (imports file) [].

Definition buildImportGraph (projectPaths : list string) (fileInfos : list FileInfo)
    : OMap.t OSet.t :=
  fold_left (fun g file => OMap.set (relativePath file) (fileDeps projectPaths file) g)
    fileInfos [].

(** [xs.sort()] on strings: ascending by code units *)
Fixpoint insertString (x : string) (l : list string) : list string :=
  match l with
  | [] => [x]
  | y :: l' => if String.leb x y then x :: l else y :: insertString x l'
  end.

Definition sortStrings (l : list string) : list string :=
  fold_right insertString [] l.

Definition cycleKey (cycle : list string) : string :=
  Js.join "->" (sortStrings cycle).

(** [path.indexOf(dep)], [None] standing for [-1] *)
Fixpoint indexOf (x : string) (l : list string) : option nat :=
  match l with
  | [] => None
  | y :: l' => if String.eqb y x then Some 0 else option_map S (indexOf x l')
  end.

Record DfsState := {
  visited : gset string;
  recursionStack : gset string;
  cycles : list CircularDependency
}.

(** the [else if (recursionStack.has(dep))] branch *)
Definition recordCycle (path : list string) (dep : string) (st : DfsState) : DfsState :=
  let found :=
    match indexOf dep path with
    | Some cycleStart => skipn cycleStart path
    | None => path ++ [dep]
    end ++ [dep] in
  let key := cycleKey found in
  if existsb (fun c => String.eqb (cycleKey (cycle c)) key) (cycles st)
  then st
  else {| visited := visited st;
          recursionStack := recursionStack st;
          cycles := cycles st ++
            [ {| cycle := found;
                 description := "Circular: " +:+ Js.join " -> " found |} ] |}.

Definition enter (node : string) (st : DfsState) : DfsState :=
  {| visited := {[node]} ∪ visited st;
     recursionStack := {[node]} ∪ recursionStack st;
     cycles := cycles st |}.

Definition leave (node : string) (st : DfsState) : DfsState :=
  {| visited := visited st;
     recursionStack := recursionStack st ∖ {[node]};
     cycles := cycles st |}.

(** The loop over [deps] with the recursive call abstracted: [None] is a
    walk cut short by [fuel]. *)
Fixpoint visitDeps (rec : string -> list string -> DfsState -> option DfsState)
    (path : list string) (deps : list string) (st : DfsState) : option DfsState :=
  match deps with
  | [] => Some st
  | dep :: rest =>
      let next :=
        if negb (bool_decide (dep ∈ visited st)) then rec dep (path ++ [dep]) st
        else if bool_decide (dep ∈ recursionStack st) then Some (recordCycle path dep st)
        else Some st in
      match next with
      | Some st' => visitDeps rec path rest st'
      | None => None
      end
  end.

Fixpoint dfs (fuel : nat) (importGraph : OMap.t OSet.t)
    (node : string) (path : list string) (st : DfsState) : option DfsState :=
  match fuel with
  | O => None
  | S fuel' =>
      let st := enter node st in
      let walked :=
        match OMap.get node importGraph with
        | Some deps => visitDeps (dfs fuel' importGraph) path deps st
        | None => Some st
        end in
      option_map (leave node) walked
  end.

(** [for (const file of importGraph.keys()) if (!visited.has(file)) dfs(file, [file])] *)
Fixpoint dfsAll (fuel : nat) (importGraph : OMap.t OSet.t)
    (files : list string) (st : DfsState) : option DfsState :=
  match files with
  | [] => Some st
  | file :: rest =>
      let next :=
        if negb (bool_decide (file ∈ visited st)) then dfs fuel importGraph file [file] st
        else Some st in
      match next with
      | Some st' => dfsAll fuel importGraph rest st'
      | None => None
      end
  end.

(** every node the walk can reach: the files and what they import *)
Definition graphNodes (importGraph : OMap.t OSet.t) : list string :=
  OMap.keys importGraph ++ concat (map snd importGraph).

Definition findCycles (importGraph : OMap.t OSet.t) : option DfsState :=
  dfsAll (S (length (graphNodes importGraph))) importGraph (OMap.keys importGraph)
    {| visited := ∅; recursionStack := ∅; cycles := [] |}.

Definition detectCircularDependencies (projectPaths : list string)
    (fileInfos : list FileInfo) : list CircularDependency :=
  match findCycles (buildImportGraph projectPaths fileInfos) with
  | Some st => cycles st
  | None => []
  end.

(** ** Summary ([generateSummary]) *)

(** [xs.sort((a, b) => count(b) - count(a))]: the sort is stable, so an
    element goes in front of the first one whose count does not exceed its
    own only when it came first. *)
Fixpoint insertDesc {A} (count : A -> nat) (x : A) (l : list A) : list A :=
  match l with
  | [] => [x]
  | y :: l' => if (count y <=? count x)%nat then x :: l else y :: insertDesc count x l'
  end.

Definition sortDesc {A} (count : A -> nat) (l : list A) : list A :=
  fold_right (insertDesc count) [] l.

(** [xs.slice(0, 10)] *)
Definition top10 {A} (l : list A) : list A := firstn 10 l.

Definition isServiceDecorator (d : string) : bool :=
  Js.includes "Injectable" d || Js.includes "Service" d.

(** the first pair of loops: a count per method, a zero per service class *)
Definition initialCounts (fileInfos : list FileInfo) : OMap.t nat * OMap.t nat :=
  fold_left (fun acc cls =>
    let methodCallCounts :=
      fold_left (fun mc method =>
        OMap.set (c_name cls +:+ "." +:+ m_name method) (length (m_calledBy method)) mc)
        (c_methods cls) (fst acc) in
    let serviceUsageCounts :=
      if existsb isServiceDecorator (c_decorators cls)
      then OMap.set (c_name cls) 0 (snd acc) else snd acc in
    (methodCallCounts, serviceUsageCounts))
    (flat_map classes fileInfos) ([], []).

(** the body of the innermost loop of the second pass *)
Definition countUse (this : Scanner) (cls : ClassInfo) (call : string)
    (serviceUsageCounts : OMap.t nat) : OMap.t nat :=
  match Regex.jsMatch Regex.rxServiceUse call with
  | Some gs =>
      let propName := Regex.nthGroup 0 gs in
      match injectionMap this !! c_name cls with
      | Some injections =>
          match getTruthy injections propName with
          | Some serviceName =>
              if OMap.has serviceName serviceUsageCounts
              then OMap.set serviceName
                     (default 0 (OMap.get serviceName serviceUsageCounts) + 1)
                     serviceUsageCounts
              else serviceUsageCounts
          | None => serviceUsageCounts
          end
      | None => serviceUsageCounts
      end
  | None => serviceUsageCounts
  end.

Definition countUses (this : Scanner) (fileInfos : list FileInfo)
    (serviceUsageCounts : OMap.t nat) : OMap.t nat :=
  fold_left (fun su cls =>
    fold_left (fun su method =>
      fold_left (fun su call => countUse this cls call su) (m_calls method) su)
      (c_methods cls) su)
    (flat_map classes fileInfos) serviceUsageCounts.

Definition ranked (counts : OMap.t nat) : list (string * nat) :=
  top10 (sortDesc snd (filter (fun e => (0 <? snd e)%nat) (OMap.entries counts))).

Definition classSizes (fileInfos : list FileInfo) : list LargeClass :=
  flat_map (fun f =>
    map (fun c => {| lc_name := c_name c;
                     lc_methodCount := length (c_methods c);
                     lc_file := relativePath f |}) (classes f)) fileInfos.

Definition importCounts (fileInfos : list FileInfo) : list ImportingFile :=
  map (fun f => {| if_file := relativePath f; if_importCount := length (imports f) |})
      fileInfos.

Definition generateSummary (this : Scanner) (fileInfos : list FileInfo) : SummaryStats :=
  let (methodCallCounts, serviceUsageCounts) := initialCounts fileInfos in
  let serviceUsageCounts := countUses this fileInfos serviceUsageCounts in
  {| mostCalledMethods :=
       map (fun e => {| cm_name := fst e; cm_callerCount := snd e |})
           (ranked methodCallCounts);
     mostUsedServices :=
       map (fun e => {| us_name := fst e; us_usageCount := snd e |})
           (ranked serviceUsageCounts);
     largestClasses := top10 (sortDesc lc_methodCount (classSizes fileInfos));
     filesByImports := top10 (sortDesc if_importCount (importCounts fileInfos)) |}.

(** ** Call chains ([buildCallChains]) *)

(** [getCallChain]; each recursive call receives its own copy of [visited],
    taken after [methodName] went in. *)
Fixpoint getCallChain (this : Scanner) (depth : nat) (methodName : string)
    (visited : gset string) : list (list string) :=
  match depth with
  | O => []
  | S depth' =>
      if bool_decide (methodName ∈ visited) then []
      else
        let visited := {[methodName]} ∪ visited in
        match OMap.get methodName (reverseCallGraph this) with
        | None => [[methodName]]
        | Some [] => [[methodName]]
        | Some callers =>
            flat_map (fun caller =>
              if Js.startsWith "template:" caller then [[caller; methodName]]
              else
                match getCallChain this depth' caller visited with
                | [] => [[caller; methodName]]
                | parentChains => map (fun chain => chain ++ [methodName]) parentChains
                end) callers
        end
  end.

Definition longChain (c : list string) : bool := (1 <? length c)%nat.

Definition traceMethod (this : Scanner) (maxDepth : nat)
    (cls : ClassInfo) (method : MethodInfo) : MethodInfo :=
  let fullName := c_name cls +:+ "." +:+ m_name method in
  if (0 <? length (m_calledBy method))%nat then
    let chains := getCallChain this maxDepth fullName ∅ in
    if (0 <? length chains)%nat && existsb longChain chains
    then withCallChain (firstn 5 (filter longChain chains)) method
    else method
  else method.

Definition buildCallChains (this : Scanner) (fileInfos : list FileInfo) (maxDepth : nat)
    : list FileInfo :=
  updateMethods (traceMethod this maxDepth) fileInfos.

(** ** Interface implementers ([analyzeInterfaceImplementations]) *)

Definition addImplementor (iface cls : string) (interfaceMap : OMap.t OSet.t)
    : OMap.t OSet.t :=
  let cleanName := trim (Regex.jsRemove Regex.rxGenericArgs iface) in
  addCaller cleanName cls interfaceMap.

Definition analyzeInterfaceImplementations (fileInfos : list FileInfo)
    : list InterfaceImplementation :=
  let interfaceMap :=
    fold_left (fun im cls =>
      fold_left (fun im iface => addImplementor iface (c_name cls) im)
        (c_implements cls) im)
      (flat_map classes fileInfos) [] in
  sortDesc (fun e => length (implementedBy e))
    (map (fun e => {| interfaceName := fst e; implementedBy := snd e |})
         (OMap.entries interfaceMap)).

(** ** The scan *)

(** What is left of the instance and of the file infos after a stage, the
    two things every later stage can see the effect of. *)
Record Model := { scanner : Scanner; files : list FileInfo }.

Record Analyses := {
  deadCode : list DeadCodeItem;
  inheritance : list InheritanceInfo;
  circularDependencies : list CircularDependency;
  summary : SummaryStats;
  interfaceImplementations : list InterfaceImplementation
}.

Record ScanOutput := {
  out_files : list FileInfo;
  out_callGraph : list (string * list string);
  out_analyses : Analyses
}.

(** [scan] up to and including [resolveCrossFileCalls] *)
Definition buildGraphs (framework : Framework) (sourceFiles : list SourceFile)
    : Scan (list FileInfo) :=
  collectClassInfo sourceFiles ;;;
  fileInfos <- mapS (scanSourceFile framework) sourceFiles ;;
  resolveCrossFileCalls fileInfos ;;;
  ret fileInfos.

(** the model after [buildCallGraph] has filled in [calledBy] *)
Definition builtModel (framework : Framework) (sourceFiles : list SourceFile) : Model :=
  let (fileInfos, this) := buildGraphs framework sourceFiles emptyScanner in
  {| scanner := this; files := buildCallGraph this fileInfos |}.

(** [scan] from [detectDeadCode] to [buildCallChains]: the five reports and
    the model the passes leave behind *)
Definition analyze (projectPaths : list string) (m : Model) : Analyses * Model :=
  let this := scanner m in
  let fileInfos := files m in
  let deadCode := detectDeadCode this fileInfos in
  let inheritance := analyzeInheritance fileInfos in
  let circularDependencies := detectCircularDependencies projectPaths fileInfos in
  let summary := generateSummary this fileInfos in
  let interfaceImplementations := analyzeInterfaceImplementations fileInfos in
  let fileInfos := buildCallChains this fileInfos 3 in
  ({| deadCode := deadCode; inheritance := inheritance;
      circularDependencies := circularDependencies; summary := summary;
      interfaceImplementations := interfaceImplementations |},
   {| scanner := this; files := fileInfos |}).

Definition scan (framework : Framework) (sourceFiles : list SourceFile) : ScanOutput :=
  let (analyses, m) :=
    analyze (map sf_path sourceFiles) (builtModel framework sourceFiles) in
  {| out_files := files m;
     out_callGraph := serializeCallGraph (scanner m);
     out_analyses := analyses |}.

(** * Vocabulary of the properties *)

(** ** Edges of the reverse call graph *)

(** [caller] is among the callers recorded under [key]. *)
Definition edge (g : OMap.t OSet.t) (key caller : string) : Prop :=
  exists callers, OMap.get key g = Some callers /\ In caller callers.

(** a batch of [addCaller]s, in order *)
Definition addEdges (es : list (string * string)) (g : OMap.t OSet.t) : OMap.t OSet.t :=
  fold_left (fun g e => addCaller (fst e) (snd e) g) es g.

(** A key is present exactly when it has a caller: the scanner never
    leaves an empty caller set behind. *)
Definition populated (g : OMap.t OSet.t) : Prop :=
  forall key callers, OMap.get key g = Some callers -> callers <> [].

(** ** Dead code *)

(** the item [detectDeadCode] pushes for a method *)
Definition methodItem (file : FileInfo) (cls : ClassInfo) (method : MethodInfo)
    : DeadCodeItem :=
  {| d_type := dead_method;
     d_name := m_name method;
     d_fullName := c_name cls +:+ "." +:+ m_name method;
     d_file := relativePath file;
     d_line := m_line method;
     d_reason := "No callers found" |}.

(** the item [detectDeadCode] pushes for a free function *)
Definition functionItem (file : FileInfo) (fn : FunctionInfo) : DeadCodeItem :=
  {| d_type := dead_function;
     d_name := f_name fn;
     d_fullName := f_name fn;
     d_file := relativePath file;
     d_line := f_line fn;
     d_reason := "No callers found and not exported" |}.

(** the three conditions under which a method is reported *)
Definition unreferenced (method : MethodInfo) : Prop :=
  m_calledBy method = []
  /\ ~ In (m_name method) lifecycleHooks
  /\ ~ (Js.startsWith "_" (m_name method) = true /\ In "private" (m_modifiers method)).

(** the item for a free function, by name, file and line *)
Definition deadFunctionItem (name file : string) (line : nat) : DeadCodeItem :=
  {| d_type := dead_function;
     d_name := name;
     d_fullName := name;
     d_file := file;
     d_line := line;
     d_reason := "No callers found and not exported" |}.

(** no method of a class has the raw call text [name] *)
Definition calledByNoMethod (fileInfos : list FileInfo) (name : string) : Prop :=
  forall file cls method,
    In file fileInfos -> In cls (classes file) -> In method (c_methods cls) ->
    ~ In name (m_calls method).

(** nothing is recorded under the function's name *)
Definition uncalled (this : Scanner) (fn : FunctionInfo) : Prop :=
  OMap.get (f_name fn) (reverseCallGraph this) = None
  \/ OMap.get (f_name fn) (reverseCallGraph this) = Some [].

Definition setExported (b : bool) (fn : FunctionInfo) : FunctionInfo :=
  {| f_name := f_name fn; f_line := f_line fn; f_params := f_params fn;
     f_returnType := f_returnType fn; f_calls := f_calls fn; f_exported := b |}.

(** ** Precedence of the resolution rules *)

Module Precedence.

(** [class A { svc = inject(Svc); run() { this.svc.table[inject(Foo).key]() } }]
    next to classes [Svc] and [Foo]: the method holds two call expressions,
    the indexed one and [inject(Foo)]. *)
Definition classA : ClassDecl :=
  {| cd_name := Some "A"; cd_line := 1; cd_extends := None; cd_implements := [];
     cd_decorators := [];
     cd_methods :=
       [ {| md_name := "run"; md_line := 3; md_params := []; md_returnType := "void";
            md_modifiers := []; md_decorators := [];
            md_callees := ["this.svc.table[inject(Foo).key]"; "inject"] |} ];
     cd_properties :=
       [ {| pd_name := "svc"; pd_line := 2; pd_type := "Svc"; pd_modifiers := [];
            pd_decorators := []; pd_initializer := Some "inject(Svc)" |} ];
     cd_constructors := []; cd_exported := true |}.

Definition emptyClass (name : string) : ClassDecl :=
  {| cd_name := Some name; cd_line := 10; cd_extends := None; cd_implements := [];
     cd_decorators := []; cd_methods := []; cd_properties := [];
     cd_constructors := []; cd_exported := true |}.

Definition project : list SourceFile :=
  [ {| sf_path := "/app/a.ts"; sf_relativePath := "a.ts"; sf_imports := [];
       sf_exportDecls := [];
       sf_classes := [classA; emptyClass "Svc"; emptyClass "Foo"];
       sf_functions := []; sf_variables := [] |} ].

Definition this : Scanner := scanner (builtModel generic project).

Definition injectionsOfA : gmap string string :=
  default ∅ (injectionMap this !! "A").

Definition call : string := "this.svc.table[inject(Foo).key]".

End Precedence.

(** ** Frame of the analysis passes *)

Definition clearCallChain (m : MethodInfo) : MethodInfo :=
  {| m_name := m_name m; m_line := m_line m; m_params := m_params m;
     m_returnType := m_returnType m; m_modifiers := m_modifiers m;
     m_decorators := m_decorators m; m_calls := m_calls m;
     m_calledBy := m_calledBy m; m_callChain := None |}.

(** the file infos with every [callChain] taken out *)
Definition withoutCallChains (fileInfos : list FileInfo) : list FileInfo :=
  updateMethods (fun _ => clearCallChain) fileInfos.

Definition clearClass (cls : ClassInfo) : ClassInfo :=
  withMethods (map clearCallChain (c_methods cls)) cls.

Definition clearFile (file : FileInfo) : FileInfo :=
  withClasses (map clearClass (classes file)) file.

(** the five reports of the analysis phase, computed on [fileInfos] *)
Definition reportsOn (projectPaths : list string) (this : Scanner)
    (fileInfos : list FileInfo) : Analyses :=
  {| deadCode := detectDeadCode this fileInfos;
     inheritance := analyzeInheritance fileInfos;
     circularDependencies := detectCircularDependencies projectPaths fileInfos;
     summary := generateSummary this fileInfos;
     interfaceImplementations := analyzeInterfaceImplementations fileInfos |}.

Module Frame.

(** A class [B] whose method [go] is called from [A.run] through an
    injected property. *)
Definition classA : ClassDecl :=
  {| cd_name := Some "A"; cd_line := 1; cd_extends := None; cd_implements := [];
     cd_decorators := [];
     cd_methods :=
       [ {| md_name := "run"; md_line := 3; md_params := []; md_returnType := "void";
            md_modifiers := []; md_decorators := [];
            md_callees := ["this.b.go"] |} ];
     cd_properties :=
       [ {| pd_name := "b"; pd_line := 2; pd_type := "B"; pd_modifiers := [];
            pd_decorators := []; pd_initializer := Some "inject(B)" |} ];
     cd_constructors := []; cd_exported := true |}.

Definition classB : ClassDecl :=
  {| cd_name := Some "B"; cd_line := 7; cd_extends := None; cd_implements := [];
     cd_decorators := [];
     cd_methods :=
       [ {| md_name := "go"; md_line := 8; md_params := []; md_returnType := "void";
            md_modifiers := []; md_decorators := []; md_callees := [] |} ];
     cd_properties := []; cd_constructors := []; cd_exported := true |}.

Definition project : list SourceFile :=
  [ {| sf_path := "/app/a.ts"; sf_relativePath := "a.ts"; sf_imports := [];
       sf_exportDecls := []; sf_classes := [classA; classB];
       sf_functions := []; sf_variables := [] |} ].

Definition model : Model := builtModel generic project.

Definition callChainsOf (m : Model) : list (string * option (list (list string))) :=
  flat_map (fun f =>
    flat_map (fun c =>
      map (fun me => (c_name c +:+ "." +:+ m_name me, m_callChain me)) (c_methods c))
      (classes f)) (files m).

End Frame.

(** ** Rankings *)

(** counts never increase along the list *)
Definition descending {A} (count : A -> nat) (l : list A) : Prop :=
  StronglySorted (fun a b => count b <= count a) l.

(** entries with the same count come in the order they have in [input] *)
Definition tiesKeepOrder {A} (count : A -> nat) (input sorted : list A) : Prop :=
  forall n, filter (fun a => count a =? n)%nat sorted
          = filter (fun a => count a =? n)%nat input.

(** [result] is the first ten of [input] put in descending order of
    [count] by a stable sort *)
Definition ranking {A} (count : A -> nat) (input result : list A) : Prop :=
  length result <= 10
  /\ descending count result
  /\ exists sorted,
       result = firstn 10 sorted
       /\ Permutation input sorted
       /\ descending count sorted
       /\ tiesKeepOrder count input sorted.

Definition positive {A} (count : A -> nat) (l : list A) : list A :=
  filter (fun a => 0 <? count a)%nat l.

(** the entries of [methodCallCounts] when the rankings are taken *)
Definition methodCounts (fileInfos : list FileInfo) : list CalledMethod :=
  map (fun e => {| cm_name := fst e; cm_callerCount := snd e |})
      (OMap.entries (fst (initialCounts fileInfos))).

(** the entries of [serviceUsageCounts] when the rankings are taken *)
Definition serviceCounts (this : Scanner) (fileInfos : list FileInfo) : list UsedService :=
  map (fun e => {| us_name := fst e; us_usageCount := snd e |})
      (OMap.entries (countUses this fileInfos (snd (initialCounts fileInfos)))).

Module Rankings.

(** one file without imports, holding one class without methods *)
Definition fileInfos : list FileInfo :=
  [ {| path := "/app/e.ts"; relativePath := "e.ts"; imports := []; exports := [];
       classes :=
         [ {| c_name := "E"; c_line := 1; c_extends := None; c_implements := [];
              c_decorators := []; c_methods := []; c_properties := [] |} ];
       functions := []; templateBindings := None |} ].

End Rankings.

(** ** What the scan of a file produces and records *)

Definition methodInfoOf (method : MethodDecl) : MethodInfo :=
  {| m_name := md_name method;
     m_line := md_line method;
     m_params := map scanParam (md_params method);
     m_returnType := cleanType (md_returnType method);
     m_modifiers := md_modifiers method;
     m_decorators := map decoratorText (md_decorators method);
     m_calls := extractCalls (md_callees method);
     m_calledBy := [];
     m_callChain := None |}.

Definition className (cls : ClassDecl) : string := Js.orElse (cd_name cls) "anonymous".

Definition classInfoOf (cls : ClassDecl) : ClassInfo :=
  {| c_name := className cls;
     c_line := cd_line cls;
     c_extends := cd_extends cls;
     c_implements := cd_implements cls;
     c_decorators := map (fun d => decoratorText (dd_name d)) (cd_decorators cls);
     c_methods := map methodInfoOf (cd_methods cls);
     c_properties := map scanProperty (cd_properties cls) |}.

Definition functionInfoOf (fn : FunctionDecl) : FunctionInfo :=
  {| f_name := Js.orElse (fd_name fn) "anonymous";
     f_line := fd_line fn;
     f_params := map scanParam (fd_params fn);
     f_returnType := cleanType (fd_returnType fn);
     f_calls := extractCalls (fd_callees fn);
     f_exported := fd_exported fn |}.

Definition variableInfosOf (varDecl : VariableDecl) : list FunctionInfo :=
  match vd_initializer varDecl with
  | None => []
  | Some initializer =>
      match in_kind initializer with
      | OtherExpression => []
      | _ => [ {| f_name := vd_name varDecl;
                  f_line := vd_line varDecl;
                  f_params := map scanParam (in_params initializer);
                  f_returnType := cleanType (in_returnType initializer);
                  f_calls := extractCalls (in_callees initializer);
                  f_exported := vd_exported varDecl |} ]
      end
  end.

Definition plainFileInfoOf (sourceFile : SourceFile) : FileInfo :=
  {| path := sf_path sourceFile;
     relativePath := sf_relativePath sourceFile;
     imports := getImports sourceFile;
     exports := getExports sourceFile;
     classes := map classInfoOf (sf_classes sourceFile);
     functions := map functionInfoOf (sf_functions sourceFile)
                  ++ concat (map variableInfosOf (sf_variables sourceFile));
     templateBindings := None |}.

(** the [FileInfo] the loop of [scan] pushes for a source file *)
Definition fileInfoOf (framework : Framework) (sourceFile : SourceFile) : FileInfo :=
  match framework with
  | angular =>
      match scanAngularTemplate sourceFile with
      | [] => plainFileInfoOf sourceFile
      | bindings => withTemplateBindings bindings (plainFileInfoOf sourceFile)
      end
  | _ => plainFileInfoOf sourceFile
  end.

(** the pairs [scanMethod] records for one method: every raw call text,
    with the method as its caller *)
Definition rawEdgesOfMethod (cls : string) (method : MethodInfo) : list (string * string) :=
  map (fun call => (call, cls +:+ "." +:+ m_name method)) (m_calls method).

Definition rawEdges (file : FileInfo) : list (string * string) :=
  flat_map (fun cls => flat_map (rawEdgesOfMethod (c_name cls)) (c_methods cls))
    (classes file).

(** the pairs [addTemplateBindingsToCallGraph] records *)
Definition templateEdgesOf (cls relPath : string) (bindings : list TemplateBinding)
    : list (string * string) :=
  flat_map (fun binding =>
    match Regex.jsMatch Regex.rxMethodCall (tb_expression binding) with
    | Some gs => [(cls +:+ "." +:+ Regex.nthGroup 0 gs, "template:" +:+ relPath)]
    | None => []
    end) bindings.

Definition templateEdges (file : FileInfo) : list (string * string) :=
  match templateBindings file, classes file with
  | Some bindings, cls0 :: _ =>
      if Js.truthy (c_name cls0)
      then templateEdgesOf (c_name cls0) (relativePath file) bindings
      else []
  | _, _ => []
  end.

Definition resolvedPair (resolvedCall : option string) (caller : string)
    : list (string * string) :=
  match resolvedCall with
  | Some callee => if Js.truthy callee then [(callee, caller)] else []
  | None => []
  end.

(** the pairs [resolveCrossFileCalls] records for a file *)
Definition resolvedEdgesOfClass (this : Scanner) (cls : ClassInfo) : list (string * string) :=
  let injections := default ∅ (injectionMap this !! c_name cls) in
  flat_map (fun method =>
    flat_map (fun call =>
      resolvedPair (resolveMethodCall this injections call)
        (c_name cls +:+ "." +:+ m_name method)) (m_calls method))
    (c_methods cls).

Definition resolvedEdgesOfFunction (this : Scanner) (fn : FunctionInfo)
    : list (string * string) :=
  let localInjections := default ∅ (localInjectionMap this !! f_name fn) in
  flat_map (fun call =>
    resolvedPair (resolveFunctionCall this localInjections call)
      ("function:" +:+ f_name fn)) (f_calls fn).

Definition resolvedEdges (this : Scanner) (file : FileInfo) : list (string * string) :=
  flat_map (resolvedEdgesOfClass this) (classes file)
  ++ flat_map (resolvedEdgesOfFunction this) (functions file).

(** ** The three kinds of reverse edges, on the model *)

(** [key] is a raw call text of a class method and [caller] that method *)
Definition rawEdge (fileInfos : list FileInfo) (key caller : string) : Prop :=
  exists file cls method,
    In file fileInfos /\ In cls (classes file) /\ In method (c_methods cls)
    /\ In key (m_calls method)
    /\ caller = c_name cls +:+ "." +:+ m_name method.

(** [key] is what a binding expression of [file]'s templates resolves to
    and [caller] the template *)
Definition templateEdge (fileInfos : list FileInfo) (key caller : string) : Prop :=
  exists file bindings cls0 others binding gs,
    In file fileInfos /\ templateBindings file = Some bindings
    /\ classes file = cls0 :: others /\ In binding bindings
    /\ Regex.jsMatch Regex.rxMethodCall (tb_expression binding) = Some gs
    /\ key = c_name cls0 +:+ "." +:+ Regex.nthGroup 0 gs
    /\ caller = "template:" +:+ relativePath file.

(** [key] is the callee a call text of a method resolves to *)
Definition resolvedMethodEdge (this : Scanner) (fileInfos : list FileInfo)
    (key caller : string) : Prop :=
  exists file cls method call,
    In file fileInfos /\ In cls (classes file) /\ In method (c_methods cls)
    /\ In call (m_calls method)
    /\ resolveMethodCall this (default ∅ (injectionMap this !! c_name cls)) call = Some key
    /\ caller = c_name cls +:+ "." +:+ m_name method.

(** [key] is the callee a call text of a free function resolves to *)
Definition resolvedFunctionEdge (this : Scanner) (fileInfos : list FileInfo)
    (key caller : string) : Prop :=
  exists file fn call,
    In file fileInfos /\ In fn (functions file) /\ In call (f_calls fn)
    /\ resolveFunctionCall this (default ∅ (localInjectionMap this !! f_name fn)) call
       = Some key
    /\ caller = "function:" +:+ f_name fn.

Definition resolvedEdge (this : Scanner) (fileInfos : list FileInfo)
    (key caller : string) : Prop :=
  resolvedMethodEdge this fileInfos key caller
  \/ resolvedFunctionEdge this fileInfos key caller.

(** ** The forward graph *)

(** every caller identity with its call texts, in the order of the scan *)
Definition callerEntries (fileInfos : list FileInfo) : list (string * list string) :=
  flat_map (fun file =>
    flat_map (fun cls =>
      map (fun m => (c_name cls +:+ "." +:+ m_name m, m_calls m)) (c_methods cls))
      (classes file)
    ++ map (fun fn => (f_name fn, f_calls fn)) (functions file)) fileInfos.

(** the call texts of the last entry under [key] *)
Definition lastEntry (key : string) (entries : list (string * list string))
    : option (list string) :=
  fold_left (fun found e => if String.eqb (fst e) key then Some (snd e) else found)
    entries None.

(** the four maps resolution reads *)
Definition sameBindings (s s' : Scanner) : Prop :=
  classMethodsMap s' = classMethodsMap s
  /\ injectionMap s' = injectionMap s
  /\ nestedInjectionMap s' = nestedInjectionMap s
  /\ localInjectionMap s' = localInjectionMap s.

(** ** Effects of the extraction on the instance

    Extraction writes three fields and reads none. *)

Record Effect := {
  onCallGraph : OMap.t OSet.t -> OMap.t OSet.t;
  onReverse : OMap.t OSet.t -> OMap.t OSet.t;
  onLocals : gmap string (gmap string string) -> gmap string (gmap string string)
}.

Definition applyEffect (e : Effect) (s : Scanner) : Scanner :=
  {| callGraph := onCallGraph e (callGraph s);
     reverseCallGraph := onReverse e (reverseCallGraph s);
     classMethodsMap := classMethodsMap s;
     injectionMap := injectionMap s;
     nestedInjectionMap := nestedInjectionMap s;
     localInjectionMap := onLocals e (localInjectionMap s) |}.

Definition noEffect : Effect :=
  {| onCallGraph := fun g => g; onReverse := fun g => g; onLocals := fun l => l |}.

Definition thenEffect (e1 e2 : Effect) : Effect :=
  {| onCallGraph := fun g => onCallGraph e2 (onCallGraph e1 g);
     onReverse := fun g => onReverse e2 (onReverse e1 g);
     onLocals := fun l => onLocals e2 (onLocals e1 l) |}.

Definition effects {A} (eff : A -> Effect) (xs : list A) : Effect :=
  fold_right (fun x e => thenEffect (eff x) e) noEffect xs.

Definition registerEffect (fnName : string) (calls : list string)
    (locals : list LocalVarDecl) : Effect :=
  {| onCallGraph := OMap.set fnName (OSet.ofList calls);
     onReverse := fun g => g;
     onLocals := fun l =>
       if bool_decide (extractLocalInjections locals = ∅) then l
       else <[fnName := extractLocalInjections locals]> l |}.

Definition methodEffect (cls : string) (method : MethodDecl) : Effect :=
  {| onCallGraph :=
       OMap.set (cls +:+ "." +:+ md_name method)
                (OSet.ofList (extractCalls (md_callees method)));
     onReverse := addEdges (rawEdgesOfMethod cls (methodInfoOf method));
     onLocals := fun l => l |}.

Definition classEffect (cls : ClassDecl) : Effect :=
  effects (methodEffect (className cls)) (cd_methods cls).

Definition functionEffect (fn : FunctionDecl) : Effect :=
  registerEffect (Js.orElse (fd_name fn) "anonymous")
    (extractCalls (fd_callees fn)) (fd_locals fn).

Definition variableEffect (varDecl : VariableDecl) : Effect :=
  match vd_initializer varDecl with
  | None => noEffect
  | Some initializer =>
      match in_kind initializer with
      | OtherExpression => noEffect
      | _ => registerEffect (vd_name varDecl)
               (extractCalls (in_callees initializer)) (in_locals initializer)
      end
  end.

Definition templateEffect (file : FileInfo) : Effect :=
  {| onCallGraph := fun g => g;
     onReverse := addEdges (templateEdges file);
     onLocals := fun l => l |}.

Definition fileEffect (framework : Framework) (sourceFile : SourceFile) : Effect :=
  thenEffect (effects classEffect (sf_classes sourceFile))
    (thenEffect (effects functionEffect (sf_functions sourceFile))
       (thenEffect (effects variableEffect (sf_variables sourceFile))
          (templateEffect (fileInfoOf framework sourceFile)))).

(** the state [collectClasses] keeps between classes: the local map is the
    injection map, and every recorded class name is a non-empty string *)
Definition collected (cpm : gmap string (gmap string string)) (s : Scanner) : Prop :=
  cpm = injectionMap s
  /\ (forall k, is_Some (injectionMap s !! k) -> Js.truthy k = true)
  /\ (forall k, is_Some (classMethodsMap s !! k) -> Js.truthy k = true).

(** a batch of [set]s on the forward graph, in order *)
Definition setAll (es : list (string * list string)) (g : OMap.t OSet.t) : OMap.t OSet.t :=
  fold_left (fun g e => OMap.set (fst e) (snd e) g) es g.

Definition fileEntries (file : FileInfo) : list (string * list string) :=
  flat_map (fun cls =>
    map (fun m => (c_name cls +:+ "." +:+ m_name m, m_calls m)) (c_methods cls))
    (classes file)
  ++ map (fun fn => (f_name fn, f_calls fn)) (functions file).

(** ** A class calling a free function *)

Module RawEdge.

(** [class A { run() { helper() } }] *)
Definition project : list SourceFile :=
  [ {| sf_path := "/app/a.ts"; sf_relativePath := "a.ts"; sf_imports := [];
       sf_exportDecls := [];
       sf_classes :=
         [ {| cd_name := Some "A"; cd_line := 1; cd_extends := None;
              cd_implements := []; cd_decorators := [];
              cd_methods :=
                [ {| md_name := "run"; md_line := 2; md_params := [];
                     md_returnType := "void"; md_modifiers := [];
                     md_decorators := []; md_callees := ["helper"] |} ];
              cd_properties := []; cd_constructors := []; cd_exported := true |} ];
       sf_functions := []; sf_variables := [] |} ].

Definition fileInfos : list FileInfo := fst (buildGraphs generic project emptyScanner).
Definition this : Scanner := snd (buildGraphs generic project emptyScanner).

End RawEdge.

(** ** Identifiers *)

(** every character of [s] is in the class *)
Fixpoint every (c : Regex.cclass) (s : string) : bool :=
  match s with
  | EmptyString => true
  | String a s' => c a && every c s'
  end.

(** a non-empty run of [\w] characters *)
Definition identifier (s : string) : Prop :=
  s <> EmptyString /\ every Regex.word s = true.

(** [s] is empty or starts outside the class: a greedy run of the class
    ends in front of it *)
Definition stops (c : Regex.cclass) (s : string) : bool :=
  match s with
  | EmptyString => true
  | String a _ => negb (c a)
  end.

(** the character [a] does not occur in [s] *)
Definition lacks (a : ascii) (s : string) : bool := every (Regex.but a) s.

(** ** A component declared after another class *)

Module TemplateOwner.

(** [class Helper {}] followed by
    [@Component({ template: `<button (click)="save()">` }) class Comp { save() {} }] *)
Definition helper : ClassDecl :=
  {| cd_name := Some "Helper"; cd_line := 1; cd_extends := None;
     cd_implements := []; cd_decorators := []; cd_methods := [];
     cd_properties := []; cd_constructors := []; cd_exported := false |}.

Definition click : TemplateBinding := {| tb_type := event; tb_expression := "save()" |}.

Definition comp : ClassDecl :=
  {| cd_name := Some "Comp"; cd_line := 3; cd_extends := None;
     cd_implements := [];
     cd_decorators := [ {| dd_name := "Component"; dd_bindings := [click] |} ];
     cd_methods :=
       [ {| md_name := "save"; md_line := 5; md_params := [];
            md_returnType := "void"; md_modifiers := [];
            md_decorators := []; md_callees := [] |} ];
     cd_properties := []; cd_constructors := []; cd_exported := true |}.

Definition source : SourceFile :=
  {| sf_path := "/app/comp.ts"; sf_relativePath := "comp.ts"; sf_imports := [];
     sf_exportDecls := []; sf_classes := [helper; comp];
     sf_functions := []; sf_variables := [] |}.

Definition project : list SourceFile := [source].

Definition fileInfos : list FileInfo := fst (buildGraphs angular project emptyScanner).
Definition this : Scanner := snd (buildGraphs angular project emptyScanner).

End TemplateOwner.

(** ** Free functions calling each other *)

Module FreeFunctions.

(** [function foo() { bar(); qux() }  function bar() {}
     const qux = () => {}], none exported *)
Definition declared (name : string) (line : nat) (callees : list string) : FunctionDecl :=
  {| fd_name := Some name; fd_line := line; fd_params := []; fd_returnType := "void";
     fd_callees := callees; fd_locals := []; fd_exported := false |}.

Definition arrow : Initializer :=
  {| in_kind := ArrowFunction; in_params := []; in_returnType := "void";
     in_callees := []; in_locals := [] |}.

Definition qux : VariableDecl :=
  {| vd_name := "qux"; vd_line := 3; vd_initializer := Some arrow;
     vd_exported := false |}.

Definition source : SourceFile :=
  {| sf_path := "/app/util.ts"; sf_relativePath := "util.ts"; sf_imports := [];
     sf_exportDecls := []; sf_classes := [];
     sf_functions := [declared "foo" 1 ["bar"; "qux"]; declared "bar" 2 []];
     sf_variables := [qux] |}.

Definition project : list SourceFile := [source].

Definition fileInfos : list FileInfo := fst (buildGraphs generic project emptyScanner).
Definition this : Scanner := snd (buildGraphs generic project emptyScanner).

End FreeFunctions.

(** ** Cycles *)

(** the two lists hold the same nodes *)
Definition sameNodes (c1 c2 : list string) : Prop := forall n, In n c1 <-> In n c2.

(** no two entries of the report hold the same nodes *)
Definition distinctCycles (cs : list CircularDependency) : Prop :=
  forall i j ci cj,
    nth_error cs i = Some ci -> nth_error cs j = Some cj ->
    sameNodes (cycle ci) (cycle cj) -> i = j.

(** a simple path followed by its first node again *)
Definition closedWalk (c : list string) : Prop :=
  exists seg, seg <> [] /\ NoDup seg /\ c = seg ++ [hd EmptyString seg].

(** [c2] walks the cycle of [c1] from another of its nodes *)
Definition rotation (c1 c2 : list string) : Prop :=
  exists front back, removelast c1 = front ++ back /\ removelast c2 = back ++ front.

(** the nodes a walk over [importGraph] can meet *)
Definition universe (importGraph : OMap.t OSet.t) : gset string :=
  list_to_set (graphNodes importGraph).

(** What the walk keeps true of a recorded cycle while [path] is the
    recursion path: it is a closed walk over a segment [seg] of visited
    nodes, and if the last node of [seg] is still on the path then [seg]
    lies on the path. *)
Definition entryOk (path : list string) (seen : gset string) (c : list string) : Prop :=
  exists seg,
    seg <> [] /\ NoDup seg /\ c = seg ++ [hd EmptyString seg]
    /\ (forall n, In n seg -> n ∈ seen)
    /\ (In (last seg EmptyString) path -> exists pre post, path = pre ++ seg ++ post).

(** the invariant of the walk over [importGraph] *)
Definition walking (importGraph : OMap.t OSet.t) (path : list string) (st : DfsState)
    : Prop :=
  NoDup path
  /\ (forall n, n ∈ recursionStack st <-> In n path)
  /\ (forall n, In n path -> n ∈ visited st)
  /\ visited st ⊆ universe importGraph
  /\ Forall (fun c => entryOk path (visited st) (cycle c)) (cycles st)
  /\ distinctCycles (cycles st).

Definition cycleEntry (nodes : list string) : CircularDependency :=
  {| cycle := nodes; description := "Circular: " +:+ Js.join " -> " nodes |}.

Module TwoCycles.

(** [a.ts] imports [./c] and [./b]; [c.ts] imports [./b]; [b.ts] imports
    [./a] and [./d]; [d.ts] imports [./a].  So [a.ts] and [b.ts] import each
    other. *)
Definition file (name : string) (modules : list string) : FileInfo :=
  {| path := "/app/" +:+ name; relativePath := name;
     imports := map (fun m => {| i_module := m; i_named := [] |}) modules;
     exports := []; classes := []; functions := []; templateBindings := None |}.

Definition fileInfos : list FileInfo :=
  [ file "a.ts" ["./c"; "./b"]; file "b.ts" ["./a"; "./d"];
    file "c.ts" ["./b"]; file "d.ts" ["./a"] ].

Definition projectPaths : list string := map path fileInfos.

(** the two files alone *)
Definition pair : list FileInfo := [ file "a.ts" ["./b"]; file "b.ts" ["./a"] ].

End TwoCycles.

(** the entry passes through both files *)
Definition throughBoth (x y : string) (c : CircularDependency) : bool :=
  OSet.has x (cycle c) && OSet.has y (cycle c).

(** some recorded cycle passes through both [x] and [y] *)
Definition joined (x y : string) (cs : list CircularDependency) : Prop :=
  Exists (fun c => throughBoth x y c = true) cs.

(** [x] and [y] import each other, and no node name holds the character
    the cycle keys are joined with *)
Definition linked (importGraph : OMap.t OSet.t) (x y : string) : Prop :=
  x <> y
  /\ (exists deps, OMap.get x importGraph = Some deps /\ In y deps)
  /\ (exists deps, OMap.get y importGraph = Some deps /\ In x deps)
  /\ (forall n, In n (graphNodes importGraph) -> lacks ">" n = true).

(** once one of two linked files has been left, a cycle through both is
    on record *)
Definition paired (importGraph : OMap.t OSet.t) (x y : string)
    (path : list string) (st : DfsState) : Prop :=
  linked importGraph x y ->
  (x ∈ visited st -> ~ In x path -> joined x y (cycles st))
  /\ (y ∈ visited st -> ~ In y path -> joined x y (cycles st)).


(** the walk is at one of the two files and looks at the other *)
Definition facing (x y node dep : string) : Prop :=
  (node = x /\ dep = y) \/ (node = y /\ dep = x).

(** what a call of [dfs] on a new node guarantees: it returns, the walk is
    back where it was, and nothing recorded is lost *)
Definition dfsOk (importGraph : OMap.t OSet.t) (x y : string) (fuel : nat) : Prop :=
  forall node path st,
    walking importGraph path st -> paired importGraph x y path st ->
    node ∈ universe importGraph -> node ∉ visited st ->
    size (universe importGraph ∖ visited st) < fuel ->
    exists st', dfs fuel importGraph node (path ++ [node]) st = Some st'
      /\ walking importGraph path st' /\ paired importGraph x y path st'
      /\ visited st ⊆ visited st' /\ node ∈ visited st'
      /\ incl (cycles st) (cycles st').

(** ** A chain of two injections *)

Module Chain.

(** [class A { _b = inject(B); run() { this._b.c.m() } }],
    [class B { c = inject(C) }], [class C { m() {} }] *)
Definition injected (name type : string) : PropertyDecl :=
  {| pd_name := name; pd_line := 2; pd_type := type; pd_modifiers := [];
     pd_decorators := []; pd_initializer := Some ("inject(" +:+ type +:+ ")") |}.

Definition method (name : string) (callees : list string) : MethodDecl :=
  {| md_name := name; md_line := 3; md_params := []; md_returnType := "void";
     md_modifiers := []; md_decorators := []; md_callees := callees |}.

Definition class (name : string) (props : list PropertyDecl) (methods : list MethodDecl)
    : ClassDecl :=
  {| cd_name := Some name; cd_line := 1; cd_extends := None; cd_implements := [];
     cd_decorators := []; cd_methods := methods; cd_properties := props;
     cd_constructors := []; cd_exported := true |}.

Definition project : list SourceFile :=
  [ {| sf_path := "/app/chain.ts"; sf_relativePath := "chain.ts"; sf_imports := [];
       sf_exportDecls := [];
       sf_classes :=
         [ class "A" [injected "_b" "B"] [method "run" ["this._b.c.m"; "this._b.c"]];
           class "B" [injected "c" "C"] [];
           class "C" [] [method "m" []] ];
       sf_functions := []; sf_variables := [] |} ].

Definition fileInfos : list FileInfo := fst (buildGraphs generic project emptyScanner).
Definition this : Scanner := snd (buildGraphs generic project emptyScanner).

Definition file : FileInfo := hd (plainFileInfoOf (Build_SourceFile "" "" [] [] [] [] [])) fileInfos.
Definition classA : ClassInfo :=
  classInfoOf (class "A" [injected "_b" "B"] [method "run" ["this._b.c.m"; "this._b.c"]]).
Definition run : MethodInfo := methodInfoOf (method "run" ["this._b.c.m"; "this._b.c"]).

End Chain.

(** ** A small dead-code report *)

Module Dead.

Definition unusedMethod : MethodInfo :=
  {| m_name := "tidy"; m_line := 4; m_params := []; m_returnType := "void";
     m_modifiers := []; m_decorators := []; m_calls := []; m_calledBy := [];
     m_callChain := None |}.

Definition cls : ClassInfo :=
  {| c_name := "Widget"; c_line := 1; c_extends := None; c_implements := [];
     c_decorators := []; c_methods := [unusedMethod]; c_properties := [] |}.

Definition helper : FunctionInfo :=
  {| f_name := "helper"; f_line := 9; f_params := []; f_returnType := "void";
     f_calls := []; f_exported := false |}.

Definition file : FileInfo :=
  {| path := "/app/widget.ts"; relativePath := "widget.ts"; imports := [];
     exports := []; classes := [cls]; functions := [helper];
     templateBindings := None |}.

End Dead.


(** ** Names with a dollar sign *)

Module Dollar.

(** [class A { b$ = inject(B); _b = inject(B); _d = inject(D);
      one() { this.b$.c.m() }  two() { this._b.c.load$() }
      three() { this._d.c$.m() } }],
    [class B { c = inject(C) }], [class D { c$ = inject(C) }],
    [class C { m() {}  load$() {} }] *)
Definition project : list SourceFile :=
  [ {| sf_path := "/app/dollar.ts"; sf_relativePath := "dollar.ts"; sf_imports := [];
       sf_exportDecls := [];
       sf_classes :=
         [ Chain.class "A"
             [Chain.injected "b$" "B"; Chain.injected "_b" "B"; Chain.injected "_d" "D"]
             [Chain.method "one" ["this.b$.c.m"];
              Chain.method "two" ["this._b.c.load$"];
              Chain.method "three" ["this._d.c$.m"]];
           Chain.class "B" [Chain.injected "c" "C"] [];
           Chain.class "D" [Chain.injected "c$" "C"] [];
           Chain.class "C" [] [Chain.method "m" []; Chain.method "load$" []] ];
       sf_functions := []; sf_variables := [] |} ].

Definition fileInfos : list FileInfo := fst (buildGraphs generic project emptyScanner).
Definition this : Scanner := snd (buildGraphs generic project emptyScanner).

(** the binding of [prop] in class [cls] *)
Definition binding (cls prop : string) : option string :=
  injectionMap this !! cls ≫= fun injections => injections !! prop.

(** the methods registered for class [cls] *)
Definition declared (cls : string) : list string :=
  default [] (classMethodsMap this !! cls).

(** the call texts of method [name] of the first class *)
Definition callsOf (name : string) : list string :=
  flat_map (fun file =>
    match classes file with
    | cls :: _ =>
        flat_map (fun method =>
          if String.eqb (m_name method) name then m_calls method else [])
          (c_methods cls)
    | [] => []
    end) fileInfos.

(** what resolution makes of [call] in a method of [A] *)
Definition resolved (call : string) : option string :=
  resolveMethodCall this (default ∅ (injectionMap this !! "A")) call.

End Dollar.
(** * The code around the analyzers, and further vocabulary *)

(** ** Call texts *)

(** [s] holds no white space but single blanks, none of them at its start
    when [afterBlank] is set *)
Fixpoint blanksFrom (afterBlank : bool) (s : string) : bool :=
  match s with
  | EmptyString => true
  | String a s' =>
      if Regex.space a
      then Ascii.eqb a " " && negb afterBlank && blanksFrom true s'
      else blanksFrom false s'
  end.

(** the same, and [s] does not end in a blank either; with [afterBlank]
    set, [s] is not empty *)
Fixpoint spacedFrom (afterBlank : bool) (s : string) : bool :=
  match s with
  | EmptyString => negb afterBlank
  | String a s' =>
      if Regex.space a
      then Ascii.eqb a " " && negb afterBlank && spacedFrom true s'
      else spacedFrom false s'
  end.

(** a non-empty text whose only white space is single blanks between
    other characters *)
Definition singleSpaced (s : string) : bool := spacedFrom true s.

(** the text [extractCalls] keeps for the expression text [callee] *)
Definition callText (callee : string) : string := trim (collapseSpaces false callee).

(** ** Inheritance *)

(** the superclass [getAllAncestorMethods] goes to from [className]: the
    cached [extends], when it is a non-empty name *)
Definition parentOf (classExtendsCache : OMap.t (option string)) (className : string)
    : option string :=
  match OMap.get className classExtendsCache with
  | Some (Some parentName) => if Js.truthy parentName then Some parentName else None
  | _ => None
  end.

(** the class [n] steps up the [extends] chain *)
Fixpoint ancestor (classExtendsCache : OMap.t (option string)) (n : nat)
    (className : string) : option string :=
  match n with
  | O => Some className
  | S n' =>
      match parentOf classExtendsCache className with
      | Some parentName => ancestor classExtendsCache n' parentName
      | None => None
      end
  end.

Definition methodsOf (classMethodsCache : OMap.t OSet.t) (className : string)
    : list string :=
  default [] (OMap.get className classMethodsCache).

(** [m] is a cached method of a class one or more steps up the chain *)
Definition ancestorMethod (classMethodsCache : OMap.t OSet.t)
    (classExtendsCache : OMap.t (option string)) (className m : string) : Prop :=
  exists n a, ancestor classExtendsCache (S n) className = Some a
              /\ In m (methodsOf classMethodsCache a).

(** the cached classes the walk has not been at *)
Definition pendingClasses (classExtendsCache : OMap.t (option string))
    (visited : OSet.t) : nat :=
  size ((list_to_set (OMap.keys classExtendsCache) : gset string) ∖ list_to_set visited).

(** every class the walk has left has its superclass among the visited *)
Definition climbed (classExtendsCache : OMap.t (option string))
    (className : string) (visited : OSet.t) : Prop :=
  forall v, In v visited -> v <> className ->
    exists w, parentOf classExtendsCache v = Some w /\ In w visited.

(** the two caches [analyzeInheritance] fills *)
Definition methodsCache (fileInfos : list FileInfo) : OMap.t OSet.t :=
  fold_left (fun c cls =>
    OMap.set (c_name cls) (OSet.ofList (map m_name (c_methods cls))) c)
    (flat_map classes fileInfos) [].

Definition extendsCache (fileInfos : list FileInfo) : OMap.t (option string) :=
  fold_left (fun c cls => OMap.set (c_name cls) (c_extends cls) c)
    (flat_map classes fileInfos) [].

(** [class A extends B], [class B extends A], each with one method *)
Module Loop.

Definition method (name : string) : MethodInfo :=
  {| m_name := name; m_line := 2; m_params := []; m_returnType := "void";
     m_modifiers := []; m_decorators := []; m_calls := []; m_calledBy := [];
     m_callChain := None |}.

Definition class (name parent : string) (methods : list string) : ClassInfo :=
  {| c_name := name; c_line := 1; c_extends := Some parent; c_implements := [];
     c_decorators := []; c_methods := map method methods; c_properties := [] |}.

Definition fileInfos : list FileInfo :=
  [ {| path := "/app/loop.ts"; relativePath := "loop.ts"; imports := []; exports := [];
       classes := [class "A" "B" ["a"; "shared"]; class "B" "A" ["b"; "shared"]];
       functions := []; templateBindings := None |} ].

(** the entry of [A]: [b] comes from [B]; [shared] and [a] are its own *)
Definition entryA : InheritanceInfo :=
  {| h_className := "A"; h_extends := "B";
     h_inheritedMethods := ["b"]; h_overriddenMethods := ["shared"; "a"] |}.

End Loop.

(** ** Callers and call chains *)

(** each element of [l] stands in [R] to the one after it *)
Fixpoint linkedBy (R : string -> string -> Prop) (l : list string) : Prop :=
  match l with
  | a :: ((b :: _) as rest) => R a b /\ linkedBy R rest
  | _ => True
  end.

(** [caller] is recorded as a caller of [callee] *)
Definition recordedCall (this : Scanner) (caller callee : string) : Prop :=
  edge (reverseCallGraph this) callee caller.

(** no caller is listed twice under a key *)
Definition duplicateFree (g : OMap.t OSet.t) : Prop :=
  forall key callers, OMap.get key g = Some callers -> NoDup callers.

(** the methods have neither callers nor chains filled in *)
Definition fresh (fileInfos : list FileInfo) : Prop :=
  forall file cls method,
    In file fileInfos -> In cls (classes file) -> In method (c_methods cls) ->
    m_calledBy method = [] /\ m_callChain method = None.

(** no method has chains filled in *)
Definition unchained (fileInfos : list FileInfo) : Prop :=
  forall file cls method,
    In file fileInfos -> In cls (classes file) -> In method (c_methods cls) ->
    m_callChain method = None.

(** the method [method] of class [cls] in one of [fileInfos] *)
Definition methodIn (fileInfos : list FileInfo) (cls : ClassInfo) (method : MethodInfo)
    : Prop :=
  exists file, In file fileInfos /\ In cls (classes file) /\ In method (c_methods cls).

(** ** Interface implementers *)

(** the name an [implements] clause is filed under *)
Definition interfaceKey (iface : string) : string :=
  trim (Regex.jsRemove Regex.rxGenericArgs iface).

(** [cls] has an [implements] clause filed under [name] *)
Definition implementsAs (fileInfos : list FileInfo) (name cls : string) : Prop :=
  exists c iface,
    In c (flat_map classes fileInfos) /\ In iface (c_implements c)
    /\ interfaceKey iface = name /\ cls = c_name c.

(** the (interface, class) pairs in the order [analyzeInterfaceImplementations]
    meets them *)
Definition implementsPairs (clss : list ClassInfo) : list (string * string) :=
  flat_map (fun cls => map (fun iface => (interfaceKey iface, c_name cls))
                           (c_implements cls)) clss.

(** ** Cycle keys *)

(** the names may go into a key: the list is not empty and no name holds
    the [>] of the separator *)
Definition keyable (c : list string) : Prop :=
  c <> [] /\ Forall (fun n => lacks ">" n = true) c.

(** in the order of [Array.prototype.sort] without a comparator *)
Definition ascending (l : list string) : Prop :=
  StronglySorted (fun a b => String.leb a b = true) l.

(** ** Import paths *)

(** the path [resolveImportPath] arrives at before it tries extensions *)
Definition importTarget (fromFile importPath : string) : string :=
  walkImport (Js.uptoLast "/" fromFile) (Js.split "/" importPath).

(** a path segment that names something: not empty, not [.] or [..], and
    without a slash *)
Definition segment (s : string) : Prop :=
  s <> EmptyString /\ s <> "." /\ s <> ".." /\ lacks "/" s = true.


(** [a] imports [b]: [b] is among the resolved imports recorded for [a] *)
Definition importEdge (importGraph : OMap.t OSet.t) (a b : string) : Prop :=
  exists deps, OMap.get a importGraph = Some deps /\ In b deps.

(** ** Cycles of the import graph *)

(** every recorded cycle follows import edges *)
Definition realCycles (importGraph : OMap.t OSet.t) (st : DfsState) : Prop :=
  Forall (fun c => linkedBy (importEdge importGraph) (cycle c)) (cycles st).

(** a walk along import edges that comes back to where it started *)
Definition cyclic (importGraph : OMap.t OSet.t) : Prop :=
  exists walk,
    2 <= length walk
    /\ hd EmptyString walk = last walk EmptyString
    /\ linkedBy (importEdge importGraph) walk.

(** [order] lists the nodes the walk has left: visited and off the path *)
Definition finishedAs (order path : list string) (st : DfsState) : Prop :=
  forall n, In n order <-> n ∈ visited st /\ ~ In n path.

(** whatever a node of [order] imports stands in front of it *)
Definition topological (importGraph : OMap.t OSet.t) (order : list string) : Prop :=
  forall pre u post, order = pre ++ u :: post ->
    forall v, importEdge importGraph u v -> In v pre.

(** what a walk without any cycle on record leaves behind: the nodes it
    has left, in an order that puts imports first *)
Definition sorts (importGraph : OMap.t OSet.t) (path : list string)
    (st st' : DfsState) (also : list string) : Prop :=
  cycles st' = [] ->
  forall order, finishedAs order path st -> topological importGraph order ->
    exists ext,
      finishedAs (order ++ ext) path st'
      /\ topological importGraph (order ++ ext)
      /\ forall d, In d also -> In d (order ++ ext).

(** what a call of [dfs] that returns guarantees about the cycles *)
Definition dfsSound (importGraph : OMap.t OSet.t) (fuel : nat) : Prop :=
  forall node path st st',
    dfs fuel importGraph node (path ++ [node]) st = Some st' ->
    walking importGraph path st ->
    node ∈ universe importGraph -> node ∉ visited st ->
    size (universe importGraph ∖ visited st) < fuel ->
    linkedBy (importEdge importGraph) (path ++ [node]) ->
    realCycles importGraph st ->
    realCycles importGraph st' /\ sorts importGraph path st st' [].

(** ** Service usage *)

(** the service a call text of a method of [cls] is counted for: the
    binding of the property in [this.<prop>.] *)
Definition serviceOf (this : Scanner) (cls : ClassInfo) (call : string) : option string :=
  match Regex.jsMatch Regex.rxServiceUse call with
  | Some gs =>
      match injectionMap this !! c_name cls with
      | Some injections => getTruthy injections (Regex.nthGroup 0 gs)
      | None => None
      end
  | None => None
  end.

(** the services the call texts of the project are counted for, one entry
    per call text, in scan order *)
Definition serviceUses (this : Scanner) (fileInfos : list FileInfo) : list string :=
  flat_map (fun cls =>
    flat_map (fun method =>
      flat_map (fun call =>
        match serviceOf this cls call with Some name => [name] | None => [] end)
        (m_calls method)) (c_methods cls)) (flat_map classes fileInfos).

(** a class of the project with an [Injectable] or [Service] decorator *)
Definition serviceClass (fileInfos : list FileInfo) (name : string) : Prop :=
  exists cls, In cls (flat_map classes fileInfos) /\ c_name cls = name
              /\ existsb isServiceDecorator (c_decorators cls) = true.

(** one more use of [name], if [name] is counted at all *)
Definition bump (name : string) (counts : OMap.t nat) : OMap.t nat :=
  if OMap.has name counts
  then OMap.set name (default 0 (OMap.get name counts) + 1) counts
  else counts.

(** the zero entries the first pass of [generateSummary] makes *)
Definition zeroCounts (clss : list ClassInfo) (counts : OMap.t nat) : OMap.t nat :=
  fold_left (fun su cls =>
    if existsb isServiceDecorator (c_decorators cls) then OMap.set (c_name cls) 0 su
    else su) clss counts.

(** [class Api] is injectable and used twice by [class Page] *)
Module Usage.

Definition api : ClassDecl :=
  {| cd_name := Some "Api"; cd_line := 1; cd_extends := None; cd_implements := [];
     cd_decorators := [ {| dd_name := "Injectable"; dd_bindings := [] |} ];
     cd_methods := [Chain.method "get" []; Chain.method "put" []];
     cd_properties := []; cd_constructors := []; cd_exported := true |}.

Definition page : ClassDecl :=
  Chain.class "Page" [Chain.injected "api" "Api"]
    [Chain.method "load" ["this.api.get"]; Chain.method "save" ["this.api.put"]].

Definition project : list SourceFile :=
  [ {| sf_path := "/app/page.ts"; sf_relativePath := "page.ts"; sf_imports := [];
       sf_exportDecls := []; sf_classes := [api; page];
       sf_functions := []; sf_variables := [] |} ].

Definition model : Model := builtModel generic project.

End Usage.

(** ** The file tree ([buildTree])

    A [TreeNode] of [types.ts]: a name, a type, and the optional array of
    children.  [path.basename], [path.relative] and [path.sep] belong to
    the platform: [buildTree] is given the name of the root and, for every
    file, the segments of its path relative to the scanned directory. *)

Inductive NodeType := file_node | directory_node.

#[warnings="-register-all"] Inductive TreeNode :=
| Node (name : string) (type : NodeType) (children : option (list TreeNode)).

Definition nodeName (t : TreeNode) : string := let (name, _, _) := t in name.
Definition nodeType (t : TreeNode) : NodeType := let (_, type, _) := t in type.
Definition nodeChildren (t : TreeNode) : option (list TreeNode) :=
  let (_, _, children) := t in children.

(** [c.name === first] *)
Definition named (first : string) (c : TreeNode) : bool := String.eqb (nodeName c) first.

(** an assignment through the element [find] returned: the first element
    that satisfies [p] is replaced by its image *)
Fixpoint updateFirst {A} (p : A -> bool) (f : A -> A) (l : list A) : list A :=
  match l with
  | [] => []
  | x :: l' => if p x then f x :: l' else x :: updateFirst p f l'
  end.

(** [addToTree]; the node it returns is [current] after the call.  A
    [current] without a [children] array is left as it is: the child made
    for [first] is pushed nowhere. *)
Fixpoint addToTree (parts : list string) (current : TreeNode) : TreeNode :=
  match parts with
  | [] => current
  | first :: rest =>
      match nodeChildren current with
      | None => current
      | Some children =>
          let descend (child : TreeNode) : TreeNode :=
            match rest, nodeChildren child with
            | _ :: _, Some _ => addToTree rest child
            | _, _ => child
            end in
          match find (named first) children with
          | Some _ =>
              Node (nodeName current) (nodeType current)
                   (Some (updateFirst (named first) descend children))
          | None =>
              let child :=
                Node first
                     (match rest with [] => file_node | _ => directory_node end)
                     (match rest with [] => None | _ => Some [] end) in
              Node (nodeName current) (nodeType current)
                   (Some (children ++ [descend child]))
          end
      end
  end.

(** the step [addToTree] makes into the child for [first]:
    [if (rest.length > 0 && child.children) addToTree(rest, child)] *)
Definition descend (rest : list string) (child : TreeNode) : TreeNode :=
  match rest, nodeChildren child with
  | _ :: _, Some _ => addToTree rest child
  | _, _ => child
  end.

Definition buildTree (rootName : string) (files : list (list string)) : TreeNode :=
  fold_left (fun root parts => addToTree parts root) files
    (Node rootName directory_node (Some [])).

(** the node at the end of the path [parts] below [t], each segment being
    looked up the way [addToTree] does *)
Fixpoint findPath (parts : list string) (t : TreeNode) : option TreeNode :=
  match parts with
  | [] => Some t
  | first :: rest =>
      match nodeChildren t with
      | Some children =>
          match find (named first) children with
          | Some child => findPath rest child
          | None => None
          end
      | None => None
      end
  end.

(** a node on the way to [parts], short of its end, has no [children]
    array: a file stands where a directory is needed *)
Definition blocked (parts : list string) (t : TreeNode) : Prop :=
  exists front back n,
    parts = front ++ back /\ back <> []
    /\ findPath front t = Some n /\ nodeChildren n = None.

(** a file of [files] stands on the way to [parts]: its path is a proper
    beginning of [parts] and ends in a node without a [children] array *)
Definition blockedBy (files : list (list string)) (parts : list string) (t : TreeNode)
    : Prop :=
  exists front back n,
    parts = front ++ back /\ front <> [] /\ back <> [] /\ In front files
    /\ findPath front t = Some n /\ nodeChildren n = None.

(** a node is typed as a file exactly when it has no [children] array *)
Definition typed (n : TreeNode) : Prop :=
  nodeType n = file_node <-> nodeChildren n = None.

(** two nodes of the same type, both with or both without [children] *)
Definition alike (n n0 : TreeNode) : Prop :=
  nodeType n = nodeType n0 /\ (nodeChildren n = None <-> nodeChildren n0 = None).

(** ** The query filter ([filter.ts]) *)

(** [toLowerCase] on code units below 256: the letters [A-Z] and the
    capital letters of Latin-1 (all of [0xC0-0xDE] but the multiplication
    sign) move up by 32 *)
Definition lower (a : ascii) : ascii :=
  let n := nat_of_ascii a in
  if (((65 <=? n) && (n <=? 90)) || ((192 <=? n) && (n <=? 222) && negb (n =? 215)))%nat
  then ascii_of_nat (n + 32) else a.

Fixpoint toLowerCase (s : string) : string :=
  match s with
  | EmptyString => EmptyString
  | String a s' => String (lower a) (toLowerCase s')
  end.

(** a [ScanOutput] as [filter.ts] handles it: the five reports are
    optional *)
Record Report := {
  r_path : string;
  r_framework : string;
  r_scannedAt : string;
  r_fileCount : nat;
  r_classCount : nat;
  r_functionCount : nat;
  r_tree : TreeNode;
  r_files : list FileInfo;
  r_callGraph : OMap.t (list string);
  r_analyses : option Analyses
}.

(** the walk of [buildTreeFromPaths] down one path; [current] gets a
    [children] array when it has none and a part is left to go *)
Fixpoint insertPath (parts : list string) (current : TreeNode) : TreeNode :=
  match parts with
  | [] => current
  | part :: rest =>
      let children := default [] (nodeChildren current) in
      match find (named part) children with
      | Some _ =>
          Node (nodeName current) (nodeType current)
               (Some (updateFirst (named part) (insertPath rest) children))
      | None =>
          let child :=
            Node part
                 (match rest with [] => file_node | _ => directory_node end)
                 (match rest with [] => None | _ => Some [] end) in
          Node (nodeName current) (nodeType current)
               (Some (children ++ [insertPath rest child]))
      end
  end.

(** [cleanup]: empty [children] arrays are deleted *)
Fixpoint cleanup (node : TreeNode) : TreeNode :=
  match node with
  | Node name type (Some []) => Node name type None
  | Node name type (Some children) => Node name type (Some (map cleanup children))
  | Node name type None => node
  end.

Definition buildTreeFromPaths (paths : list string) : TreeNode :=
  cleanup
    (fold_left (fun root filePath => insertPath (Js.split "/" (slashes filePath)) root)
       paths (Node "filtered" directory_node (Some []))).

(** the predicate of [output.files.filter] *)
Definition keepsFile (query : string) (file : FileInfo) : bool :=
  let queryLower := toLowerCase query in
  Js.includes queryLower (toLowerCase (relativePath file))
  || existsb (fun cls => Js.includes queryLower (toLowerCase (c_name cls))) (classes file)
  || forallb (fun part =>
       Js.includes (toLowerCase part) (toLowerCase (relativePath file)))
       (Js.split "/" (slashes query)).

Definition relevantMethods (files : list FileInfo) : OSet.t :=
  OSet.ofList
    (flat_map (fun file =>
       flat_map (fun cls =>
         map (fun method => c_name cls +:+ "." +:+ m_name method) (c_methods cls))
         (classes file)
       ++ map f_name (functions file)) files).

(** a key an assignment to a plain object stores as a property of its own *)
Definition ownKey (k : string) : bool := negb (String.eqb k "__proto__").

(** [key] names a method, as [Class.method], or a function of one of [files] *)
Definition ownedBy (files : list FileInfo) (key : string) : Prop :=
  exists file,
    In file files
    /\ ((exists cls method,
           In cls (classes file) /\ In method (c_methods cls)
           /\ key = c_name cls +:+ "." +:+ m_name method)
        \/ exists fn, In fn (functions file) /\ key = f_name fn).

(** the condition under which an entry of the call graph is kept *)
Definition keepsKey (query : string) (files : list FileInfo) (key : string) : bool :=
  OSet.has key (relevantMethods files)
  || Js.includes (toLowerCase query) (toLowerCase key).

Definition filterCallGraph (query : string) (files : list FileInfo)
    (callGraph : OMap.t (list string)) : OMap.t (list string) :=
  fold_left (fun filtered e =>
    if keepsKey query files (fst e) then Obj.assign (fst e) (snd e) filtered
    else filtered) (OMap.entries callGraph) [].

Definition filterOutput (output : Report) (query : string) : Report :=
  let filteredFiles := filter (keepsFile query) (r_files output) in
  {| r_path := r_path output;
     r_framework := r_framework output;
     r_scannedAt := r_scannedAt output;
     r_fileCount := length filteredFiles;
     r_classCount := fold_left (fun sum f => sum + length (classes f)) filteredFiles 0;
     r_functionCount := fold_left (fun sum f => sum + length (functions f)) filteredFiles 0;
     r_tree := buildTreeFromPaths (map relativePath filteredFiles);
     r_files := filteredFiles;
     r_callGraph := filterCallGraph query filteredFiles (r_callGraph output);
     r_analyses := None |}.

(** the output of the scan of [Frame.project], as far as the filter reads it *)
Module Query.

Definition report : Report :=
  {| r_path := "/app"; r_framework := "generic"; r_scannedAt := "";
     r_fileCount := 1; r_classCount := 2; r_functionCount := 0;
     r_tree := buildTree "app" [["a.ts"]];
     r_files := files Frame.model;
     r_callGraph := serializeCallGraph (scanner Frame.model);
     r_analyses := Some (fst (analyze ["/app/a.ts"] Frame.model)) |}.

End Query.

(** ** Dead methods of a scan *)

(** no caller is recorded under [Class.method] *)
Definition uncalledMethod (this : Scanner) (cls : ClassInfo) (method : MethodInfo) : Prop :=
  forall caller,
    ~ edge (reverseCallGraph this) (c_name cls +:+ "." +:+ m_name method) caller.

(** the methods the dead-code report passes over: lifecycle hooks, and
    private methods whose name starts with an underscore *)
Definition exempt (method : MethodInfo) : Prop :=
  In (m_name method) lifecycleHooks
  \/ (Js.startsWith "_" (m_name method) = true /\ In "private" (m_modifiers method)).

(** the method [run] of class [A] in the scan of [Frame.project]; nothing
    calls it *)
Module Unused.

Definition file : FileInfo := hd Dead.file (files Frame.model).
Definition cls : ClassInfo := hd Dead.cls (classes file).
Definition method : MethodInfo := hd Dead.unusedMethod (c_methods cls).

End Unused.

(** ** Pass 1 over the classes *)

(** pass 1 registers class [cls] under the name [k]: the class is named [k]
    and [k] is not the empty string *)
Definition declares (k : string) (cls : ClassDecl) : bool :=
  match cd_name cls with
  | Some name => String.eqb name k && Js.truthy name
  | None => false
  end.

Definition methodNames (cls : ClassDecl) : list string := map md_name (cd_methods cls).

(** the parameters of [getConstructors()[0]], none without a constructor *)
Definition firstConstructor (cls : ClassDecl) : list ParamDecl :=
  match cd_constructors cls with
  | ctor :: _ => ctor
  | [] => []
  end.

(** the bindings pass 1 computes for a class, given the classes known so far *)
Definition bindingsOf (known : gmap string OSet.t) (cls : ClassDecl) : gmap string string :=
  constructorInjections known (firstConstructor cls)
    (propertyInjections (cd_properties cls) ∅).

(** what one class does to the method map and the injection map *)
Definition collectStep
    (st : gmap string OSet.t * gmap string (gmap string string)) (cls : ClassDecl)
    : gmap string OSet.t * gmap string (gmap string string) :=
  match cd_name cls with
  | Some name =>
      if Js.truthy name then
        let known := <[name := OSet.ofList (methodNames cls)]> (fst st) in
        (known,
         if bool_decide (bindingsOf known cls = ∅) then snd st
         else <[name := bindingsOf known cls]> (snd st))
      else st
  | None => st
  end.

(** the scanner after pass 1 on a fresh scanner *)
Definition passOne (sourceFiles : list SourceFile) : Scanner :=
  snd (collectClassInfo sourceFiles emptyScanner).

(** what [x] is bound to in class [k] *)
Definition boundTo (s : Scanner) (k x : string) : option string :=
  injectionMap s !! k ≫= fun injections => injections !! x.

(** [Page] takes a [Store] and a [Cache]; [Store] is declared before [Page],
    [Cache] after it *)
Module Order.

Definition param (name type : string) : ParamDecl :=
  {| pa_name := name; pa_typeNode := Some type; pa_type := type |}.

Definition class (name : string) (ctor : list (list ParamDecl)) : ClassDecl :=
  {| cd_name := Some name; cd_line := 1; cd_extends := None; cd_implements := [];
     cd_decorators := []; cd_methods := []; cd_properties := [];
     cd_constructors := ctor; cd_exported := true |}.

Definition store : ClassDecl := class "Store" [].
Definition page : ClassDecl :=
  class "Page" [[param "store" "Store"; param "cache" "Cache"]].
Definition cache : ClassDecl := class "Cache" [].

Definition project : list SourceFile :=
  [ {| sf_path := "/app/all.ts"; sf_relativePath := "all.ts"; sf_imports := [];
       sf_exportDecls := []; sf_classes := [store; page; cache];
       sf_functions := []; sf_variables := [] |} ].

End Order.

(** ** The bindings of a template text ([parseAngularTemplate]) *)

Definition dquote : ascii := ascii_of_nat 34.

Module TemplateRegex.
Import Regex.

(** [/\(([^)]+)\)=Q([^Q]+)Q/g], with [Q] for the double quote *)
Definition eventRegex : re :=
  seq [Chr (just "("); Grp (Plus (but ")")); Chr (just ")"); Chr (just "=");
       Chr (just dquote); Grp (Plus (but dquote)); Chr (just dquote)].

(** [/\[([^\]]+)\]=Q([^Q]+)Q/g], with [Q] for the double quote *)
Definition propRegex : re :=
  seq [Chr (just "["); Grp (Plus (but "]")); Chr (just "]"); Chr (just "=");
       Chr (just dquote); Grp (Plus (but dquote)); Chr (just dquote)].

(** [/\{\{\s*([^}]+)\s*\}\}/g] *)
Definition interpRegex : re :=
  seq [Chr (just "{"); Chr (just "{"); Star space; Grp (Plus (but "}")); Star space;
       Chr (just "}"); Chr (just "}")].

(** [/(\*ngIf|\*ngFor|@if|@for|@switch)(?:=Q([^Q]+)Q|\s*\(([^)]+)\))/g], with
    [Q] for the double quote: the keywords of the first group, in the order
    they are tried, *)
Definition structuralKeywords : list string :=
  ["*ngIf"; "*ngFor"; "@if"; "@for"; "@switch"].

(** the first way to go on after the keyword, which fills group 2, *)
Definition quotedTail : re :=
  seq [Chr (just "="); Chr (just dquote); Grp (Plus (but dquote)); Chr (just dquote)].

(** and the second, which fills group 3. *)
Definition parenTail : re :=
  seq [Star space; Chr (just "("); Grp (Plus (but ")")); Chr (just ")")].

(** One path through the two alternations. *)
Definition structuralBranch (kw : string) (quoted : bool) : re :=
  Seq (Grp (lit kw)) (if quoted then quotedTail else parenTail).

(** The paths in backtracking order: keyword by keyword, and for each
    keyword the quoted tail before the parenthesised one. *)
Definition structuralBranches : list (string * bool) :=
  flat_map (fun kw => [(kw, true); (kw, false)]) structuralKeywords.

End TemplateRegex.

(** [rx.exec(s)] as the loops use it: the groups of the leftmost match and
    the text behind the match, where the next [exec] starts *)
Definition execRegex (r : Regex.re) (s : string) : option (list string * string) :=
  option_map (fun m => (Regex.groups m, Regex.after m)) (Regex.search r s).

(** the structural pattern at the start of [s]: the first path that matches;
    [match[2]] and [match[3]] are returned, the group of the tail not taken
    being undefined *)
Fixpoint firstBranch (branches : list (string * bool)) (s : string)
    : option ((option string * option string) * string) :=
  match branches with
  | [] => None
  | (kw, quoted) :: branches' =>
      match Regex.matchHere (TemplateRegex.structuralBranch kw quoted) s with
      | Some m =>
          let g := nth_error (Regex.groups m) 1 in
          Some (if quoted then (g, None) else (None, g), Regex.after m)
      | None => firstBranch branches' s
      end
  end.

Fixpoint execStructural (s : string)
    : option ((option string * option string) * string) :=
  match firstBranch TemplateRegex.structuralBranches s with
  | Some found => Some found
  | None =>
      match s with
      | String _ s' => execStructural s'
      | EmptyString => None
      end
  end.

(** [while ((match = rx.exec(template)) !== null) ...]: one match after the
    other, each search starting behind the previous match; [None] when the
    fuel runs out before a search fails *)
Fixpoint execAll {A : Type} (fuel : nat) (exec : string -> option (A * string))
    (s : string) : option (list A) :=
  match fuel with
  | O => None
  | S fuel' =>
      match exec s with
      | Some (x, rest) => option_map (cons x) (execAll fuel' exec rest)
      | None => Some []
      end
  end.

Definition eventBindings (fuel : nat) (template : string) : option (list TemplateBinding) :=
  option_map
    (map (fun gs => {| tb_type := event; tb_expression := Regex.nthGroup 1 gs |}))
    (execAll fuel (execRegex TemplateRegex.eventRegex) template).

Definition propertyBindings (fuel : nat) (template : string)
    : option (list TemplateBinding) :=
  option_map
    (map (fun gs => {| tb_type := property; tb_expression := Regex.nthGroup 1 gs |}))
    (execAll fuel (execRegex TemplateRegex.propRegex) template).

Definition interpolationBindings (fuel : nat) (template : string)
    : option (list TemplateBinding) :=
  option_map
    (map (fun gs =>
       {| tb_type := interpolation; tb_expression := trim (Regex.nthGroup 0 gs) |}))
    (execAll fuel (execRegex TemplateRegex.interpRegex) template).

Definition structuralBindings (fuel : nat) (template : string)
    : option (list TemplateBinding) :=
  option_map
    (map (fun gs : option string * option string =>
       {| tb_type := structural;
          tb_expression := Js.orElse (fst gs) (Js.orElse (snd gs) "") |}))
    (execAll fuel execStructural template).

Definition parseAngularTemplate (fuel : nat) (template : string)
    : option (list TemplateBinding) :=
  match eventBindings fuel template, propertyBindings fuel template,
        interpolationBindings fuel template, structuralBindings fuel template with
  | Some events, Some props, Some interps, Some structs =>
      Some (events ++ props ++ interps ++ structs)
  | _, _, _, _ => None
  end.

(** *** Where a binding comes from *)

(** [text] is a piece of [s] *)
Definition occurs (text s : string) : Prop :=
  exists pre post, s = pre +:+ text +:+ post.

(** the shape the event and the property pattern share *)
Definition attributeRegex (opening closing : ascii) : Regex.re :=
  Regex.seq
    [Regex.Chr (Regex.just opening); Regex.Grp (Regex.Plus (Regex.but closing));
     Regex.Chr (Regex.just closing); Regex.Chr (Regex.just "=");
     Regex.Chr (Regex.just dquote); Regex.Grp (Regex.Plus (Regex.but dquote));
     Regex.Chr (Regex.just dquote)].

(** [(name)=QeQ] with [Q] for the double quote, for the brackets [(] and [)]; the same
    in square brackets for [[] and []] *)
Definition attributeText (opening closing : ascii) (name e : string) : string :=
  String opening name
  +:+ String closing (String "=" (String dquote e)) +:+ String dquote EmptyString.

(** [name] is not empty and stays inside the brackets, [e] is not empty and
    stays inside the quotes, and the attribute is in the template *)
Definition attributeSite (opening closing : ascii) (e template : string) : Prop :=
  exists name,
    name <> EmptyString /\ lacks closing name = true
    /\ e <> EmptyString /\ lacks dquote e = true
    /\ occurs (attributeText opening closing name e) template.

(** [e] is the trimmed text between a pair of double braces of the template *)
Definition interpolationSite (e template : string) : Prop :=
  exists ws1 g ws2,
    every Regex.space ws1 = true /\ every Regex.space ws2 = true
    /\ g <> EmptyString /\ lacks "}" g = true
    /\ e = trim g
    /\ occurs ("{{" +:+ ws1 +:+ g +:+ ws2 +:+ "}}") template.

(** [e] follows a structural keyword of the template, in quotes behind [=] or
    in parentheses *)
Definition structuralSite (e template : string) : Prop :=
  exists kw,
    In kw TemplateRegex.structuralKeywords /\ e <> EmptyString
    /\ ((lacks dquote e = true
         /\ occurs (kw +:+ String "=" (String dquote e) +:+ String dquote EmptyString)
              template)
        \/ (exists ws, every Regex.space ws = true /\ lacks ")" e = true
              /\ occurs (kw +:+ ws +:+ String "(" e +:+ ")") template)).

(** what the first matching path returns *)
Definition structuralFound (gs : option string * option string) (s rest : string) : Prop :=
  exists kw e,
    In kw TemplateRegex.structuralKeywords /\ e <> EmptyString
    /\ ((gs = (Some e, None) /\ lacks dquote e = true
         /\ s = (kw +:+ String "=" (String dquote e) +:+ String dquote EmptyString)
                +:+ rest)
        \/ (exists ws, gs = (None, Some e) /\ every Regex.space ws = true
              /\ lacks ")" e = true
              /\ s = (kw +:+ ws +:+ String "(" e +:+ ")") +:+ rest)).

(** every search that finds something leaves less text behind it *)
Definition consuming {A : Type} (exec : string -> option (A * string)) : Prop :=
  forall s x rest, exec s = Some (x, rest) ->
    exists used, used <> EmptyString /\ s = used +:+ rest.

(** a link with a click handler [go()], an [id] bound to [key] and the
    interpolation of [title] *)
Module Markup.

Definition quoted (s : string) : string := String dquote s +:+ String dquote EmptyString.

Definition text : string :=
  "<a (click)=" +:+ quoted "go()" +:+ " [id]=" +:+ quoted "key"
  +:+ ">{{ title }}</a>".

End Markup.

(** * Facts about the containers *)

Module OMapFacts.
Section Facts.
Context {V : Type}.
Implicit Types (m : OMap.t V) (k : string) (v : V).

Lemma get_set_eq m k v : OMap.get k (OMap.set k v m) = Some v.
Proof.
  induction m as [|[k' v'] m IH]; simpl.
  - now rewrite String.eqb_refl.
  - destruct (String.eqb k k') eqn:E; simpl; rewrite E; auto.
Qed.

Lemma get_set_ne m k k' v :
  k <> k' -> OMap.get k' (OMap.set k v m) = OMap.get k' m.
Proof.
  intros Hne. induction m as [|[k0 v0] m IH]; simpl.
  - destruct (String.eqb k' k) eqn:E; auto.
    apply String.eqb_eq in E. congruence.
  - destruct (String.eqb k k0) eqn:E; simpl.
    + apply String.eqb_eq in E. subst k0.
      destruct (String.eqb k' k) eqn:E'; auto.
      apply String.eqb_eq in E'. congruence.
    + destruct (String.eqb k' k0); auto.
Qed.

Lemma get_set m k k' v :
  OMap.get k' (OMap.set k v m) = if String.eqb k k' then Some v else OMap.get k' m.
Proof.
  destruct (String.eqb k k') eqn:E.
  - apply String.eqb_eq in E. subst. apply get_set_eq.
  - apply String.eqb_neq in E. now apply get_set_ne.
Qed.

Lemma get_In m k v : OMap.get k m = Some v -> In (k, v) m.
Proof.
  induction m as [|[k' v'] m IH]; simpl; [discriminate|].
  destruct (String.eqb k k') eqn:E.
  - apply String.eqb_eq in E. intros [= ->]. subst. now left.
  - intros H. right. auto.
Qed.

Lemma In_get m k v : In (k, v) m -> exists v', OMap.get k m = Some v'.
Proof.
  induction m as [|[k' v'] m IH]; simpl; [tauto|].
  intros [[= -> ->]|H].
  - rewrite String.eqb_refl. eauto.
  - destruct (String.eqb k k'); eauto.
Qed.

Lemma keys_set m k v :
  forall x, In x (OMap.keys (OMap.set k v m)) <-> x = k \/ In x (OMap.keys m).
Proof.
  unfold OMap.keys. induction m as [|[k' v'] m IH]; simpl; intros x.
  - intuition congruence.
  - destruct (String.eqb k k') eqn:E; simpl.
    + apply String.eqb_eq in E. subst. intuition congruence.
    + rewrite IH. intuition congruence.
Qed.

Lemma keys_NoDup_set m k v :
  NoDup (OMap.keys m) -> NoDup (OMap.keys (OMap.set k v m)).
Proof.
  unfold OMap.keys. induction m as [|[k' v'] m IH]; simpl; intros Hnd.
  - constructor; [intros []|constructor].
  - inversion Hnd as [|? ? Hnotin Hnd']; subst.
    destruct (String.eqb k k') eqn:E; simpl.
    + constructor; auto.
    + constructor; auto.
      intros Hin. apply (keys_set m k v) in Hin.
      apply String.eqb_neq in E. destruct Hin; [congruence|tauto].
Qed.
End Facts.
End OMapFacts.

Module OSetFacts.

Lemma has_In x s : OSet.has x s = true <-> In x s.
Proof.
  unfold OSet.has. rewrite existsb_exists. split.
  - intros [y [Hy E]]. apply String.eqb_eq in E. now subst.
  - intros H. exists x. split; auto. apply String.eqb_refl.
Qed.

Lemma has_false x s : OSet.has x s = false <-> ~ In x s.
Proof.
  rewrite <- has_In. destruct (OSet.has x s); split; intros; congruence.
Qed.

Lemma In_add x y s : In y (OSet.add x s) <-> In y s \/ y = x.
Proof.
  unfold OSet.add. destruct (OSet.has x s) eqn:E.
  - apply has_In in E. split; [tauto|]. intros [H| ->]; auto.
  - rewrite in_app_iff. simpl. intuition.
Qed.

Lemma add_nonempty x s : OSet.add x s <> [].
Proof.
  unfold OSet.add. destruct (OSet.has x s) eqn:E.
  - apply has_In in E. destruct s; [contradiction|discriminate].
  - destruct s; discriminate.
Qed.

Lemma NoDup_add x s : NoDup s -> NoDup (OSet.add x s).
Proof.
  unfold OSet.add. destruct (OSet.has x s) eqn:E; auto.
  apply has_false in E. intros Hnd.
  apply NoDup_app; auto.
  - constructor; [intros []|constructor].
  - intros y Hy [<-|[]]. contradiction.
Qed.

Lemma In_fold_add xs : forall s y,
  In y (fold_left (fun s x => OSet.add x s) xs s) <-> In y s \/ In y xs.
Proof.
  induction xs as [|x xs IH]; simpl; intros s y; [tauto|].
  rewrite IH, In_add. intuition.
Qed.

Lemma NoDup_fold_add xs : forall s,
  NoDup s -> NoDup (fold_left (fun s x => OSet.add x s) xs s).
Proof.
  induction xs as [|x xs IH]; simpl; intros s Hs; auto using NoDup_add.
Qed.

Lemma In_ofList xs y : In y (OSet.ofList xs) <-> In y xs.
Proof. unfold OSet.ofList. rewrite In_fold_add. simpl. tauto. Qed.

Lemma NoDup_ofList xs : NoDup (OSet.ofList xs).
Proof. apply NoDup_fold_add. constructor. Qed.

End OSetFacts.

Module GraphFacts.
Import OMapFacts OSetFacts.

Lemma addCaller_get g key caller :
  OMap.get key (addCaller key caller g)
  = Some (OSet.add caller (default [] (OMap.get key g))).
Proof.
  unfold addCaller, OMap.has.
  destruct (OMap.get key g) as [cs|] eqn:E.
  - rewrite E. now rewrite get_set_eq.
  - rewrite get_set_eq. now rewrite get_set_eq.
Qed.

Lemma addCaller_get_ne g key caller key' :
  key <> key' -> OMap.get key' (addCaller key caller g) = OMap.get key' g.
Proof.
  intros Hne. unfold addCaller, OMap.has.
  destruct (OMap.get key g) as [cs|] eqn:E.
  - rewrite E. now rewrite get_set_ne.
  - rewrite get_set_eq. rewrite !get_set_ne by auto. reflexivity.
Qed.

Lemma edge_nil key caller : ~ edge [] key caller.
Proof. intros [cs [H _]]. discriminate. Qed.

Lemma edge_addCaller g key caller k c :
  edge (addCaller key caller g) k c <-> edge g k c \/ (k = key /\ c = caller).
Proof.
  unfold edge. destruct (string_dec key k) as [->|Hne].
  - rewrite addCaller_get. split.
    + intros [cs [[= <-] Hin]]. apply In_add in Hin.
      destruct Hin as [Hin| ->]; [left|right; auto].
      destruct (OMap.get k g) as [cs|]; [eauto|contradiction].
    + intros [[cs [E Hin]]|[_ ->]].
      * eexists. split; [reflexivity|]. rewrite E. apply In_add. auto.
      * eexists. split; [reflexivity|]. apply In_add. auto.
  - rewrite addCaller_get_ne by auto. split.
    + intros H. now left.
    + intros [H|[-> _]]; [auto|congruence].
Qed.

Lemma edge_addEdges es : forall g k c,
  edge (addEdges es g) k c <-> edge g k c \/ In (k, c) es.
Proof.
  unfold addEdges.
  induction es as [|[k0 c0] es IH]; simpl; intros g k c; [tauto|].
  rewrite IH, edge_addCaller. intuition congruence.
Qed.

Lemma addEdges_app es1 es2 g :
  addEdges (es1 ++ es2) g = addEdges es2 (addEdges es1 g).
Proof. unfold addEdges. apply fold_left_app. Qed.

Lemma populated_addCaller g key caller :
  populated g -> populated (addCaller key caller g).
Proof.
  intros Hp k cs. destruct (string_dec key k) as [->|Hne].
  - rewrite addCaller_get. intros [= <-]. apply add_nonempty.
  - rewrite addCaller_get_ne by auto. apply Hp.
Qed.

Lemma populated_addEdges es : forall g, populated g -> populated (addEdges es g).
Proof.
  unfold addEdges. induction es as [|e es IH]; simpl; intros g Hp; auto.
  apply IH. now apply populated_addCaller.
Qed.

Lemma populated_edge g key :
  populated g -> OMap.get key g <> None -> exists caller, edge g key caller.
Proof.
  intros Hp Hget. destruct (OMap.get key g) as [cs|] eqn:E; [|congruence].
  specialize (Hp _ _ E). destruct cs as [|c cs]; [congruence|].
  exists c, (c :: cs). split; auto. now left.
Qed.
End GraphFacts.

(** * Matching identifiers *)

Module RegexFacts.
Import Regex.

#[local] Arguments String.append !s1 s2 : simpl nomatch.

Lemma substring_prefix a b :
  String.substring 0 (String.length (a +:+ b) - String.length b) (a +:+ b) = a.
Proof.
  assert (L : forall a b, String.length (a +:+ b) = String.length a + String.length b).
  { clear. induction a as [|x a IH]; intros b; cbn [String.append String.length];
      [reflexivity|]. now rewrite IH. }
  rewrite L. replace (String.length a + String.length b - String.length b)
    with (String.length a) by lia.
  clear L. induction a as [|x a IH]; cbn [String.append String.length String.substring].
  - now destruct b.
  - now rewrite IH.
Qed.

Lemma append_assoc (a b c : string) : (a +:+ b) +:+ c = a +:+ (b +:+ c).
Proof. induction a as [|x a IH]; cbn [String.append]; [reflexivity|]. now f_equal. Qed.

Lemma append_nil_r (a : string) : a +:+ "" = a.
Proof. induction a as [|x a IH]; cbn [String.append]; [reflexivity|]. now f_equal. Qed.

Lemma word_not_space a : word a = true -> space a = false.
Proof.
  destruct a as [[] [] [] [] [] [] [] []]; vm_compute; congruence.
Qed.

Lemma word_not_dot : word "."%char = false.
Proof. reflexivity. Qed.

Lemma stops_space_identifier s tail :
  identifier s -> stops space (s +:+ tail) = true.
Proof.
  intros [Hne Hw]. destruct s as [|a s]; [congruence|]. simpl in *.
  apply andb_prop in Hw. destruct Hw as [Ha _].
  now rewrite (word_not_space _ Ha).
Qed.

Section Star.
Context {A : Type}.
Implicit Types (k : string -> option A).

(** a run that ends where the class does, when the continuation accepts
    what follows *)
Lemma star_run c k run tail r :
  every c run = true -> stops c tail = true -> k tail = Some r ->
  star c k (run +:+ tail) = Some r.
Proof.
  intros Hrun Hstop Hk. induction run as [|a run IH]; simpl in *.
  - destruct tail as [|b tail]; simpl in *; [exact Hk|].
    destruct (c b); [discriminate|exact Hk].
  - apply andb_prop in Hrun. destruct Hrun as [Ha Hrun].
    rewrite Ha, (IH Hrun). reflexivity.
Qed.

Lemma star_stop c k s : stops c s = true -> star c k s = k s.
Proof.
  destruct s as [|a s]; simpl; [reflexivity|].
  intros H. now destruct (c a).
Qed.

(** a continuation that fails wherever [a] is missing makes the star fail *)
Lemma star_lacks c k a s :
  (forall s', lacks a s' = true -> k s' = None) ->
  lacks a s = true -> star c k s = None.
Proof.
  intros Hk. induction s as [|b s IH]; intros Hl; simpl.
  - now apply Hk.
  - pose proof Hl as Hl'. unfold lacks in Hl'. simpl in Hl'.
    apply andb_prop in Hl'. destruct Hl' as [_ Hs].
    destruct (c b); [rewrite (IH Hs)|]; now apply Hk.
Qed.
End Star.

Section Exec.
Context {A : Type}.
Implicit Types (k : string -> list string -> option A).

Lemma exec_grp r s caps k :
  exec (Grp r) s caps k
  = exec r s caps (fun s1 caps1 =>
      k s1 (caps1 ++ [String.substring 0 (String.length s - String.length s1) s])).
Proof. reflexivity. Qed.

Lemma exec_seq r1 r2 s caps k :
  exec (Seq r1 r2) s caps k = exec r1 s caps (fun s1 caps1 => exec r2 s1 caps1 k).
Proof. reflexivity. Qed.

Lemma exec_star c s caps k :
  exec (Star c) s caps k = star c (fun s' => k s' caps) s.
Proof. reflexivity. Qed.

Lemma exec_opt c a s caps k :
  exec (Opt c) (String a s) caps k
  = if c a then match k s caps with Some r => Some r | None => k (String a s) caps end
    else k (String a s) caps.
Proof. reflexivity. Qed.

Lemma exec_chr c a s caps k :
  exec (Chr c) (String a s) caps k = if c a then k s caps else None.
Proof. reflexivity. Qed.

Lemma exec_plus_run k run tail caps r :
  identifier run -> stops word tail = true -> k tail caps = Some r ->
  exec (Plus word) (run +:+ tail) caps k = Some r.
Proof.
  intros [Hne Hw] Hstop Hk. destruct run as [|a run]; [congruence|].
  simpl in *. apply andb_prop in Hw. destruct Hw as [Ha Hw]. rewrite Ha.
  now apply star_run.
Qed.

(** [(\w+)] in front of something that is not a word character *)
Lemma exec_word_group k run tail caps r :
  identifier run -> stops word tail = true -> k tail (caps ++ [run]) = Some r ->
  exec (Grp (Plus word)) (run +:+ tail) caps k = Some r.
Proof.
  intros Hid Hstop Hk. rewrite exec_grp.
  apply (exec_plus_run _ run tail caps r Hid Hstop).
  now rewrite substring_prefix.
Qed.

(** [_?\w+] in front of something that is not a word character: the
    optional underscore is given back when nothing else is left for [\w+] *)
Lemma exec_opt_plus k run tail caps r :
  identifier run -> stops word tail = true -> k tail caps = Some r ->
  exec (Seq (Opt (just "_")) (Plus word)) (run +:+ tail) caps k = Some r.
Proof.
  intros Hid Hstop Hk. rewrite exec_seq.
  pose proof (exec_plus_run k run tail caps r Hid Hstop Hk) as Hall.
  destruct Hid as [Hne Hw]. destruct run as [|a run]; [congruence|].
  change (String a run +:+ tail) with (String a (run +:+ tail)) in *.
  rewrite exec_opt. destruct (just "_" a); [|exact Hall].
  destruct (exec (Plus word) (run +:+ tail) caps k) as [r'|] eqn:Efirst; [|exact Hall].
  destruct run as [|a' run].
  - change ("" +:+ tail) with tail in Efirst. destruct tail as [|b tail]; [discriminate|].
    cbn [exec] in Efirst. simpl in Hstop. destruct (word b); discriminate.
  - simpl in Hw. apply andb_prop in Hw. destruct Hw as [_ Hw].
    assert (Hrun : identifier (String a' run)) by (split; [discriminate|exact Hw]).
    rewrite (exec_plus_run k (String a' run) tail caps r Hrun Hstop Hk) in Efirst.
    congruence.
Qed.

(** [(_?\w+)] in front of something that is not a word character *)
Lemma exec_prop_group k run tail caps r :
  identifier run -> stops word tail = true -> k tail (caps ++ [run]) = Some r ->
  exec (Grp (Seq (Opt (just "_")) (Plus word))) (run +:+ tail) caps k = Some r.
Proof.
  intros Hid Hstop Hk. rewrite exec_grp.
  apply exec_opt_plus; auto. now rewrite substring_prefix.
Qed.

(** [\s*\.\s*(\w+)] on [.name] *)
Lemma exec_dotMember k name tail caps r :
  identifier name -> stops word tail = true -> k tail (caps ++ [name]) = Some r ->
  exec dotMember ("." +:+ name +:+ tail) caps k = Some r.
Proof.
  intros Hid Hstop Hk. unfold dotMember. cbn [seq exec String.append].
  rewrite star_stop by reflexivity. cbn [just Ascii.eqb Bool.eqb].
  rewrite star_stop by (now apply stops_space_identifier).
  now apply exec_word_group.
Qed.

(** [this\.(_?\w+)] on [this.name] *)
Lemma exec_thisProp k name tail caps r :
  identifier name -> stops word tail = true -> k tail (caps ++ [name]) = Some r ->
  exec thisProp ("this." +:+ name +:+ tail) caps k = Some r.
Proof.
  intros Hid Hstop Hk. unfold thisProp.
  cbn [lit exec String.append just Ascii.eqb Bool.eqb].
  now apply exec_prop_group.
Qed.

(** a pattern that starts with [inject\s*\(] needs an opening parenthesis *)
Lemma exec_inject_lacks rest k s caps :
  lacks "(" s = true ->
  exec (Seq (lit "inject") (Seq (Star space) (Seq (Chr (just "(")) rest))) s caps k = None.
Proof.
  intros Hl.
  assert (Hparen : forall s', lacks "(" s' = true ->
            exec (Seq (Chr (just "(")) rest) s' caps k = None).
  { intros [|b s'] H; [reflexivity|]. cbn [exec].
    unfold lacks in H. simpl in H. apply andb_prop in H. destruct H as [Hb _].
    unfold but in Hb. unfold just. now destruct (Ascii.eqb "(" b). }
  assert (Hstar : forall s', lacks "(" s' = true ->
            exec (Seq (Star space) (Seq (Chr (just "(")) rest)) s' caps k = None).
  { intros s' H. cbn [exec]. apply (star_lacks _ _ "("%char); auto. }
  assert (Htail : forall a s', lacks "(" (String a s') = true -> lacks "(" s' = true).
  { intros a s' H. unfold lacks in *. simpl in H. now apply andb_prop in H. }
  cbn [lit exec].
  repeat (destruct s as [|? s]; [reflexivity|];
          match goal with |- context [just ?x ?y] => destruct (just x y) end;
          [apply Htail in Hl|reflexivity]).
  now apply Hstar.
Qed.
End Exec.

Lemma lacks_app a s t : lacks a (s +:+ t) = lacks a s && lacks a t.
Proof.
  unfold lacks. induction s as [|b s IH]; simpl; [reflexivity|].
  now rewrite IH, andb_assoc.
Qed.

Lemma lacks_paren_identifier s : identifier s -> lacks "(" s = true.
Proof.
  intros [_ Hw]. unfold lacks. induction s as [|a s IH]; simpl in *; [reflexivity|].
  apply andb_prop in Hw. destruct Hw as [Ha Hw]. rewrite (IH Hw), andb_true_r.
  unfold but. destruct (Ascii.eqb "(" a) eqn:E; [|reflexivity].
  apply Ascii.eqb_eq in E. subst a. discriminate.
Qed.

(** no opening parenthesis, no [inject(Type).method] *)
Lemma jsMatch_injectCall_lacks s :
  lacks "(" s = true -> jsMatch rxInjectCall s = None.
Proof.
  intros Hl. unfold jsMatch, rxInjectCall. cbn [anchored body].
  assert (Hhere : forall s', lacks "(" s' = true ->
            matchHere (Seq injectCore dotMember) s' = None).
  { intros s' H. unfold matchHere. rewrite exec_seq. unfold injectCore. cbn [seq].
    now apply exec_inject_lacks. }
  assert (Hsearch : search (Seq injectCore dotMember) s = None).
  { induction s as [|a s IH]; cbn [search].
    - now rewrite Hhere.
    - rewrite (Hhere _ Hl).
      unfold lacks in Hl. simpl in Hl. apply andb_prop in Hl. destruct Hl as [_ Hs].
      now rewrite (IH Hs). }
  now rewrite Hsearch.
Qed.

(** [name(...)] at the start of an expression is its first call-like match *)
Lemma jsMatch_methodCall name rest :
  identifier name -> jsMatch rxMethodCall (name +:+ "(" +:+ rest) = Some [name].
Proof.
  intros Hid. unfold jsMatch, rxMethodCall. cbn [anchored body seq].
  assert (Hhere : matchHere (Seq (Grp (Plus word)) (Seq (Star space) (Chr (just "("))))
                    (name +:+ "(" +:+ rest)
                  = Some {| before := ""; groups := [name]; after := rest |}).
  { unfold matchHere. rewrite exec_seq.
    apply exec_word_group; [exact Hid|reflexivity|reflexivity]. }
  destruct (name +:+ "(" +:+ rest); cbn [search]; rewrite Hhere; reflexivity.
Qed.

(** [this.b.c] and [this.b.c.m] *)
Lemma jsMatch_simple b c tail :
  identifier b -> identifier c -> stops word tail = true ->
  jsMatch rxSimple ("this." +:+ b +:+ "." +:+ c +:+ tail) = Some [b; c].
Proof.
  intros Hb Hc Ht. unfold jsMatch, rxSimple, matchHere. cbn [anchored body].
  rewrite exec_seq.
  rewrite (exec_thisProp _ b ("." +:+ c +:+ tail) []
             {| before := ""; groups := [b; c]; after := tail |}); auto.
  now apply exec_dotMember.
Qed.

Lemma jsMatch_nested b c m tail :
  identifier b -> identifier c -> identifier m -> stops word tail = true ->
  jsMatch rxNested ("this." +:+ b +:+ "." +:+ c +:+ "." +:+ m +:+ tail) = Some [b; c; m].
Proof.
  intros Hb Hc Hm Ht. unfold jsMatch, rxNested, matchHere. cbn [anchored body seq].
  rewrite exec_seq.
  rewrite (exec_thisProp _ b ("." +:+ c +:+ "." +:+ m +:+ tail) []
             {| before := ""; groups := [b; c; m]; after := tail |}); auto.
  rewrite exec_seq. apply exec_dotMember; auto.
  now apply exec_dotMember.
Qed.

End RegexFacts.
(** * The state after extraction *)

Module ScanFacts.
Import OMapFacts OSetFacts GraphFacts.

Lemma flat_map_map {A B C} (f : B -> list C) (g : A -> B) l :
  flat_map f (map g l) = flat_map (fun x => f (g x)) l.
Proof. induction l as [|x l IH]; simpl; [reflexivity|]. now rewrite IH. Qed.

Lemma flat_map_single {A B} (f : A -> B) l : flat_map (fun x => [f x]) l = map f l.
Proof. induction l as [|x l IH]; simpl; [reflexivity|]. now rewrite IH. Qed.

Lemma run_bind {A B} (m : Scan A) (f : A -> Scan B) s :
  bind m f s = f (fst (m s)) (snd (m s)).
Proof. unfold bind. now destruct (m s). Qed.

Lemma applyEffect_no s : applyEffect noEffect s = s.
Proof. now destruct s. Qed.

Lemma applyEffect_then e1 e2 s :
  applyEffect (thenEffect e1 e2) s = applyEffect e2 (applyEffect e1 s).
Proof. reflexivity. Qed.

(** [mapS] through a function whose result is [g x] and whose effect is
    [eff x] *)
Lemma mapS_effect {A B} (f : A -> Scan B) (g : A -> B) (eff : A -> Effect) xs :
  (forall x s, f x s = (g x, applyEffect (eff x) s)) ->
  forall s, mapS f xs s = (map g xs, applyEffect (effects eff xs) s).
Proof.
  intros Hf. induction xs as [|x xs IH]; intros s; simpl.
  - unfold ret. now rewrite applyEffect_no.
  - rewrite run_bind, Hf. cbn [fst snd].
    rewrite run_bind, IH. cbn [fst snd]. unfold ret.
    now rewrite applyEffect_then.
Qed.

Lemma forS_addCaller (key : string -> string) (caller : string -> string) calls : forall s,
  forS (fun call => modify (fun s =>
          withReverseCallGraph (addCaller (key call) (caller call) (reverseCallGraph s)) s))
       calls s
  = (tt, withReverseCallGraph
           (addEdges (map (fun call => (key call, caller call)) calls)
                     (reverseCallGraph s)) s).
Proof.
  induction calls as [|c calls IH]; intros s; simpl.
  - unfold ret. now destruct s.
  - rewrite run_bind. unfold modify at 1. cbn [fst snd]. rewrite IH.
    now destruct s.
Qed.

Lemma scanMethod_effect cls method s :
  scanMethod method cls s = (methodInfoOf method, applyEffect (methodEffect cls method) s).
Proof.
  unfold scanMethod. rewrite run_bind. unfold modify at 1. cbn [fst snd].
  rewrite run_bind.
  rewrite (forS_addCaller (fun call => call)
             (fun _ => cls +:+ "." +:+ md_name method)).
  cbn [fst snd]. unfold ret. now destruct s.
Qed.

Lemma scanClass_effect cls s :
  scanClass cls s = (classInfoOf cls, applyEffect (classEffect cls) s).
Proof.
  unfold scanClass. rewrite run_bind.
  rewrite (mapS_effect _ methodInfoOf (methodEffect (className cls)))
    by (intros; apply scanMethod_effect).
  reflexivity.
Qed.

Lemma registerFunction_effect fnName calls locals s :
  registerFunction fnName calls locals s
  = (tt, applyEffect (registerEffect fnName calls locals) s).
Proof.
  unfold registerFunction. rewrite run_bind. unfold modify at 1. cbn [fst snd].
  unfold applyEffect, registerEffect. cbn.
  destruct (bool_decide (extractLocalInjections locals = ∅)); now destruct s.
Qed.

Lemma scanFunction_effect fn s :
  scanFunction fn s = (functionInfoOf fn, applyEffect (functionEffect fn) s).
Proof.
  unfold scanFunction. rewrite run_bind, registerFunction_effect. reflexivity.
Qed.

Lemma scanVariable_effect v s :
  scanVariable v s = (variableInfosOf v, applyEffect (variableEffect v) s).
Proof.
  unfold scanVariable, variableInfosOf, variableEffect.
  destruct (vd_initializer v) as [i|];
    [|unfold ret; now rewrite applyEffect_no].
  destruct (in_kind i);
    try (rewrite run_bind, registerFunction_effect; reflexivity).
  unfold ret. now rewrite applyEffect_no.
Qed.

Lemma addTemplateBindings_effect file bindings s :
  templateBindings file = Some bindings ->
  addTemplateBindingsToCallGraph file bindings s
  = (tt, applyEffect (templateEffect file) s).
Proof.
  intros Htb. unfold addTemplateBindingsToCallGraph, templateEffect, templateEdges.
  rewrite Htb.
  destruct (classes file) as [|cls0 others].
  { unfold ret. now destruct s. }
  destruct (Js.truthy (c_name cls0)); cbn [negb].
  2:{ unfold ret. now destruct s. }
  unfold templateEdgesOf. generalize (relativePath file). intros rel.
  clear Htb. revert s. induction bindings as [|b bs IH]; intros s; simpl.
  - unfold ret. now destruct s.
  - rewrite run_bind.
    destruct (Regex.jsMatch Regex.rxMethodCall (tb_expression b)) as [gs|].
    + unfold modify at 1. cbn [fst snd]. rewrite IH.
      unfold applyEffect. cbn. now destruct s.
    + unfold ret at 1. cbn [fst snd]. rewrite IH. reflexivity.
Qed.

Lemma scanFile_effect sf s :
  scanFile sf s
  = (plainFileInfoOf sf,
     applyEffect (thenEffect (effects classEffect (sf_classes sf))
                    (thenEffect (effects functionEffect (sf_functions sf))
                       (effects variableEffect (sf_variables sf)))) s).
Proof.
  unfold scanFile, getClasses, getFunctions.
  rewrite run_bind.
  rewrite (mapS_effect _ classInfoOf classEffect) by (intros; apply scanClass_effect).
  cbn [fst snd]. rewrite !run_bind.
  rewrite (mapS_effect _ functionInfoOf functionEffect)
    by (intros; apply scanFunction_effect).
  cbn [fst snd].
  rewrite (mapS_effect _ variableInfosOf variableEffect)
    by (intros; apply scanVariable_effect).
  reflexivity.
Qed.

Lemma scanSourceFile_effect fw sf s :
  scanSourceFile fw sf s = (fileInfoOf fw sf, applyEffect (fileEffect fw sf) s).
Proof.
  unfold scanSourceFile, fileEffect. rewrite run_bind, scanFile_effect. cbn [fst snd].
  assert (Hplain : forall s0 : Scanner,
    templateEdges (plainFileInfoOf sf) = [] /\
    applyEffect (templateEffect (plainFileInfoOf sf)) s0 = s0).
  { intros s0. split; [reflexivity|]. now destruct s0. }
  unfold fileInfoOf. destruct fw.
  - destruct (scanAngularTemplate sf) as [|b bs] eqn:Eb.
    + unfold ret. rewrite !applyEffect_then.
      now rewrite (proj2 (Hplain _)).
    + rewrite run_bind.
      rewrite (addTemplateBindings_effect _ (b :: bs)) by reflexivity.
      reflexivity.
  - unfold ret. rewrite !applyEffect_then. now rewrite (proj2 (Hplain _)).
  - unfold ret. rewrite !applyEffect_then. now rewrite (proj2 (Hplain _)).
Qed.

(** ** What the effects amount to on the reverse graph *)

Lemma effects_onReverse {A} (eff : A -> Effect) (E : A -> list (string * string)) xs :
  (forall x g, onReverse (eff x) g = addEdges (E x) g) ->
  forall g, onReverse (effects eff xs) g = addEdges (flat_map E xs) g.
Proof.
  intros H. induction xs as [|x xs IH]; intros g; simpl; [reflexivity|].
  now rewrite H, IH, addEdges_app.
Qed.

Lemma classEffect_onReverse cls g :
  onReverse (classEffect cls) g
  = addEdges (flat_map (rawEdgesOfMethod (c_name (classInfoOf cls)))
                (c_methods (classInfoOf cls))) g.
Proof.
  unfold classEffect. cbn [classInfoOf c_name c_methods].
  rewrite (effects_onReverse _
             (fun m => rawEdgesOfMethod (className cls) (methodInfoOf m)))
    by reflexivity.
  now rewrite flat_map_map.
Qed.

Lemma functionEffect_onReverse fn g : onReverse (functionEffect fn) g = g.
Proof. reflexivity. Qed.

Lemma variableEffect_onReverse v g : onReverse (variableEffect v) g = g.
Proof.
  unfold variableEffect. destruct (vd_initializer v) as [i|]; [|reflexivity].
  destruct (in_kind i); reflexivity.
Qed.

Lemma fileEffect_onReverse fw sf g :
  onReverse (fileEffect fw sf) g
  = addEdges (rawEdges (fileInfoOf fw sf) ++ templateEdges (fileInfoOf fw sf)) g.
Proof.
  unfold fileEffect. cbn [thenEffect onReverse templateEffect].
  rewrite (effects_onReverse variableEffect (fun _ => []))
    by (intros; apply variableEffect_onReverse).
  rewrite (effects_onReverse functionEffect (fun _ => [])) by reflexivity.
  rewrite (effects_onReverse classEffect
             (fun cls => flat_map (rawEdgesOfMethod (c_name (classInfoOf cls)))
                           (c_methods (classInfoOf cls))))
    by (intros; apply classEffect_onReverse).
  assert (Enil : forall A (l : list A), flat_map (fun _ => @nil (string * string)) l = [])
    by (intros A l; induction l; auto).
  rewrite !Enil. cbn [addEdges fold_left].
  rewrite addEdges_app. f_equal. f_equal.
  unfold rawEdges.
  assert (Ecls : classes (fileInfoOf fw sf) = map classInfoOf (sf_classes sf)).
  { unfold fileInfoOf. destruct fw; try reflexivity.
    destruct (scanAngularTemplate sf); reflexivity. }
  rewrite Ecls. now rewrite flat_map_map.
Qed.

Lemma scanFiles_effect fw sfs s :
  mapS (scanSourceFile fw) sfs s
  = (map (fileInfoOf fw) sfs, applyEffect (effects (fileEffect fw) sfs) s).
Proof. apply mapS_effect. intros; apply scanSourceFile_effect. Qed.

Lemma scanFiles_onReverse fw sfs g :
  onReverse (effects (fileEffect fw) sfs) g
  = addEdges (flat_map (fun file => rawEdges file ++ templateEdges file)
                (map (fileInfoOf fw) sfs)) g.
Proof.
  rewrite (effects_onReverse _
             (fun sf => rawEdges (fileInfoOf fw sf) ++ templateEdges (fileInfoOf fw sf)))
    by (intros; apply fileEffect_onReverse).
  now rewrite flat_map_map.
Qed.

End ScanFacts.
(** * The state after cross-file resolution *)

Module ResolveFacts.
Import OMapFacts OSetFacts GraphFacts ScanFacts.

Lemma withReverse_id s : withReverseCallGraph (reverseCallGraph s) s = s.
Proof. now destruct s. Qed.

(** A loop whose body adds the pairs [E this x], where [E] does not look at
    the reverse graph, adds them all. *)
Lemma forS_reverse {A} (f : A -> Scan unit)
    (E : Scanner -> A -> list (string * string)) :
  (forall x s, f x s
     = (tt, withReverseCallGraph (addEdges (E s x) (reverseCallGraph s)) s)) ->
  (forall g s x, E (withReverseCallGraph g s) x = E s x) ->
  forall xs s, forS f xs s
     = (tt, withReverseCallGraph
              (addEdges (flat_map (E s) xs) (reverseCallGraph s)) s).
Proof.
  intros Hf HE. induction xs as [|x xs IH]; intros s; simpl.
  - unfold ret. now rewrite withReverse_id.
  - rewrite run_bind, Hf. cbn [fst snd]. rewrite IH.
    assert (EE : forall g, flat_map (E (withReverseCallGraph g s)) xs = flat_map (E s) xs).
    { intros g. clear IH. induction xs as [|y ys IHy]; simpl; [reflexivity|].
      now rewrite HE, IHy. }
    rewrite EE, addEdges_app. reflexivity.
Qed.

Lemma recordResolved_effect resolvedCall caller s :
  recordResolved resolvedCall caller s
  = (tt, withReverseCallGraph
           (addEdges (resolvedPair resolvedCall caller) (reverseCallGraph s)) s).
Proof.
  unfold recordResolved, resolvedPair.
  destruct resolvedCall as [callee|]; [destruct (Js.truthy callee)|];
    unfold ret, modify; cbn; now rewrite ?withReverse_id.
Qed.

Lemma resolveMethod_effect cls injections method s :
  resolveMethod cls injections method s
  = (tt, withReverseCallGraph
           (addEdges
              (flat_map (fun call =>
                 resolvedPair (resolveMethodCall s injections call)
                   (cls +:+ "." +:+ m_name method)) (m_calls method))
              (reverseCallGraph s)) s).
Proof.
  unfold resolveMethod.
  apply (forS_reverse _ (fun this call =>
           resolvedPair (resolveMethodCall this injections call)
             (cls +:+ "." +:+ m_name method))).
  - intros call s0. rewrite run_bind. unfold gets at 1. cbn [fst snd id].
    apply recordResolved_effect.
  - reflexivity.
Qed.

Lemma resolveClass_effect cls s :
  resolveClass cls s
  = (tt, withReverseCallGraph
           (addEdges (resolvedEdgesOfClass s cls) (reverseCallGraph s)) s).
Proof.
  unfold resolveClass. rewrite run_bind. unfold gets at 1. cbn [fst snd id].
  unfold resolvedEdgesOfClass.
  apply (forS_reverse _ (fun this method =>
           flat_map (fun call =>
             resolvedPair
               (resolveMethodCall this (default ∅ (injectionMap s !! c_name cls)) call)
               (c_name cls +:+ "." +:+ m_name method)) (m_calls method))).
  - intros method s0. apply resolveMethod_effect.
  - reflexivity.
Qed.

Lemma resolveFunction_effect fn s :
  resolveFunction fn s
  = (tt, withReverseCallGraph
           (addEdges (resolvedEdgesOfFunction s fn) (reverseCallGraph s)) s).
Proof.
  unfold resolveFunction. rewrite run_bind. unfold gets at 1. cbn [fst snd id].
  unfold resolvedEdgesOfFunction.
  apply (forS_reverse _ (fun this call =>
           resolvedPair
             (resolveFunctionCall this
                (default ∅ (localInjectionMap s !! f_name fn)) call)
             ("function:" +:+ f_name fn))).
  - intros call s0. rewrite run_bind. unfold gets at 1. cbn [fst snd id].
    apply recordResolved_effect.
  - reflexivity.
Qed.

Lemma resolveFile_effect file s :
  resolveFile file s
  = (tt, withReverseCallGraph
           (addEdges (resolvedEdges s file) (reverseCallGraph s)) s).
Proof.
  unfold resolveFile. rewrite run_bind.
  rewrite (forS_reverse resolveClass resolvedEdgesOfClass)
    by (auto using resolveClass_effect).
  cbn [fst snd].
  rewrite (forS_reverse resolveFunction resolvedEdgesOfFunction)
    by (auto using resolveFunction_effect).
  unfold resolvedEdges. rewrite addEdges_app. reflexivity.
Qed.

Lemma resolveCrossFileCalls_effect fileInfos s :
  resolveCrossFileCalls fileInfos s
  = (tt, withReverseCallGraph
           (addEdges (flat_map (resolvedEdges s) fileInfos) (reverseCallGraph s)) s).
Proof.
  unfold resolveCrossFileCalls.
  apply (forS_reverse resolveFile resolvedEdges); auto using resolveFile_effect.
Qed.

(** ** Pass 1 leaves the graphs alone and builds equal binding maps *)

Lemma collectClass_spec cls cpm s :
  collected cpm s ->
  collected (fst (collectClass cls cpm s)) (snd (collectClass cls cpm s))
  /\ callGraph (snd (collectClass cls cpm s)) = callGraph s
  /\ reverseCallGraph (snd (collectClass cls cpm s)) = reverseCallGraph s
  /\ localInjectionMap (snd (collectClass cls cpm s)) = localInjectionMap s.
Proof.
  intros Hcol. pose proof Hcol as [Hc [Hi Hm]]. unfold collectClass.
  destruct (cd_name cls) as [name|]; [|cbn; auto].
  destruct (Js.truthy name) eqn:Et; cbn [negb]; [|cbn; auto].
  unfold bind, modify, gets, ret.
  cbn [classMethodsMap withClassMethodsMap].
  remember (match cd_constructors cls with
            | [] => propertyInjections (cd_properties cls) ∅
            | ctor :: _ =>
                constructorInjections
                  (<[name := OSet.ofList (map md_name (cd_methods cls))]>
                     (classMethodsMap s)) ctor
                  (propertyInjections (cd_properties cls) ∅)
            end) as inj eqn:Einj.
  clear Einj.
  assert (Hm' : forall k, is_Some (<[name := OSet.ofList (map md_name (cd_methods cls))]>
                                     (classMethodsMap s) !! k) -> Js.truthy k = true).
  { intros k. destruct (decide (name = k)) as [<-|Hne]; [auto|].
    rewrite lookup_insert_ne by auto. apply Hm. }
  destruct (bool_decide (inj = ∅)).
  - cbn. repeat split; auto.
  - cbn. repeat split; auto.
    + now rewrite Hc.
    + intros k. destruct (decide (name = k)) as [<-|Hne]; [auto|].
      cbn. rewrite lookup_insert_ne by auto. apply Hi.
Qed.

Lemma collectClasses_spec clss : forall cpm s,
  collected cpm s ->
  collected (fst (collectClasses clss cpm s)) (snd (collectClasses clss cpm s))
  /\ callGraph (snd (collectClasses clss cpm s)) = callGraph s
  /\ reverseCallGraph (snd (collectClasses clss cpm s)) = reverseCallGraph s
  /\ localInjectionMap (snd (collectClasses clss cpm s)) = localInjectionMap s.
Proof.
  induction clss as [|cls clss IH]; intros cpm s Hc; simpl.
  - cbn. auto.
  - rewrite run_bind.
    destruct (collectClass_spec cls cpm s Hc) as [Hc1 [E1 [E2 E3]]].
    destruct (IH _ _ Hc1) as [Hc2 [F1 [F2 F3]]].
    repeat split; try apply Hc2; congruence.
Qed.

Lemma collectClassInfo_spec sfs :
  let s := snd (collectClassInfo sfs emptyScanner) in
  callGraph s = [] /\ reverseCallGraph s = [] /\ localInjectionMap s = ∅
  /\ nestedInjectionMap s = injectionMap s
  /\ (forall k, is_Some (injectionMap s !! k) -> Js.truthy k = true)
  /\ (forall k, is_Some (classMethodsMap s !! k) -> Js.truthy k = true).
Proof.
  unfold collectClassInfo. rewrite run_bind. unfold modify. cbn [fst snd].
  assert (H0 : collected ∅ emptyScanner).
  { repeat split; cbn; intros k [x Hx]; rewrite lookup_empty in Hx; discriminate. }
  destruct (collectClasses_spec (flat_map sf_classes sfs) ∅ emptyScanner H0)
    as [[Hc [Hi Hm]] [E1 [E2 E3]]].
  cbn. repeat split; auto.
Qed.

(** ** The graphs [buildGraphs] ends with *)

Lemma buildGraphs_eq fw sfs :
  let s1 := snd (collectClassInfo sfs emptyScanner) in
  let s2 := applyEffect (effects (fileEffect fw) sfs) s1 in
  let fileInfos := map (fileInfoOf fw) sfs in
  buildGraphs fw sfs emptyScanner
  = (fileInfos,
     withReverseCallGraph
       (addEdges (flat_map (resolvedEdges s2) fileInfos) (reverseCallGraph s2)) s2).
Proof.
  cbv zeta. unfold buildGraphs. rewrite run_bind. rewrite run_bind.
  rewrite scanFiles_effect. cbn [fst snd].
  rewrite run_bind, resolveCrossFileCalls_effect. reflexivity.
Qed.

Lemma resolvedEdges_withReverse g s file :
  resolvedEdges (withReverseCallGraph g s) file = resolvedEdges s file.
Proof. reflexivity. Qed.

(** The reverse graph is the raw and template pairs of every file, in scan
    order, followed by the resolved pairs of every file. *)
Lemma reverseCallGraph_built fw sfs fileInfos this :
  buildGraphs fw sfs emptyScanner = (fileInfos, this) ->
  fileInfos = map (fileInfoOf fw) sfs
  /\ reverseCallGraph this
     = addEdges (flat_map (resolvedEdges this) fileInfos)
         (addEdges (flat_map (fun file => rawEdges file ++ templateEdges file) fileInfos)
            [])
  /\ nestedInjectionMap this = injectionMap this
  /\ (forall k, is_Some (injectionMap this !! k) -> Js.truthy k = true)
  /\ (forall k, is_Some (classMethodsMap this !! k) -> Js.truthy k = true).
Proof.
  rewrite buildGraphs_eq. intros [= <- <-].
  destruct (collectClassInfo_spec sfs) as [E1 [E2 [E3 [E4 [Hi Hm]]]]].
  split; [reflexivity|].
  cbn [reverseCallGraph withReverseCallGraph applyEffect nestedInjectionMap
       injectionMap classMethodsMap].
  rewrite scanFiles_onReverse, E2.
  repeat split; auto.
Qed.

End ResolveFacts.
(** * The two call graphs of a scan *)

Module BuiltFacts.
Import OMapFacts OSetFacts GraphFacts ScanFacts ResolveFacts.

Lemma truthy_qualified a b : Js.truthy (qualified a b) = true.
Proof. unfold qualified, Js.truthy. now destruct a. Qed.

Lemma truthy_orElse o d : Js.truthy d = true -> Js.truthy (Js.orElse o d) = true.
Proof.
  intros Hd. unfold Js.orElse. destruct o as [s|]; auto.
  destruct (Js.truthy s) eqn:E; auto.
Qed.

Lemma truthy_className cls : Js.truthy (className cls) = true.
Proof. now apply truthy_orElse. Qed.

(** every resolution rule produces [Class.method] *)
Lemma resolveSimple_shape this inj call r k :
  resolveSimple this inj call r = Some k ->
  r = Some k \/ exists a b, k = qualified a b.
Proof.
  unfold resolveSimple.
  repeat match goal with
         | |- context [match ?x with _ => _ end] => destruct x
         end; intros [= <-]; eauto.
Qed.

Lemma resolveNested_shape this inj call r k :
  resolveNested this inj call r = Some k ->
  r = Some k \/ exists a b, k = qualified a b.
Proof.
  unfold resolveNested.
  repeat match goal with
         | |- context [match ?x with _ => _ end] => destruct x
         end; intros [= <-]; eauto.
Qed.

Lemma resolveInject_shape this call r k :
  resolveInject this call r = Some k ->
  r = Some k \/ exists a b, k = qualified a b.
Proof.
  unfold resolveInject.
  repeat match goal with
         | |- context [match ?x with _ => _ end] => destruct x
         end; intros [= <-]; eauto.
Qed.

Lemma resolveLocalVar_shape this inj call r k :
  resolveLocalVar this inj call r = Some k ->
  r = Some k \/ exists a b, k = qualified a b.
Proof.
  unfold resolveLocalVar. destruct r as [r|]; [auto|].
  repeat match goal with
         | |- context [match ?x with _ => _ end] => destruct x
         end; intros [= <-]; eauto.
Qed.

Lemma resolveMethodCall_shape this inj call k :
  resolveMethodCall this inj call = Some k -> exists a b, k = qualified a b.
Proof.
  unfold resolveMethodCall. intros H.
  apply resolveInject_shape in H. destruct H as [H|H]; auto.
  apply resolveNested_shape in H. destruct H as [H|H]; auto.
  apply resolveSimple_shape in H. destruct H as [H|H]; auto. discriminate.
Qed.

Lemma resolveFunctionCall_shape this inj call k :
  resolveFunctionCall this inj call = Some k -> exists a b, k = qualified a b.
Proof.
  unfold resolveFunctionCall. intros H.
  apply resolveLocalVar_shape in H. destruct H as [H|H]; auto.
  apply resolveInject_shape in H. destruct H as [H|H]; auto. discriminate.
Qed.

Lemma In_resolvedPair r caller k c :
  (exists a b, r = Some (qualified a b)) \/ r = None ->
  In (k, c) (resolvedPair r caller) <-> r = Some k /\ c = caller.
Proof.
  intros Hr. unfold resolvedPair. destruct r as [callee|].
  - destruct Hr as [[a [b [= ->]]]|Hr]; [|discriminate].
    rewrite truthy_qualified. simpl. intuition congruence.
  - simpl. intuition congruence.
Qed.

Lemma In_resolvedPair_method this inj call caller k c :
  In (k, c) (resolvedPair (resolveMethodCall this inj call) caller)
  <-> resolveMethodCall this inj call = Some k /\ c = caller.
Proof.
  apply In_resolvedPair.
  destruct (resolveMethodCall this inj call) as [r|] eqn:E; [left|now right].
  apply resolveMethodCall_shape in E. destruct E as [a [b ->]]. eauto.
Qed.

Lemma In_resolvedPair_function this inj call caller k c :
  In (k, c) (resolvedPair (resolveFunctionCall this inj call) caller)
  <-> resolveFunctionCall this inj call = Some k /\ c = caller.
Proof.
  apply In_resolvedPair.
  destruct (resolveFunctionCall this inj call) as [r|] eqn:E; [left|now right].
  apply resolveFunctionCall_shape in E. destruct E as [a [b ->]]. eauto.
Qed.

Lemma In_rawEdges file k c :
  In (k, c) (rawEdges file) <->
  exists cls method, In cls (classes file) /\ In method (c_methods cls)
    /\ In k (m_calls method) /\ c = c_name cls +:+ "." +:+ m_name method.
Proof.
  unfold rawEdges, rawEdgesOfMethod. rewrite in_flat_map. split.
  - intros [cls [Hc H]]. apply in_flat_map in H. destruct H as [m [Hm H]].
    apply in_map_iff in H. destruct H as [call [[= <- <-] Hcall]]. eauto 6.
  - intros [cls [m [Hc [Hm [Hk ->]]]]]. exists cls. split; auto.
    apply in_flat_map. exists m. split; auto.
    apply in_map_iff. eauto.
Qed.

Lemma In_templateEdgesOf cls rel bindings k c :
  In (k, c) (templateEdgesOf cls rel bindings) <->
  exists binding gs, In binding bindings
    /\ Regex.jsMatch Regex.rxMethodCall (tb_expression binding) = Some gs
    /\ k = cls +:+ "." +:+ Regex.nthGroup 0 gs /\ c = "template:" +:+ rel.
Proof.
  unfold templateEdgesOf. rewrite in_flat_map. split.
  - intros [b [Hb H]].
    destruct (Regex.jsMatch Regex.rxMethodCall (tb_expression b)) as [gs|] eqn:E;
      [|contradiction].
    destruct H as [[= <- <-]|[]]. eauto 6.
  - intros [b [gs [Hb [E [-> ->]]]]]. exists b. split; auto.
    rewrite E. now left.
Qed.

Lemma In_resolvedEdges this file k c :
  In (k, c) (resolvedEdges this file) <->
  (exists cls method call, In cls (classes file) /\ In method (c_methods cls)
     /\ In call (m_calls method)
     /\ resolveMethodCall this (default ∅ (injectionMap this !! c_name cls)) call = Some k
     /\ c = c_name cls +:+ "." +:+ m_name method)
  \/ (exists fn call, In fn (functions file) /\ In call (f_calls fn)
     /\ resolveFunctionCall this (default ∅ (localInjectionMap this !! f_name fn)) call
        = Some k
     /\ c = "function:" +:+ f_name fn).
Proof.
  unfold resolvedEdges. rewrite in_app_iff.
  assert (Hm : In (k, c) (flat_map (resolvedEdgesOfClass this) (classes file)) <->
    (exists cls method call, In cls (classes file) /\ In method (c_methods cls)
     /\ In call (m_calls method)
     /\ resolveMethodCall this (default ∅ (injectionMap this !! c_name cls)) call = Some k
     /\ c = c_name cls +:+ "." +:+ m_name method)).
  { unfold resolvedEdgesOfClass. rewrite in_flat_map. split.
    + intros [cls [Hc H]]. apply in_flat_map in H. destruct H as [m [Hm H]].
      apply in_flat_map in H. destruct H as [call [Hcall H]].
      apply In_resolvedPair_method in H. destruct H as [E ->]. eauto 8.
    + intros [cls [m [call [Hc [Hm [Hcall [E ->]]]]]]]. exists cls. split; auto.
      apply in_flat_map. exists m. split; auto.
      apply in_flat_map. exists call. split; auto.
      now apply In_resolvedPair_method. }
  assert (Hf : In (k, c) (flat_map (resolvedEdgesOfFunction this) (functions file)) <->
    (exists fn call, In fn (functions file) /\ In call (f_calls fn)
     /\ resolveFunctionCall this (default ∅ (localInjectionMap this !! f_name fn)) call
        = Some k
     /\ c = "function:" +:+ f_name fn)).
  { unfold resolvedEdgesOfFunction. rewrite in_flat_map. split.
    + intros [fn [Hfn H]]. apply in_flat_map in H. destruct H as [call [Hcall H]].
      apply In_resolvedPair_function in H. destruct H as [E ->]. eauto 6.
    + intros [fn [call [Hfn [Hcall [E ->]]]]]. exists fn. split; auto.
      apply in_flat_map. exists call. split; auto.
      now apply In_resolvedPair_function. }
  tauto.
Qed.

Lemma resolved_In this fileInfos k c :
  resolvedEdge this fileInfos k c <-> In (k, c) (flat_map (resolvedEdges this) fileInfos).
Proof.
  rewrite in_flat_map. unfold resolvedEdge, resolvedMethodEdge, resolvedFunctionEdge.
  split.
  - intros [[file [cls [m [call [Hf H]]]]]|[file [fn [call [Hf H]]]]];
      exists file; (split; [exact Hf|]); apply In_resolvedEdges; [left|right]; eauto 8.
  - intros [file [Hf H]]. apply In_resolvedEdges in H.
    destruct H as [[cls [m [call H]]]|[fn [call H]]]; [left|right]; eauto 10.
Qed.

(** the file infos of a scan carry non-empty class names *)
Lemma classes_fileInfoOf fw sf :
  classes (fileInfoOf fw sf) = map classInfoOf (sf_classes sf).
Proof.
  unfold fileInfoOf. destruct fw; try reflexivity.
  destruct (scanAngularTemplate sf); reflexivity.
Qed.

Lemma template_In fw sfs k c :
  templateEdge (map (fileInfoOf fw) sfs) k c
  <-> In (k, c) (flat_map templateEdges (map (fileInfoOf fw) sfs)).
Proof.
  rewrite in_flat_map. unfold templateEdge. split.
  - intros [file [bs [cls0 [others [b [gs [Hf [Htb [Hcls [Hb [E [-> ->]]]]]]]]]]]].
    exists file. split; auto. unfold templateEdges. rewrite Htb, Hcls.
    apply in_map_iff in Hf. destruct Hf as [sf [<- Hsf]].
    rewrite classes_fileInfoOf in Hcls.
    destruct (sf_classes sf) as [|cd cds]; [discriminate|].
    injection Hcls as <- _. cbn [classInfoOf c_name].
    rewrite truthy_className. apply In_templateEdgesOf. eauto 6.
  - intros [file [Hf H]]. unfold templateEdges in H.
    destruct (templateBindings file) as [bs|] eqn:Htb; [|contradiction].
    destruct (classes file) as [|cls0 others] eqn:Hcls; [contradiction|].
    destruct (Js.truthy (c_name cls0)); [|contradiction].
    apply In_templateEdgesOf in H. destruct H as [b [gs [Hb [E [-> ->]]]]].
    exists file, bs, cls0, others, b, gs. auto 10.
Qed.

Lemma raw_In fileInfos k c :
  rawEdge fileInfos k c <-> In (k, c) (flat_map rawEdges fileInfos).
Proof.
  rewrite in_flat_map. unfold rawEdge. split.
  - intros [file [cls [m [Hf H]]]]. exists file. split; auto.
    apply In_rawEdges. eauto.
  - intros [file [Hf H]]. apply In_rawEdges in H.
    destruct H as [cls [m H]]. eauto 8.
Qed.

Lemma In_flat_map_app {A B} (f g : A -> list B) l y :
  In y (flat_map (fun x => f x ++ g x) l) <-> In y (flat_map f l) \/ In y (flat_map g l).
Proof.
  rewrite !in_flat_map. split.
  - intros [x [Hx H]]. apply in_app_or in H. destruct H; eauto.
  - intros [[x [Hx H]]|[x [Hx H]]]; exists x; split; auto; apply in_or_app; auto.
Qed.

(** The pairs of the reverse graph of a scan are the raw, the template and
    the resolved ones. *)
Lemma edge_built fw sfs fileInfos this :
  buildGraphs fw sfs emptyScanner = (fileInfos, this) ->
  forall k c,
    edge (reverseCallGraph this) k c
    <-> rawEdge fileInfos k c \/ templateEdge fileInfos k c
        \/ resolvedEdge this fileInfos k c.
Proof.
  intros Hb k c.
  destruct (reverseCallGraph_built _ _ _ _ Hb) as [-> [-> _]].
  rewrite !edge_addEdges, In_flat_map_app.
  rewrite <- raw_In, <- template_In, <- resolved_In.
  pose proof (edge_nil k c). tauto.
Qed.

Lemma populated_built fw sfs fileInfos this :
  buildGraphs fw sfs emptyScanner = (fileInfos, this) ->
  populated (reverseCallGraph this).
Proof.
  intros Hb. destruct (reverseCallGraph_built _ _ _ _ Hb) as [_ [-> _]].
  apply populated_addEdges, populated_addEdges. intros k cs H. discriminate.
Qed.

(** ** The forward graph *)

Lemma ofList_app xs : forall acc,
  NoDup (acc ++ xs) -> fold_left (fun s x => OSet.add x s) xs acc = acc ++ xs.
Proof.
  induction xs as [|x xs IH]; intros acc Hnd; simpl.
  - now rewrite app_nil_r.
  - assert (Hx : OSet.has x acc = false).
    { apply has_false. intros Hin. apply NoDup_remove_2 in Hnd.
      apply Hnd. apply in_or_app. now left. }
    unfold OSet.add at 2. rewrite Hx.
    rewrite IH; rewrite <- app_assoc; auto.
Qed.

Lemma ofList_NoDup xs : NoDup xs -> OSet.ofList xs = xs.
Proof. intros H. unfold OSet.ofList. now rewrite ofList_app. Qed.

Lemma ofList_extractCalls callees :
  OSet.ofList (extractCalls callees) = extractCalls callees.
Proof. apply ofList_NoDup. unfold extractCalls. apply NoDup_ofList. Qed.

Lemma setAll_app es1 es2 g : setAll (es1 ++ es2) g = setAll es2 (setAll es1 g).
Proof. unfold setAll. apply fold_left_app. Qed.

Lemma effects_onCallGraph {A} (eff : A -> Effect) (E : A -> list (string * list string)) xs :
  (forall x g, onCallGraph (eff x) g = setAll (E x) g) ->
  forall g, onCallGraph (effects eff xs) g = setAll (flat_map E xs) g.
Proof.
  intros H. induction xs as [|x xs IH]; intros g; simpl; [reflexivity|].
  now rewrite H, IH, setAll_app.
Qed.

Lemma classEffect_onCallGraph cls g :
  onCallGraph (classEffect cls) g
  = setAll (map (fun m => (c_name (classInfoOf cls) +:+ "." +:+ m_name m, m_calls m))
              (c_methods (classInfoOf cls))) g.
Proof.
  unfold classEffect. cbn [classInfoOf c_name c_methods].
  rewrite (effects_onCallGraph _
             (fun m => [(className cls +:+ "." +:+ md_name m,
                         extractCalls (md_callees m))])).
  - f_equal. now rewrite map_map, flat_map_single.
  - intros m g0. cbn. now rewrite ofList_extractCalls.
Qed.

Lemma variableEffect_onCallGraph v g :
  onCallGraph (variableEffect v) g
  = setAll (map (fun fn => (f_name fn, f_calls fn)) (variableInfosOf v)) g.
Proof.
  unfold variableEffect, variableInfosOf.
  destruct (vd_initializer v) as [i|]; [|reflexivity].
  destruct (in_kind i); cbn; now rewrite ?ofList_extractCalls.
Qed.

Lemma fileEffect_onCallGraph fw sf g :
  onCallGraph (fileEffect fw sf) g = setAll (fileEntries (fileInfoOf fw sf)) g.
Proof.
  unfold fileEffect. cbn [thenEffect onCallGraph templateEffect].
  rewrite (effects_onCallGraph variableEffect
             (fun v => map (fun fn => (f_name fn, f_calls fn)) (variableInfosOf v)))
    by (intros; apply variableEffect_onCallGraph).
  rewrite (effects_onCallGraph functionEffect
             (fun fn => [(f_name (functionInfoOf fn), f_calls (functionInfoOf fn))]))
    by (intros fn g0; cbn; now rewrite ofList_extractCalls).
  rewrite (effects_onCallGraph classEffect
             (fun cls => map (fun m => (c_name (classInfoOf cls) +:+ "." +:+ m_name m,
                                        m_calls m)) (c_methods (classInfoOf cls))))
    by (intros; apply classEffect_onCallGraph).
  rewrite <- !setAll_app. f_equal.
  unfold fileEntries. rewrite classes_fileInfoOf, flat_map_map.
  assert (Efn : functions (fileInfoOf fw sf)
              = map functionInfoOf (sf_functions sf)
                ++ concat (map variableInfosOf (sf_variables sf))).
  { unfold fileInfoOf. destruct fw; try reflexivity.
    destruct (scanAngularTemplate sf); reflexivity. }
  rewrite Efn, map_app. clear Efn. f_equal. f_equal.
  - now rewrite flat_map_single, map_map.
  - induction (sf_variables sf) as [|v vs IH]; simpl; [reflexivity|].
    now rewrite map_app, IH.
Qed.

Lemma get_setAll es g k :
  OMap.get k (setAll es g)
  = match lastEntry k es with Some v => Some v | None => OMap.get k g end.
Proof.
  induction es as [|e es IH] using rev_ind; [reflexivity|].
  unfold setAll, lastEntry in *. rewrite !fold_left_app. cbn [fold_left].
  rewrite get_set. destruct (String.eqb (fst e) k); [reflexivity|exact IH].
Qed.

Lemma callGraph_built fw sfs fileInfos this :
  buildGraphs fw sfs emptyScanner = (fileInfos, this) ->
  callGraph this = setAll (callerEntries fileInfos) [].
Proof.
  rewrite buildGraphs_eq. intros [= <- <-].
  destruct (collectClassInfo_spec sfs) as [E1 _].
  cbn [callGraph withReverseCallGraph applyEffect]. rewrite E1.
  rewrite (effects_onCallGraph _ (fun sf => fileEntries (fileInfoOf fw sf)))
    by (intros; apply fileEffect_onCallGraph).
  unfold callerEntries. now rewrite flat_map_map.
Qed.

End BuiltFacts.

(** C1, as stated, fails: [A.run] calls the free function [helper]; the
    reverse graph records [helper -> A.run], a pair that no resolution rule
    and no template produced. *)
Lemma raw_call_text_is_a_reverse_edge :
  edge (reverseCallGraph RawEdge.this) "helper" "A.run"
  /\ ~ resolvedEdge RawEdge.this RawEdge.fileInfos "helper" "A.run"
  /\ ~ templateEdge RawEdge.fileInfos "helper" "A.run".
Proof.
  split; [|split].
  - exists ["A.run"]. split; [vm_compute; reflexivity|now left].
  - intros H. apply BuiltFacts.resolved_In in H. vm_compute in H. exact H.
  - intros [file [bs [cls0 [others [b [gs [Hf [Htb _]]]]]]]].
    vm_compute in Hf. destruct Hf as [<-|[]]. discriminate.
Qed.

(** C1, amended.  After a scan the forward graph maps every caller
    identity to the call texts of the last method or function scanned under
    it, and the pairs of the reverse graph are exactly: every raw call text
    of every class method with that method as caller, the template pairs,
    and the pairs produced by resolution. *)
Theorem call_graphs_of_a_scan (framework : Framework) (sourceFiles : list SourceFile)
    (fileInfos : list FileInfo) (this : Scanner) :
  buildGraphs framework sourceFiles emptyScanner = (fileInfos, this) ->
  (forall caller,
     OMap.get caller (callGraph this) = lastEntry caller (callerEntries fileInfos))
  /\ (forall key caller,
        edge (reverseCallGraph this) key caller
        <-> rawEdge fileInfos key caller
            \/ templateEdge fileInfos key caller
            \/ resolvedEdge this fileInfos key caller).
Proof.
  intros Hb. split.
  - intros caller. rewrite (BuiltFacts.callGraph_built _ _ _ _ Hb).
    rewrite BuiltFacts.get_setAll. now destruct (lastEntry caller _).
  - now apply (BuiltFacts.edge_built framework sourceFiles).
Qed.
(** * Dead code *)

Module DeadCodeFacts.
Import OSetFacts.

Lemma deadMethod_spec file cls method :
  (unreferenced method /\ deadMethod file cls method = [methodItem file cls method])
  \/ (~ unreferenced method /\ deadMethod file cls method = []).
Proof.
  unfold deadMethod, unreferenced.
  destruct (m_calledBy method) as [|c cs] eqn:Ecb; cbn [length Nat.eqb].
  2:{ right. split; [|reflexivity]. intros [H _]. discriminate. }
  destruct (OSet.has (m_name method) lifecycleHooks) eqn:Ehook.
  { right. split; [|reflexivity]. apply has_In in Ehook. tauto. }
  apply has_false in Ehook.
  destruct (Js.startsWith "_" (m_name method)) eqn:Epre; cbn [andb].
  - destruct (OSet.has "private" (m_modifiers method)) eqn:Epriv.
    + right. split; [|reflexivity]. apply has_In in Epriv. tauto.
    + left. apply has_false in Epriv. split; [|reflexivity]. tauto.
  - left. split; [|reflexivity].
    split; [reflexivity|]. split; [assumption|]. intros [H _]. discriminate.
Qed.

Lemma deadMethod_type file cls method d :
  In d (deadMethod file cls method) -> d_type d = dead_method.
Proof.
  destruct (deadMethod_spec file cls method) as [[_ ->]|[_ ->]]; simpl.
  - intros [<-|[]]. reflexivity.
  - tauto.
Qed.

Lemma deadFunction_spec this file fn :
  (uncalled this fn /\ f_exported fn = false
     /\ deadFunction this file fn = [functionItem file fn])
  \/ (~ (uncalled this fn /\ f_exported fn = false)
     /\ deadFunction this file fn = []).
Proof.
  unfold deadFunction, uncalled.
  destruct (OMap.get (f_name fn) (reverseCallGraph this)) as [[|c cs]|] eqn:E; simpl.
  - destruct (f_exported fn).
    + right. split; [|reflexivity]. intros [_ H]. discriminate.
    + left. auto.
  - right. split; [|reflexivity]. intros [[H|H] _]; discriminate.
  - destruct (f_exported fn).
    + right. split; [|reflexivity]. intros [_ H]. discriminate.
    + left. auto.
Qed.

Lemma deadFunction_type this file fn d :
  In d (deadFunction this file fn) -> d_type d = dead_function.
Proof.
  destruct (deadFunction_spec this file fn) as [[_ [_ ->]]|[_ ->]]; simpl.
  - intros [<-|[]]. reflexivity.
  - tauto.
Qed.

Lemma In_detectDeadCode this fileInfos d :
  In d (detectDeadCode this fileInfos) <->
  exists file, In file fileInfos /\
    ((exists cls method, In cls (classes file) /\ In method (c_methods cls)
        /\ In d (deadMethod file cls method))
     \/ (exists fn, In fn (functions file) /\ In d (deadFunction this file fn))).
Proof.
  unfold detectDeadCode, deadInFile. rewrite in_flat_map. split.
  - intros [file [Hf Hin]]. exists file. split; auto.
    apply in_app_or in Hin. destruct Hin as [Hin|Hin].
    + left. apply in_flat_map in Hin. destruct Hin as [cls [Hc Hin]].
      apply in_flat_map in Hin. destruct Hin as [m [Hm Hin]]. eauto 6.
    + right. apply in_flat_map in Hin. destruct Hin as [fn [Hfn Hin]]. eauto.
  - intros [file [Hf [[cls [m [Hc [Hm Hin]]]]|[fn [Hfn Hin]]]]];
      exists file; split; auto; apply in_or_app.
    + left. apply in_flat_map. exists cls. split; auto.
      apply in_flat_map. eauto.
    + right. apply in_flat_map. eauto.
Qed.
End DeadCodeFacts.

(** C4. A method item is in the dead-code report exactly when it is the item
    of a method of the model whose [calledBy] is empty, whose name is not a
    lifecycle hook, and that is not both underscore-prefixed and marked
    private; no reported method is named [ngOnInit], and each carries the
    reason "No callers found". *)
Theorem dead_method_reported_iff (this : Scanner) (fileInfos : list FileInfo)
    (d : DeadCodeItem) :
  ((In d (detectDeadCode this fileInfos) /\ d_type d = dead_method) <->
   (exists file cls method,
      In file fileInfos /\ In cls (classes file) /\ In method (c_methods cls)
      /\ unreferenced method /\ d = methodItem file cls method))
  /\ ((In d (detectDeadCode this fileInfos) /\ d_type d = dead_method) ->
      d_name d <> "ngOnInit" /\ d_reason d = "No callers found").
Proof.
  assert (Hiff : (In d (detectDeadCode this fileInfos) /\ d_type d = dead_method) <->
   (exists file cls method,
      In file fileInfos /\ In cls (classes file) /\ In method (c_methods cls)
      /\ unreferenced method /\ d = methodItem file cls method)).
  { rewrite DeadCodeFacts.In_detectDeadCode. split.
    - intros [[file [Hf [[cls [m [Hc [Hm Hin]]]]|[fn [Hfn Hin]]]]] Hty].
      + exists file, cls, m.
        destruct (DeadCodeFacts.deadMethod_spec file cls m) as [[Hu E]|[_ E]];
          rewrite E in Hin; simpl in Hin; [|contradiction].
        destruct Hin as [<-|[]]. auto 6.
      + apply DeadCodeFacts.deadFunction_type in Hin. congruence.
    - intros [file [cls [m [Hf [Hc [Hm [Hu ->]]]]]]]. split; [|reflexivity].
      exists file. split; auto. left. exists cls, m. split; auto. split; auto.
      destruct (DeadCodeFacts.deadMethod_spec file cls m) as [[_ E]|[Hn _]];
        [|contradiction].
      rewrite E. now left. }
  split; [exact Hiff|].
  intros H. apply Hiff in H.
  destruct H as [file [cls [m [_ [_ [_ [[_ [Hhook _]] ->]]]]]]]. simpl.
  split; [|reflexivity].
  intros Hname. apply Hhook. rewrite Hname. simpl. auto.
Qed.

(** C5. A free function with nothing recorded under its name in the reverse
    graph contributes its item to the report when it is not exported and
    contributes nothing when it is exported, whatever its other fields; the
    item of a non-exported one is in the report of any scan it belongs to. *)
Theorem dead_function_export_exemption (this : Scanner) (fileInfos : list FileInfo)
    (file : FileInfo) (fn : FunctionInfo) :
  uncalled this fn ->
  deadFunction this file (setExported false fn) = [functionItem file fn]
  /\ deadFunction this file (setExported true fn) = []
  /\ (In file fileInfos -> In fn (functions file) ->
      if f_exported fn
      then deadFunction this file fn = []
      else In (functionItem file fn) (detectDeadCode this fileInfos)).
Proof.
  intros Hun.
  assert (E : forall b, deadFunction this file (setExported b fn)
                 = if b then [] else [functionItem file fn]).
  { intros b. unfold deadFunction, uncalled in *. simpl.
    destruct Hun as [-> | ->]; simpl; destruct b; reflexivity. }
  split; [apply (E false)|]. split; [apply (E true)|].
  intros Hf Hfn.
  assert (Efn : setExported (f_exported fn) fn = fn) by (destruct fn; reflexivity).
  specialize (E (f_exported fn)). rewrite Efn in E.
  destruct (f_exported fn); [exact E|].
  apply DeadCodeFacts.In_detectDeadCode. exists file. split; auto.
  right. exists fn. split; auto. rewrite E. now left.
Qed.

(** * Template bindings *)

(** C8.  The code at the failing input: the template of [Comp] calls
    [save()], [Comp] is the second class of its file, and the pair goes to
    the first class.  [Helper.save -> template:comp.ts] is recorded although
    [Helper] declares no [save]; nothing is recorded under [Comp.save],
    whose [calledBy] stays empty, and the dead-code report lists the method
    the template calls. *)
Theorem template_edge_misses_component_class :
  In TemplateOwner.click (scanAngularTemplate TemplateOwner.source)
  /\ componentDecorator TemplateOwner.helper = None
  /\ is_Some (componentDecorator TemplateOwner.comp)
  /\ ~ edge (reverseCallGraph TemplateOwner.this) "Comp.save" "template:comp.ts"
  /\ edge (reverseCallGraph TemplateOwner.this) "Helper.save" "template:comp.ts"
  /\ classMethodsMap TemplateOwner.this !! "Helper" = Some []
  /\ exists d,
       In d (detectDeadCode TemplateOwner.this
               (buildCallGraph TemplateOwner.this TemplateOwner.fileInfos))
       /\ d_type d = dead_method /\ d_fullName d = "Comp.save".
Proof.
  split; [vm_compute; now left|].
  split; [reflexivity|].
  split; [vm_compute; eauto|].
  split; [intros [callers [Hget _]]; vm_compute in Hget; discriminate|].
  split; [exists ["template:comp.ts"]; split; [vm_compute; reflexivity|now left]|].
  split; [vm_compute; reflexivity|].
  eexists. split; [vm_compute; left; reflexivity|]. split; reflexivity.
Qed.
(** * Free functions in the reverse graph *)

Module FunctionFacts.
Import OMapFacts OSetFacts GraphFacts ScanFacts ResolveFacts BuiltFacts RegexFacts.

Lemma getFunctions_effect sf s :
  getFunctions sf s
  = (map functionInfoOf (sf_functions sf) ++ concat (map variableInfosOf (sf_variables sf)),
     applyEffect (thenEffect (effects functionEffect (sf_functions sf))
                             (effects variableEffect (sf_variables sf))) s).
Proof.
  unfold getFunctions. rewrite run_bind.
  rewrite (mapS_effect _ functionInfoOf functionEffect)
    by (intros; apply scanFunction_effect).
  cbn [fst snd]. rewrite run_bind.
  rewrite (mapS_effect _ variableInfosOf variableEffect)
    by (intros; apply scanVariable_effect).
  reflexivity.
Qed.

Lemma getFunctions_reverse sf s :
  reverseCallGraph (snd (getFunctions sf s)) = reverseCallGraph s.
Proof.
  rewrite getFunctions_effect. cbn [snd applyEffect reverseCallGraph thenEffect onReverse].
  rewrite (effects_onReverse variableEffect (fun _ => []))
    by (intros; apply variableEffect_onReverse).
  rewrite (effects_onReverse functionEffect (fun _ => [])) by reflexivity.
  assert (Enil : forall A (l : list A), flat_map (fun _ => @nil (string * string)) l = [])
    by (intros A l; induction l; auto).
  now rewrite !Enil.
Qed.

Lemma lacks_dot_qualified a b : lacks "." (a +:+ "." +:+ b) = false.
Proof.
  rewrite lacks_app. destruct (lacks "." a); [|reflexivity]. reflexivity.
Qed.

(** under a name without a dot only raw call texts are recorded *)
Lemma dotless_edge_is_raw fw sfs fileInfos this name caller :
  buildGraphs fw sfs emptyScanner = (fileInfos, this) ->
  lacks "." name = true ->
  edge (reverseCallGraph this) name caller ->
  rawEdge fileInfos name caller.
Proof.
  intros Hb Hdot He. apply (edge_built _ _ _ _ Hb) in He.
  destruct He as [He|[He|[He|He]]]; [exact He| | |]; exfalso.
  - destruct He as [file [bs [cls0 [others [b [gs [_ [_ [_ [_ [_ [Hk _]]]]]]]]]]]].
    subst name. now rewrite lacks_dot_qualified in Hdot.
  - destruct He as [file [cls [m [call [_ [_ [_ [_ [E _]]]]]]]]].
    apply resolveMethodCall_shape in E. destruct E as [a [b ->]].
    unfold qualified in Hdot. now rewrite lacks_dot_qualified in Hdot.
  - destruct He as [file [fn [call [_ [_ [_ [E _]]]]]]].
    apply resolveFunctionCall_shape in E. destruct E as [a [b ->]].
    unfold qualified in Hdot. now rewrite lacks_dot_qualified in Hdot.
Qed.

Lemma In_updateMethods f fileInfos file :
  In file fileInfos ->
  exists file', In file' (updateMethods f fileInfos)
    /\ functions file' = functions file /\ relativePath file' = relativePath file.
Proof.
  intros Hin. eexists. split.
  - unfold updateMethods. apply in_map. exact Hin.
  - split; reflexivity.
Qed.

Lemma functions_fileInfoOf fw sf :
  functions (fileInfoOf fw sf)
  = map functionInfoOf (sf_functions sf) ++ concat (map variableInfosOf (sf_variables sf)).
Proof.
  unfold fileInfoOf. destruct fw; try reflexivity.
  destruct (scanAngularTemplate sf); reflexivity.
Qed.

Lemma relativePath_fileInfoOf fw sf : relativePath (fileInfoOf fw sf) = sf_relativePath sf.
Proof.
  unfold fileInfoOf. destruct fw; try reflexivity.
  destruct (scanAngularTemplate sf); reflexivity.
Qed.

Lemma fileInfos_built fw sfs fileInfos this :
  buildGraphs fw sfs emptyScanner = (fileInfos, this) ->
  fileInfos = map (fileInfoOf fw) sfs.
Proof.
  intros Hb. pose proof (ResolveFacts.buildGraphs_eq fw sfs) as E. cbv zeta in E.
  rewrite E in Hb. now injection Hb as <- _.
Qed.

Lemma In_variableInfosOf v init :
  vd_initializer v = Some init -> in_kind init <> OtherExpression ->
  exists fn, In fn (variableInfosOf v)
    /\ f_name fn = vd_name v /\ f_line fn = vd_line v /\ f_exported fn = vd_exported v.
Proof.
  intros Hi Hk. unfold variableInfosOf. rewrite Hi.
  destruct (in_kind init); [| |congruence]; eexists; (split; [now left|]); auto.
Qed.

End FunctionFacts.

(** C10.  Extraction of the free functions of a file leaves the reverse
    graph as it is; what the function branch of resolution records is keyed
    [Class.method]; under a name without a dot the reverse graph of a scan
    holds only class methods whose raw call texts contain that name; so a
    non-exported function whose name no class method calls is reported
    dead, be it a function declaration of a source file or a variable of a
    source file bound to an arrow function or a function expression. *)
Theorem free_function_callers (framework : Framework) (sourceFiles : list SourceFile)
    (fileInfos : list FileInfo) (this : Scanner) :
  buildGraphs framework sourceFiles emptyScanner = (fileInfos, this) ->
  (forall sourceFile s,
     reverseCallGraph (snd (getFunctions sourceFile s)) = reverseCallGraph s)
  /\ (forall localInjections call key,
        resolveFunctionCall this localInjections call = Some key ->
        exists cls method, key = qualified cls method)
  /\ (forall name callers,
        lacks "." name = true ->
        OMap.get name (reverseCallGraph this) = Some callers ->
        callers <> []
        /\ forall caller, In caller callers ->
             exists file cls method,
               In file fileInfos /\ In cls (classes file) /\ In method (c_methods cls)
               /\ In name (m_calls method)
               /\ caller = c_name cls +:+ "." +:+ m_name method)
  /\ (forall file fn,
        In file fileInfos -> In fn (functions file) ->
        lacks "." (f_name fn) = true -> f_exported fn = false ->
        calledByNoMethod fileInfos (f_name fn) ->
        In (functionItem file fn) (detectDeadCode this (buildCallGraph this fileInfos)))
  /\ (forall sourceFile fn,
        In sourceFile sourceFiles -> In fn (sf_functions sourceFile) ->
        lacks "." (Js.orElse (fd_name fn) "anonymous") = true ->
        fd_exported fn = false ->
        calledByNoMethod fileInfos (Js.orElse (fd_name fn) "anonymous") ->
        In (deadFunctionItem (Js.orElse (fd_name fn) "anonymous")
              (sf_relativePath sourceFile) (fd_line fn))
           (detectDeadCode this (buildCallGraph this fileInfos)))
  /\ (forall sourceFile varDecl initializer,
        In sourceFile sourceFiles -> In varDecl (sf_variables sourceFile) ->
        vd_initializer varDecl = Some initializer ->
        in_kind initializer <> OtherExpression ->
        lacks "." (vd_name varDecl) = true -> vd_exported varDecl = false ->
        calledByNoMethod fileInfos (vd_name varDecl) ->
        In (deadFunctionItem (vd_name varDecl)
              (sf_relativePath sourceFile) (vd_line varDecl))
           (detectDeadCode this (buildCallGraph this fileInfos))).
Proof.
  intros Hb.
  assert (Hraw : forall name callers,
        lacks "." name = true ->
        OMap.get name (reverseCallGraph this) = Some callers ->
        callers <> []
        /\ forall caller, In caller callers -> rawEdge fileInfos name caller).
  { intros name callers Hdot Hget. split.
    - exact (BuiltFacts.populated_built _ _ _ _ Hb _ _ Hget).
    - intros caller Hin.
      apply (FunctionFacts.dotless_edge_is_raw _ _ _ _ _ _ Hb Hdot).
      exists callers. auto. }
  assert (Hdead : forall file fn,
        In file fileInfos -> In fn (functions file) ->
        lacks "." (f_name fn) = true -> f_exported fn = false ->
        calledByNoMethod fileInfos (f_name fn) ->
        In (functionItem file fn) (detectDeadCode this (buildCallGraph this fileInfos))).
  { intros file fn Hfile Hfn Hdot Hexp Hnone.
    assert (Hget : OMap.get (f_name fn) (reverseCallGraph this) = None).
    { destruct (OMap.get (f_name fn) (reverseCallGraph this)) as [callers|] eqn:E;
        [|reflexivity].
      destruct (Hraw _ _ Hdot E) as [Hne Hall].
      destruct callers as [|c cs]; [congruence|].
      destruct (Hall c (or_introl eq_refl)) as [file' [cls [m [Hf [Hc [Hm [Hin _]]]]]]].
      exfalso. exact (Hnone _ _ _ Hf Hc Hm Hin). }
    destruct (FunctionFacts.In_updateMethods (backfill this) fileInfos file Hfile)
      as [file' [Hin' [Hfns Hrel]]].
    apply DeadCodeFacts.In_detectDeadCode. exists file'. split; [exact Hin'|].
    right. exists fn. split; [now rewrite Hfns|].
    unfold deadFunction. rewrite Hget, Hexp, Hrel. now left. }
  pose proof (FunctionFacts.fileInfos_built _ _ _ _ Hb) as Hfiles.
  split; [intros; apply FunctionFacts.getFunctions_reverse|].
  split; [intros li call key; apply BuiltFacts.resolveFunctionCall_shape|].
  split; [exact Hraw|].
  split; [exact Hdead|].
  split.
  - intros sourceFile fn Hsf Hfn Hdot Hexp Hnone.
    assert (Hfile : In (fileInfoOf framework sourceFile) fileInfos)
      by (rewrite Hfiles; now apply in_map).
    assert (Hin : In (functionInfoOf fn) (functions (fileInfoOf framework sourceFile))).
    { rewrite FunctionFacts.functions_fileInfoOf. apply in_or_app. left.
      now apply in_map. }
    pose proof (Hdead _ _ Hfile Hin Hdot Hexp Hnone) as H.
    unfold functionItem in H. rewrite FunctionFacts.relativePath_fileInfoOf in H.
    exact H.
  - intros sourceFile varDecl initializer Hsf Hv Hinit Hkind Hdot Hexp Hnone.
    assert (Hfile : In (fileInfoOf framework sourceFile) fileInfos)
      by (rewrite Hfiles; now apply in_map).
    destruct (FunctionFacts.In_variableInfosOf varDecl initializer Hinit Hkind)
      as [fn [Hfn [Hname [Hline Hex]]]].
    assert (Hin : In fn (functions (fileInfoOf framework sourceFile))).
    { rewrite FunctionFacts.functions_fileInfoOf. apply in_or_app. right.
      apply in_concat. exists (variableInfosOf varDecl). split; [|exact Hfn].
      now apply in_map. }
    rewrite <- Hname in Hdot, Hnone. rewrite <- Hex in Hexp.
    pose proof (Hdead _ _ Hfile Hin Hdot Hexp Hnone) as H.
    unfold functionItem in H.
    rewrite FunctionFacts.relativePath_fileInfoOf, Hname, Hline in H. exact H.
Qed.
(** * Resolution through a chain of two injections *)

Module InjectionFacts.
Import OMapFacts OSetFacts GraphFacts ScanFacts ResolveFacts BuiltFacts RegexFacts.

#[local] Arguments String.append !s1 s2 : simpl nomatch.

Lemma length_append a b : String.length (a +:+ b) = String.length a + String.length b.
Proof.
  induction a as [|x a IH]; cbn [String.append String.length]; [reflexivity|].
  now rewrite IH.
Qed.

Lemma append_cancel_r a b t : a +:+ t = b +:+ t -> a = b.
Proof.
  revert b. induction a as [|x a IH]; intros [|y b] H.
  - reflexivity.
  - apply (f_equal String.length) in H. rewrite !length_append in H.
    cbn [String.length] in H. lia.
  - apply (f_equal String.length) in H. rewrite !length_append in H.
    cbn [String.length] in H. lia.
  - cbn [String.append] in H. injection H as -> H. f_equal. now apply IH.
Qed.

(** the text in front of the first dot *)
Lemma dotless_prefix a b x y :
  lacks "." a = true -> lacks "." b = true ->
  a +:+ "." +:+ x = b +:+ "." +:+ y -> a = b.
Proof.
  revert b. induction a as [|h a IH]; intros [|h' b] Ha Hb H.
  - reflexivity.
  - cbn [String.append] in H. injection H as <- _. discriminate.
  - cbn [String.append] in H. injection H as -> _. discriminate.
  - cbn [String.append] in H. injection H as -> H.
    unfold lacks in *. simpl in Ha, Hb.
    apply andb_prop in Ha, Hb. f_equal. apply (IH b); tauto.
Qed.

Lemma getTruthy_Some m k v :
  m !! k = Some v -> Js.truthy v = true -> getTruthy m k = Some v.
Proof. intros H Hv. unfold getTruthy. now rewrite H, Hv. Qed.

Lemma lacks_paren_chain b c m :
  identifier b -> identifier c -> identifier m ->
  lacks "(" ("this." +:+ b +:+ "." +:+ c +:+ "." +:+ m) = true.
Proof.
  intros Hb Hc Hm. rewrite !lacks_app.
  rewrite (lacks_paren_identifier b), (lacks_paren_identifier c),
    (lacks_paren_identifier m) by assumption.
  reflexivity.
Qed.

Section Chain.
Context (this : Scanner) (A B C b c m : string) (bindsA bindsB : gmap string string).
Context (HA : bindsA !! b = Some B) (HB : nestedInjectionMap this !! B = Some bindsB)
        (HBc : bindsB !! c = Some C)
        (HtB : Js.truthy B = true) (HtC : Js.truthy C = true)
        (Hb : identifier b) (Hc : identifier c) (Hm : identifier m).

Let call : string := "this." +:+ b +:+ "." +:+ c +:+ "." +:+ m.

Lemma chain_simple : resolveSimple this bindsA call None = None.
Proof.
  unfold resolveSimple, call.
  rewrite (jsMatch_simple b c ("." +:+ m)) by auto.
  cbn [Regex.nthGroup nth].
  rewrite (getTruthy_Some _ _ _ HA HtB), HB.
  rewrite bool_decide_eq_true_2; [reflexivity|]. rewrite HBc. eauto.
Qed.

Lemma chain_nested r :
  resolveNested this bindsA call r = Some (qualified C m).
Proof.
  unfold resolveNested, call.
  rewrite <- (append_nil_r m) at 1.
  rewrite (jsMatch_nested b c m "") by auto.
  cbn [Regex.nthGroup nth].
  now rewrite (getTruthy_Some _ _ _ HA HtB), HB, (getTruthy_Some _ _ _ HBc HtC).
Qed.

Lemma chain_inject r : resolveInject this call r = r.
Proof.
  unfold resolveInject, call.
  now rewrite (jsMatch_injectCall_lacks _ (lacks_paren_chain b c m Hb Hc Hm)).
Qed.

Lemma chain_resolved : resolveMethodCall this bindsA call = Some (qualified C m).
Proof.
  unfold resolveMethodCall. now rewrite chain_inject, chain_nested.
Qed.
End Chain.

End InjectionFacts.

(** C2, as stated, fails for names that hold a [$], which the patterns of
    resolution do not read as part of a name.  In [Dollar.project] the
    premises hold three times over, and yet: for [this.b$.c.m] nothing is
    resolved, so [C.m] has no caller [A.one]; for [this._b.c.load$] the
    pair goes to [C.load], not to the declared [C.load$]; for
    [this._d.c$.m] the pair goes to [D.c], the kind of key the claim
    excludes, and [C.m] has no caller [A.three]. *)
Lemma dollar_names_break_the_chain :
  (Dollar.binding "A" "b$" = Some "B" /\ Dollar.binding "B" "c" = Some "C"
   /\ In "m" (Dollar.declared "C") /\ In "this.b$.c.m" (Dollar.callsOf "one")
   /\ Dollar.resolved "this.b$.c.m" = None
   /\ ~ edge (reverseCallGraph Dollar.this) "C.m" "A.one")
  /\ (Dollar.binding "A" "_b" = Some "B" /\ Dollar.binding "B" "c" = Some "C"
      /\ In "load$" (Dollar.declared "C")
      /\ In "this._b.c.load$" (Dollar.callsOf "two")
      /\ ~ edge (reverseCallGraph Dollar.this) "C.load$" "A.two"
      /\ edge (reverseCallGraph Dollar.this) "C.load" "A.two")
  /\ (Dollar.binding "A" "_d" = Some "D" /\ Dollar.binding "D" "c$" = Some "C"
      /\ In "m" (Dollar.declared "C") /\ In "this._d.c$.m" (Dollar.callsOf "three")
      /\ ~ edge (reverseCallGraph Dollar.this) "C.m" "A.three"
      /\ edge (reverseCallGraph Dollar.this) "D.c" "A.three").
Proof.
  assert (Hg : reverseCallGraph Dollar.this
               = [("this.b$.c.m", ["A.one"]); ("this._b.c.load$", ["A.two"]);
                  ("this._d.c$.m", ["A.three"]); ("C.load", ["A.two"]);
                  ("D.c", ["A.three"])])
    by (vm_compute; reflexivity).
  assert (Hno : forall key caller,
            OMap.get key (reverseCallGraph Dollar.this) = None ->
            ~ edge (reverseCallGraph Dollar.this) key caller).
  { intros key caller Hget [callers [E _]]. congruence. }
  assert (Hyes : forall key caller,
            OMap.get key (reverseCallGraph Dollar.this) = Some [caller] ->
            edge (reverseCallGraph Dollar.this) key caller).
  { intros key caller Hget. exists [caller]. split; [exact Hget|now left]. }
  assert (HB : Dollar.binding "B" "c" = Some "C") by (vm_compute; reflexivity).
  assert (HC : Dollar.declared "C" = ["m"; "load$"]) by (vm_compute; reflexivity).
  split; [|split].
  - split; [vm_compute; reflexivity|]. split; [exact HB|].
    split; [rewrite HC; now left|]. split; [vm_compute; now left|].
    split; [vm_compute; reflexivity|]. apply Hno. rewrite Hg. reflexivity.
  - split; [vm_compute; reflexivity|]. split; [exact HB|].
    split; [rewrite HC; right; now left|]. split; [vm_compute; now left|].
    split; [apply Hno|apply Hyes]; rewrite Hg; reflexivity.
  - split; [vm_compute; reflexivity|]. split; [vm_compute; reflexivity|].
    split; [rewrite HC; now left|]. split; [vm_compute; now left|].
    split; [apply Hno|apply Hyes]; rewrite Hg; reflexivity.
Qed.

(** C2, amended.  Let [A]'s binding map send [b] to [B], [B]'s send [c] to
    [C], and [C] be a class declaring [m], where [b], [c] and [m] are made
    of word characters only.  On the call text [this.b.c.m] of a method
    of [A], rule 1 records nothing, the resolved callee is [C.m], the only
    pair resolution records for the text is [C.m -> A.<method>], which is
    in the reverse graph of the scan; [C.m] differs from [B.m] when [B] and
    [C] differ, and from [B.c] when moreover neither name holds a dot. *)
Theorem transitive_injection_resolution
    (framework : Framework) (sourceFiles : list SourceFile)
    (fileInfos : list FileInfo) (this : Scanner)
    (A B C b c m : string) (bindsA bindsB : gmap string string)
    (methodsOfC : OSet.t) :
  buildGraphs framework sourceFiles emptyScanner = (fileInfos, this) ->
  injectionMap this !! A = Some bindsA -> bindsA !! b = Some B ->
  injectionMap this !! B = Some bindsB -> bindsB !! c = Some C ->
  classMethodsMap this !! C = Some methodsOfC -> In m methodsOfC ->
  identifier b -> identifier c -> identifier m ->
  let call := "this." +:+ b +:+ "." +:+ c +:+ "." +:+ m in
  resolveSimple this bindsA call None = None
  /\ resolveMethodCall this bindsA call = Some (qualified C m)
  /\ (forall file cls method,
        In file fileInfos -> In cls (classes file) -> c_name cls = A ->
        In method (c_methods cls) -> In call (m_calls method) ->
        resolvedPair
          (resolveMethodCall this (default ∅ (injectionMap this !! c_name cls)) call)
          (A +:+ "." +:+ m_name method)
        = [(qualified C m, A +:+ "." +:+ m_name method)]
        /\ edge (reverseCallGraph this) (qualified C m) (A +:+ "." +:+ m_name method))
  /\ (B <> C -> qualified C m <> qualified B m)
  /\ (B <> C -> lacks "." B = true -> lacks "." C = true ->
      qualified C m <> qualified B c).
Proof.
  intros Hb HA HAb HB HBc HC Hm Hidb Hidc Hidm call.
  remember ("this." +:+ b +:+ "." +:+ c +:+ "." +:+ m) as text eqn:Etext.
  subst call.
  destruct (ResolveFacts.reverseCallGraph_built _ _ _ _ Hb)
    as [_ [_ [Hnested [Hti Htm]]]].
  assert (HtB : Js.truthy B = true) by (apply Hti; rewrite HB; eauto).
  assert (HtC : Js.truthy C = true) by (apply Htm; rewrite HC; eauto).
  assert (HB' : nestedInjectionMap this !! B = Some bindsB) by now rewrite Hnested.
  assert (Hres : resolveMethodCall this bindsA text = Some (qualified C m)).
  { subst text. apply (InjectionFacts.chain_resolved this B C b c m bindsA bindsB); auto. }
  split.
  { subst text. apply (InjectionFacts.chain_simple this B C b c m bindsA bindsB); auto. }
  split; [exact Hres|]. split.
  - intros file cls method Hfile Hcls Hname Hmeth Hcall.
    rewrite Hname, HA. change (default ∅ (Some bindsA)) with bindsA. rewrite Hres. split.
    + unfold resolvedPair. now rewrite BuiltFacts.truthy_qualified.
    + apply (BuiltFacts.edge_built _ _ _ _ Hb). right. right. left.
      exists file, cls, method, text.
      rewrite Hname, HA. change (default ∅ (Some bindsA)) with bindsA. auto 10.
  - split.
    + intros Hne E. apply Hne. unfold qualified in E.
      symmetry. eapply InjectionFacts.append_cancel_r. exact E.
    + intros Hne HdB HdC E. apply Hne. unfold qualified in E.
      symmetry. eapply InjectionFacts.dotless_prefix; eauto.
Qed.
(** * Precedence of the resolution rules *)

(** C3. On the call text [this.svc.table[inject(Foo).key]] of [A.run] rule 1
    resolves to [Svc.table], and the callee the class branch ends with is
    the one of rule 3, [Foo.key]: the reverse graph holds
    [Foo.key -> A.run] and has no entry for [Svc.table] at all. *)
Theorem inline_inject_overrides_property_rule :
  resolveSimple Precedence.this Precedence.injectionsOfA Precedence.call None
    = Some "Svc.table"
  /\ resolveMethodCall Precedence.this Precedence.injectionsOfA Precedence.call
    = Some "Foo.key"
  /\ OMap.get "Foo.key" (reverseCallGraph Precedence.this) = Some ["A.run"]
  /\ OMap.get "Svc.table" (reverseCallGraph Precedence.this) = None.
Proof. vm_compute. repeat split. Qed.

(** In the function branch the same two assignments are guarded: once the
    inline-inject rule has resolved, the local-variable rule leaves the
    callee alone. *)
Lemma function_branch_first_match_wins this localInjections call callee :
  resolveInject this call None = Some callee ->
  resolveFunctionCall this localInjections call = Some callee.
Proof. unfold resolveFunctionCall, resolveLocalVar. now intros ->. Qed.

(** * Frame of the analysis passes *)

Module FrameFacts.
Import Frame.

Lemma clear_traceMethod this maxDepth cls m :
  clearCallChain (traceMethod this maxDepth cls m) = clearCallChain m.
Proof.
  unfold traceMethod.
  destruct (0 <? length (m_calledBy m))%nat; [|reflexivity].
  destruct ((0 <? length (getCallChain this maxDepth
              (c_name cls +:+ "." +:+ m_name m) ∅))%nat
            && existsb longChain (getCallChain this maxDepth
              (c_name cls +:+ "." +:+ m_name m) ∅)); reflexivity.
Qed.

Lemma withoutCallChains_updateMethods (f : ClassInfo -> MethodInfo -> MethodInfo)
    (fileInfos : list FileInfo) :
  (forall cls m, clearCallChain (f cls m) = clearCallChain m) ->
  withoutCallChains (updateMethods f fileInfos) = withoutCallChains fileInfos.
Proof.
  intros Hf. unfold withoutCallChains, updateMethods.
  rewrite map_map. apply map_ext. intros file.
  unfold withClasses; simpl. f_equal.
  rewrite map_map. apply map_ext. intros cls.
  unfold withMethods; simpl. f_equal.
  rewrite map_map. apply map_ext. intros m. apply Hf.
Qed.

End FrameFacts.

(** C9, as stated, fails: on the model of [Frame.project] the analysis
    phase leaves a model that differs from the one it started on, because
    call-chain tracing stores [A.run -> B.go] into [B.go]'s [callChain]. *)
Lemma analysis_changes_the_model :
  snd (analyze ["/app/a.ts"] Frame.model) <> Frame.model
  /\ Frame.callChainsOf Frame.model = [("A.run", None); ("B.go", None)]
  /\ Frame.callChainsOf (snd (analyze ["/app/a.ts"] Frame.model))
     = [("A.run", None); ("B.go", Some [["A.run"; "B.go"]])].
Proof.
  assert (H1 : Frame.callChainsOf Frame.model = [("A.run", None); ("B.go", None)])
    by (vm_compute; reflexivity).
  assert (H2 : Frame.callChainsOf (snd (analyze ["/app/a.ts"] Frame.model))
     = [("A.run", None); ("B.go", Some [["A.run"; "B.go"]])])
    by (vm_compute; reflexivity).
  split; [|split; assumption].
  intros E. rewrite E in H2. rewrite H1 in H2. clear E. discriminate H2.
Qed.
(** * Summary rankings *)

Module SortFacts.
Section Sort.
Context {A : Type} (count : A -> nat).

Lemma insertDesc_perm x l : Permutation (x :: l) (insertDesc count x l).
Proof.
  induction l as [|y l IH]; simpl; [reflexivity|].
  destruct (count y <=? count x)%nat; [reflexivity|].
  rewrite perm_swap. now constructor.
Qed.

Lemma sortDesc_perm l : Permutation l (sortDesc count l).
Proof.
  induction l as [|x l IH]; simpl; [constructor|].
  rewrite <- insertDesc_perm. now constructor.
Qed.

Lemma insertDesc_descending x l :
  descending count l -> descending count (insertDesc count x l).
Proof.
  unfold descending. induction 1 as [|y l Hl IH Hy]; simpl.
  - repeat constructor.
  - destruct (count y <=? count x)%nat eqn:E.
    + apply Nat.leb_le in E. constructor.
      * now constructor.
      * constructor; [exact E|].
        eapply Forall_impl; [|exact Hy]. simpl. intros z Hz. lia.
    + apply Nat.leb_gt in E. constructor; [exact IH|].
      rewrite <- insertDesc_perm. constructor; [lia|exact Hy].
Qed.

Lemma sortDesc_descending l : descending count (sortDesc count l).
Proof.
  induction l as [|x l IH]; simpl.
  - constructor.
  - now apply insertDesc_descending.
Qed.

Lemma insertDesc_ties x l : tiesKeepOrder count (x :: l) (insertDesc count x l).
Proof.
  intros n. induction l as [|y l IH]; [reflexivity|].
  cbn [insertDesc]. destruct (count y <=? count x)%nat eqn:E; [reflexivity|].
  apply Nat.leb_gt in E. cbn [filter] in *. rewrite IH.
  destruct (count x =? n)%nat eqn:Ex; destruct (count y =? n)%nat eqn:Ey;
    try reflexivity.
  apply Nat.eqb_eq in Ex, Ey. lia.
Qed.

Lemma sortDesc_ties l : tiesKeepOrder count l (sortDesc count l).
Proof.
  intros n. induction l as [|x l IH]; [reflexivity|].
  cbn [sortDesc fold_right]. fold (sortDesc count l).
  rewrite insertDesc_ties. cbn [filter]. now rewrite IH.
Qed.

Lemma firstn_descending n l : descending count l -> descending count (firstn n l).
Proof.
  unfold descending. intros H. revert n.
  induction H as [|y l Hl IH Hy]; intros [|n]; simpl; try constructor.
  - apply IH.
  - apply Forall_forall. intros z Hz.
    rewrite Forall_forall in Hy. apply Hy.
    rewrite <- (firstn_skipn n l). apply in_or_app. now left.
Qed.

Lemma ranking_top10 l : ranking count l (top10 (sortDesc count l)).
Proof.
  unfold ranking, top10. split; [apply firstn_le_length|].
  split; [apply firstn_descending, sortDesc_descending|].
  exists (sortDesc count l).
  auto using sortDesc_perm, sortDesc_descending, sortDesc_ties.
Qed.

Lemma positive_sortDesc l x :
  In x (top10 (sortDesc count (positive count l))) -> 0 < count x.
Proof.
  unfold top10. intros H.
  assert (Hin : In x (sortDesc count (positive count l))).
  { rewrite <- (firstn_skipn 10). apply in_or_app. now left. }
  eapply Permutation_in in Hin; [|symmetry; apply sortDesc_perm].
  unfold positive in Hin. apply filter_In in Hin.
  destruct Hin as [_ Hpos]. now apply Nat.ltb_lt in Hpos.
Qed.
End Sort.

Lemma insertDesc_map {A B} (f : A -> B) (count : B -> nat) x l :
  map f (insertDesc (fun a => count (f a)) x l) = insertDesc count (f x) (map f l).
Proof.
  induction l as [|y l IH]; simpl; [reflexivity|].
  destruct (count (f y) <=? count (f x))%nat; simpl; [reflexivity|].
  now rewrite IH.
Qed.

Lemma sortDesc_map {A B} (f : A -> B) (count : B -> nat) l :
  map f (sortDesc (fun a => count (f a)) l) = sortDesc count (map f l).
Proof.
  induction l as [|x l IH]; simpl; [reflexivity|].
  fold (sortDesc (fun a => count (f a)) l). fold (sortDesc count (map f l)).
  now rewrite insertDesc_map, IH.
Qed.

Lemma positive_map {A B} (f : A -> B) (count : B -> nat) l :
  map f (positive (fun a => count (f a)) l) = positive count (map f l).
Proof.
  unfold positive. induction l as [|x l IH]; simpl; [reflexivity|].
  destruct (0 <? count (f x))%nat; simpl; now rewrite IH.
Qed.

(** [ranked] followed by the conversion to report records *)
Lemma ranked_map {B} (f : string * nat -> B) (count : B -> nat) counts :
  (forall e, count (f e) = snd e) ->
  map f (ranked counts) = top10 (sortDesc count (positive count (map f counts))).
Proof.
  intros Hf. unfold ranked, top10, OMap.entries.
  rewrite <- firstn_map.
  assert (E : sortDesc snd (filter (fun e => (0 <? snd e)%nat) counts)
            = sortDesc (fun a => count (f a)) (positive (fun a => count (f a)) counts)).
  { unfold positive.
    assert (E1 : filter (fun e => (0 <? snd e)%nat) counts
               = filter (fun a => (0 <? count (f a))%nat) counts).
    { apply filter_ext. intros e. now rewrite Hf. }
    rewrite E1. generalize (filter (fun a => (0 <? count (f a))%nat) counts).
    intros l. induction l as [|x l IH]; simpl; [reflexivity|].
    fold (sortDesc (@snd string nat) l).
    fold (sortDesc (fun a => count (f a)) l). rewrite IH.
    generalize (sortDesc (fun a => count (f a)) l). intros s.
    induction s as [|y s IHs]; simpl; [reflexivity|].
    rewrite !Hf. destruct (snd y <=? snd x)%nat; [reflexivity|]. now rewrite IHs. }
  rewrite E, sortDesc_map, positive_map. reflexivity.
Qed.
End SortFacts.

(** C6, as stated, fails: a class without methods is an entry of the
    class ranking, and a file without imports an entry of the file
    ranking, each with count zero. *)
Lemma zero_counts_are_ranked :
  largestClasses (generateSummary emptyScanner Rankings.fileInfos)
    = [ {| lc_name := "E"; lc_methodCount := 0; lc_file := "e.ts" |} ]
  /\ filesByImports (generateSummary emptyScanner Rankings.fileInfos)
    = [ {| if_file := "e.ts"; if_importCount := 0 |} ].
Proof. split; reflexivity. Qed.

(** C6, amended.  Each of the four rankings has at most ten entries, is in
    descending order of its count, and is the head of a stable sort of its
    input: the positive entries of the per-method caller counts, the
    positive entries of the per-service usage counts, every class with its
    method count, every file with its import count.  The method and service
    rankings hold no entry with count zero. *)
Theorem summary_rankings (this : Scanner) (fileInfos : list FileInfo) :
  let s := generateSummary this fileInfos in
  ranking cm_callerCount (positive cm_callerCount (methodCounts fileInfos))
          (mostCalledMethods s)
  /\ ranking us_usageCount (positive us_usageCount (serviceCounts this fileInfos))
          (mostUsedServices s)
  /\ ranking lc_methodCount (classSizes fileInfos) (largestClasses s)
  /\ ranking if_importCount (importCounts fileInfos) (filesByImports s)
  /\ Forall (fun e => 0 < cm_callerCount e) (mostCalledMethods s)
  /\ Forall (fun e => 0 < us_usageCount e) (mostUsedServices s).
Proof.
  unfold generateSummary, methodCounts, serviceCounts.
  destruct (initialCounts fileInfos) as [mc su]. cbn [fst snd].
  cbn zeta. cbn [mostCalledMethods mostUsedServices largestClasses filesByImports].
  rewrite (SortFacts.ranked_map
             (fun e => {| cm_name := fst e; cm_callerCount := snd e |})
             cm_callerCount) by reflexivity.
  rewrite (SortFacts.ranked_map
             (fun e => {| us_name := fst e; us_usageCount := snd e |})
             us_usageCount) by reflexivity.
  unfold OMap.entries.
  repeat split; try apply SortFacts.ranking_top10;
    apply Forall_forall; intros x Hx; eapply SortFacts.positive_sortDesc; exact Hx.
Qed.
(** * Circular dependencies *)

Module DfsFacts.
Import OMapFacts OSetFacts.

Section Walk.
Context (g : OMap.t OSet.t).

Lemma size_list_to_set_le (l : list string) :
  size (list_to_set l : gset string) <= length l.
Proof.
  induction l as [|x l IH]; cbn [length].
  - rewrite list_to_set_nil, size_empty. lia.
  - rewrite list_to_set_cons, size_union_alt, size_singleton.
    assert (size (list_to_set l ∖ {[x]} : gset string) <= size (list_to_set l : gset string))
      by (apply subseteq_size; set_solver).
    lia.
Qed.

Lemma universe_key k deps : OMap.get k g = Some deps -> k ∈ universe g.
Proof.
  intros H. apply get_In in H. unfold universe, graphNodes.
  apply elem_of_list_to_set, list_elem_of_In, in_or_app. left.
  unfold OMap.keys. change k with (fst (k, deps)). now apply in_map.
Qed.

Lemma universe_dep k deps d :
  OMap.get k g = Some deps -> In d deps -> d ∈ universe g.
Proof.
  intros H Hd. apply get_In in H. unfold universe, graphNodes.
  apply elem_of_list_to_set, list_elem_of_In, in_or_app. right.
  apply in_concat. exists deps. split; [|exact Hd].
  change deps with (snd (k, deps)). now apply in_map.
Qed.

Lemma measure_enter (seen : gset string) node :
  node ∈ universe g -> node ∉ seen ->
  size (universe g ∖ ({[node]} ∪ seen)) < size (universe g ∖ seen).
Proof.
  intros Hu Hn. apply subset_size. revert Hu. generalize (universe g). intros U Hu.
  split; [set_solver|].
  intros Hsub. assert (Hin : node ∈ U ∖ ({[node]} ∪ seen)) by (apply Hsub; set_solver).
  set_solver.
Qed.

Lemma measure_mono (seen seen' : gset string) :
  seen ⊆ seen' -> size (universe g ∖ seen') <= size (universe g ∖ seen).
Proof. intros H. apply subseteq_size. generalize (universe g). set_solver. Qed.

(** ** Lists that lie on a path without repetition *)

Lemma last_app_single {A} (l : list A) x d : last (l ++ [x]) d = x.
Proof. apply last_last. Qed.

Lemma last_In {A} (l : list A) d : l <> [] -> In (last l d) l.
Proof.
  induction l as [|x l IH]; [congruence|]. intros _.
  destruct l as [|y l]; [now left|]. right. apply IH. discriminate.
Qed.

Lemma hd_In {A} (l : list A) d : l <> [] -> In (hd d l) l.
Proof. destruct l; [congruence|]. intros _. now left. Qed.

Lemma last_app_r {A} (l1 l2 : list A) d : l2 <> [] -> last (l1 ++ l2) d = last l2 d.
Proof.
  intros H. destruct l2 as [|x l2] using rev_ind; [congruence|].
  now rewrite app_assoc, !last_last.
Qed.

(** two suffixes of a repetition-free list with the same elements *)
Lemma suffix_same_nodes (p1 s1 p2 s2 : list string) :
  NoDup (p1 ++ s1) -> p1 ++ s1 = p2 ++ s2 -> sameNodes s1 s2 -> s1 = s2.
Proof.
  intros Hnd E Hsame. apply app_eq_app in E.
  destruct E as [l [[-> ->]|[-> ->]]].
  - destruct l as [|x l]; [reflexivity|]. exfalso.
    rewrite <- app_assoc in Hnd. apply NoDup_app_remove_l in Hnd.
    assert (Hx : In x s1) by (apply Hsame; now left).
    simpl in Hnd. inversion Hnd as [|? ? Hnot _]; subst.
    apply Hnot. apply in_or_app. now right.
  - destruct l as [|x l]; [reflexivity|]. exfalso.
    apply NoDup_app_remove_l in Hnd.
    assert (Hx : In x s2) by (apply Hsame; now left).
    simpl in Hnd. inversion Hnd as [|? ? Hnot _]; subst.
    apply Hnot. apply in_or_app. now right.
Qed.

(** a segment that holds the last element of a repetition-free list is a
    suffix of it *)
Lemma segment_with_last (pre seg post : list string) :
  NoDup (pre ++ seg ++ post) ->
  In (last (pre ++ seg ++ post) EmptyString) seg -> post = [].
Proof.
  intros Hnd Hin. destruct post as [|x post] using rev_ind; [reflexivity|].
  exfalso. clear IHpost.
  rewrite !app_assoc, last_last in Hin.
  rewrite !app_assoc in Hnd. apply NoDup_remove_2 in Hnd.
  apply Hnd. rewrite app_nil_r. apply in_or_app. left. apply in_or_app. now right.
Qed.

Lemma indexOf_Some x l : In x l ->
  exists i pre, indexOf x l = Some i /\ l = pre ++ skipn i l
    /\ hd EmptyString (skipn i l) = x /\ skipn i l <> [].
Proof.
  induction l as [|y l IH]; [contradiction|]. intros Hin. simpl.
  destruct (String.eqb y x) eqn:E.
  - apply String.eqb_eq in E. subst y. exists 0, []. simpl. repeat split; auto.
  - apply String.eqb_neq in E. destruct Hin as [Hin|Hin]; [congruence|].
    destruct (IH Hin) as [i [pre [Hi [Hl [Hh Hne]]]]].
    exists (S i), (y :: pre). rewrite Hi. simpl. repeat split; auto.
    now rewrite <- Hl.
Qed.

(** ** Cycle keys *)

Lemma sortStrings_perm l : Permutation l (sortStrings l).
Proof.
  induction l as [|x l IH]; simpl; [constructor|].
  assert (Hins : forall s, Permutation (x :: s) (insertString x s)).
  { clear. induction s as [|y s IHs]; simpl; [reflexivity|].
    destruct (String.leb x y); [reflexivity|].
    rewrite perm_swap. now constructor. }
  rewrite <- Hins. now constructor.
Qed.

Lemma lacks_arrow_app a s : lacks ">" (a +:+ "->" +:+ s) = false.
Proof.
  rewrite RegexFacts.lacks_app. destruct (lacks ">" a); reflexivity.
Qed.

(** the text in front of the first [->] *)
Lemma arrow_prefix a b s t :
  lacks ">" a = true -> lacks ">" b = true ->
  a +:+ "->" +:+ s = b +:+ "->" +:+ t -> a = b /\ s = t.
Proof.
  revert b. induction a as [|h a IH]; intros [|h' b] Ha Hb E.
  - injection E as E. auto.
  - exfalso. injection E as <- E. destruct b as [|h'' b].
    + discriminate.
    + injection E as <- _. discriminate.
  - exfalso. injection E as -> E. destruct a as [|h'' a].
    + discriminate.
    + injection E as -> _. discriminate.
  - injection E as -> E. unfold lacks in *. simpl in Ha, Hb.
    apply andb_prop in Ha, Hb. destruct (IH b) as [-> ->]; tauto.
Qed.

Lemma join_arrow_inj l1 : forall l2,
  Forall (fun n => lacks ">" n = true) l1 ->
  Forall (fun n => lacks ">" n = true) l2 ->
  l1 <> [] -> l2 <> [] ->
  Js.join "->" l1 = Js.join "->" l2 -> l1 = l2.
Proof.
  induction l1 as [|x l1 IH]; intros l2 H1 H2 Hne1 Hne2 E; [congruence|].
  destruct l2 as [|x' l2]; [congruence|].
  inversion H1 as [|? ? Hx H1']; subst. inversion H2 as [|? ? Hx' H2']; subst.
  destruct l1 as [|y l1]; destruct l2 as [|y' l2].
  - simpl in E. now subst.
  - exfalso. cbn [Js.join] in E. rewrite E, lacks_arrow_app in Hx. discriminate.
  - exfalso. cbn [Js.join] in E. rewrite <- E, lacks_arrow_app in Hx'. discriminate.
  - change (x +:+ "->" +:+ Js.join "->" (y :: l1)
            = x' +:+ "->" +:+ Js.join "->" (y' :: l2)) in E.
    apply arrow_prefix in E; auto. destruct E as [-> E].
    f_equal. apply IH; auto; discriminate.
Qed.

Lemma cycleKey_perm c1 c2 :
  Forall (fun n => lacks ">" n = true) c1 ->
  Forall (fun n => lacks ">" n = true) c2 ->
  c1 <> [] -> c2 <> [] ->
  cycleKey c1 = cycleKey c2 -> Permutation c1 c2.
Proof.
  intros H1 H2 Hne1 Hne2 E. unfold cycleKey in E.
  pose proof (sortStrings_perm c1) as P1. pose proof (sortStrings_perm c2) as P2.
  apply join_arrow_inj in E.
  - rewrite P1, E. now symmetry.
  - eapply Permutation_Forall; eauto.
  - eapply Permutation_Forall; eauto.
  - intros E0. rewrite E0 in P1. symmetry in P1. apply Permutation_nil in P1. congruence.
  - intros E0. rewrite E0 in P2. symmetry in P2. apply Permutation_nil in P2. congruence.
Qed.

Lemma throughBoth_In x y c :
  throughBoth x y c = true <-> In x (cycle c) /\ In y (cycle c).
Proof. unfold throughBoth. now rewrite andb_true_iff, !has_In. Qed.

Lemma joined_incl x y cs cs' : incl cs cs' -> joined x y cs -> joined x y cs'.
Proof.
  unfold joined. rewrite !Exists_exists. intros Hi [c [Hc Ht]]. eauto.
Qed.

(** ** The invariant through the three moves of the walk *)

Ltac conjs := repeat match goal with |- _ /\ _ => split end.

Lemma walking_enter path0 node st :
  walking g path0 st -> node ∈ universe g -> node ∉ visited st ->
  walking g (path0 ++ [node]) (enter node st).
Proof.
  intros [Hnd [Hstack [Hvis [Huni [Hent Hdis]]]]] Hu Hnew.
  unfold walking, enter; cbn [visited recursionStack cycles].
  split; [|split; [|split; [|split; [|split]]]].
  - apply NoDup_app; auto.
    + constructor; [intros []|constructor].
    + intros n Hn [<-|[]]. apply Hnew. now apply Hvis.
  - intros n. rewrite in_app_iff. simpl. rewrite <- Hstack. set_solver.
  - intros n Hn. apply in_app_or in Hn. destruct Hn as [Hn|[<-|[]]].
    + apply Hvis in Hn. set_solver.
    + set_solver.
  - revert Hu Huni. generalize (universe g). set_solver.
  - eapply Forall_impl; [|exact Hent]. intros c [seg [Hne [Hs [Hc [Hseen Hpath]]]]].
    exists seg. conjs; auto.
    + intros n Hn. apply Hseen in Hn. set_solver.
    + intros Hin. apply in_app_or in Hin. destruct Hin as [Hin|[Heq|[]]].
      * destruct (Hpath Hin) as [pre [post ->]].
        exists pre, (post ++ [node]). now rewrite <- !app_assoc.
      * exfalso. apply Hnew. rewrite Heq. apply Hseen. now apply last_In.
  - exact Hdis.
Qed.

Lemma walking_leave path0 node st :
  walking g (path0 ++ [node]) st -> walking g path0 (leave node st).
Proof.
  intros [Hnd [Hstack [Hvis [Huni [Hent Hdis]]]]].
  assert (Hnd0 : NoDup path0) by (now apply NoDup_app_remove_r in Hnd).
  assert (Hnode : ~ In node path0).
  { apply NoDup_remove_2 in Hnd. now rewrite app_nil_r in Hnd. }
  unfold walking, leave; cbn [visited recursionStack cycles].
  split; [exact Hnd0|]. split; [|split; [|split; [|split]]].
  - intros n. rewrite elem_of_difference, Hstack, in_app_iff. simpl.
    rewrite elem_of_singleton. split.
    + intros [[H|[<-|[]]] Hne]; [exact H|congruence].
    + intros H. split; [now left|]. intros ->. contradiction.
  - intros n Hn. apply Hvis. apply in_or_app. now left.
  - exact Huni.
  - eapply Forall_impl; [|exact Hent]. intros c [seg [Hne [Hs [Hc [Hseen Hpath]]]]].
    exists seg. conjs; auto.
    intros Hin. destruct Hpath as [pre [post E]]; [apply in_or_app; now left|].
    destruct post as [|z post] using rev_ind.
    + exfalso. rewrite app_nil_r in E.
      assert (El : last (path0 ++ [node]) EmptyString = last (pre ++ seg) EmptyString)
        by now rewrite E.
      rewrite last_last, last_app_r in El by exact Hne.
      apply Hnode. now rewrite El.
    + clear IHpost. rewrite !app_assoc in E. apply app_inj_tail in E.
      destruct E as [E _]. exists pre, post. now rewrite E, <- app_assoc.
  - exact Hdis.
Qed.

Lemma nth_error_snoc {A} (l : list A) a i b :
  nth_error (l ++ [a]) i = Some b ->
  (i < length l /\ nth_error l i = Some b) \/ (i = length l /\ b = a).
Proof.
  intros H. destruct (Nat.lt_ge_cases i (length l)) as [Hlt|Hge].
  - left. split; auto. now rewrite nth_error_app1 in H.
  - right. rewrite nth_error_app2 in H by exact Hge.
    destruct (i - length l) as [|k] eqn:Ek.
    + simpl in H. injection H as <-. split; [lia|reflexivity].
    + simpl in H. destruct k; discriminate.
Qed.

(** what [recordCycle] builds when [dep] is on the path *)
Lemma found_cycle path0 node dep :
  NoDup (path0 ++ [node]) -> In dep (path0 ++ [node]) ->
  exists pre seg,
    path0 ++ [node] = pre ++ seg /\ seg <> [] /\ NoDup seg
    /\ hd EmptyString seg = dep /\ last seg EmptyString = node
    /\ match indexOf dep (path0 ++ [node]) with
       | Some cycleStart => skipn cycleStart (path0 ++ [node])
       | None => (path0 ++ [node]) ++ [dep]
       end ++ [dep] = seg ++ [dep].
Proof.
  intros Hnd Hin.
  destruct (indexOf_Some dep _ Hin) as [i [pre [Hi [Hsplit [Hhd Hne]]]]].
  exists pre, (skipn i (path0 ++ [node])). rewrite Hi.
  split; [exact Hsplit|]. split; [exact Hne|]. split.
  { rewrite Hsplit in Hnd. now apply NoDup_app_remove_l in Hnd. }
  split; [exact Hhd|]. split; [|reflexivity].
  assert (E : last (path0 ++ [node]) EmptyString
            = last (pre ++ skipn i (path0 ++ [node])) EmptyString) by now rewrite <- Hsplit.
  rewrite last_last in E. now rewrite last_app_r in E by exact Hne.
Qed.

Lemma walking_record path0 node dep st :
  walking g (path0 ++ [node]) st -> dep ∈ recursionStack st ->
  walking g (path0 ++ [node]) (recordCycle (path0 ++ [node]) dep st).
Proof.
  intros Hw Hdep. pose proof Hw as [Hnd [Hstack [Hvis [Huni [Hent Hdis]]]]].
  assert (Hin : In dep (path0 ++ [node])) by now apply Hstack.
  destruct (found_cycle path0 node dep Hnd Hin)
    as [pre [seg [Hsplit [Hne [Hsegnd [Hhd [Hlast Hfound]]]]]]].
  unfold recordCycle. rewrite Hfound.
  destruct (existsb _ (cycles st)) eqn:Ekey; [exact Hw|].
  set (path := path0 ++ [node]) in *.
  assert (Hsegpath : forall n, In n seg -> In n path).
  { intros n Hn. rewrite Hsplit. apply in_or_app. now right. }
  assert (Hnew : entryOk path (visited st) (seg ++ [dep])).
  { exists seg. conjs; auto.
    - now rewrite Hhd.
    - intros _. exists pre, []. now rewrite app_nil_r. }
  unfold walking; cbn [visited recursionStack cycles].
  split; [exact Hnd|]. split; [exact Hstack|]. split; [exact Hvis|].
  split; [exact Huni|]. split.
  - apply Forall_app. split; [exact Hent|]. constructor; [exact Hnew|constructor].
  - (* an older entry with the same nodes would be the new one, and its key
       would have been found *)
    assert (Hold : forall c, In c (cycles st) -> ~ sameNodes (cycle c) (seg ++ [dep])).
    { intros c Hc Hsame.
      assert (Hk : String.eqb (cycleKey (cycle c)) (cycleKey (seg ++ [dep])) = false).
      { destruct (String.eqb _ _) eqn:Ek; [|reflexivity].
        assert (Hex : existsb (fun c0 => String.eqb (cycleKey (cycle c0))
                                  (cycleKey (seg ++ [dep]))) (cycles st) = true)
          by (apply existsb_exists; eauto).
        congruence. }
      rewrite Forall_forall in Hent. destruct (Hent c Hc)
        as [seg' [Hne' [Hnd' [Hc' [Hseen' Hpath']]]]].
      assert (Hnodes' : forall n, In n (cycle c) <-> In n seg').
      { intros n. rewrite Hc', in_app_iff. simpl.
        pose proof (hd_In seg' EmptyString Hne'). intuition congruence. }
      assert (Hnodes : forall n, In n (seg ++ [dep]) <-> In n seg).
      { intros n. rewrite in_app_iff. simpl.
        pose proof (hd_In seg EmptyString Hne) as Hh. rewrite Hhd in Hh.
        intuition congruence. }
      assert (Hsegs : sameNodes seg' seg).
      { intros n. rewrite <- Hnodes', <- Hnodes. apply Hsame. }
      destruct Hpath' as [pre' [post' E']].
      { apply Hsegpath, Hsegs. now apply last_In. }
      assert (Hpost : post' = []).
      { apply (segment_with_last pre' seg' post').
        - now rewrite <- E'.
        - rewrite <- E'. unfold path. rewrite last_last.
          apply Hsegs. rewrite <- Hlast. now apply last_In. }
      subst post'. rewrite app_nil_r in E'.
      assert (Eseg : seg' = seg).
      { apply (suffix_same_nodes pre' seg' pre seg); auto.
        - now rewrite <- E'.
        - now rewrite <- E', <- Hsplit. }
      apply String.eqb_neq in Hk. apply Hk.
      now rewrite Hc', Eseg, Hhd. }
    intros a b ca cb Ha Hb Hsame.
    apply nth_error_snoc in Ha. apply nth_error_snoc in Hb.
    destruct Ha as [[Hla Ha]|[-> ->]]; destruct Hb as [[Hlb Hb]|[-> ->]].
    + exact (Hdis _ _ _ _ Ha Hb Hsame).
    + exfalso. apply nth_error_In in Ha. exact (Hold _ Ha Hsame).
    + exfalso. apply nth_error_In in Hb. apply (Hold _ Hb).
      intros n. symmetry. apply Hsame.
    + reflexivity.
Qed.

Lemma recordCycle_visited path dep st : visited (recordCycle path dep st) = visited st.
Proof. unfold recordCycle. now destruct (existsb _ _). Qed.

Lemma recordCycle_incl path dep st : incl (cycles st) (cycles (recordCycle path dep st)).
Proof.
  unfold recordCycle. destruct (existsb _ _); [apply incl_refl|].
  cbn [cycles]. now apply incl_appl, incl_refl.
Qed.

(** ** Two files that import each other *)

Section Pair.
Context (x y : string).

Lemma paired_enter path0 node st :
  paired g x y path0 st -> paired g x y (path0 ++ [node]) (enter node st).
Proof.
  intros Hp Hl. destruct (Hp Hl) as [Hx Hy].
  cbn [enter visited cycles]. split; intros Hv Hn.
  - apply Hx.
    + apply elem_of_union in Hv. destruct Hv as [Hv|Hv]; [|exact Hv].
      apply elem_of_singleton in Hv. subst. exfalso. apply Hn.
      apply in_or_app. right. now left.
    + intros Hin. apply Hn. apply in_or_app. now left.
  - apply Hy.
    + apply elem_of_union in Hv. destruct Hv as [Hv|Hv]; [|exact Hv].
      apply elem_of_singleton in Hv. subst. exfalso. apply Hn.
      apply in_or_app. right. now left.
    + intros Hin. apply Hn. apply in_or_app. now left.
Qed.

Lemma paired_record path dep st :
  paired g x y path st -> paired g x y path (recordCycle path dep st).
Proof.
  intros Hp Hl. destruct (Hp Hl) as [Hx Hy]. rewrite recordCycle_visited.
  split; intros Hv Hn; eapply joined_incl; eauto using recordCycle_incl.
Qed.

(** the cycle found when one of the two files meets the other on the
    stack passes through both, and so does any entry with its key *)
Lemma record_joined path0 node dep st :
  linked g x y -> walking g (path0 ++ [node]) st ->
  dep ∈ recursionStack st -> facing x y node dep ->
  joined x y (cycles (recordCycle (path0 ++ [node]) dep st)).
Proof.
  intros [Hxy [_ [_ Hnames]]] Hw Hdep Hface.
  pose proof Hw as [Hnd [Hstack [Hvis [Huni [Hent Hdis]]]]].
  assert (Hin : In dep (path0 ++ [node])) by now apply Hstack.
  destruct (found_cycle path0 node dep Hnd Hin)
    as [pre [seg [Hsplit [Hne [Hsegnd [Hhd [Hlast Hfound]]]]]]].
  assert (Hlack : forall n, n ∈ visited st -> lacks ">" n = true).
  { intros n Hn. apply Hnames. apply Huni in Hn. unfold universe in Hn.
    now apply elem_of_list_to_set, list_elem_of_In in Hn. }
  assert (Hsegseen : forall n, In n seg -> n ∈ visited st).
  { intros n Hn. apply Hvis. rewrite Hsplit. apply in_or_app. now right. }
  assert (Hboth : In x (seg ++ [dep]) /\ In y (seg ++ [dep])).
  { assert (Hnode : In node (seg ++ [dep])).
    { apply in_or_app. left. rewrite <- Hlast. now apply last_In. }
    assert (Hd : In dep (seg ++ [dep])) by (apply in_or_app; right; now left).
    destruct Hface as [[<- <-]|[<- <-]]; auto. }
  unfold recordCycle. rewrite Hfound.
  destruct (existsb _ (cycles st)) eqn:Ekey.
  - apply existsb_exists in Ekey. destruct Ekey as [c [Hc Hk]].
    apply String.eqb_eq in Hk.
    apply Exists_exists. exists c. split; [exact Hc|].
    apply throughBoth_In.
    rewrite Forall_forall in Hent.
    destruct (Hent c Hc) as [seg' [Hne' [Hnd' [Hc' [Hseen' _]]]]].
    assert (Hperm : Permutation (cycle c) (seg ++ [dep])).
    { apply cycleKey_perm; auto.
      - rewrite Hc'. apply Forall_app. split.
        + apply Forall_forall. intros n Hn. apply Hlack. now apply Hseen'.
        + constructor; [|constructor]. apply Hlack, Hseen'. now apply hd_In.
      - apply Forall_app. split.
        + apply Forall_forall. intros n Hn. apply Hlack. now apply Hsegseen.
        + constructor; [|constructor]. apply Hlack, Hvis. exact Hin.
      - rewrite Hc'. destruct seg'; discriminate.
      - destruct seg; discriminate. }
    split; eapply Permutation_in; try (symmetry; exact Hperm); tauto.
  - cbn [cycles]. apply Exists_app. right. constructor.
    apply throughBoth_In. exact Hboth.
Qed.

(** ** The walk returns, and keeps the invariants *)

Lemma visitDeps_ok fuel path0 node :
  dfsOk g x y fuel ->
  forall deps st,
    (forall d, In d deps -> d ∈ universe g) ->
    walking g (path0 ++ [node]) st -> paired g x y (path0 ++ [node]) st ->
    size (universe g ∖ visited st) < fuel ->
    exists st', visitDeps (dfs fuel g) (path0 ++ [node]) deps st = Some st'
      /\ walking g (path0 ++ [node]) st' /\ paired g x y (path0 ++ [node]) st'
      /\ visited st ⊆ visited st'
      /\ incl (cycles st) (cycles st')
      /\ (linked g x y -> forall dep, In dep deps -> facing x y node dep ->
          joined x y (cycles st')).
Proof.
  intros IH. induction deps as [|dep deps IHdeps]; intros st Hu Hw Hp Hsize.
  - exists st. conjs; auto using incl_refl. intros _ dep [].
  - cbn [visitDeps].
    assert (Hstep : exists st1,
      (if negb (bool_decide (dep ∈ visited st))
       then dfs fuel g dep ((path0 ++ [node]) ++ [dep]) st
       else if bool_decide (dep ∈ recursionStack st)
            then Some (recordCycle (path0 ++ [node]) dep st) else Some st) = Some st1
      /\ walking g (path0 ++ [node]) st1 /\ paired g x y (path0 ++ [node]) st1
      /\ visited st ⊆ visited st1 /\ incl (cycles st) (cycles st1)
      /\ (linked g x y -> facing x y node dep -> joined x y (cycles st1))).
    { destruct (bool_decide (dep ∈ visited st)) eqn:Ev; cbn [negb].
      - apply bool_decide_eq_true in Ev.
        destruct (bool_decide (dep ∈ recursionStack st)) eqn:Es.
        + apply bool_decide_eq_true in Es. eexists. split; [reflexivity|].
          split; [now apply walking_record|]. split; [now apply paired_record|].
          split; [now rewrite recordCycle_visited|].
          split; [apply recordCycle_incl|].
          intros Hl Hf. now apply record_joined.
        + apply bool_decide_eq_false in Es. exists st.
          conjs; auto using incl_refl.
          intros Hl Hf. destruct Hw as [_ [Hstack _]].
          destruct (Hp Hl) as [Hx Hy].
          destruct Hf as [[-> ->]|[-> ->]]; [apply Hy|apply Hx]; auto;
            intros Hin; apply Es; now apply Hstack.
      - apply bool_decide_eq_false in Ev.
        destruct (IH dep (path0 ++ [node]) st Hw Hp)
          as [st1 [E [Hw1 [Hp1 [Hsub [Hdep Hincl]]]]]]; auto.
        + apply Hu. now left.
        + exists st1. conjs; auto.
          intros Hl Hf. destruct Hw as [_ [_ [Hvis _]]].
          destruct (Hp1 Hl) as [Hx Hy].
          destruct Hf as [[-> ->]|[-> ->]]; [apply Hy|apply Hx]; auto;
            intros Hin; apply Ev; now apply Hvis. }
    destruct Hstep as [st1 [-> [Hw1 [Hp1 [Hsub1 [Hincl1 Hj1]]]]]].
    destruct (IHdeps st1) as [st2 [E2 [Hw2 [Hp2 [Hsub2 [Hincl2 Hj2]]]]]]; auto.
    + intros d Hd. apply Hu. now right.
    + pose proof (measure_mono _ _ Hsub1). lia.
    + exists st2. split; [exact E2|]. split; [exact Hw2|]. split; [exact Hp2|].
      split; [set_solver|]. split; [eapply incl_tran; eauto|].
      intros Hl d [<-|Hd] Hf.
      * eapply joined_incl; [exact Hincl2|]. now apply Hj1.
      * now apply (Hj2 Hl d).
Qed.

Lemma dfs_ok fuel : dfsOk g x y fuel.
Proof.
  induction fuel as [|fuel IH]; intros node path0 st Hw Hp Hu Hnew Hsize; [lia|].
  cbn [dfs].
  assert (Hw1 : walking g (path0 ++ [node]) (enter node st)) by now apply walking_enter.
  assert (Hp1 : paired g x y (path0 ++ [node]) (enter node st)) by now apply paired_enter.
  assert (Hsize1 : size (universe g ∖ visited (enter node st)) < fuel).
  { cbn [enter visited]. pose proof (measure_enter (visited st) node Hu Hnew). lia. }
  assert (Hwalk : exists st2,
    match OMap.get node g with
    | Some deps => visitDeps (dfs fuel g) (path0 ++ [node]) deps (enter node st)
    | None => Some (enter node st)
    end = Some st2
    /\ walking g (path0 ++ [node]) st2 /\ paired g x y (path0 ++ [node]) st2
    /\ visited (enter node st) ⊆ visited st2
    /\ incl (cycles st) (cycles st2)
    /\ (linked g x y -> node = x \/ node = y -> joined x y (cycles st2))).
  { destruct (OMap.get node g) as [deps|] eqn:Eg.
    - destruct (visitDeps_ok fuel path0 node IH deps (enter node st))
        as [st2 [E [Hw2 [Hp2 [Hsub2 [Hincl2 Hj2]]]]]]; auto.
      + intros d Hd. eapply universe_dep; eauto.
      + exists st2. conjs; auto.
        intros Hl Hnode. pose proof Hl as [_ [[dx [Ex Hyx]] [[dy [Ey Hxy]] _]]].
        destruct Hnode as [->| ->].
        * rewrite Ex in Eg. injection Eg as <-. apply (Hj2 Hl y Hyx). now left.
        * rewrite Ey in Eg. injection Eg as <-. apply (Hj2 Hl x Hxy). now right.
    - exists (enter node st). conjs; auto using incl_refl.
      intros [_ [[dx [Ex _]] [[dy [Ey _]] _]]] [->| ->]; congruence. }
  destruct Hwalk as [st2 [-> [Hw2 [Hp2 [Hsub2 [Hincl2 Hj2]]]]]]. cbn [option_map].
  exists (leave node st2). split; [reflexivity|].
  split; [now apply walking_leave|]. split.
  - intros Hl. destruct (Hp2 Hl) as [Hx Hy]. cbn [leave visited cycles].
    split; intros Hv Hn.
    + destruct (string_dec node x) as [->|Hne]; [apply Hj2; auto|].
      apply Hx; auto. intros Hin. apply in_app_or in Hin.
      destruct Hin as [Hin|[Heq|[]]]; [contradiction|congruence].
    + destruct (string_dec node y) as [->|Hne]; [apply Hj2; auto|].
      apply Hy; auto. intros Hin. apply in_app_or in Hin.
      destruct Hin as [Hin|[Heq|[]]]; [contradiction|congruence].
  - cbn [leave visited enter cycles] in *. conjs; auto; set_solver.
Qed.

Lemma dfsAll_ok fuel : forall roots st,
  (forall f, In f roots -> f ∈ universe g) ->
  walking g [] st -> paired g x y [] st ->
  size (universe g ∖ visited st) < fuel ->
  exists st', dfsAll fuel g roots st = Some st'
    /\ walking g [] st' /\ paired g x y [] st'
    /\ visited st ⊆ visited st' /\ (forall f, In f roots -> f ∈ visited st').
Proof.
  induction roots as [|file roots IH]; intros st Hu Hw Hp Hsize.
  - exists st. conjs; auto. intros f [].
  - cbn [dfsAll].
    assert (Hstep : exists st1,
      (if negb (bool_decide (file ∈ visited st)) then dfs fuel g file [file] st
       else Some st) = Some st1
      /\ walking g [] st1 /\ paired g x y [] st1
      /\ visited st ⊆ visited st1 /\ file ∈ visited st1).
    { destruct (bool_decide (file ∈ visited st)) eqn:Ev; cbn [negb].
      - apply bool_decide_eq_true in Ev. exists st. auto.
      - apply bool_decide_eq_false in Ev.
        destruct (dfs_ok fuel file [] st Hw Hp) as [st1 [E [Hw1 [Hp1 [Hsub [Hin _]]]]]]; auto.
        + apply Hu. now left.
        + eauto 6. }
    destruct Hstep as [st1 [-> [Hw1 [Hp1 [Hsub1 Hin1]]]]].
    destruct (IH st1) as [st2 [E2 [Hw2 [Hp2 [Hsub2 Hall]]]]]; auto.
    + intros f Hf. apply Hu. now right.
    + pose proof (measure_mono _ _ Hsub1). lia.
    + exists st2. split; [exact E2|]. split; [exact Hw2|]. split; [exact Hp2|].
      split; [set_solver|]. intros f [<-|Hf]; [set_solver|auto].
Qed.

Lemma findCycles_ok :
  exists st, findCycles g = Some st /\ walking g [] st
    /\ (linked g x y -> joined x y (cycles st)).
Proof.
  unfold findCycles.
  destruct (dfsAll_ok (S (length (graphNodes g))) (OMap.keys g)
              {| visited := ∅; recursionStack := ∅; cycles := [] |})
    as [st [E [Hw [Hp [_ Hall]]]]].
  - intros f Hf. unfold universe, graphNodes.
    apply elem_of_list_to_set, list_elem_of_In, in_or_app. now left.
  - unfold walking; cbn [visited recursionStack cycles].
    split; [constructor|]. split; [intros n; simpl; set_solver|].
    split; [intros n []|]. split; [set_solver|]. split; [constructor|].
    intros i j ci cj Hi. destruct i; discriminate.
  - intros _. cbn [visited]. split; intros Hv; set_solver.
  - cbn [visited].
    pose proof (size_list_to_set_le (graphNodes g)).
    assert (size (universe g ∖ ∅) <= size (universe g))
      by (apply subseteq_size; generalize (universe g); set_solver).
    unfold universe in *. lia.
  - exists st. split; [exact E|]. split; [exact Hw|].
    intros Hl. destruct (Hp Hl) as [Hx _]. apply Hx; [|intros []].
    apply Hall. destruct Hl as [_ [[dx [Ex _]] _]].
    apply get_In in Ex. unfold OMap.keys.
    change x with (fst (x, dx)). now apply in_map.
Qed.

End Pair.
End Walk.
End DfsFacts.

Module CycleFacts.
Import OMapFacts OSetFacts DfsFacts.

(** two files that import each other and nothing else *)
Lemma mutual_import_cycle (x y : string) :
  x <> y ->
  exists st, findCycles [(x, [y]); (y, [x])] = Some st
    /\ cycles st = [cycleEntry [x; y; x]].
Proof.
  intros Hxy.
  assert (Eyx : String.eqb y x = false) by (apply String.eqb_neq; congruence).
  assert (Exy : String.eqb x y = false) by (now apply String.eqb_neq).
  unfold findCycles, graphNodes. cbn [OMap.keys map fst snd concat app length].
  cbn [dfsAll visited].
  rewrite (bool_decide_eq_false_2 (x ∈ (∅ : gset string))) by set_solver.
  cbn [negb dfs].
  cbn [OMap.get]. rewrite String.eqb_refl.
  cbn [visitDeps enter visited recursionStack cycles].
  rewrite (bool_decide_eq_false_2 (y ∈ ({[x]} ∪ ∅ : gset string))) by set_solver.
  cbn [negb dfs OMap.get]. rewrite Eyx, String.eqb_refl.
  cbn [visitDeps enter visited recursionStack cycles].
  rewrite (bool_decide_eq_true_2 (x ∈ ({[y]} ∪ ({[x]} ∪ ∅) : gset string))) by set_solver.
  cbn [negb].
  unfold recordCycle. cbn [app indexOf enter visited recursionStack cycles existsb].
  rewrite String.eqb_refl.
  cbn [skipn app cycles existsb option_map leave visited recursionStack].
  rewrite (bool_decide_eq_true_2 (y ∈ ({[y]} ∪ ({[x]} ∪ ∅) : gset string))) by set_solver.
  cbn [negb].
  eexists. split; [reflexivity|]. reflexivity.
Qed.

Lemma importGraph_pair projectPaths fx fy :
  relativePath fx <> relativePath fy ->
  buildImportGraph projectPaths [fx; fy]
  = [(relativePath fx, fileDeps projectPaths fx);
     (relativePath fy, fileDeps projectPaths fy)].
Proof.
  intros Hne. unfold buildImportGraph. cbn [fold_left OMap.set].
  assert (E : String.eqb (relativePath fy) (relativePath fx) = false)
    by (apply String.eqb_neq; congruence).
  now rewrite E.
Qed.

Lemma detect_pair projectPaths fx fy :
  relativePath fx <> relativePath fy ->
  fileDeps projectPaths fx = [relativePath fy] ->
  fileDeps projectPaths fy = [relativePath fx] ->
  detectCircularDependencies projectPaths [fx; fy]
  = [cycleEntry [relativePath fx; relativePath fy; relativePath fx]].
Proof.
  intros Hne Hx Hy. unfold detectCircularDependencies.
  rewrite (importGraph_pair _ _ _ Hne), Hx, Hy.
  destruct (mutual_import_cycle _ _ Hne) as [st [E Hc]].
  replace (findCycles _) with (Some st) by (symmetry; exact E). exact Hc.
Qed.

Lemma detect_cycles projectPaths fileInfos x y :
  exists st, findCycles (buildImportGraph projectPaths fileInfos) = Some st
    /\ detectCircularDependencies projectPaths fileInfos = cycles st
    /\ walking (buildImportGraph projectPaths fileInfos) [] st
    /\ (linked (buildImportGraph projectPaths fileInfos) x y -> joined x y (cycles st)).
Proof.
  destruct (findCycles_ok (buildImportGraph projectPaths fileInfos) x y)
    as [st [E [Hw Hj]]].
  exists st. unfold detectCircularDependencies. rewrite E. auto.
Qed.

Lemma entryOk_closed path seen c : entryOk path seen c -> closedWalk c.
Proof.
  intros [seg [Hne [Hnd [Hc _]]]]. exists seg. auto.
Qed.

Lemma closedWalk_nodes c n :
  closedWalk c -> In n c <-> In n (removelast c).
Proof.
  intros [seg [Hne [Hnd ->]]]. rewrite removelast_last, in_app_iff. simpl.
  pose proof (hd_In seg EmptyString Hne). intuition congruence.
Qed.

Lemma rotation_sameNodes c1 c2 :
  closedWalk c1 -> closedWalk c2 -> rotation c1 c2 -> sameNodes c1 c2.
Proof.
  intros H1 H2 [front [back [E1 E2]]] n.
  rewrite (closedWalk_nodes c1 n H1), (closedWalk_nodes c2 n H2), E1, E2.
  rewrite !in_app_iff. tauto.
Qed.

End CycleFacts.

(** C7, as stated, fails: [a.ts] and [b.ts] import each other, and the
    report of the four-file project holds two entries that pass through
    both, neither of them the two-file cycle. *)
Lemma two_entries_through_a_mutual_import :
  In "b.ts" (fileDeps TwoCycles.projectPaths (TwoCycles.file "a.ts" ["./c"; "./b"]))
  /\ In "a.ts" (fileDeps TwoCycles.projectPaths (TwoCycles.file "b.ts" ["./a"; "./d"]))
  /\ filter (throughBoth "a.ts" "b.ts")
       (detectCircularDependencies TwoCycles.projectPaths TwoCycles.fileInfos)
     = [ cycleEntry ["a.ts"; "c.ts"; "b.ts"; "a.ts"];
         cycleEntry ["a.ts"; "c.ts"; "b.ts"; "d.ts"; "a.ts"] ].
Proof.
  split; [|split].
  - vm_compute. auto.
  - vm_compute. auto.
  - vm_compute. reflexivity.
Qed.

(** C7, amended.  When two files whose resolved relative imports are each
    other make up the scan, the report is the single cycle that starts at
    the file scanned first, in either order.  For any scan the walk returns,
    every entry is a closed walk over a repetition-free path, and no two
    entries hold the same nodes; in particular none is a rotation of
    another.  When two files of the import graph import each other and no
    node name holds a [>], at least one entry passes through both. *)
Theorem circular_dependencies_reported (projectPaths : list string) :
  (forall fx fy,
     relativePath fx <> relativePath fy ->
     fileDeps projectPaths fx = [relativePath fy] ->
     fileDeps projectPaths fy = [relativePath fx] ->
     detectCircularDependencies projectPaths [fx; fy]
       = [cycleEntry [relativePath fx; relativePath fy; relativePath fx]]
     /\ detectCircularDependencies projectPaths [fy; fx]
       = [cycleEntry [relativePath fy; relativePath fx; relativePath fy]])
  /\ (forall fileInfos,
        (exists st, findCycles (buildImportGraph projectPaths fileInfos) = Some st
           /\ detectCircularDependencies projectPaths fileInfos = cycles st)
        /\ Forall (fun c => closedWalk (cycle c))
             (detectCircularDependencies projectPaths fileInfos)
        /\ distinctCycles (detectCircularDependencies projectPaths fileInfos)
        /\ (forall i j ci cj,
              nth_error (detectCircularDependencies projectPaths fileInfos) i = Some ci ->
              nth_error (detectCircularDependencies projectPaths fileInfos) j = Some cj ->
              rotation (cycle ci) (cycle cj) -> i = j)
        /\ (forall x y,
              linked (buildImportGraph projectPaths fileInfos) x y ->
              joined x y (detectCircularDependencies projectPaths fileInfos))).
Proof.
  split.
  - intros fx fy Hne Hx Hy. split.
    + now apply CycleFacts.detect_pair.
    + apply CycleFacts.detect_pair; auto.
  - intros fileInfos.
    destruct (CycleFacts.detect_cycles projectPaths fileInfos EmptyString EmptyString)
      as [st [E [Hd [[_ [_ [_ [_ [Hent Hdis]]]]] _]]]].
    assert (Hclosed : Forall (fun c => closedWalk (cycle c)) (cycles st)).
    { eapply Forall_impl; [|exact Hent]. intros c. apply CycleFacts.entryOk_closed. }
    split; [eauto|]. split; [now rewrite Hd|]. split; [now rewrite Hd|]. split.
    + rewrite Hd. intros i j ci cj Hi Hj Hrot. apply (Hdis i j ci cj Hi Hj).
      rewrite Forall_forall in Hclosed.
      apply CycleFacts.rotation_sameNodes; auto.
      * apply Hclosed. eapply nth_error_In; eauto.
      * apply Hclosed. eapply nth_error_In; eauto.
    + intros x y Hl.
      destruct (CycleFacts.detect_cycles projectPaths fileInfos x y)
        as [st' [_ [-> [_ Hj]]]].
      now apply Hj.
Qed.
(** * The theorems at concrete scans *)

Lemma call_graphs_of_a_scan_witness :
  buildGraphs generic RawEdge.project emptyScanner = (RawEdge.fileInfos, RawEdge.this)
  /\ ((forall caller,
         OMap.get caller (callGraph RawEdge.this)
         = lastEntry caller (callerEntries RawEdge.fileInfos))
      /\ (forall key caller,
            edge (reverseCallGraph RawEdge.this) key caller
            <-> rawEdge RawEdge.fileInfos key caller
                \/ templateEdge RawEdge.fileInfos key caller
                \/ resolvedEdge RawEdge.this RawEdge.fileInfos key caller)).
Proof.
  split.
  - apply surjective_pairing.
  - apply (call_graphs_of_a_scan generic RawEdge.project). apply surjective_pairing.
Defined.

Lemma transitive_injection_resolution_witness :
  resolveMethodCall Chain.this {[ "_b" := "B" ]} "this._b.c.m" = Some "C.m"
  /\ edge (reverseCallGraph Chain.this) "C.m" "A.run".
Proof.
  assert (Hid : forall s, s <> EmptyString -> every Regex.word s = true -> identifier s)
    by (intros s H1 H2; split; assumption).
  destruct (transitive_injection_resolution generic Chain.project Chain.fileInfos
              Chain.this "A" "B" "C" "_b" "c" "m" {[ "_b" := "B" ]} {[ "c" := "C" ]} ["m"])
    as [_ [Hres [Hedge _]]].
  - apply surjective_pairing.
  - vm_compute. reflexivity.
  - vm_compute. reflexivity.
  - vm_compute. reflexivity.
  - vm_compute. reflexivity.
  - vm_compute. reflexivity.
  - now left.
  - apply Hid; [discriminate|reflexivity].
  - apply Hid; [discriminate|reflexivity].
  - apply Hid; [discriminate|reflexivity].
  - split; [exact Hres|].
    destruct (Hedge Chain.file Chain.classA Chain.run) as [_ He].
    + vm_compute. now left.
    + vm_compute. now left.
    + reflexivity.
    + vm_compute. now left.
    + vm_compute. now left.
    + exact He.
Defined.

Lemma dead_method_reported_iff_witness :
  In (methodItem Dead.file Dead.cls Dead.unusedMethod)
     (detectDeadCode emptyScanner [Dead.file])
  /\ d_name (methodItem Dead.file Dead.cls Dead.unusedMethod) <> "ngOnInit"
  /\ d_reason (methodItem Dead.file Dead.cls Dead.unusedMethod) = "No callers found".
Proof.
  destruct (dead_method_reported_iff emptyScanner [Dead.file]
              (methodItem Dead.file Dead.cls Dead.unusedMethod)) as [Hiff Hpart].
  assert (Hin : In (methodItem Dead.file Dead.cls Dead.unusedMethod)
                   (detectDeadCode emptyScanner [Dead.file])
                /\ d_type (methodItem Dead.file Dead.cls Dead.unusedMethod) = dead_method).
  { apply Hiff. exists Dead.file, Dead.cls, Dead.unusedMethod.
    split; [now left|]. split; [now left|]. split; [now left|].
    split; [|reflexivity].
    split; [reflexivity|]. split.
    - vm_compute. intuition discriminate.
    - intros [H _]. discriminate. }
  split; [exact (proj1 Hin)|]. exact (Hpart Hin).
Defined.

Lemma dead_function_export_exemption_witness :
  uncalled emptyScanner Dead.helper
  /\ deadFunction emptyScanner Dead.file (setExported false Dead.helper)
     = [functionItem Dead.file Dead.helper]
  /\ deadFunction emptyScanner Dead.file (setExported true Dead.helper) = []
  /\ In (functionItem Dead.file Dead.helper) (detectDeadCode emptyScanner [Dead.file]).
Proof.
  assert (Hun : uncalled emptyScanner Dead.helper) by (left; reflexivity).
  destruct (dead_function_export_exemption emptyScanner [Dead.file] Dead.file
              Dead.helper Hun) as [H1 [H2 H3]].
  split; [exact Hun|]. split; [exact H1|]. split; [exact H2|].
  apply H3; now left.
Defined.

Lemma circular_dependencies_reported_witness :
  (detectCircularDependencies TwoCycles.projectPaths TwoCycles.pair
     = [cycleEntry ["a.ts"; "b.ts"; "a.ts"]]
   /\ detectCircularDependencies TwoCycles.projectPaths (rev TwoCycles.pair)
     = [cycleEntry ["b.ts"; "a.ts"; "b.ts"]])
  /\ joined "a.ts" "b.ts"
       (detectCircularDependencies TwoCycles.projectPaths TwoCycles.fileInfos).
Proof.
  destruct (circular_dependencies_reported TwoCycles.projectPaths) as [Hpair Hall].
  split.
  - apply (Hpair (TwoCycles.file "a.ts" ["./b"]) (TwoCycles.file "b.ts" ["./a"])).
    + discriminate.
    + vm_compute. reflexivity.
    + vm_compute. reflexivity.
  - destruct (Hall TwoCycles.fileInfos) as [_ [_ [_ [_ Hjoin]]]].
    apply Hjoin. split; [discriminate|]. split; [|split].
    + exists ["c.ts"; "b.ts"]. split; [vm_compute; reflexivity|]. right. now left.
    + exists ["a.ts"; "d.ts"]. split; [vm_compute; reflexivity|]. now left.
    + intros n Hn. vm_compute in Hn.
      repeat (destruct Hn as [<-|Hn]; [reflexivity|]). destruct Hn.
Defined.

Lemma free_function_callers_witness :
  buildGraphs generic FreeFunctions.project emptyScanner
    = (FreeFunctions.fileInfos, FreeFunctions.this)
  /\ In (deadFunctionItem "bar" "util.ts" 2)
       (detectDeadCode FreeFunctions.this
          (buildCallGraph FreeFunctions.this FreeFunctions.fileInfos))
  /\ In (deadFunctionItem "qux" "util.ts" 3)
       (detectDeadCode FreeFunctions.this
          (buildCallGraph FreeFunctions.this FreeFunctions.fileInfos)).
Proof.
  assert (Hb : buildGraphs generic FreeFunctions.project emptyScanner
               = (FreeFunctions.fileInfos, FreeFunctions.this))
    by apply surjective_pairing.
  assert (Hnone : forall name, calledByNoMethod FreeFunctions.fileInfos name).
  { intros name file' cls method Hf Hc. vm_compute in Hf.
    destruct Hf as [<-|[]]. destruct Hc. }
  split; [exact Hb|].
  destruct (free_function_callers generic FreeFunctions.project FreeFunctions.fileInfos
              FreeFunctions.this Hb) as [_ [_ [_ [_ [Hdeclared Hbound]]]]].
  split.
  - apply (Hdeclared FreeFunctions.source (FreeFunctions.declared "bar" 2 [])).
    + now left.
    + right. now left.
    + reflexivity.
    + reflexivity.
    + apply Hnone.
  - apply (Hbound FreeFunctions.source FreeFunctions.qux FreeFunctions.arrow).
    + now left.
    + now left.
    + reflexivity.
    + discriminate.
    + reflexivity.
    + reflexivity.
    + apply Hnone.
Defined.
(** * Call texts *)

Module CallTextFacts.
Import OSetFacts.

Lemma blanks_collapse s : forall inRun,
  blanksFrom inRun (collapseSpaces inRun s) = true.
Proof.
  induction s as [|a s IH]; intros inRun; [reflexivity|].
  cbn [collapseSpaces]. destruct (Regex.space a) eqn:Ea.
  - destruct inRun; [apply IH|].
    cbn [blanksFrom]. change (Regex.space " "%char) with true. cbn. apply IH.
  - cbn [blanksFrom]. rewrite Ea. apply IH.
Qed.

Lemma blanks_weaken s : blanksFrom true s = true -> blanksFrom false s = true.
Proof.
  destruct s as [|a s]; [reflexivity|]. cbn [blanksFrom].
  destruct (Regex.space a); [|auto].
  rewrite andb_false_r. discriminate.
Qed.

Lemma blanks_trimStart s :
  blanksFrom false s = true -> blanksFrom true (trimStart s) = true.
Proof.
  induction s as [|a s IH]; [reflexivity|]. cbn [blanksFrom trimStart].
  destruct (Regex.space a) eqn:Ea.
  - intros H. apply andb_prop in H. destruct H as [_ H].
    apply IH. now apply blanks_weaken.
  - intros H. cbn [blanksFrom]. now rewrite Ea.
Qed.

Lemma spaced_trimEnd s : forall afterBlank,
  blanksFrom afterBlank s = true -> trimEnd s <> EmptyString ->
  spacedFrom afterBlank (trimEnd s) = true.
Proof.
  induction s as [|a s IH]; intros afterBlank; [intros _ H; now destruct H|].
  cbn [blanksFrom trimEnd].
  destruct (Regex.space a) eqn:Ea; cbn [andb].
  - destruct (String.eqb (trimEnd s) EmptyString) eqn:Er; [intros _ H; now destruct H|].
    apply String.eqb_neq in Er. intros H _.
    apply andb_prop in H. destruct H as [H1 H2].
    cbn [spacedFrom]. rewrite Ea, H1. cbn [andb]. now apply IH.
  - intros H _. cbn [spacedFrom]. rewrite Ea.
    destruct (String.eqb (trimEnd s) EmptyString) eqn:Er.
    + apply String.eqb_eq in Er. now rewrite Er.
    + apply String.eqb_neq in Er. now apply IH.
Qed.

Lemma singleSpaced_callText callee :
  callText callee <> EmptyString -> singleSpaced (callText callee) = true.
Proof.
  intros Hne. unfold singleSpaced, callText, trim in *.
  apply spaced_trimEnd; [|exact Hne].
  apply blanks_trimStart, blanks_collapse.
Qed.

Lemma truthy_ne s : Js.truthy s = true <-> s <> EmptyString.
Proof.
  unfold Js.truthy. rewrite negb_true_iff. apply String.eqb_neq.
Qed.

Lemma In_kept callees : forall acc c,
  In c (fold_left (fun calls callee =>
          if Js.truthy (callText callee) then calls ++ [callText callee] else calls)
          callees acc)
  <-> In c acc
      \/ exists callee, In callee callees /\ c = callText callee /\ c <> EmptyString.
Proof.
  induction callees as [|x callees IH]; intros acc c; simpl.
  - split; [auto|]. intros [H|[callee [[] _]]]. exact H.
  - rewrite IH. destruct (Js.truthy (callText x)) eqn:Et.
    + apply truthy_ne in Et. rewrite in_app_iff. simpl. split.
      * intros [[H|[<-|[]]]|[callee [H1 H2]]]; eauto 6.
      * intros [H|[callee [[<-|H1] [H2 H3]]]]; subst; eauto 6.
    + assert (Hx : callText x = EmptyString).
      { destruct (string_dec (callText x) EmptyString) as [E|E]; [exact E|].
        apply truthy_ne in E. congruence. }
      split.
      * intros [H|[callee [H1 H2]]]; eauto 6.
      * intros [H|[callee [[<-|H1] [H2 H3]]]]; subst; eauto 6. congruence.
Qed.

End CallTextFacts.

(** X1.  The call texts of a node are the texts of its call expressions with
    every run of white space turned into one blank and the ends trimmed,
    the empty ones dropped, each text once: no text is listed twice, and
    every text is non-empty, starts and ends outside white space and holds
    no white space but single blanks. *)
Theorem extracted_call_texts (callees : list string) :
  NoDup (extractCalls callees)
  /\ (forall c, In c (extractCalls callees)
        <-> exists callee, In callee callees /\ c = callText callee /\ c <> EmptyString)
  /\ (forall c, In c (extractCalls callees) -> singleSpaced c = true).
Proof.
  assert (Hin : forall c, In c (extractCalls callees)
                <-> exists callee, In callee callees /\ c = callText callee
                                   /\ c <> EmptyString).
  { intros c. unfold extractCalls. rewrite OSetFacts.In_ofList.
    rewrite (CallTextFacts.In_kept callees [] c). simpl. tauto. }
  split; [apply OSetFacts.NoDup_ofList|]. split; [exact Hin|].
  intros c Hc. apply Hin in Hc. destruct Hc as [callee [_ [-> Hne]]].
  now apply CallTextFacts.singleSpaced_callText.
Qed.

(** * Inheritance *)

Module InheritanceFacts.
Import OMapFacts OSetFacts.

Section Climb.
Context (mcache : OMap.t OSet.t) (ecache : OMap.t (option string)).

Lemma parentOf_key c p : parentOf ecache c = Some p -> In c (OMap.keys ecache).
Proof.
  unfold parentOf. destruct (OMap.get c ecache) as [o|] eqn:E; [|discriminate].
  intros _. apply get_In in E. unfold OMap.keys.
  change c with (fst (c, o)). now apply in_map.
Qed.

Lemma step_parent fuel c visited :
  getAllAncestorMethods (S fuel) mcache ecache c visited
  = match parentOf ecache c with
    | Some p =>
        if OSet.has p visited then []
        else addAll (getAllAncestorMethods fuel mcache ecache p (OSet.add p visited))
               (addAll (methodsOf mcache p) [])
    | None => []
    end.
Proof.
  cbn [getAllAncestorMethods]. unfold parentOf, methodsOf.
  destruct (OMap.get c ecache) as [[p|]|]; try reflexivity.
  destruct (Js.truthy p); reflexivity.
Qed.

Lemma unknown_class fuel c visited :
  parentOf ecache c = None -> getAllAncestorMethods fuel mcache ecache c visited = [].
Proof.
  intros H. destruct fuel; [reflexivity|]. now rewrite step_parent, H.
Qed.

Lemma In_step (A B : list string) m :
  In m (addAll A (addAll B [])) <-> In m B \/ In m A.
Proof. unfold addAll. rewrite !In_fold_add. simpl. tauto. Qed.

Lemma pending_step p visited :
  In p (OMap.keys ecache) -> ~ In p visited ->
  pendingClasses ecache (OSet.add p visited) < pendingClasses ecache visited.
Proof.
  intros Hk Hn. unfold pendingClasses. apply subset_size.
  assert (Hp : p ∈ (list_to_set (OMap.keys ecache) : gset string))
    by now apply elem_of_list_to_set, list_elem_of_In.
  assert (Hv : p ∉ (list_to_set visited : gset string)).
  { intros H. apply Hn. now apply elem_of_list_to_set, list_elem_of_In in H. }
  assert (Hadd : forall n, n ∈ (list_to_set (OSet.add p visited) : gset string)
                 <-> n = p \/ n ∈ (list_to_set visited : gset string)).
  { intros n. rewrite !elem_of_list_to_set, !list_elem_of_In, In_add. tauto. }
  revert Hp Hv Hadd.
  generalize (list_to_set (OMap.keys ecache) : gset string).
  generalize (list_to_set (OSet.add p visited) : gset string).
  generalize (list_to_set visited : gset string).
  intros V V' K Hp Hv Hadd. split.
  - intros n Hn'. apply elem_of_difference in Hn'. destruct Hn' as [HK HV'].
    apply elem_of_difference. split; [exact HK|].
    intros H. apply HV'. apply Hadd. now right.
  - intros Hsub. assert (H : p ∈ K ∖ V') by (apply Hsub; set_solver).
    apply elem_of_difference in H. apply (proj2 H). apply Hadd. now left.
Qed.

(** more fuel than classes left to visit changes nothing *)
Lemma fuel_enough f1 : forall f2 c visited,
  pendingClasses ecache visited < f1 -> pendingClasses ecache visited < f2 ->
  getAllAncestorMethods f1 mcache ecache c visited
  = getAllAncestorMethods f2 mcache ecache c visited.
Proof.
  induction f1 as [|f1 IH]; intros f2 c visited H1 H2; [lia|].
  destruct f2 as [|f2]; [lia|]. rewrite !step_parent.
  destruct (parentOf ecache c) as [p|] eqn:Ep; [|reflexivity].
  destruct (OSet.has p visited) eqn:Ev; [reflexivity|]. apply has_false in Ev.
  f_equal. destruct (parentOf ecache p) as [q|] eqn:Eq.
  - pose proof (pending_step p visited (parentOf_key _ _ Eq) Ev).
    apply IH; lia.
  - now rewrite !unknown_class.
Qed.

Lemma walk_NoDup fuel c visited :
  NoDup (getAllAncestorMethods fuel mcache ecache c visited).
Proof.
  destruct fuel; [constructor|]. rewrite step_parent.
  destruct (parentOf ecache c); [|constructor].
  destruct (OSet.has s visited); [constructor|].
  unfold addAll. apply NoDup_fold_add, NoDup_fold_add. constructor.
Qed.

(** what the walk collects is inherited *)
Lemma walk_sound fuel : forall c visited m,
  In m (getAllAncestorMethods fuel mcache ecache c visited) ->
  ancestorMethod mcache ecache c m.
Proof.
  induction fuel as [|fuel IH]; intros c visited m; [intros []|].
  rewrite step_parent. destruct (parentOf ecache c) as [p|] eqn:Ep; [|intros []].
  destruct (OSet.has p visited); [intros []|].
  rewrite In_step. intros [H|H].
  - exists 0, p. cbn [ancestor]. now rewrite Ep.
  - destruct (IH _ _ _ H) as [n [a [Ha Hm]]].
    exists (S n), a. split; [|exact Hm].
    change (ancestor ecache (S (S n)) c) with
      (match parentOf ecache c with
       | Some q => ancestor ecache (S n) q | None => None end).
    now rewrite Ep.
Qed.

(** the visited classes are closed under going up *)
Lemma climbed_closed c p visited :
  climbed ecache c visited -> parentOf ecache c = Some p -> In p visited ->
  forall n v a, In v visited -> ancestor ecache n v = Some a -> In a visited.
Proof.
  intros Hc Ep Hp. induction n as [|n IH]; intros v a Hv Ha.
  - cbn in Ha. now injection Ha as <-.
  - cbn [ancestor] in Ha. destruct (parentOf ecache v) as [w|] eqn:Ew; [|discriminate].
    apply (IH w); [|exact Ha].
    destruct (string_dec v c) as [->|Hne].
    + rewrite Ep in Ew. now injection Ew as <-.
    + destruct (Hc v Hv Hne) as [w' [Ew' Hw']]. rewrite Ew in Ew'.
      now injection Ew' as <-.
Qed.

Lemma climbed_step c p visited :
  climbed ecache c visited -> parentOf ecache c = Some p ->
  climbed ecache p (OSet.add p visited).
Proof.
  intros Hc Ep v Hv Hne. apply In_add in Hv. destruct Hv as [Hv|Hv]; [|congruence].
  destruct (string_dec v c) as [->|Hvc].
  - exists p. split; [exact Ep|]. apply In_add. now right.
  - destruct (Hc v Hv Hvc) as [w [Ew Hw]]. exists w. split; [exact Ew|].
    apply In_add. now left.
Qed.

(** whatever is inherited, the walk collects or has passed *)
Lemma walk_complete fuel : forall c visited n a m,
  climbed ecache c visited -> pendingClasses ecache visited < fuel ->
  ancestor ecache (S n) c = Some a -> In m (methodsOf mcache a) ->
  In m (getAllAncestorMethods fuel mcache ecache c visited)
  \/ exists v, In v visited /\ In m (methodsOf mcache v).
Proof.
  induction fuel as [|fuel IH]; intros c visited n a m Hc Hf Ha Hm; [lia|].
  rewrite step_parent. cbn [ancestor] in Ha.
  destruct (parentOf ecache c) as [p|] eqn:Ep; [|discriminate].
  destruct (OSet.has p visited) eqn:Ev.
  - apply has_In in Ev. right. exists a. split; [|exact Hm].
    exact (climbed_closed c p visited Hc Ep Ev n p a Ev Ha).
  - apply has_false in Ev. rewrite In_step.
    destruct n as [|n].
    + cbn in Ha. injection Ha as <-. left. now left.
    + assert (Hkey : In p (OMap.keys ecache)).
      { cbn [ancestor] in Ha. destruct (parentOf ecache p) eqn:Eq; [|discriminate].
        exact (parentOf_key _ _ Eq). }
      pose proof (pending_step p visited Hkey Ev).
      destruct (IH p (OSet.add p visited) n a m) as [H'|[v [Hv Hmv]]]; auto.
      * now apply (climbed_step c).
      * lia.
      * apply In_add in Hv. destruct Hv as [Hv| ->]; [right; eauto|].
        left. now left.
Qed.

Lemma pending_start : pendingClasses ecache [] < S (length ecache).
Proof.
  unfold pendingClasses.
  pose proof (DfsFacts.size_list_to_set_le (OMap.keys ecache)) as H.
  unfold OMap.keys in *. rewrite length_map in H.
  assert (size ((list_to_set (map fst ecache) : gset string) ∖ list_to_set [])
          <= size (list_to_set (map fst ecache) : gset string))
    by (apply subseteq_size; set_solver).
  lia.
Qed.

Lemma walk_spec c m :
  In m (getAllAncestorMethods (S (length ecache)) mcache ecache c [])
  <-> ancestorMethod mcache ecache c m.
Proof.
  split; [apply walk_sound|]. intros [n [a [Ha Hm]]].
  destruct (walk_complete (S (length ecache)) c [] n a m) as [H|[v [[] _]]]; auto.
  - intros v [].
  - apply pending_start.
Qed.

End Climb.

Lemma In_analyzeInheritance fileInfos e :
  In e (analyzeInheritance fileInfos) <->
  exists cls, In cls (flat_map classes fileInfos)
    /\ In e (inheritanceOf (methodsCache fileInfos) (extendsCache fileInfos) cls).
Proof. unfold analyzeInheritance. apply in_flat_map. Qed.

End InheritanceFacts.

(** X2.  The methods [getAllAncestorMethods] returns for a class are exactly the
    cached methods of the classes one or more [extends] steps above it,
    each once, also when the [extends] chain runs in a circle; the walk ends
    within one step per cached class, so that a longer walk finds the same. *)
Theorem ancestor_methods_of_a_class (classMethodsCache : OMap.t OSet.t)
    (classExtendsCache : OMap.t (option string)) (className : string) :
  (forall m,
     In m (getAllAncestorMethods (S (length classExtendsCache))
             classMethodsCache classExtendsCache className [])
     <-> ancestorMethod classMethodsCache classExtendsCache className m)
  /\ NoDup (getAllAncestorMethods (S (length classExtendsCache))
              classMethodsCache classExtendsCache className [])
  /\ (forall more,
        getAllAncestorMethods (S (length classExtendsCache) + more)
          classMethodsCache classExtendsCache className []
        = getAllAncestorMethods (S (length classExtendsCache))
            classMethodsCache classExtendsCache className []).
Proof.
  split; [intros m; apply InheritanceFacts.walk_spec|].
  split; [apply InheritanceFacts.walk_NoDup|].
  intros more. pose proof (InheritanceFacts.pending_start classExtendsCache).
  apply InheritanceFacts.fuel_enough; lia.
Qed.

(** X3.  Every entry of the inheritance report belongs to a class with a
    non-empty [extends]; its overridden methods are the inherited-from-above
    methods the class declares itself, its inherited methods are the others,
    no method is in both lists or twice in one, and the two lists are not
    both empty. *)
Theorem inheritance_entries (fileInfos : list FileInfo) (e : InheritanceInfo) :
  In e (analyzeInheritance fileInfos) ->
  exists cls,
    In cls (flat_map classes fileInfos)
    /\ h_className e = c_name cls
    /\ c_extends cls = Some (h_extends e) /\ h_extends e <> EmptyString
    /\ (forall m, In m (h_overriddenMethods e)
          <-> ancestorMethod (methodsCache fileInfos) (extendsCache fileInfos) (c_name cls) m
              /\ In m (map m_name (c_methods cls)))
    /\ (forall m, In m (h_inheritedMethods e)
          <-> ancestorMethod (methodsCache fileInfos) (extendsCache fileInfos) (c_name cls) m
              /\ ~ In m (map m_name (c_methods cls)))
    /\ NoDup (h_inheritedMethods e ++ h_overriddenMethods e)
    /\ h_inheritedMethods e ++ h_overriddenMethods e <> [].
Proof.
  intros He. apply InheritanceFacts.In_analyzeInheritance in He.
  destruct He as [cls [Hcls He]]. exists cls. split; [exact Hcls|].
  unfold inheritanceOf in He.
  destruct (c_extends cls) as [ext|] eqn:Eext; [|destruct He].
  destruct (Js.truthy ext) eqn:Et; cbn [negb] in He; [|destruct He].
  set (all := getAllAncestorMethods _ _ _ _ _) in He.
  destruct (0 <? OSet.size all)%nat eqn:Esz; [|destruct He].
  destruct He as [<-|[]]. cbn [h_className h_extends h_overriddenMethods h_inheritedMethods].
  assert (Hall : forall m, In m all
            <-> ancestorMethod (methodsCache fileInfos) (extendsCache fileInfos)
                  (c_name cls) m) by (intros m; apply InheritanceFacts.walk_spec).
  assert (Hnd : NoDup all) by apply InheritanceFacts.walk_NoDup.
  assert (Hchild : forall m, OSet.has m (OSet.ofList (map m_name (c_methods cls))) = true
                    <-> In m (map m_name (c_methods cls))).
  { intros m. now rewrite OSetFacts.has_In, OSetFacts.In_ofList. }
  split; [reflexivity|]. split; [reflexivity|].
  split; [now apply CallTextFacts.truthy_ne|].
  split; [|split; [|split]].
  - intros m. rewrite filter_In, Hall, Hchild. tauto.
  - intros m. rewrite filter_In, Hall, negb_true_iff.
    rewrite <- Hchild. destruct (OSet.has m _); intuition congruence.
  - apply NoDup_app.
    + now apply List.NoDup_filter.
    + now apply List.NoDup_filter.
    + intros m H1 H2. apply filter_In in H1, H2.
      destruct H1 as [_ H1], H2 as [_ H2]. rewrite H2 in H1. discriminate.
  - apply Nat.ltb_lt in Esz. unfold OSet.size in Esz.
    destruct all as [|m all']; [simpl in Esz; lia|].
    intros E. apply app_eq_nil in E. destruct E as [E1 E2].
    destruct (OSet.has m (OSet.ofList (map m_name (c_methods cls)))) eqn:Eh.
    + assert (H : In m (filter (fun m0 => OSet.has m0 (OSet.ofList (map m_name (c_methods cls))))
                          (m :: all')))
        by (apply filter_In; split; [now left|exact Eh]).
      rewrite E2 in H. destruct H.
    + assert (H : In m (filter (fun m0 => negb (OSet.has m0
                                   (OSet.ofList (map m_name (c_methods cls)))))
                          (m :: all')))
        by (apply filter_In; split; [now left|now rewrite Eh]).
      rewrite E1 in H. destruct H.
Qed.

Lemma inheritance_entries_witness :
  In Loop.entryA (analyzeInheritance Loop.fileInfos)
  /\ exists cls,
       In cls (flat_map classes Loop.fileInfos)
       /\ h_className Loop.entryA = c_name cls
       /\ c_extends cls = Some (h_extends Loop.entryA)
       /\ h_extends Loop.entryA <> EmptyString
       /\ (forall m, In m (h_overriddenMethods Loop.entryA)
             <-> ancestorMethod (methodsCache Loop.fileInfos) (extendsCache Loop.fileInfos)
                   (c_name cls) m
                 /\ In m (map m_name (c_methods cls)))
       /\ (forall m, In m (h_inheritedMethods Loop.entryA)
             <-> ancestorMethod (methodsCache Loop.fileInfos) (extendsCache Loop.fileInfos)
                   (c_name cls) m
                 /\ ~ In m (map m_name (c_methods cls)))
       /\ NoDup (h_inheritedMethods Loop.entryA ++ h_overriddenMethods Loop.entryA)
       /\ h_inheritedMethods Loop.entryA ++ h_overriddenMethods Loop.entryA <> [].
Proof.
  split.
  - vm_compute. now left.
  - apply inheritance_entries. vm_compute. now left.
Defined.

(** * Callers and call chains *)

Module ChainFacts.
Import OMapFacts OSetFacts GraphFacts.

Lemma linkedBy_snoc (R : string -> string -> Prop) l x :
  linkedBy R l -> (l <> [] -> R (last l EmptyString) x) -> linkedBy R (l ++ [x]).
Proof.
  induction l as [|a l IH]; intros Hl Hx; [exact I|].
  destruct l as [|b l].
  - cbn. split; [|exact I]. apply Hx. discriminate.
  - destruct Hl as [Hab Hl]. split; [exact Hab|].
    apply IH; [exact Hl|]. intros _. apply Hx. discriminate.
Qed.

(** the shape of every chain [getCallChain] returns *)
Lemma getCallChain_shape this depth : forall methodName visited chain,
  In chain (getCallChain this depth methodName visited) ->
  chain <> [] /\ last chain EmptyString = methodName
  /\ length chain <= S depth /\ linkedBy (recordedCall this) chain.
Proof.
  induction depth as [|depth IH]; intros methodName visited chain; [intros []|].
  cbn [getCallChain].
  destruct (bool_decide (methodName ∈ visited)); [intros []|].
  assert (Hone : In chain [[methodName]] ->
            chain <> [] /\ last chain EmptyString = methodName
            /\ length chain <= S (S depth) /\ linkedBy (recordedCall this) chain).
  { intros [<-|[]]. cbn. repeat split; [discriminate|lia]. }
  destruct (OMap.get methodName (reverseCallGraph this)) as [callers|] eqn:Eg; [|exact Hone].
  destruct callers as [|c0 callers]; [exact Hone|].
  intros Hin. apply in_flat_map in Hin. destruct Hin as [caller [Hcaller Hin]].
  assert (Hedge : recordedCall this caller methodName) by (exists (c0 :: callers); auto).
  assert (Htwo : In chain [[caller; methodName]] ->
            chain <> [] /\ last chain EmptyString = methodName
            /\ length chain <= S (S depth) /\ linkedBy (recordedCall this) chain).
  { intros [<-|[]]. cbn. repeat split; [discriminate|lia|exact Hedge]. }
  destruct (Js.startsWith "template:" caller); [exact (Htwo Hin)|].
  destruct (getCallChain this depth caller ({[methodName]} ∪ visited))
    as [|p0 parentChains] eqn:Ep; [exact (Htwo Hin)|].
  apply in_map_iff in Hin. destruct Hin as [parent [<- Hparent]].
  rewrite <- Ep in Hparent. apply IH in Hparent.
  destruct Hparent as [Hne [Hlast [Hlen Hlinked]]].
  split; [destruct parent; discriminate|]. split; [apply last_last|].
  split; [rewrite length_app; cbn; lia|].
  apply linkedBy_snoc; [exact Hlinked|]. intros _. now rewrite Hlast.
Qed.

(** with callers on record, every chain has a caller in front *)
Lemma getCallChain_called this depth methodName callers :
  OMap.get methodName (reverseCallGraph this) = Some callers -> callers <> [] ->
  getCallChain this (S depth) methodName ∅ <> []
  /\ forall chain, In chain (getCallChain this (S depth) methodName ∅) ->
       longChain chain = true.
Proof.
  intros Eg Hne. cbn [getCallChain].
  rewrite bool_decide_eq_false_2 by set_solver. rewrite Eg.
  destruct callers as [|c0 callers]; [congruence|].
  set (each := fun caller : string => _).
  assert (Heach : forall caller, each caller <> []
                  /\ forall chain, In chain (each caller) -> longChain chain = true).
  { intros caller. unfold each.
    destruct (Js.startsWith "template:" caller).
    - split; [discriminate|]. intros chain [<-|[]]. reflexivity.
    - destruct (getCallChain this depth caller ({[methodName]} ∪ ∅))
        as [|p0 ps] eqn:Ep.
      + split; [discriminate|]. intros chain [<-|[]]. reflexivity.
      + split; [discriminate|]. intros chain Hin.
        apply in_map_iff in Hin. destruct Hin as [parent [<- Hparent]].
        rewrite <- Ep in Hparent. apply getCallChain_shape in Hparent.
        destruct Hparent as [Hp _]. unfold longChain. apply Nat.ltb_lt.
        rewrite length_app. destruct parent; [congruence|]. cbn [length]. lia. }
  split.
  - cbn [flat_map]. destruct (Heach c0) as [H _].
    destruct (each c0); [congruence|discriminate].
  - intros chain Hin. apply in_flat_map in Hin. destruct Hin as [caller [_ Hin]].
    now apply (Heach caller).
Qed.

Lemma updateMethods_inv f fileInfos cls method :
  methodIn (updateMethods f fileInfos) cls method ->
  exists cls0 method0,
    methodIn fileInfos cls0 method0
    /\ method = f cls0 method0 /\ c_name cls = c_name cls0.
Proof.
  intros [file [Hfile [Hcls Hmethod]]]. unfold updateMethods in Hfile.
  apply in_map_iff in Hfile. destruct Hfile as [file0 [<- Hfile0]].
  cbn [classes withClasses] in Hcls.
  apply in_map_iff in Hcls. destruct Hcls as [cls0 [<- Hcls0]].
  cbn [c_methods withMethods] in Hmethod.
  apply in_map_iff in Hmethod. destruct Hmethod as [method0 [<- Hmethod0]].
  exists cls0, method0. split; [exists file0; auto|]. split; reflexivity.
Qed.

Lemma duplicateFree_addCaller g key caller :
  duplicateFree g -> duplicateFree (addCaller key caller g).
Proof.
  intros Hg k cs. destruct (string_dec key k) as [->|Hne].
  - rewrite addCaller_get. intros [= <-]. apply NoDup_add.
    destruct (OMap.get k g) as [cs|] eqn:E; [exact (Hg _ _ E)|constructor].
  - rewrite addCaller_get_ne by auto. apply Hg.
Qed.

Lemma duplicateFree_addEdges es : forall g,
  duplicateFree g -> duplicateFree (addEdges es g).
Proof.
  unfold addEdges. induction es as [|e es IH]; simpl; intros g Hg; auto.
  apply IH. now apply duplicateFree_addCaller.
Qed.

Lemma duplicateFree_built fw sfs fileInfos this :
  buildGraphs fw sfs emptyScanner = (fileInfos, this) ->
  duplicateFree (reverseCallGraph this).
Proof.
  intros Hb. destruct (ResolveFacts.reverseCallGraph_built _ _ _ _ Hb) as [_ [-> _]].
  apply duplicateFree_addEdges, duplicateFree_addEdges. intros k cs H. discriminate.
Qed.

Lemma fresh_built fw sfs fileInfos this :
  buildGraphs fw sfs emptyScanner = (fileInfos, this) -> fresh fileInfos.
Proof.
  intros Hb. destruct (ResolveFacts.reverseCallGraph_built _ _ _ _ Hb) as [-> _].
  intros file cls method Hfile Hcls Hmethod.
  apply in_map_iff in Hfile. destruct Hfile as [sf [<- _]].
  rewrite BuiltFacts.classes_fileInfoOf in Hcls.
  apply in_map_iff in Hcls. destruct Hcls as [cd [<- _]].
  cbn [c_methods classInfoOf] in Hmethod.
  apply in_map_iff in Hmethod. destruct Hmethod as [md [<- _]].
  split; reflexivity.
Qed.

(** the back-fill of a method that has no callers filled in *)
Lemma backfill_calledBy this cls method caller :
  m_calledBy method = [] ->
  In caller (m_calledBy (backfill this cls method))
  <-> edge (reverseCallGraph this) (c_name cls +:+ "." +:+ m_name method) caller.
Proof.
  intros Hfresh. unfold backfill, edge.
  destruct (OMap.get _ (reverseCallGraph this)) as [callers|].
  - cbn [m_calledBy withCalledBy]. split; [eauto|]. now intros [cs [[= <-] H]].
  - rewrite Hfresh. split; [intros []|]. now intros [cs [[=] _]].
Qed.

Lemma backfill_name this cls method : m_name (backfill this cls method) = m_name method.
Proof. unfold backfill. now destruct (OMap.get _ _). Qed.

Lemma backfill_callChain this cls method :
  m_callChain (backfill this cls method) = m_callChain method.
Proof. unfold backfill. now destruct (OMap.get _ _). Qed.

Lemma calledBy_built fw sfs fileInfos this cls method :
  buildGraphs fw sfs emptyScanner = (fileInfos, this) ->
  methodIn (buildCallGraph this fileInfos) cls method ->
  NoDup (m_calledBy method)
  /\ forall caller,
       In caller (m_calledBy method)
       <-> edge (reverseCallGraph this) (c_name cls +:+ "." +:+ m_name method) caller.
Proof.
  intros Hb Hin.
  apply updateMethods_inv in Hin.
  destruct Hin as [cls0 [method0 [[file0 [Hf [Hc Hm]]] [-> ->]]]].
  destruct (fresh_built _ _ _ _ Hb file0 cls0 method0 Hf Hc Hm) as [Hcb _].
  rewrite backfill_name. split.
  - unfold backfill.
    destruct (OMap.get _ (reverseCallGraph this)) as [callers|] eqn:E.
    + cbn [m_calledBy withCalledBy].
      exact (duplicateFree_built _ _ _ _ Hb _ _ E).
    + rewrite Hcb. constructor.
  - intros caller. now apply backfill_calledBy.
Qed.

Lemma chains_shape this fileInfos maxDepth :
  unchained fileInfos ->
  forall cls method chains,
    methodIn (buildCallChains this fileInfos maxDepth) cls method ->
    m_callChain method = Some chains ->
    1 <= length chains <= 5
    /\ forall chain, In chain chains ->
         2 <= length chain <= S maxDepth
         /\ last chain EmptyString = c_name cls +:+ "." +:+ m_name method
         /\ linkedBy (recordedCall this) chain.
Proof.
  intros Hfresh cls method chains Hin Hchains.
  apply updateMethods_inv in Hin.
  destruct Hin as [cls0 [method0 [[file0 [Hf [Hc Hm]]] [-> ->]]]].
  pose proof (Hfresh file0 cls0 method0 Hf Hc Hm) as Hnone.
  unfold traceMethod in *.
  destruct (0 <? length (m_calledBy method0))%nat; [|congruence].
  set (all := getCallChain this maxDepth (c_name cls0 +:+ "." +:+ m_name method0) ∅) in *.
  destruct ((0 <? length all)%nat && existsb longChain all) eqn:Eall; [|congruence].
  cbn [m_callChain withCallChain m_name] in *. injection Hchains as <-.
  apply andb_prop in Eall. destruct Eall as [_ Hlong].
  apply existsb_exists in Hlong. destruct Hlong as [c1 [Hc1 Hl1]].
  split.
  - split; [|apply firstn_le_length].
    destruct (filter longChain all) as [|c cs] eqn:Ef.
    + assert (H : In c1 (filter longChain all)) by (apply filter_In; auto).
      rewrite Ef in H. destruct H.
    + cbn. lia.
  - intros chain Hchain.
    assert (Hchain' : In chain (filter longChain all)).
    { rewrite <- (firstn_skipn 5 (filter longChain all)). apply in_or_app. now left. }
    apply filter_In in Hchain'. destruct Hchain' as [Hchain' Hl].
    apply getCallChain_shape in Hchain'.
    destruct Hchain' as [_ [Hlast [Hlen Hlinked]]].
    unfold longChain in Hl. apply Nat.ltb_lt in Hl.
    repeat split; auto; lia.
Qed.
Lemma chains_presence fw sfs fileInfos this depth :
  buildGraphs fw sfs emptyScanner = (fileInfos, this) ->
  forall cls method,
    methodIn (buildCallChains this (buildCallGraph this fileInfos) (S depth)) cls method ->
    m_callChain method = None <-> m_calledBy method = [].
Proof.
  intros Hb cls method Hin.
  apply updateMethods_inv in Hin.
  destruct Hin as [cls1 [method1 [Hin [-> _]]]].
  apply updateMethods_inv in Hin.
  destruct Hin as [cls0 [method0 [[file0 [Hf [Hc Hm]]] [-> Hname]]]].
  destruct (fresh_built _ _ _ _ Hb file0 cls0 method0 Hf Hc Hm) as [Hcb Hcc].
  unfold traceMethod. rewrite Hname, backfill_name.
  pose proof (backfill_callChain this cls0 method0) as Hbc.
  rewrite Hcc in Hbc.
  unfold backfill in *.
  destruct (OMap.get (c_name cls0 +:+ "." +:+ m_name method0) (reverseCallGraph this))
    as [callers|] eqn:Eg.
  - assert (Hne : callers <> [])
      by exact (BuiltFacts.populated_built _ _ _ _ Hb _ _ Eg).
    cbn [m_calledBy withCalledBy m_callChain] in *.
    destruct callers as [|c0 callers]; [congruence|]. cbn [length Nat.ltb Nat.leb].
    destruct (getCallChain_called this depth _ _ Eg Hne) as [Hsome Hall].
    set (all := getCallChain this (S depth) _ ∅) in *.
    destruct all as [|ch all'] eqn:Ea; [congruence|].
    assert (Hex : existsb longChain (ch :: all') = true).
    { cbn [existsb]. rewrite (Hall ch) by now left. reflexivity. }
    rewrite Hex. cbn. split; discriminate.
  - rewrite Hcb. cbn. rewrite Hcc. tauto.
Qed.

Lemma unchained_built fw sfs fileInfos this :
  buildGraphs fw sfs emptyScanner = (fileInfos, this) ->
  unchained (buildCallGraph this fileInfos).
Proof.
  intros Hb file cls method Hf Hc Hm.
  assert (Hin : methodIn (buildCallGraph this fileInfos) cls method)
    by (exists file; auto).
  apply updateMethods_inv in Hin.
  destruct Hin as [cls0 [method0 [[file0 [Hf0 [Hc0 Hm0]]] [-> _]]]].
  rewrite backfill_callChain.
  now destruct (fresh_built _ _ _ _ Hb file0 cls0 method0 Hf0 Hc0 Hm0).
Qed.

End ChainFacts.

(** X4.  After the back-fill of a scan, the [calledBy] list of a method holds
    exactly the callers recorded under [Class.method] in the reverse call
    graph, each once. *)
Theorem called_by_of_a_scan (framework : Framework) (sourceFiles : list SourceFile)
    (fileInfos : list FileInfo) (this : Scanner) :
  buildGraphs framework sourceFiles emptyScanner = (fileInfos, this) ->
  forall cls method,
    methodIn (buildCallGraph this fileInfos) cls method ->
    NoDup (m_calledBy method)
    /\ forall caller,
         In caller (m_calledBy method)
         <-> edge (reverseCallGraph this) (c_name cls +:+ "." +:+ m_name method) caller.
Proof.
  intros Hb cls method Hin.
  exact (ChainFacts.calledBy_built framework sourceFiles fileInfos this cls method Hb Hin).
Qed.

Lemma called_by_of_a_scan_witness :
  buildGraphs generic Frame.project emptyScanner
    = (fst (buildGraphs generic Frame.project emptyScanner), scanner Frame.model)
  /\ forall cls method,
       methodIn (files Frame.model) cls method ->
       NoDup (m_calledBy method)
       /\ forall caller,
            In caller (m_calledBy method)
            <-> edge (reverseCallGraph (scanner Frame.model))
                  (c_name cls +:+ "." +:+ m_name method) caller.
Proof.
  assert (Hb : buildGraphs generic Frame.project emptyScanner
               = (fst (buildGraphs generic Frame.project emptyScanner),
                  scanner Frame.model)) by (vm_compute; reflexivity).
  split; [exact Hb|].
  exact (called_by_of_a_scan generic Frame.project _ _ Hb).
Defined.

(** X5.  The chains [buildCallChains] stores in a method that had none: the
    method has callers, there are between one and five chains, and each
    chain holds at least two and at most [maxDepth + 1] names, ends with the
    method's own [Class.method], and each of its names is a recorded caller
    of the next. *)
Theorem call_chains_recorded (this : Scanner) (fileInfos : list FileInfo)
    (maxDepth : nat) :
  unchained fileInfos ->
  forall cls method chains,
    methodIn (buildCallChains this fileInfos maxDepth) cls method ->
    m_callChain method = Some chains ->
    1 <= length chains <= 5
    /\ forall chain, In chain chains ->
         2 <= length chain <= S maxDepth
         /\ last chain EmptyString = c_name cls +:+ "." +:+ m_name method
         /\ linkedBy (recordedCall this) chain.
Proof.
  intros Hun cls method chains Hin Hchains.
  exact (ChainFacts.chains_shape this fileInfos maxDepth Hun cls method chains
           Hin Hchains).
Qed.

Lemma call_chains_recorded_witness :
  unchained (files Frame.model)
  /\ forall cls method chains,
       methodIn (buildCallChains (scanner Frame.model) (files Frame.model) 3) cls method ->
       m_callChain method = Some chains ->
       1 <= length chains <= 5
       /\ forall chain, In chain chains ->
            2 <= length chain <= 4
            /\ last chain EmptyString = c_name cls +:+ "." +:+ m_name method
            /\ linkedBy (recordedCall (scanner Frame.model)) chain.
Proof.
  assert (Hun : unchained (files Frame.model)).
  { intros file cls method Hf Hc Hm. vm_compute in Hf.
    destruct Hf as [<-|[]]. vm_compute in Hc.
    destruct Hc as [<-|[<-|[]]]; vm_compute in Hm; destruct Hm as [<-|[]]; reflexivity. }
  split; [exact Hun|].
  exact (call_chains_recorded (scanner Frame.model) (files Frame.model) 3 Hun).
Defined.

(** X6.  In a scan, tracing with a positive depth leaves a method without
    chains exactly when the method has no callers. *)
Theorem call_chain_presence (framework : Framework) (sourceFiles : list SourceFile)
    (fileInfos : list FileInfo) (this : Scanner) (depth : nat) :
  buildGraphs framework sourceFiles emptyScanner = (fileInfos, this) ->
  forall cls method,
    methodIn (buildCallChains this (buildCallGraph this fileInfos) (S depth)) cls method ->
    m_callChain method = None <-> m_calledBy method = [].
Proof.
  intros Hb cls method Hin.
  exact (ChainFacts.chains_presence framework sourceFiles fileInfos this depth
           Hb cls method Hin).
Qed.

Lemma call_chain_presence_witness :
  buildGraphs generic Frame.project emptyScanner
    = (fst (buildGraphs generic Frame.project emptyScanner), scanner Frame.model)
  /\ forall cls method,
       methodIn (buildCallChains (scanner Frame.model) (files Frame.model) 3) cls method ->
       m_callChain method = None <-> m_calledBy method = [].
Proof.
  assert (Hb : buildGraphs generic Frame.project emptyScanner
               = (fst (buildGraphs generic Frame.project emptyScanner),
                  scanner Frame.model)) by (vm_compute; reflexivity).
  split; [exact Hb|].
  exact (call_chain_presence generic Frame.project _ _ 2 Hb).
Defined.

(** * Interface implementers *)

Module InterfaceFacts.
Import Regex OMapFacts OSetFacts GraphFacts RegexFacts.

#[local] Arguments String.append !s1 s2 : simpl nomatch.

(** a greedy run over a text that lies in the class up to its last
    character, in front of a continuation that wants one character: the
    run gives back the last character and no more *)
Lemma star_last {A} c (k : string -> option A) run a r :
  every c run = true -> c a = true ->
  k EmptyString = None -> k (String a EmptyString) = Some r ->
  star c k (run +:+ String a EmptyString) = Some r.
Proof.
  intros Hrun Ha Hnil Hlast. induction run as [|b run IH].
  - cbn. now rewrite Ha, Hnil.
  - cbn in Hrun. apply andb_prop in Hrun. destruct Hrun as [Hb Hrun].
    change (String b run +:+ String a "") with (String b (run +:+ String a "")).
    cbn [star]. now rewrite Hb, (IH Hrun).
Qed.

Lemma word_not_lt a : word a = true -> just "<" a = false.
Proof.
  destruct a as [[] [] [] [] [] [] [] []]; vm_compute; congruence.
Qed.

Lemma matchHere_generic_miss a s :
  just "<" a = false -> matchHere (body rxGenericArgs) (String a s) = None.
Proof.
  intros Ha. unfold matchHere, rxGenericArgs. cbn [body seq].
  rewrite exec_seq, exec_chr. now rewrite Ha.
Qed.

Lemma matchHere_generic_hit args :
  every dot args = true ->
  matchHere (body rxGenericArgs) ("<" +:+ args +:+ ">")
  = Some {| before := ""; groups := []; after := "" |}.
Proof.
  intros Hargs. unfold matchHere, rxGenericArgs. cbn [body seq].
  change ("<" +:+ args +:+ ">") with (String "<"%char (args +:+ ">")).
  rewrite exec_seq, exec_chr. change (just "<" "<"%char) with true. cbv iota.
  rewrite exec_seq, exec_star.
  now apply star_last.
Qed.

(** [Name<Args>] is filed under [Name] *)
Lemma jsRemove_generic name args :
  every word name = true -> every dot args = true ->
  jsRemove rxGenericArgs (name +:+ "<" +:+ args +:+ ">") = name.
Proof.
  intros Hname Hargs. unfold jsRemove. change (anchored rxGenericArgs) with false.
  cbv iota.
  assert (Hs : search (body rxGenericArgs) (name +:+ "<" +:+ args +:+ ">")
               = Some {| before := name; groups := []; after := "" |}).
  { induction name as [|a name IH].
    - change ("" +:+ "<" +:+ args +:+ ">") with ("<" +:+ args +:+ ">").
      change ("<" +:+ args +:+ ">") with (String "<"%char (args +:+ ">")).
      cbn [search].
      change (String "<"%char (args +:+ ">")) with ("<" +:+ args +:+ ">").
      now rewrite matchHere_generic_hit.
    - cbn in Hname. apply andb_prop in Hname. destruct Hname as [Ha Hname].
      change (String a name +:+ "<" +:+ args +:+ ">")
        with (String a (name +:+ "<" +:+ args +:+ ">")).
      cbn [search]. rewrite matchHere_generic_miss by now apply word_not_lt.
      now rewrite (IH Hname). }
  rewrite Hs. cbn [before after]. apply append_nil_r.
Qed.

Lemma jsRemove_plain name :
  every word name = true -> jsRemove rxGenericArgs name = name.
Proof.
  intros Hname. unfold jsRemove. change (anchored rxGenericArgs) with false.
  cbv iota.
  assert (Hs : search (body rxGenericArgs) name = None).
  { induction name as [|a name IH]; [reflexivity|].
    cbn in Hname. apply andb_prop in Hname. destruct Hname as [Ha Hname].
    cbn [search]. rewrite matchHere_generic_miss by now apply word_not_lt.
    now rewrite (IH Hname). }
  now rewrite Hs.
Qed.

Lemma trim_word name : every word name = true -> trim name = name.
Proof.
  intros Hname. unfold trim.
  assert (Hstart : trimStart name = name).
  { destruct name as [|a name]; [reflexivity|]. cbn in *.
    apply andb_prop in Hname. destruct Hname as [Ha _].
    now rewrite (word_not_space _ Ha). }
  rewrite Hstart. induction name as [|a name IH]; [reflexivity|].
  cbn in *. apply andb_prop in Hname. destruct Hname as [Ha Hname].
  rewrite (word_not_space _ Ha). cbn [andb]. f_equal. apply IH; auto.
  destruct name as [|b name]; [reflexivity|]. cbn in *.
  apply andb_prop in Hname. destruct Hname as [Hb _].
  now rewrite (word_not_space _ Hb).
Qed.

(** ** The map of implementers *)

Lemma fold_implementors clss : forall im,
  fold_left (fun im cls =>
    fold_left (fun im iface => addImplementor iface (c_name cls) im)
      (c_implements cls) im) clss im
  = addEdges (implementsPairs clss) im.
Proof.
  induction clss as [|cls clss IH]; intros im; [reflexivity|].
  cbn [fold_left implementsPairs flat_map]. rewrite IH, addEdges_app. f_equal.
  generalize im. induction (c_implements cls) as [|iface ifaces IHi]; intros im0;
    [reflexivity|].
  cbn [fold_left map]. rewrite IHi. reflexivity.
Qed.

Lemma keys_addCaller g key caller :
  NoDup (OMap.keys g) -> NoDup (OMap.keys (addCaller key caller g)).
Proof.
  intros Hg. unfold addCaller. cbv zeta.
  destruct (OMap.has key g).
  - destruct (OMap.get key g); [now apply keys_NoDup_set|exact Hg].
  - rewrite get_set_eq. now apply keys_NoDup_set, keys_NoDup_set.
Qed.

Lemma keys_addEdges es : forall g,
  NoDup (OMap.keys g) -> NoDup (OMap.keys (addEdges es g)).
Proof.
  unfold addEdges. induction es as [|e es IH]; simpl; intros g Hg; auto.
  apply IH. now apply keys_addCaller.
Qed.

Lemma In_get_NoDup {V} (m : OMap.t V) k v :
  NoDup (OMap.keys m) -> In (k, v) m -> OMap.get k m = Some v.
Proof.
  unfold OMap.keys. induction m as [|[k' v'] m IH]; simpl; [tauto|].
  intros Hnd [[= -> ->]|Hin].
  - now rewrite String.eqb_refl.
  - inversion Hnd as [|? ? Hnot Hnd']; subst.
    destruct (String.eqb k k') eqn:E; [|auto].
    apply String.eqb_eq in E. subst k'. exfalso. apply Hnot.
    change k with (fst (k, v)). now apply in_map.
Qed.

Lemma In_implementsPairs clss name cls :
  In (name, cls) (implementsPairs clss)
  <-> exists c iface, In c clss /\ In iface (c_implements c)
                      /\ interfaceKey iface = name /\ cls = c_name c.
Proof.
  unfold implementsPairs. rewrite in_flat_map. split.
  - intros [c [Hc Hin]]. apply in_map_iff in Hin.
    destruct Hin as [iface [[= <- <-] Hi]]. eauto 6.
  - intros [c [iface [Hc [Hi [<- ->]]]]]. exists c. split; [exact Hc|].
    apply in_map_iff. eauto.
Qed.

End InterfaceFacts.

(** X7.  An [implements] clause [Name<Args>] on one line, and the plain clause
    [Name], are both filed under [Name]. *)
Theorem interface_key_drops_type_arguments (name args : string) :
  every Regex.word name = true -> every Regex.dot args = true ->
  interfaceKey (name +:+ "<" +:+ args +:+ ">") = name
  /\ interfaceKey name = name.
Proof.
  intros Hname Hargs. unfold interfaceKey.
  rewrite InterfaceFacts.jsRemove_generic, InterfaceFacts.jsRemove_plain by assumption.
  split; now apply InterfaceFacts.trim_word.
Qed.

Lemma interface_key_drops_type_arguments_witness :
  interfaceKey ("Repo" +:+ "<" +:+ "Map<K, V>" +:+ ">") = "Repo"
  /\ interfaceKey "Repo" = "Repo".
Proof.
  apply interface_key_drops_type_arguments; reflexivity.
Defined.

(** X8.  The interface report lists every interface key once, with the classes
    whose [implements] clauses are filed under it, each class once and at
    least one per entry, and orders the entries by falling number of
    implementers. *)
Theorem interface_report (fileInfos : list FileInfo) :
  descending (fun e => length (implementedBy e))
    (analyzeInterfaceImplementations fileInfos)
  /\ NoDup (map interfaceName (analyzeInterfaceImplementations fileInfos))
  /\ (forall e, In e (analyzeInterfaceImplementations fileInfos) ->
        implementedBy e <> [] /\ NoDup (implementedBy e))
  /\ (forall name cls,
        (exists e, In e (analyzeInterfaceImplementations fileInfos)
                   /\ interfaceName e = name /\ In cls (implementedBy e))
        <-> implementsAs fileInfos name cls).
Proof.
  unfold analyzeInterfaceImplementations.
  rewrite InterfaceFacts.fold_implementors.
  set (im := addEdges (implementsPairs (flat_map classes fileInfos)) []).
  set (mk := fun e : string * list string =>
               {| interfaceName := fst e; implementedBy := snd e |}).
  set (cnt := fun e : InterfaceImplementation => length (implementedBy e)).
  assert (Hperm : Permutation (map mk (OMap.entries im)) (sortDesc cnt (map mk (OMap.entries im))))
    by apply SortFacts.sortDesc_perm.
  assert (Hkeys : NoDup (OMap.keys im))
    by (apply InterfaceFacts.keys_addEdges; constructor).
  assert (Hpop : populated im).
  { apply GraphFacts.populated_addEdges. intros k cs H. discriminate. }
  assert (Hdup : duplicateFree im).
  { apply ChainFacts.duplicateFree_addEdges. intros k cs H. discriminate. }
  assert (Hin : forall e, In e (sortDesc cnt (map mk (OMap.entries im)))
                <-> OMap.get (interfaceName e) im = Some (implementedBy e)).
  { intros e. split.
    - intros He. apply (Permutation_in _ (Permutation_sym Hperm)) in He.
      apply in_map_iff in He. destruct He as [[k v] [<- Hkv]].
      cbn. now apply InterfaceFacts.In_get_NoDup.
    - intros Hg. apply (Permutation_in _ Hperm). apply in_map_iff.
      exists (interfaceName e, implementedBy e). split; [now destruct e|].
      now apply OMapFacts.get_In. }
  split; [apply SortFacts.sortDesc_descending|]. split; [|split].
  - apply (Permutation_NoDup (Permutation_map interfaceName Hperm)).
    rewrite map_map. exact Hkeys.
  - intros e He. apply Hin in He. split; [exact (Hpop _ _ He)|exact (Hdup _ _ He)].
  - intros name cls. split.
    + intros [e [He [<- Hcls]]]. apply Hin in He.
      assert (Hedge : edge im (interfaceName e) cls) by (exists (implementedBy e); auto).
      apply GraphFacts.edge_addEdges in Hedge.
      destruct Hedge as [Hedge|Hedge]; [now apply GraphFacts.edge_nil in Hedge|].
      now apply InterfaceFacts.In_implementsPairs in Hedge.
    + intros Himpl. apply InterfaceFacts.In_implementsPairs in Himpl.
      assert (Hedge : edge im name cls) by (apply GraphFacts.edge_addEdges; now right).
      destruct Hedge as [cs [Hg Hcls]].
      exists {| interfaceName := name; implementedBy := cs |}.
      split; [now apply Hin|]. split; [reflexivity|exact Hcls].
Qed.

(** * Cycle keys *)

Module KeyFacts.

Lemma ascii_compare_N a b :
  Ascii.compare a b = N.compare (N_of_ascii a) (N_of_ascii b).
Proof. reflexivity. Qed.

Lemma compare_cons a s b t :
  String.compare (String a s) (String b t)
  = match Ascii.compare a b with
    | Eq => String.compare s t
    | Lt => Lt
    | Gt => Gt
    end.
Proof. reflexivity. Qed.

Lemma compare_trans_le s1 : forall s2 s3,
  String.compare s1 s2 <> Gt -> String.compare s2 s3 <> Gt ->
  String.compare s1 s3 <> Gt.
Proof.
  induction s1 as [|a s1 IH]; intros [|b s2] [|c s3]; cbn; try congruence.
  rewrite !ascii_compare_N.
  destruct (N.compare_spec (N_of_ascii a) (N_of_ascii b)) as [Eab|Lab|Gab];
    destruct (N.compare_spec (N_of_ascii b) (N_of_ascii c)) as [Ebc|Lbc|Gbc];
    destruct (N.compare_spec (N_of_ascii a) (N_of_ascii c)) as [Eac|Lac|Gac];
    try congruence; try lia.
  apply IH.
Qed.

Lemma leb_trans s1 s2 s3 :
  String.leb s1 s2 = true -> String.leb s2 s3 = true -> String.leb s1 s3 = true.
Proof.
  unfold String.leb. intros H1 H2.
  pose proof (compare_trans_le s1 s2 s3) as H.
  destruct (String.compare s1 s2); destruct (String.compare s2 s3);
    destruct (String.compare s1 s3); try reflexivity; try discriminate;
    exfalso; apply H; congruence.
Qed.

Lemma insertString_ascending x l : ascending l -> ascending (insertString x l).
Proof.
  unfold ascending. induction 1 as [|y l Hl IH Hy]; cbn [insertString].
  - repeat constructor.
  - destruct (String.leb x y) eqn:E.
    + constructor; [now constructor|]. constructor; [exact E|].
      eapply Forall_impl; [|exact Hy]. intros z Hz. now apply (leb_trans x y z).
    + constructor; [exact IH|].
      assert (Hyx : String.leb y x = true).
      { destruct (String.leb_total x y) as [H|H]; congruence. }
      assert (Hins : forall s, Permutation (x :: s) (insertString x s)).
      { clear. induction s as [|z s IHs]; cbn [insertString]; [reflexivity|].
        destruct (String.leb x z); [reflexivity|].
        rewrite perm_swap. now constructor. }
      apply (Permutation_Forall (Hins l)). now constructor.
Qed.

Lemma sortStrings_ascending l : ascending (sortStrings l).
Proof.
  induction l as [|x l IH]; cbn; [constructor|]. now apply insertString_ascending.
Qed.

(** two ascending lists with the same elements are the same list *)
Lemma ascending_unique l1 : forall l2,
  ascending l1 -> ascending l2 -> Permutation l1 l2 -> l1 = l2.
Proof.
  induction l1 as [|x l1 IH]; intros l2 H1 H2 Hp.
  - apply Permutation_nil in Hp. now subst.
  - destruct l2 as [|y l2]; [symmetry in Hp; now apply Permutation_nil in Hp|].
    inversion H1 as [|? ? H1' Hx]; subst. inversion H2 as [|? ? H2' Hy]; subst.
    assert (Exy : x = y).
    { assert (Hxin : In x (y :: l2)) by (apply (Permutation_in _ Hp); now left).
      assert (Hyin : In y (x :: l1))
        by (apply (Permutation_in _ (Permutation_sym Hp)); now left).
      destruct Hxin as [->|Hxin]; [reflexivity|].
      destruct Hyin as [->|Hyin]; [reflexivity|].
      rewrite Forall_forall in Hx, Hy.
      apply String.leb_antisym; auto. }
    subst y. f_equal. apply IH; auto. now apply Permutation_cons_inv in Hp.
Qed.

Lemma sortStrings_canonical l1 l2 :
  Permutation l1 l2 -> sortStrings l1 = sortStrings l2.
Proof.
  intros Hp. apply ascending_unique; try apply sortStrings_ascending.
  rewrite <- (DfsFacts.sortStrings_perm l1), <- (DfsFacts.sortStrings_perm l2).
  exact Hp.
Qed.

(** the start of a closed walk is the one name it holds twice *)
Lemma closedWalk_count c :
  closedWalk c ->
  forall n, count_occ string_dec c n = 2 <-> n = hd EmptyString c.
Proof.
  intros [seg [Hne [Hnd ->]]] n.
  assert (Hhd : hd EmptyString (seg ++ [hd EmptyString seg]) = hd EmptyString seg)
    by (destruct seg; [congruence|reflexivity]).
  rewrite Hhd, count_occ_app. cbn [count_occ].
  pose proof (proj1 (NoDup_count_occ string_dec seg) Hnd n) as Hle.
  destruct (string_dec (hd EmptyString seg) n) as [E|E].
  - subst n. split; [reflexivity|]. intros _.
    assert (Hin : In (hd EmptyString seg) seg) by now apply DfsFacts.hd_In.
    apply (count_occ_In string_dec) in Hin. lia.
  - split; [lia|congruence].
Qed.

End KeyFacts.

(** X9.  For two non-empty node lists in which no name holds a [>], the key
    a cycle is recorded under is the same exactly when one list is a
    reordering of the other; the list of a cycle closes with its start
    node, so two closed walks with the same key start at the same node. *)
Theorem cycle_key_up_to_order (c1 c2 : list string) :
  keyable c1 -> keyable c2 ->
  (cycleKey c1 = cycleKey c2 <-> Permutation c1 c2)
  /\ (closedWalk c1 -> closedWalk c2 -> cycleKey c1 = cycleKey c2 ->
      hd EmptyString c1 = hd EmptyString c2 /\ sameNodes c1 c2).
Proof.
  intros [Hne1 Hk1] [Hne2 Hk2].
  assert (Hiff : cycleKey c1 = cycleKey c2 <-> Permutation c1 c2).
  { split.
    - now apply DfsFacts.cycleKey_perm.
    - intros Hp. unfold cycleKey. now rewrite (KeyFacts.sortStrings_canonical c1 c2). }
  split; [exact Hiff|].
  intros Hw1 Hw2 Hkey. apply Hiff in Hkey. split.
  - apply (KeyFacts.closedWalk_count c2 Hw2).
    rewrite <- (proj1 (Permutation_count_occ string_dec c1 c2) Hkey (hd EmptyString c1)).
    now apply (KeyFacts.closedWalk_count c1 Hw1).
  - intros n. split; apply Permutation_in; [exact Hkey|now symmetry].
Qed.

Lemma cycle_key_up_to_order_witness :
  (cycleKey ["a.ts"; "b.ts"; "a.ts"] = cycleKey ["a.ts"; "a.ts"; "b.ts"]
   <-> Permutation ["a.ts"; "b.ts"; "a.ts"] ["a.ts"; "a.ts"; "b.ts"])
  /\ (closedWalk ["a.ts"; "b.ts"; "a.ts"] -> closedWalk ["a.ts"; "a.ts"; "b.ts"] ->
      cycleKey ["a.ts"; "b.ts"; "a.ts"] = cycleKey ["a.ts"; "a.ts"; "b.ts"] ->
      hd EmptyString ["a.ts"; "b.ts"; "a.ts"] = hd EmptyString ["a.ts"; "a.ts"; "b.ts"]
      /\ sameNodes ["a.ts"; "b.ts"; "a.ts"] ["a.ts"; "a.ts"; "b.ts"]).
Proof.
  apply cycle_key_up_to_order.
  - split; [discriminate|]. repeat constructor.
  - split; [discriminate|]. repeat constructor.
Defined.

(** * Import paths *)

Module ImportFacts.
Import OMapFacts OSetFacts RegexFacts.

#[local] Arguments String.append !s1 s2 : simpl nomatch.

Lemma length_joined a b :
  String.length (a +:+ b) = String.length a + String.length b.
Proof.
  induction a as [|x a IH]; cbn [String.append String.length]; [reflexivity|].
  now rewrite IH.
Qed.

Lemma substring_whole s : String.substring 0 (String.length s) s = s.
Proof. induction s as [|a s IH]; cbn; [reflexivity|]. now rewrite IH. Qed.

Lemma substring_suffix pre suf :
  String.substring (String.length pre) (String.length suf) (pre +:+ suf) = suf.
Proof.
  induction pre as [|a pre IH]; cbn [String.append String.length String.substring].
  - apply substring_whole.
  - exact IH.
Qed.

Lemma substring_front a b :
  String.substring 0 (String.length a) (a +:+ b) = a.
Proof.
  induction a as [|x a IH]; cbn [String.append String.length String.substring].
  - now destruct b.
  - now rewrite IH.
Qed.

Lemma endsWith_app pre suf : Js.endsWith suf (pre +:+ suf) = true.
Proof.
  unfold Js.endsWith. rewrite length_joined.
  replace (String.length pre + String.length suf - String.length suf)
    with (String.length pre) by lia.
  rewrite substring_suffix, String.eqb_refl, andb_true_r.
  apply Nat.leb_le. lia.
Qed.

Lemma lastIndexOf_lacks c s : lacks c s = true -> Js.lastIndexOf c s = None.
Proof.
  unfold lacks. induction s as [|a s IH]; cbn; [reflexivity|].
  intros H. apply andb_prop in H. destruct H as [Ha Hs].
  rewrite (IH Hs). unfold Regex.but in Ha. apply negb_true_iff in Ha.
  rewrite Ascii.eqb_sym. now rewrite Ha.
Qed.

Lemma lastIndexOf_last c a b :
  lacks c b = true ->
  Js.lastIndexOf c (a +:+ String c b) = Some (String.length a).
Proof.
  intros Hb. induction a as [|x a IH]; cbn [String.append Js.lastIndexOf String.length].
  - now rewrite (lastIndexOf_lacks _ _ Hb), Ascii.eqb_refl.
  - now rewrite IH.
Qed.

(** the directory of a path *)
Lemma uptoLast_dir dir file :
  lacks "/" file = true -> Js.uptoLast "/" (dir +:+ "/" +:+ file) = dir.
Proof.
  intros Hf. unfold Js.uptoLast.
  change ("/" +:+ file) with (String "/" file).
  rewrite (lastIndexOf_last _ _ _ Hf). apply substring_front.
Qed.

Lemma uptoLast_top file : lacks "/" file = true -> Js.uptoLast "/" file = "".
Proof. intros Hf. unfold Js.uptoLast. now rewrite (lastIndexOf_lacks _ _ Hf). Qed.

Lemma split_lacks c s : lacks c s = true -> Js.split c s = [s].
Proof.
  unfold lacks. induction s as [|a s IH]; cbn; [reflexivity|].
  intros H. apply andb_prop in H. destruct H as [Ha Hs].
  unfold Regex.but in Ha. apply negb_true_iff in Ha.
  rewrite Ascii.eqb_sym, Ha. now rewrite (IH Hs).
Qed.

Lemma split_here name : lacks "/" name = true -> Js.split "/" ("./" +:+ name) = ["."; name].
Proof.
  intros H. change ("./" +:+ name) with (String "." (String "/" name)).
  cbn [Js.split]. change (Ascii.eqb "." "/") with false.
  change (Ascii.eqb "/" "/") with true. cbv iota.
  now rewrite (split_lacks _ _ H).
Qed.

Lemma split_up name : lacks "/" name = true -> Js.split "/" ("../" +:+ name) = [".."; name].
Proof.
  intros H. change ("../" +:+ name) with (String "." (String "." (String "/" name))).
  cbn [Js.split]. change (Ascii.eqb "." "/") with false.
  change (Ascii.eqb "/" "/") with true. cbv iota.
  now rewrite (split_lacks _ _ H).
Qed.

Lemma walk_segment cur name :
  segment name ->
  walkImport cur [name] = if Js.truthy cur then cur +:+ "/" +:+ name else name.
Proof.
  intros [_ [H1 [H2 _]]]. unfold walkImport. cbn [fold_left].
  apply String.eqb_neq in H1, H2. now rewrite H1, H2.
Qed.

Lemma truthy_nonempty s : s <> EmptyString -> Js.truthy s = true.
Proof. intros H. unfold Js.truthy. apply negb_true_iff. now apply String.eqb_neq. Qed.

End ImportFacts.

(** X10.  Where a relative import points before extensions are tried: [./name]
    names the sibling of the importing file, [../name] the sibling of its
    directory; for a file at the top, [./name] is [name] itself. *)
Theorem import_target_of_a_relative_path (dir sub file name : string) :
  dir <> EmptyString -> lacks "/" sub = true -> lacks "/" file = true -> segment name ->
  importTarget (dir +:+ "/" +:+ file) ("./" +:+ name) = dir +:+ "/" +:+ name
  /\ importTarget (dir +:+ "/" +:+ sub +:+ "/" +:+ file) ("../" +:+ name)
     = dir +:+ "/" +:+ name
  /\ importTarget file ("./" +:+ name) = name.
Proof.
  intros Hdir Hsub Hfile Hname. pose proof Hname as [_ [_ [_ Hl]]].
  unfold importTarget. split; [|split].
  - rewrite (ImportFacts.uptoLast_dir _ _ Hfile), (ImportFacts.split_here _ Hl).
    change (walkImport dir ["."; name]) with (walkImport dir [name]).
    rewrite (ImportFacts.walk_segment _ _ Hname).
    now rewrite (ImportFacts.truthy_nonempty _ Hdir).
  - replace (dir +:+ "/" +:+ sub +:+ "/" +:+ file)
      with ((dir +:+ "/" +:+ sub) +:+ "/" +:+ file)
      by (now rewrite !RegexFacts.append_assoc).
    rewrite (ImportFacts.uptoLast_dir _ _ Hfile), (ImportFacts.split_up _ Hl).
    change (walkImport (dir +:+ "/" +:+ sub) [".."; name])
      with (walkImport (Js.uptoLast "/" (dir +:+ "/" +:+ sub)) [name]).
    rewrite (ImportFacts.uptoLast_dir _ _ Hsub).
    rewrite (ImportFacts.walk_segment _ _ Hname).
    now rewrite (ImportFacts.truthy_nonempty _ Hdir).
  - rewrite (ImportFacts.uptoLast_top _ Hfile), (ImportFacts.split_here _ Hl).
    change (walkImport "" ["."; name]) with (walkImport "" [name]).
    now rewrite (ImportFacts.walk_segment _ _ Hname).
Qed.

Module ProbeFacts.
Import OMapFacts OSetFacts.




Lemma In_fileDeps projectPaths file :
  forall dep,
    In dep (fileDeps projectPaths file)
    <-> exists imp, In imp (imports file)
          /\ Js.startsWith "." (i_module imp) = true
          /\ resolveImportPath projectPaths (relativePath file) (i_module imp) = Some dep
          /\ dep <> EmptyString.
Proof.
  unfold fileDeps.
  set (step := fun (deps : OSet.t) (imp : ImportInfo) =>
      if Js.startsWith "." (i_module imp) then
        match resolveImportPath projectPaths (relativePath file) (i_module imp) with
        | Some resolved => if Js.truthy resolved then OSet.add resolved deps else deps
        | None => deps
        end
      else deps).
  set (adds := fun (imp : ImportInfo) (dep : string) =>
      Js.startsWith "." (i_module imp) = true
      /\ resolveImportPath projectPaths (relativePath file) (i_module imp) = Some dep
      /\ dep <> EmptyString).
  assert (Hstep : forall acc imp dep,
            In dep (step acc imp) <-> In dep acc \/ adds imp dep).
  { intros acc imp dep. unfold step, adds.
    destruct (Js.startsWith "." (i_module imp)); [|intuition discriminate].
    destruct (resolveImportPath projectPaths (relativePath file) (i_module imp))
      as [r|]; [|intuition discriminate].
    destruct (Js.truthy r) eqn:Et.
    - apply CallTextFacts.truthy_ne in Et. rewrite In_add.
      split; [intros [H| ->]; auto|]. intros [H|[_ [[= ->] _]]]; auto.
    - split; [auto|]. intros [H|[_ [[= ->] Hne]]]; [exact H|].
      apply CallTextFacts.truthy_ne in Hne. congruence. }
  assert (H : forall imps acc dep,
            In dep (fold_left step imps acc)
            <-> In dep acc \/ exists imp, In imp imps /\ adds imp dep).
  { induction imps as [|imp imps IH]; intros acc dep; cbn [fold_left].
    - split; [auto|]. intros [H|[imp [[] _]]]. exact H.
    - rewrite IH, Hstep. split.
      + intros [[H|H]|[i [Hi Ha]]]; [now left|right|right].
        * exists imp. split; [now left|exact H].
        * exists i. split; [now right|exact Ha].
      + intros [H|[i [[<-|Hi] Ha]]]; [now left; left|now left; right|right].
        exists i. auto. }
  intros dep. rewrite H. simpl. unfold adds. tauto.
Qed.

Lemma NoDup_fileDeps projectPaths file : NoDup (fileDeps projectPaths file).
Proof.
  unfold fileDeps. generalize (NoDup_nil string). generalize (@nil string).
  induction (imports file) as [|imp imps IH]; intros acc Hacc; cbn [fold_left]; auto.
  apply IH. destruct (Js.startsWith "." (i_module imp)); auto.
  destruct (resolveImportPath _ _ _) as [r|]; auto.
  destruct (Js.truthy r); auto. now apply NoDup_add.
Qed.

Lemma get_buildImportGraph projectPaths fileInfos : forall g0 k,
  NoDup (map relativePath fileInfos) ->
  OMap.get k (fold_left (fun g file =>
      OMap.set (relativePath file) (fileDeps projectPaths file) g) fileInfos g0)
  = match find (fun f => String.eqb (relativePath f) k) fileInfos with
    | Some f => Some (fileDeps projectPaths f)
    | None => OMap.get k g0
    end.
Proof.
  induction fileInfos as [|f fileInfos IH]; intros g0 k Hnd; [reflexivity|].
  cbn [fold_left find map] in *. inversion Hnd as [|? ? Hnot Hnd']; subst.
  rewrite (IH _ _ Hnd'). destruct (String.eqb (relativePath f) k) eqn:E.
  - apply String.eqb_eq in E. subst k.
    destruct (find _ fileInfos) as [f'|] eqn:Ef.
    + exfalso. apply find_some in Ef. destruct Ef as [Hin Heq].
      apply String.eqb_eq in Heq. apply Hnot. rewrite <- Heq. now apply in_map.
    + apply get_set_eq.
  - apply String.eqb_neq in E. destruct (find _ fileInfos); [reflexivity|].
    now apply get_set_ne.
Qed.

End ProbeFacts.



(** X12.  The import graph of files with distinct relative paths: a file imports
    exactly the non-empty paths its relative imports (module names that
    start with a dot) resolve to, each listed once; imports of packages add
    nothing. *)
Theorem import_graph_of_a_project (projectPaths : list string) (fileInfos : list FileInfo) :
  NoDup (map relativePath fileInfos) ->
  (forall a b,
     importEdge (buildImportGraph projectPaths fileInfos) a b
     <-> exists file imp,
           In file fileInfos /\ relativePath file = a /\ In imp (imports file)
           /\ Js.startsWith "." (i_module imp) = true
           /\ resolveImportPath projectPaths a (i_module imp) = Some b
           /\ b <> EmptyString)
  /\ (forall file, In file fileInfos ->
        exists deps, OMap.get (relativePath file) (buildImportGraph projectPaths fileInfos)
                     = Some deps /\ NoDup deps).
Proof.
  intros Hnd. unfold buildImportGraph, importEdge.
  assert (Hfind : forall file, In file fileInfos ->
            find (fun f => String.eqb (relativePath f) (relativePath file)) fileInfos
            = Some file).
  { clear projectPaths. induction fileInfos as [|f fs IH]; intros file Hin; [destruct Hin|].
    cbn [find map] in *. inversion Hnd as [|? ? Hnot Hnd']; subst.
    destruct Hin as [->|Hin]; [now rewrite String.eqb_refl|].
    destruct (String.eqb (relativePath f) (relativePath file)) eqn:E; [|auto].
    apply String.eqb_eq in E. exfalso. apply Hnot. rewrite E. now apply in_map. }
  split.
  - intros a b. rewrite (ProbeFacts.get_buildImportGraph _ _ _ _ Hnd). cbn [OMap.get].
    split.
    + intros [deps [Hget Hb]].
      destruct (find _ fileInfos) as [f|] eqn:Ef; [|discriminate].
      injection Hget as <-. apply find_some in Ef. destruct Ef as [Hin Heq].
      apply String.eqb_eq in Heq. apply ProbeFacts.In_fileDeps in Hb.
      destruct Hb as [imp [Hi [Hs [Hr Hne]]]]. rewrite Heq in Hr. eauto 10.
    + intros [file [imp [Hin [<- [Hi [Hs [Hr Hne]]]]]]].
      rewrite (Hfind _ Hin). eexists. split; [reflexivity|].
      apply ProbeFacts.In_fileDeps. eauto 10.
  - intros file Hin. rewrite (ProbeFacts.get_buildImportGraph _ _ _ _ Hnd), (Hfind _ Hin).
    eexists. split; [reflexivity|]. apply ProbeFacts.NoDup_fileDeps.
Qed.

Lemma import_graph_of_a_project_witness :
  NoDup (map relativePath TwoCycles.fileInfos)
  /\ importEdge (buildImportGraph TwoCycles.projectPaths TwoCycles.fileInfos) "a.ts" "c.ts".
Proof.
  assert (Hnd : NoDup (map relativePath TwoCycles.fileInfos)).
  { vm_compute. repeat (constructor; [simpl; intuition discriminate|]). constructor. }
  split; [exact Hnd|].
  destruct (import_graph_of_a_project TwoCycles.projectPaths TwoCycles.fileInfos Hnd)
    as [Hedge _].
  apply Hedge. exists (TwoCycles.file "a.ts" ["./c"; "./b"]), {| i_module := "./c"; i_named := [] |}.
  split; [now left|]. split; [reflexivity|]. split; [now left|].
  split; [reflexivity|]. split; [vm_compute; reflexivity|discriminate].
Defined.

Lemma import_target_of_a_relative_path_witness :
  importTarget ("src/app" +:+ "/" +:+ "main.ts") ("./" +:+ "util") = "src/app" +:+ "/" +:+ "util"
  /\ importTarget ("src/app" +:+ "/" +:+ "core" +:+ "/" +:+ "main.ts") ("../" +:+ "util")
     = "src/app" +:+ "/" +:+ "util"
  /\ importTarget "main.ts" ("./" +:+ "util") = "util".
Proof.
  apply import_target_of_a_relative_path.
  - discriminate.
  - reflexivity.
  - reflexivity.
  - repeat split; discriminate.
Defined.

(** * Cycles of the import graph *)

Module SoundFacts.
Import OMapFacts OSetFacts DfsFacts.

Section Sound.
Context (g : OMap.t OSet.t).

Lemma paired_any path st : paired g EmptyString EmptyString path st.
Proof. intros [H _]. congruence. Qed.

Lemma linkedBy_app_r (R : string -> string -> Prop) l1 l2 :
  linkedBy R (l1 ++ l2) -> linkedBy R l2.
Proof.
  induction l1 as [|a l1 IH]; [auto|]. intros H. apply IH.
  destruct l1 as [|b l1].
  - destruct l2; [exact I|]. cbn in H. tauto.
  - cbn in H. cbn. tauto.
Qed.

Lemma edge_universe a b : importEdge g a b -> a ∈ universe g /\ b ∈ universe g.
Proof.
  intros [deps [Hg Hb]]. split.
  - exact (universe_key g _ _ Hg).
  - exact (universe_dep g _ _ _ Hg Hb).
Qed.

Lemma record_real path0 node dep st :
  walking g (path0 ++ [node]) st -> dep ∈ recursionStack st ->
  importEdge g node dep -> linkedBy (importEdge g) (path0 ++ [node]) ->
  realCycles g st -> realCycles g (recordCycle (path0 ++ [node]) dep st).
Proof.
  intros Hw Hdep Hedge Hpath Hreal.
  pose proof Hw as [Hnd [Hstack _]].
  assert (Hin : In dep (path0 ++ [node])) by now apply Hstack.
  destruct (found_cycle path0 node dep Hnd Hin)
    as [pre [seg [Hsplit [Hne [_ [_ [Hlast Hfound]]]]]]].
  unfold recordCycle. rewrite Hfound.
  destruct (existsb _ (cycles st)); [exact Hreal|].
  unfold realCycles. cbn [cycles]. apply Forall_app. split; [exact Hreal|].
  constructor; [|constructor]. cbn [cycle].
  apply ChainFacts.linkedBy_snoc.
  - rewrite Hsplit in Hpath. now apply linkedBy_app_r in Hpath.
  - intros _. now rewrite Hlast.
Qed.

Lemma record_nonempty path dep st : cycles (recordCycle path dep st) <> [].
Proof.
  unfold recordCycle. destruct (existsb _ (cycles st)) eqn:E.
  - destruct (cycles st); [discriminate|discriminate].
  - cbn [cycles]. destruct (cycles st); discriminate.
Qed.

Lemma incl_nil_eq {A} (l : list A) : incl l [] -> l = [].
Proof. destruct l as [|a l]; [reflexivity|]. intros H. destruct (H a). now left. Qed.

Lemma topological_snoc order u :
  topological g order -> (forall v, importEdge g u v -> In v order) ->
  topological g (order ++ [u]).
Proof.
  intros Ht Hu pre u' post E v Hv.
  destruct post as [|z post] using rev_ind.
  - apply app_inj_tail in E. destruct E as [<- <-]. now apply Hu.
  - clear IHpost. change (pre ++ u' :: post ++ [z]) with (pre ++ (u' :: post) ++ [z]) in E.
    rewrite app_assoc in E. apply app_inj_tail in E. destruct E as [E _].
    exact (Ht _ _ _ E v Hv).
Qed.

Lemma sorts_refl path st also :
  (cycles st = [] -> forall order, finishedAs order path st ->
     forall d, In d also -> In d order) ->
  sorts g path st st also.
Proof.
  intros H Hc order Hf Ht. exists []. rewrite app_nil_r.
  split; [exact Hf|]. split; [exact Ht|]. now apply H.
Qed.

(** the loop over the imports of [node] *)
Lemma visitDeps_sound fuel path0 node :
  dfsSound g fuel ->
  forall deps st st',
    visitDeps (dfs fuel g) (path0 ++ [node]) deps st = Some st' ->
    (forall d, In d deps -> importEdge g node d) ->
    walking g (path0 ++ [node]) st ->
    size (universe g ∖ visited st) < fuel ->
    linkedBy (importEdge g) (path0 ++ [node]) ->
    realCycles g st ->
    realCycles g st' /\ sorts g (path0 ++ [node]) st st' deps.
Proof.
  intros IH. induction deps as [|dep deps IHdeps];
    intros st st' Hrun Hedges Hw Hsize Hpath Hreal.
  - cbn in Hrun. injection Hrun as <-. split; [exact Hreal|].
    apply sorts_refl. intros _ order _ d [].
  - cbn [visitDeps] in Hrun.
    assert (Hedge : importEdge g node dep) by (apply Hedges; now left).
    assert (Hrest : forall d, In d deps -> importEdge g node d)
      by (intros d Hd; apply Hedges; now right).
    assert (Huni : forall d, In d deps -> d ∈ universe g)
      by (intros d Hd; exact (proj2 (edge_universe _ _ (Hrest d Hd)))).
    pose proof Hw as [Hnd [Hstack [Hvis _]]].
    (* the state after [dep], and what the rest of the loop keeps of it *)
    assert (Htail : forall st1,
      visitDeps (dfs fuel g) (path0 ++ [node]) deps st1 = Some st' ->
      walking g (path0 ++ [node]) st1 -> visited st ⊆ visited st1 ->
      realCycles g st1 ->
      realCycles g st' /\ incl (cycles st1) (cycles st')
      /\ sorts g (path0 ++ [node]) st1 st' deps).
    { intros st1 Hrun1 Hw1 Hsub1 Hreal1.
      assert (Hsize1 : size (universe g ∖ visited st1) < fuel)
        by (pose proof (measure_mono g _ _ Hsub1); lia).
      destruct (visitDeps_ok g EmptyString EmptyString fuel path0 node
                  (dfs_ok g _ _ fuel) deps st1 Huni Hw1 (paired_any _ _) Hsize1)
        as [st'' [E [_ [_ [_ [Hincl _]]]]]].
      rewrite Hrun1 in E. injection E as <-.
      destruct (IHdeps st1 st' Hrun1 Hrest Hw1 Hsize1 Hpath Hreal1) as [Hr Hs].
      auto. }
    destruct (bool_decide (dep ∈ visited st)) eqn:Ev; cbn [negb] in Hrun.
    + apply bool_decide_eq_true in Ev.
      destruct (bool_decide (dep ∈ recursionStack st)) eqn:Es.
      * apply bool_decide_eq_true in Es.
        destruct (Htail (recordCycle (path0 ++ [node]) dep st)) as [Hr [Hincl _]]; auto.
        -- now apply walking_record.
        -- now rewrite recordCycle_visited.
        -- now apply record_real.
        -- split; [exact Hr|]. intros Hnil. exfalso.
           rewrite Hnil in Hincl. apply incl_nil_eq in Hincl.
           exact (record_nonempty _ _ _ Hincl).
      * apply bool_decide_eq_false in Es.
        destruct (Htail st) as [Hr [Hincl Hs]]; auto.
        split; [exact Hr|]. intros Hnil order Hf Ht.
        destruct (Hs Hnil order Hf Ht) as [ext [Hf' [Ht' Hall]]].
        exists ext. split; [exact Hf'|]. split; [exact Ht'|].
        intros d [<-|Hd]; [|now apply Hall].
        apply in_or_app. left. apply Hf. split; [exact Ev|].
        intros Hin. apply Es. now apply Hstack.
    + apply bool_decide_eq_false in Ev.
      destruct (dfs fuel g dep ((path0 ++ [node]) ++ [dep]) st) as [st1|] eqn:Edfs;
        [|discriminate].
      assert (Hdu : dep ∈ universe g) by exact (proj2 (edge_universe _ _ Hedge)).
      destruct (dfs_ok g EmptyString EmptyString fuel dep (path0 ++ [node]) st
                  Hw (paired_any _ _) Hdu Ev Hsize)
        as [st1' [E [Hw1 [_ [Hsub1 [Hdep1 Hincl1]]]]]].
      rewrite Edfs in E. injection E as <-.
      assert (Hpath1 : linkedBy (importEdge g) ((path0 ++ [node]) ++ [dep])).
      { apply ChainFacts.linkedBy_snoc; [exact Hpath|].
        intros _. now rewrite last_last. }
      destruct (IH dep (path0 ++ [node]) st st1 Edfs Hw Hdu Ev Hsize Hpath1 Hreal)
        as [Hreal1 Hs1].
      destruct (Htail st1) as [Hr [Hincl Hs]]; auto.
      split; [exact Hr|]. intros Hnil order Hf Ht.
      assert (Hnil1 : cycles st1 = []).
      { rewrite Hnil in Hincl. now apply incl_nil_eq in Hincl. }
      destruct (Hs1 Hnil1 order Hf Ht) as [ext1 [Hf1 [Ht1 _]]].
      destruct (Hs Hnil (order ++ ext1) Hf1 Ht1) as [ext2 [Hf2 [Ht2 Hall]]].
      exists (ext1 ++ ext2). rewrite app_assoc.
      split; [exact Hf2|]. split; [exact Ht2|].
      intros d [<-|Hd]; [|now apply Hall].
      apply in_or_app. left. apply Hf1. split; [exact Hdep1|].
      intros Hin. apply Ev. now apply Hvis.
Qed.

Lemma dfs_sound fuel : dfsSound g fuel.
Proof.
  induction fuel as [|fuel IH];
    intros node path st st' Hrun Hw Hu Hnew Hsize Hpath Hreal; [discriminate|].
  cbn [dfs] in Hrun.
  assert (Hw1 : walking g (path ++ [node]) (enter node st)) by now apply walking_enter.
  assert (Hsize1 : size (universe g ∖ visited (enter node st)) < fuel).
  { cbn [enter visited]. pose proof (measure_enter g (visited st) node Hu Hnew). lia. }
  pose proof Hw as [_ [_ [Hvis _]]].
  assert (Hoff : ~ In node path) by (intros H; apply Hnew; now apply Hvis).
  assert (Henter : forall order, finishedAs order path st ->
            finishedAs order (path ++ [node]) (enter node st)).
  { intros order Hf n. rewrite (Hf n). cbn [enter visited].
    rewrite in_app_iff, elem_of_union, elem_of_singleton. simpl. split.
    - intros [Hn Hp]. split; [now right|]. intros [H|[<-|[]]]; auto.
    - intros [[->|Hn] Hp]; [exfalso; apply Hp; right; now left|].
      split; [exact Hn|]. intros H. apply Hp. now left. }
  assert (Hleave : forall order st2,
            visited (enter node st) ⊆ visited st2 ->
            finishedAs order (path ++ [node]) st2 ->
            finishedAs (order ++ [node]) path (leave node st2)).
  { intros order st2 Hsub Hf n. rewrite in_app_iff, (Hf n). cbn [leave visited].
    rewrite in_app_iff. simpl. split.
    - intros [[Hn Hp]|[<-|[]]].
      + split; [exact Hn|]. intros H. apply Hp. now left.
      + split; [|exact Hoff]. apply Hsub. cbn [enter visited]. set_solver.
    - intros [Hn Hp]. destruct (string_dec node n) as [->|Hne]; [right; now left|].
      left. split; [exact Hn|]. intros [H|[H|[]]]; auto. }
  destruct (OMap.get node g) as [deps|] eqn:Eg.
  - destruct (visitDeps (dfs fuel g) (path ++ [node]) deps (enter node st))
      as [st2|] eqn:Eloop; [|discriminate].
    cbn in Hrun. injection Hrun as <-.
    assert (Hedges : forall d, In d deps -> importEdge g node d)
      by (intros d Hd; exists deps; auto).
    destruct (visitDeps_sound fuel path node IH deps (enter node st) st2 Eloop
                Hedges Hw1 Hsize1 Hpath Hreal) as [Hreal2 Hs2].
    destruct (visitDeps_ok g EmptyString EmptyString fuel path node
                (dfs_ok g _ _ fuel) deps (enter node st)) as [st2' [E [_ [_ [Hsub2 _]]]]];
      auto using paired_any.
    { intros d Hd. exact (proj2 (edge_universe _ _ (Hedges d Hd))). }
    rewrite Eloop in E. injection E as <-.
    split; [exact Hreal2|]. intros Hnil order Hf Ht.
    destruct (Hs2 Hnil order (Henter _ Hf) Ht) as [ext [Hf2 [Ht2 Hall]]].
    exists (ext ++ [node]). rewrite app_assoc.
    split; [now apply Hleave|]. split; [|intros d []].
    apply topological_snoc; [exact Ht2|].
    intros v [deps' [Hg Hv]]. rewrite Eg in Hg. injection Hg as <-. now apply Hall.
  - cbn in Hrun. injection Hrun as <-.
    split; [exact Hreal|]. intros Hnil order Hf Ht.
    exists [node]. split; [|split; [|intros d []]].
    + apply Hleave; [reflexivity|]. now apply Henter.
    + apply topological_snoc; [exact Ht|].
      intros v [deps' [Hg _]]. congruence.
Qed.

Lemma dfsAll_sound fuel : forall roots st st',
  dfsAll fuel g roots st = Some st' ->
  (forall f, In f roots -> f ∈ universe g) ->
  walking g [] st -> size (universe g ∖ visited st) < fuel ->
  realCycles g st ->
  realCycles g st' /\ incl (cycles st) (cycles st') /\ sorts g [] st st' [].
Proof.
  induction roots as [|file roots IH]; intros st st' Hrun Hu Hw Hsize Hreal.
  - cbn in Hrun. injection Hrun as <-. split; [exact Hreal|].
    split; [apply incl_refl|]. apply sorts_refl. intros _ order _ d [].
  - cbn [dfsAll] in Hrun.
    assert (Hrest : forall f, In f roots -> f ∈ universe g)
      by (intros f Hf; apply Hu; now right).
    destruct (bool_decide (file ∈ visited st)) eqn:Ev; cbn [negb] in Hrun.
    + exact (IH st st' Hrun Hrest Hw Hsize Hreal).
    + apply bool_decide_eq_false in Ev.
      destruct (dfs fuel g file [file] st) as [st1|] eqn:Edfs; [|discriminate].
      assert (Hfu : file ∈ universe g) by (apply Hu; now left).
      destruct (dfs_ok g EmptyString EmptyString fuel file [] st
                  Hw (paired_any _ _) Hfu Ev Hsize)
        as [st1' [E [Hw1 [_ [Hsub1 [_ Hincl1]]]]]].
      cbn [app] in E. rewrite Edfs in E. injection E as <-.
      destruct (dfs_sound fuel file [] st st1 Edfs Hw Hfu Ev Hsize I Hreal)
        as [Hreal1 Hs1].
      assert (Hsize1 : size (universe g ∖ visited st1) < fuel)
        by (pose proof (measure_mono g _ _ Hsub1); lia).
      destruct (IH st1 st' Hrun Hrest Hw1 Hsize1 Hreal1) as [Hr [Hincl Hs]].
      split; [exact Hr|]. split; [eapply incl_tran; eauto|].
      intros Hnil order Hf Ht.
      assert (Hnil1 : cycles st1 = []).
      { rewrite Hnil in Hincl. now apply incl_nil_eq in Hincl. }
      destruct (Hs1 Hnil1 order Hf Ht) as [ext1 [Hf1 [Ht1 _]]].
      destruct (Hs Hnil (order ++ ext1) Hf1 Ht1) as [ext2 [Hf2 [Ht2 _]]].
      exists (ext1 ++ ext2). rewrite app_assoc. split; [exact Hf2|].
      split; [exact Ht2|intros d []].
Qed.

(** the walk over the whole graph *)
Lemma findCycles_sound :
  exists st, findCycles g = Some st
    /\ Forall (fun c => closedWalk (cycle c) /\ linkedBy (importEdge g) (cycle c))
         (cycles st)
    /\ (cycles st = [] ->
        exists order, topological g order
          /\ forall k, In k (OMap.keys g) -> In k order).
Proof.
  set (st0 := {| visited := ∅; recursionStack := ∅; cycles := [] |}).
  assert (Hw0 : walking g [] st0).
  { unfold walking; cbn [visited recursionStack cycles st0].
    split; [constructor|]. split; [intros n; simpl; set_solver|].
    split; [intros n []|]. split; [set_solver|]. split; [constructor|].
    intros i j ci cj Hi. destruct i; discriminate. }
  assert (Hsize0 : size (universe g ∖ visited st0) < S (length (graphNodes g))).
  { cbn [visited st0]. pose proof (size_list_to_set_le (graphNodes g)).
    assert (size (universe g ∖ ∅) <= size (universe g))
      by (apply subseteq_size; generalize (universe g); set_solver).
    unfold universe in *. lia. }
  assert (Hkeys : forall f, In f (OMap.keys g) -> f ∈ universe g).
  { intros f Hf. unfold universe, graphNodes.
    apply elem_of_list_to_set, list_elem_of_In, in_or_app. now left. }
  destruct (dfsAll_ok g EmptyString EmptyString (S (length (graphNodes g)))
              (OMap.keys g) st0 Hkeys Hw0 (paired_any _ _) Hsize0)
    as [st [E [Hw [_ [_ Hall]]]]].
  exists st. split; [exact E|].
  destruct (dfsAll_sound _ _ _ _ E Hkeys Hw0 Hsize0) as [Hreal [_ Hs]];
    [constructor|].
  split.
  - destruct Hw as [_ [_ [_ [_ [Hent _]]]]]. unfold realCycles in Hreal.
    rewrite Forall_forall in *. intros c Hc. split.
    + exact (CycleFacts.entryOk_closed _ _ _ (Hent c Hc)).
    + exact (Hreal c Hc).
  - intros Hnil. destruct (Hs Hnil []) as [ext [Hf [Ht _]]].
    + intros n. cbn [visited st0]. split; [intros []|]. intros [H _]. set_solver.
    + intros pre u post E0. destruct pre; discriminate.
    + exists ext. cbn [app] in *. split; [exact Ht|].
      intros k Hk. apply Hf. split; [now apply Hall|intros []].
Qed.

(** in an order that puts imports first, no walk comes back *)
Lemma no_return order :
  topological g order ->
  forall walk pre u post,
    order = pre ++ u :: post -> linkedBy (importEdge g) (u :: walk) ->
    forall n, In n walk -> In n pre.
Proof.
  intros Ht. induction walk as [|v walk IH]; intros pre u post E Hl n Hn; [destruct Hn|].
  destruct Hl as [Huv Hl].
  assert (Hv : In v pre) by exact (Ht _ _ _ E v Huv).
  destruct Hn as [<-|Hn]; [exact Hv|].
  apply in_split in Hv. destruct Hv as [pre1 [post1 ->]].
  apply in_or_app. left.
  apply (IH pre1 v (post1 ++ u :: post)); auto.
  now rewrite E, <- app_assoc.
Qed.

Lemma topological_acyclic order :
  topological g order -> (forall k, In k (OMap.keys g) -> In k order) -> ~ cyclic g.
Proof.
  intros Ht Hall [walk [Hlen [Hclosed Hl]]].
  destruct walk as [|u walk]; [cbn in Hlen; lia|].
  destruct walk as [|v walk]; [cbn in Hlen; lia|].
  cbn [hd] in Hclosed.
  assert (Hu : In u order).
  { apply Hall. destruct Hl as [[deps [Hg _]] _]. apply get_In in Hg.
    unfold OMap.keys. change u with (fst (u, deps)). now apply in_map. }
  assert (Hback : In u (v :: walk)).
  { rewrite Hclosed. change (last (u :: v :: walk) EmptyString)
      with (last (v :: walk) EmptyString). apply last_In. discriminate. }
  (* each return of the walk to [u] finds [u] further in front *)
  assert (Hdesc : forall n pre post, length pre <= n -> order = pre ++ u :: post -> False).
  { induction n as [|n IHn]; intros pre post Hle E.
    - destruct pre; [|cbn in Hle; lia].
      exact (no_return order Ht (v :: walk) [] u post E Hl u Hback).
    - pose proof (no_return order Ht (v :: walk) pre u post E Hl u Hback) as Hin.
      apply in_split in Hin. destruct Hin as [pre1 [post1 ->]].
      apply (IHn pre1 (post1 ++ u :: post)).
      + rewrite length_app in Hle. cbn in Hle. lia.
      + now rewrite E, <- app_assoc. }
  apply in_split in Hu. destruct Hu as [pre [post E]].
  exact (Hdesc (length pre) pre post (le_n _) E).
Qed.

End Sound.
End SoundFacts.

(** X13.  Every reported circular dependency is a cycle of the import graph: a
    walk along import edges through distinct files that closes at the file
    it starts from. *)
Theorem reported_cycles_are_import_cycles (projectPaths : list string)
    (fileInfos : list FileInfo) (c : CircularDependency) :
  In c (detectCircularDependencies projectPaths fileInfos) ->
  closedWalk (cycle c)
  /\ linkedBy (importEdge (buildImportGraph projectPaths fileInfos)) (cycle c).
Proof.
  unfold detectCircularDependencies.
  destruct (SoundFacts.findCycles_sound (buildImportGraph projectPaths fileInfos))
    as [st [E [Hall _]]].
  replace (findCycles _) with (Some st) by (symmetry; exact E).
  rewrite Forall_forall in Hall. apply Hall.
Qed.

Lemma reported_cycles_are_import_cycles_witness :
  In (cycleEntry ["a.ts"; "c.ts"; "b.ts"; "d.ts"; "a.ts"])
     (detectCircularDependencies TwoCycles.projectPaths TwoCycles.fileInfos)
  /\ closedWalk ["a.ts"; "c.ts"; "b.ts"; "d.ts"; "a.ts"]
  /\ linkedBy (importEdge (buildImportGraph TwoCycles.projectPaths TwoCycles.fileInfos))
       ["a.ts"; "c.ts"; "b.ts"; "d.ts"; "a.ts"].
Proof.
  assert (Hin : In (cycleEntry ["a.ts"; "c.ts"; "b.ts"; "d.ts"; "a.ts"])
                  (detectCircularDependencies TwoCycles.projectPaths TwoCycles.fileInfos))
    by (vm_compute; right; now left).
  split; [exact Hin|].
  exact (reported_cycles_are_import_cycles _ _ _ Hin).
Defined.

(** X14.  The report of circular dependencies is empty exactly when the import
    graph has no cycle: no walk along import edges comes back to the file
    it started from. *)
Theorem no_report_iff_no_import_cycle (projectPaths : list string)
    (fileInfos : list FileInfo) :
  detectCircularDependencies projectPaths fileInfos = []
  <-> ~ cyclic (buildImportGraph projectPaths fileInfos).
Proof.
  unfold detectCircularDependencies.
  destruct (SoundFacts.findCycles_sound (buildImportGraph projectPaths fileInfos))
    as [st [E [Hall Htopo]]].
  replace (findCycles _) with (Some st) by (symmetry; exact E).
  split.
  - intros Hnil. destruct (Htopo Hnil) as [order [Ht Hk]].
    exact (SoundFacts.topological_acyclic _ order Ht Hk).
  - intros Hacyclic. destruct (cycles st) as [|c cs] eqn:Ec; [reflexivity|].
    exfalso. apply Hacyclic. inversion Hall as [|? ? [Hclosed Hl] _]; subst.
    exists (cycle c). split; [|split; [|exact Hl]].
    + destruct Hclosed as [seg [Hne [_ ->]]]. rewrite length_app.
      destruct seg; [congruence|]. cbn. lia.
    + destruct Hclosed as [seg [Hne [_ ->]]]. rewrite last_last.
      destruct seg; [congruence|reflexivity].
Qed.

(** * Service usage *)

Module UsageFacts.
Import OMapFacts OSetFacts.

Lemma countUse_bump this cls call su :
  countUse this cls call su
  = match serviceOf this cls call with
    | Some name => bump name su
    | None => su
    end.
Proof.
  unfold countUse, serviceOf, bump.
  destruct (Regex.jsMatch Regex.rxServiceUse call); [|reflexivity].
  destruct (injectionMap this !! c_name cls); [|reflexivity].
  destruct (getTruthy _ _); reflexivity.
Qed.

Lemma countUses_bumps this fileInfos su :
  countUses this fileInfos su
  = fold_left (fun su name => bump name su) (serviceUses this fileInfos) su.
Proof.
  unfold countUses, serviceUses.
  revert su. induction (flat_map classes fileInfos) as [|cls clss IH]; intros su;
    [reflexivity|].
  cbn [fold_left flat_map]. rewrite fold_left_app, IH. f_equal. clear IH.
  revert su. induction (c_methods cls) as [|m ms IHm]; intros su; [reflexivity|].
  cbn [fold_left flat_map]. rewrite fold_left_app, IHm. f_equal. clear IHm.
  revert su. induction (m_calls m) as [|call calls IHc]; intros su; [reflexivity|].
  cbn [fold_left flat_map]. rewrite fold_left_app, IHc. f_equal.
  rewrite countUse_bump. now destruct (serviceOf this cls call).
Qed.

Lemma get_bump name su k :
  OMap.get k (bump name su)
  = if String.eqb name k then option_map (fun n => n + 1) (OMap.get k su)
    else OMap.get k su.
Proof.
  unfold bump, OMap.has. destruct (String.eqb name k) eqn:E.
  - apply String.eqb_eq in E. subst k.
    destruct (OMap.get name su) as [n|] eqn:Eg.
    + now rewrite get_set_eq.
    + now rewrite Eg.
  - apply String.eqb_neq in E.
    destruct (OMap.get name su); [now apply get_set_ne|reflexivity].
Qed.

Lemma keys_bump name su : NoDup (OMap.keys su) -> NoDup (OMap.keys (bump name su)).
Proof. unfold bump. destruct (OMap.has name su); auto using keys_NoDup_set. Qed.

Lemma get_bumps names : forall su k,
  OMap.get k (fold_left (fun su name => bump name su) names su)
  = option_map (fun n => n + count_occ string_dec names k) (OMap.get k su).
Proof.
  induction names as [|name names IH]; intros su k; cbn [fold_left count_occ].
  - destruct (OMap.get k su); cbn; [f_equal; lia|reflexivity].
  - rewrite IH, get_bump. destruct (string_dec name k) as [->|Hne].
    + rewrite String.eqb_refl. destruct (OMap.get k su); cbn; [f_equal; lia|reflexivity].
    + apply String.eqb_neq in Hne. now rewrite Hne.
Qed.

Lemma keys_bumps names : forall su,
  NoDup (OMap.keys su) -> NoDup (OMap.keys (fold_left (fun su name => bump name su) names su)).
Proof.
  induction names as [|name names IH]; intros su H; cbn [fold_left]; auto using keys_bump.
Qed.

Lemma snd_initialCounts fileInfos :
  snd (initialCounts fileInfos) = zeroCounts (flat_map classes fileInfos) [].
Proof.
  unfold initialCounts.
  assert (H : forall clss (mc su : OMap.t nat),
    snd (fold_left (fun acc cls =>
      (fold_left (fun mc method =>
         OMap.set (c_name cls +:+ "." +:+ m_name method) (length (m_calledBy method)) mc)
         (c_methods cls) (fst acc),
       if existsb isServiceDecorator (c_decorators cls)
       then OMap.set (c_name cls) 0 (snd acc) else snd acc)) clss (mc, su))
    = zeroCounts clss su).
  { induction clss as [|cls clss IH]; intros mc su; [reflexivity|].
    cbn [fold_left fst snd]. rewrite IH. reflexivity. }
  apply H.
Qed.

Lemma keys_zeroCounts clss : forall su,
  NoDup (OMap.keys su) -> NoDup (OMap.keys (zeroCounts clss su)).
Proof.
  unfold zeroCounts. induction clss as [|cls clss IH]; intros su H; cbn [fold_left]; auto.
  apply IH. destruct (existsb _ _); auto using keys_NoDup_set.
Qed.

Lemma get_zeroCounts clss : forall su k n,
  OMap.get k (zeroCounts clss su) = Some n ->
  OMap.get k su = Some n
  \/ (n = 0 /\ exists cls, In cls clss /\ c_name cls = k
                 /\ existsb isServiceDecorator (c_decorators cls) = true).
Proof.
  unfold zeroCounts. induction clss as [|cls clss IH]; intros su k n; cbn [fold_left].
  - now left.
  - intros H. apply IH in H. destruct H as [H|[-> [c [Hc Hrest]]]].
    + destruct (existsb isServiceDecorator (c_decorators cls)) eqn:Es; [|now left].
      rewrite get_set in H. destruct (String.eqb (c_name cls) k) eqn:E; [|now left].
      apply String.eqb_eq in E. injection H as <-. right.
      split; [reflexivity|]. exists cls. split; [now left|auto].
    + right. split; [reflexivity|]. exists c. split; [now right|exact Hrest].
Qed.

Lemma In_ranked counts k v :
  NoDup (OMap.keys counts) -> In (k, v) (ranked counts) ->
  OMap.get k counts = Some v /\ 0 < v.
Proof.
  intros Hnd Hin. unfold ranked, top10 in Hin.
  assert (Hin' : In (k, v) (sortDesc snd (filter (fun e => (0 <? snd e)%nat)
                                            (OMap.entries counts)))).
  { rewrite <- (firstn_skipn 10 (sortDesc _ _)). apply in_or_app. now left. }
  apply (Permutation_in _ (Permutation_sym (SortFacts.sortDesc_perm snd _))) in Hin'.
  apply filter_In in Hin'. destruct Hin' as [Hin' Hpos]. cbn [snd] in Hpos.
  apply Nat.ltb_lt in Hpos. split; [|exact Hpos].
  now apply InterfaceFacts.In_get_NoDup.
Qed.

Lemma NoDup_ranked counts :
  NoDup (OMap.keys counts) -> NoDup (map fst (ranked counts)).
Proof.
  intros Hnd. unfold ranked, top10.
  assert (H : NoDup (map fst (sortDesc snd (filter (fun e => (0 <? snd e)%nat)
                                              (OMap.entries counts))))).
  { apply (Permutation_NoDup (Permutation_map fst (SortFacts.sortDesc_perm snd _))).
    unfold OMap.keys, OMap.entries in *. clear -Hnd.
    induction counts as [|[k v] counts IH]; [constructor|].
    cbn [map filter] in *. inversion Hnd as [|? ? Hnot Hnd']; subst.
    destruct (0 <? snd (k, v))%nat; [|auto].
    cbn [map]. constructor; [|auto].
    intros Hin. apply Hnot. apply in_map_iff in Hin.
    destruct Hin as [e [He Hin]]. apply filter_In in Hin. destruct Hin as [Hin _].
    cbn [fst] in He. rewrite <- He. now apply in_map. }
  rewrite <- (firstn_skipn 10 (sortDesc _ _)), map_app in H.
  now apply NoDup_app_remove_r in H.
Qed.

End UsageFacts.

(** X15.  Every entry of the ranking of most used services names a class of the
    project that carries an [Injectable] or [Service] decorator, and its
    count is the number of call texts, over all methods of all classes, whose
    [this.<prop>.] resolves through the caller's injection bindings to that
    name; the count is positive and no name is listed twice. *)
Theorem service_usage_counts (this : Scanner) (fileInfos : list FileInfo) :
  NoDup (map us_name (mostUsedServices (generateSummary this fileInfos)))
  /\ forall e, In e (mostUsedServices (generateSummary this fileInfos)) ->
       serviceClass fileInfos (us_name e)
       /\ us_usageCount e
          = count_occ string_dec (serviceUses this fileInfos) (us_name e)
       /\ 0 < us_usageCount e.
Proof.
  unfold generateSummary.
  pose proof (UsageFacts.snd_initialCounts fileInfos) as Hsnd.
  destruct (initialCounts fileInfos) as [mc su]. cbn [snd] in Hsnd. subst su.
  cbn [mostUsedServices]. rewrite UsageFacts.countUses_bumps.
  set (su0 := zeroCounts (flat_map classes fileInfos) []).
  set (su := fold_left _ (serviceUses this fileInfos) su0).
  assert (Hnd0 : NoDup (OMap.keys su0))
    by (apply UsageFacts.keys_zeroCounts; constructor).
  assert (Hnd : NoDup (OMap.keys su)) by now apply UsageFacts.keys_bumps.
  split.
  - rewrite map_map. cbn [us_name]. now apply UsageFacts.NoDup_ranked.
  - intros e He. apply in_map_iff in He. destruct He as [[k v] [<- Hkv]].
    cbn [us_name us_usageCount fst snd].
    apply (UsageFacts.In_ranked _ _ _ Hnd) in Hkv. destruct Hkv as [Hget Hpos].
    unfold su in Hget. rewrite UsageFacts.get_bumps in Hget.
    destruct (OMap.get k su0) as [n0|] eqn:E0; [|discriminate].
    cbn in Hget. injection Hget as <-.
    apply UsageFacts.get_zeroCounts in E0.
    destruct E0 as [E0|[-> [cls [Hc [Hn Hs]]]]]; [discriminate|].
    split; [exists cls; auto|]. split; [reflexivity|exact Hpos].
Qed.

(** On the [Usage] project the summary lists [Api] once, with its two uses. *)
Example usage_of_api :
  map (fun e => (us_name e, us_usageCount e))
      (mostUsedServices
         (generateSummary (scanner Usage.model) (files Usage.model)))
  = [("Api", 2)].
Proof. vm_compute. reflexivity. Qed.

(** * The file tree *)

Module TreeFacts.

Lemma name_addToTree parts t : nodeName (addToTree parts t) = nodeName t.
Proof.
  destruct parts as [|first rest]; [reflexivity|]. cbn [addToTree].
  destruct (nodeChildren t) as [cs|]; [|reflexivity].
  destruct (find (named first) cs); reflexivity.
Qed.

Lemma file_addToTree parts t : nodeChildren t = None -> addToTree parts t = t.
Proof.
  intros H. destruct parts as [|first rest]; [reflexivity|]. cbn [addToTree].
  now rewrite H.
Qed.

Lemma find_updateFirst first (f : TreeNode -> TreeNode) cs :
  (forall c, nodeName (f c) = nodeName c) ->
  forall other,
    find (named other) (updateFirst (named first) f cs)
    = match find (named other) cs with
      | Some c => if String.eqb first other
                  then Some (f c) else Some c
      | None => None
      end.
Proof.
  intros Hf other. induction cs as [|c cs IH]; [reflexivity|].
  cbn [updateFirst find]. destruct (named first c) eqn:Ec.
  - cbn [find]. unfold named in *. rewrite Hf.
    apply String.eqb_eq in Ec. rewrite Ec.
    destruct (String.eqb first other) eqn:Eo.
    + reflexivity.
    + destruct (find (fun c0 => String.eqb (nodeName c0) other) cs); reflexivity.
  - cbn [find]. destruct (named other c) eqn:Eo.
    + unfold named in *. apply String.eqb_eq in Eo. rewrite Eo in Ec.
      rewrite String.eqb_sym in Ec. now rewrite Ec.
    + exact IH.
Qed.

Lemma find_app_none {A} (p : A -> bool) l x :
  find p l = None -> find p (l ++ [x]) = if p x then Some x else None.
Proof.
  induction l as [|y l IH]; cbn [find app]; [reflexivity|].
  destruct (p y); [discriminate|exact IH].
Qed.

Lemma find_app_some {A} (p : A -> bool) l x c :
  find p l = Some c -> find p (l ++ [x]) = Some c.
Proof.
  induction l as [|y l IH]; cbn [find app]; [discriminate|].
  destruct (p y); [auto|exact IH].
Qed.

Lemma descend_eq rest child : descend rest child = addToTree rest child.
Proof.
  unfold descend. destruct rest as [|r rest]; [reflexivity|].
  destruct (nodeChildren child) eqn:E; [reflexivity|].
  now rewrite file_addToTree.
Qed.

(** [addToTree] one level down, for a node that has a [children] array *)
Lemma addToTree_step first rest t cs :
  nodeChildren t = Some cs ->
  addToTree (first :: rest) t
  = match find (named first) cs with
    | Some _ =>
        Node (nodeName t) (nodeType t)
             (Some (updateFirst (named first) (addToTree rest) cs))
    | None =>
        Node (nodeName t) (nodeType t)
             (Some (cs ++ [addToTree rest
                (Node first (match rest with [] => file_node | _ => directory_node end)
                      (match rest with [] => None | _ => Some [] end))]))
    end.
Proof.
  intros H. cbn [addToTree]. rewrite H.
  destruct (find (named first) cs).
  - f_equal. f_equal. clear. induction cs as [|c cs IH]; [reflexivity|].
    cbn [updateFirst]. destruct (named first c).
    + f_equal. exact (descend_eq rest c).
    + now rewrite IH.
  - destruct rest; reflexivity.
Qed.

(** what was in the tree stays: a path that led to a node still leads to
    a node of that name, and to the very same node if it is a file *)
Lemma findPath_stays q : forall p t n,
  findPath p t = Some n ->
  exists n', findPath p (addToTree q t) = Some n'
    /\ nodeName n' = nodeName n
    /\ (nodeChildren n = None -> n' = n).
Proof.
  induction q as [|first rest IH]; intros p t n Hp; [exists n; auto|].
  destruct (nodeChildren t) as [cs|] eqn:Et;
    [|rewrite file_addToTree by exact Et; exists n; auto].
  destruct p as [|seg p].
  - cbn in Hp. injection Hp as <-. eexists. split; [reflexivity|].
    split; [apply name_addToTree|]. intros H. congruence.
  - cbn [findPath] in Hp. rewrite Et in Hp.
    destruct (find (named seg) cs) as [c|] eqn:Ec; [|discriminate].
    rewrite (addToTree_step _ _ _ _ Et).
    destruct (find (named first) cs) as [c0|] eqn:E0.
    + cbn [findPath nodeChildren].
      rewrite (find_updateFirst first (addToTree rest) cs (name_addToTree rest) seg), Ec.
      destruct (String.eqb first seg); [now apply IH|exists n; auto].
    + cbn [findPath nodeChildren]. rewrite (find_app_some _ _ _ _ Ec). exists n. auto.
Qed.

Lemma blocked_stays q parts t : blocked parts t -> blocked parts (addToTree q t).
Proof.
  intros [front [back [n [E [Hb [Hf Hn]]]]]].
  destruct (findPath_stays q front t n Hf) as [n' [Hf' [_ Hsame]]].
  exists front, back, n'. rewrite (Hsame Hn). rewrite (Hsame Hn) in Hf'. auto.
Qed.

(** a path that has just been added is there, unless a file stands in its way *)
Lemma findPath_added q : forall t,
  q <> [] ->
  (exists n, findPath q (addToTree q t) = Some n /\ nodeName n = last q EmptyString)
  \/ blocked q (addToTree q t).
Proof.
  induction q as [|first rest IH]; intros t Hne; [congruence|].
  destruct (nodeChildren t) as [cs|] eqn:Et.
  - rewrite (addToTree_step _ _ _ _ Et).
    assert (Hsub : forall c, named first c = true ->
      (exists n, findPath rest (addToTree rest c) = Some n
                 /\ nodeName n = last (first :: rest) EmptyString)
      \/ blocked rest (addToTree rest c)).
    { intros c Hc. destruct rest as [|r rest].
      - left. exists c. split; [reflexivity|].
        unfold named in Hc. now apply String.eqb_eq in Hc.
      - destruct (IH c) as [[n [Hn Hl]]|Hb]; [discriminate| |now right].
        left. exists n. split; [exact Hn|exact Hl]. }
    assert (Hlift : forall t' c,
      nodeChildren t' = Some (match nodeChildren t' with Some l => l | None => [] end) ->
      find (named first) (match nodeChildren t' with Some l => l | None => [] end)
        = Some (addToTree rest c) ->
      named first c = true ->
      (exists n, findPath (first :: rest) t' = Some n
                 /\ nodeName n = last (first :: rest) EmptyString)
      \/ blocked (first :: rest) t').
    { intros t' c Hcs Hfind Hc. destruct (nodeChildren t') as [l|] eqn:El; [|discriminate].
      destruct (Hsub c Hc) as [[n [Hn Hl]]|[front [back [n [E [Hb [Hf Hn]]]]]]].
      - left. exists n. split; [|exact Hl]. cbn [findPath]. now rewrite El, Hfind.
      - right. exists (first :: front), back, n.
        split; [cbn; now rewrite E|]. split; [exact Hb|]. split; [|exact Hn].
        cbn [findPath]. now rewrite El, Hfind. }
    destruct (find (named first) cs) as [c0|] eqn:E0.
    + apply (Hlift _ c0); cbn [nodeChildren]; [reflexivity| |].
      * rewrite (find_updateFirst first (addToTree rest) cs (name_addToTree rest) first), E0.
        now rewrite String.eqb_refl.
      * now apply find_some in E0.
    + set (fresh := Node first _ _).
      assert (Hfresh : named first fresh = true) by apply String.eqb_refl.
      apply (Hlift _ fresh); cbn [nodeChildren]; [reflexivity| |exact Hfresh].
      rewrite (find_app_none _ _ _ E0). unfold named at 1.
      now rewrite name_addToTree, String.eqb_refl.
  - right. rewrite file_addToTree by exact Et.
    exists [], (first :: rest), t. repeat split; auto.
Qed.

Lemma alike_addToTree q t : alike (addToTree q t) t.
Proof.
  destruct q as [|first rest]; [split; tauto|].
  destruct (nodeChildren t) as [cs|] eqn:Et.
  - rewrite (addToTree_step _ _ _ _ Et). destruct (find (named first) cs);
      (split; [reflexivity|]); cbn [nodeChildren]; rewrite Et; split; discriminate.
  - rewrite file_addToTree by exact Et. split; tauto.
Qed.

Lemma typed_fresh first rest :
  typed (addToTree rest
           (Node first (match rest with [] => file_node | _ => directory_node end)
                 (match rest with [] => None | _ => Some [] end))).
Proof.
  destruct (alike_addToTree rest
              (Node first (match rest with [] => file_node | _ => directory_node end)
                    (match rest with [] => None | _ => Some [] end))) as [Ht Hc].
  unfold typed. rewrite Ht, Hc. cbn [nodeType nodeChildren].
  destruct rest; split; try reflexivity; discriminate.
Qed.

Lemma children_fresh first rest :
  nodeChildren (addToTree rest
     (Node first (match rest with [] => file_node | _ => directory_node end)
           (match rest with [] => None | _ => Some [] end))) = None
  <-> rest = [].
Proof.
  destruct (alike_addToTree rest
              (Node first (match rest with [] => file_node | _ => directory_node end)
                    (match rest with [] => None | _ => Some [] end))) as [_ Hc].
  rewrite Hc. cbn [nodeChildren]. destruct rest; split; congruence.
Qed.

(** nothing but what was added appears: a path that leads to a node after
    [q] was added led to a node like it before, or runs along [q] and ends
    in a node typed by what it holds *)
Lemma findPath_new q : forall p t n,
  findPath p (addToTree q t) = Some n ->
  (exists n0, findPath p t = Some n0 /\ alike n n0)
  \/ (p <> [] /\ typed n
      /\ exists back, q = p ++ back /\ (nodeChildren n = None <-> back = [])).
Proof.
  induction q as [|first rest IH]; intros p t n Hp;
    [left; exists n; split; [exact Hp|split; tauto]|].
  destruct (nodeChildren t) as [cs|] eqn:Et;
    [|rewrite file_addToTree in Hp by exact Et; left; exists n;
      split; [exact Hp|split; tauto]].
  destruct p as [|seg p].
  { left. exists t. split; [reflexivity|].
    assert (E : n = addToTree (first :: rest) t) by (cbn [findPath] in Hp; congruence).
    rewrite E. apply alike_addToTree. }
  rewrite (addToTree_step _ _ _ _ Et) in Hp. cbn [findPath]. rewrite Et.
  destruct (find (named first) cs) as [c0|] eqn:E0.
  - cbn [findPath nodeChildren] in Hp.
    rewrite (find_updateFirst first (addToTree rest) cs (name_addToTree rest) seg) in Hp.
    destruct (find (named seg) cs) as [c|] eqn:Ec; [|discriminate].
    destruct (String.eqb first seg) eqn:Es;
      [|left; exists n; split; [exact Hp|split; tauto]].
    apply String.eqb_eq in Es. subst seg.
    destruct (IH _ _ _ Hp) as [H|[Hne [Hty [back [-> Hiff]]]]]; [now left|right].
    split; [discriminate|]. split; [exact Hty|now exists back].
  - cbn [findPath nodeChildren] in Hp.
    destruct (find (named seg) cs) as [c|] eqn:Ec.
    + rewrite (find_app_some _ _ _ _ Ec) in Hp. left. exists n.
      split; [exact Hp|split; tauto].
    + rewrite (find_app_none _ _ _ Ec) in Hp.
      destruct (named seg (addToTree rest _)) eqn:En; [|discriminate].
      unfold named in En. rewrite name_addToTree in En. cbn [nodeName] in En.
      apply String.eqb_eq in En. subst seg. right. split; [discriminate|].
      destruct p as [|s p].
      * cbn in Hp. injection Hp as <-. split; [apply typed_fresh|].
        exists rest. split; [reflexivity|apply children_fresh].
      * destruct (IH _ _ _ Hp) as [[n0 [H0 _]]|[_ [Hty [back [-> Hiff]]]]].
        -- cbn [findPath nodeChildren] in H0. destruct rest; cbn in H0; discriminate.
        -- split; [exact Hty|now exists back].
Qed.

Lemma alike_typed n n0 : alike n n0 -> typed n0 -> typed n.
Proof. unfold alike, typed. intros [-> ->]. tauto. Qed.

Lemma alike_trans n1 n2 n3 : alike n1 n2 -> alike n2 n3 -> alike n1 n3.
Proof. unfold alike. intros [-> H1] [-> H2]. split; [reflexivity|tauto]. Qed.

(** the same over a batch of paths *)
Lemma findPath_batch files : forall t p n,
  findPath p (fold_left (fun root parts => addToTree parts root) files t) = Some n ->
  (exists n0, findPath p t = Some n0 /\ alike n n0)
  \/ (p <> [] /\ typed n /\ exists f back, In f files /\ f = p ++ back).
Proof.
  induction files as [|q files IH]; intros t p n Hp; cbn [fold_left] in Hp.
  - left. exists n. split; [exact Hp|split; tauto].
  - destruct (IH _ _ _ Hp) as [[n1 [H1 Hlike]]|[Hne [Hty [f [back [Hf E]]]]]].
    + destruct (findPath_new _ _ _ _ H1) as [[n0 [H0 Hlike0]]|[Hne [Hty [back [E _]]]]].
      * left. exists n0. split; [exact H0|]. now apply (alike_trans n n1 n0).
      * right. split; [exact Hne|]. split; [now apply (alike_typed n n1)|].
        exists q, back. split; [now left|exact E].
    + right. split; [exact Hne|]. split; [exact Hty|].
      exists f, back. split; [now right|exact E].
Qed.

Lemma present_batch files : forall t parts,
  ((exists n, findPath parts t = Some n /\ nodeName n = last parts EmptyString)
   \/ blocked parts t) ->
  (exists n, findPath parts
               (fold_left (fun root q => addToTree q root) files t) = Some n
             /\ nodeName n = last parts EmptyString)
  \/ blocked parts (fold_left (fun root q => addToTree q root) files t).
Proof.
  induction files as [|q files IH]; intros t parts H; [exact H|].
  cbn [fold_left]. apply IH. destruct H as [[n [Hn Hl]]|Hb].
  - destruct (findPath_stays q parts t n Hn) as [n' [Hn' [Hname _]]].
    left. exists n'. split; [exact Hn'|congruence].
  - right. now apply blocked_stays.
Qed.

(** a node without a [children] array was there before or ends a path
    that was added *)
Lemma childless_batch files : forall t p n,
  findPath p (fold_left (fun root parts => addToTree parts root) files t) = Some n ->
  nodeChildren n = None ->
  (exists n0, findPath p t = Some n0 /\ nodeChildren n0 = None) \/ In p files.
Proof.
  induction files as [|q files IH]; intros t p n Hp Hn; cbn [fold_left] in Hp.
  - left. now exists n.
  - destruct (IH _ _ _ Hp Hn) as [[n1 [H1 Hn1]]|Hin]; [|right; now right].
    destruct (findPath_new _ _ _ _ H1) as [[n0 [H0 [_ Hc]]]|[_ [_ [back [E Hiff]]]]].
    + left. exists n0. split; [exact H0|now apply Hc].
    + right. left. apply Hiff in Hn1. subst back. now rewrite app_nil_r in E.
Qed.

End TreeFacts.

(** X16.  Every file given to [buildTree] has its path in the tree, ending in a
    node that carries the file's name, unless the path of another given file
    is a proper beginning of this one and ends in a node without a
    [children] array. *)
Theorem tree_holds_the_files (rootName : string) (files : list (list string))
    (parts : list string) :
  In parts files -> parts <> [] ->
  (exists n, findPath parts (buildTree rootName files) = Some n
             /\ nodeName n = last parts EmptyString)
  \/ blockedBy files parts (buildTree rootName files).
Proof.
  intros Hin Hne.
  assert (H : (exists n, findPath parts (buildTree rootName files) = Some n
                         /\ nodeName n = last parts EmptyString)
              \/ blocked parts (buildTree rootName files)).
  { unfold buildTree. generalize (Node rootName directory_node (Some [])).
    induction files as [|q files IH]; intros t; [destruct Hin|].
    cbn [fold_left]. destruct Hin as [->|Hin]; [|now apply IH].
    apply TreeFacts.present_batch. now apply TreeFacts.findPath_added. }
  destruct H as [H|[front [back [n [E [Hb [Hf Hn]]]]]]]; [now left|right].
  exists front, back, n.
  destruct (TreeFacts.childless_batch files
              (Node rootName directory_node (Some [])) front n Hf Hn) as [[n0 [H0 Hn0]]|Hfront].
  - exfalso. destruct front as [|seg front]; cbn in H0; [|discriminate].
    injection H0 as <-. discriminate.
  - assert (Hfne : front <> []).
    { intros ->. cbn in Hf. injection Hf as <-. unfold buildTree in Hn.
      destruct (TreeFacts.findPath_batch files
                  (Node rootName directory_node (Some [])) [] _ eq_refl)
        as [[n0 [H0 [_ Hc]]]|[Hnil _]]; [|congruence].
      cbn in H0. injection H0 as <-. apply Hc in Hn. discriminate. }
    auto 10.
Qed.

Lemma tree_holds_the_files_witness :
  (exists n, findPath ["app"; "main.ts"]
               (buildTree "src" [["app"; "main.ts"]; ["app"; "util"; "dates.ts"]]) = Some n
             /\ nodeName n = "main.ts")
  \/ blockedBy [["app"; "main.ts"]; ["app"; "util"; "dates.ts"]] ["app"; "main.ts"]
       (buildTree "src" [["app"; "main.ts"]; ["app"; "util"; "dates.ts"]]).
Proof.
  apply (tree_holds_the_files "src" [["app"; "main.ts"]; ["app"; "util"; "dates.ts"]]
           ["app"; "main.ts"]).
  - now left.
  - discriminate.
Defined.

(** X17.  The tree holds nothing else: a path that leads to a node below the
    root is the beginning of a given file's path, and the node is typed
    [file] exactly when it has no [children] array. *)
Theorem tree_holds_nothing_else (rootName : string) (files : list (list string))
    (p : list string) (n : TreeNode) :
  findPath p (buildTree rootName files) = Some n -> p <> [] ->
  typed n /\ exists f back, In f files /\ f = p ++ back.
Proof.
  intros Hp Hne. unfold buildTree in Hp.
  destruct (TreeFacts.findPath_batch _ _ _ _ Hp) as [[n0 [H0 _]]|[_ H]]; [|exact H].
  destruct p as [|seg p]; [congruence|]. cbn in H0. discriminate.
Qed.

Lemma tree_holds_nothing_else_witness :
  findPath ["app"; "util"]
    (buildTree "src" [["app"; "main.ts"]; ["app"; "util"; "dates.ts"]])
  = Some (Node "util" directory_node (Some [Node "dates.ts" file_node None]))
  /\ typed (Node "util" directory_node (Some [Node "dates.ts" file_node None]))
  /\ exists f back,
       In f [["app"; "main.ts"]; ["app"; "util"; "dates.ts"]]
       /\ f = ["app"; "util"] ++ back.
Proof.
  assert (H : findPath ["app"; "util"]
                (buildTree "src" [["app"; "main.ts"]; ["app"; "util"; "dates.ts"]])
              = Some (Node "util" directory_node (Some [Node "dates.ts" file_node None])))
    by reflexivity.
  split; [exact H|].
  apply (tree_holds_nothing_else "src" _ ["app"; "util"] _ H). discriminate.
Defined.

(** X18.  A file whose path another file's path begins with is kept out: once
    [a] is in the tree as a file, adding [a/b] changes nothing. *)
Theorem file_blocks_the_paths_below (t : TreeNode) (front back : list string)
    (n : TreeNode) :
  findPath front t = Some n -> nodeChildren n = None -> back <> [] ->
  findPath (front ++ back) (addToTree (front ++ back) t) = None.
Proof.
  intros Hf Hn Hb.
  destruct (TreeFacts.findPath_stays (front ++ back) front t n Hf) as [n' [Hf' [_ Hsame]]].
  rewrite (Hsame Hn) in Hf'. clear Hsame n'.
  revert Hf'. generalize (addToTree (front ++ back) t). clear Hf t.
  induction front as [|seg front IH]; intros t Hf.
  - cbn in Hf. injection Hf as ->. destruct back; [congruence|].
    cbn [app findPath]. now rewrite Hn.
  - cbn [app findPath] in *. destruct (nodeChildren t); [|reflexivity].
    destruct (find (named seg) l); [now apply IH|reflexivity].
Qed.

Lemma file_blocks_the_paths_below_witness :
  findPath (["a"] ++ ["b"]) (addToTree (["a"] ++ ["b"]) (buildTree "src" [["a"]])) = None.
Proof.
  apply (file_blocks_the_paths_below (buildTree "src" [["a"]]) ["a"] ["b"]
           (Node "a" file_node None)); [reflexivity|reflexivity|discriminate].
Defined.

(** * The query filter *)

Module FilterFacts.
Import OMapFacts OSetFacts.

Lemma lower_slash a : Ascii.eqb (lower a) "/" = Ascii.eqb a "/".
Proof. destruct a as [[] [] [] [] [] [] [] []]; reflexivity. Qed.

Lemma lower_backslash a : Ascii.eqb (lower a) "\" = Ascii.eqb a "\".
Proof. destruct a as [[] [] [] [] [] [] [] []]; reflexivity. Qed.

Lemma lower_fixes_slash : lower "/" = "/"%char.
Proof. reflexivity. Qed.

Lemma toLowerCase_slashes s : toLowerCase (slashes s) = slashes (toLowerCase s).
Proof.
  induction s as [|a s IH]; [reflexivity|]. cbn [slashes toLowerCase].
  rewrite IH, lower_backslash. destruct (Ascii.eqb a "\") eqn:E; [|reflexivity].
  now rewrite lower_fixes_slash.
Qed.

Lemma split_toLowerCase s :
  Js.split "/" (toLowerCase s) = map toLowerCase (Js.split "/" s).
Proof.
  induction s as [|a s IH]; [reflexivity|]. cbn [toLowerCase Js.split].
  rewrite lower_slash, IH. destruct (Ascii.eqb a "/"); [reflexivity|].
  destruct (Js.split "/" s); reflexivity.
Qed.

(** the parts of the query, as the third test of [keepsFile] compares them *)
Lemma query_parts query :
  map toLowerCase (Js.split "/" (slashes query))
  = Js.split "/" (slashes (toLowerCase query)).
Proof. now rewrite <- split_toLowerCase, toLowerCase_slashes. Qed.

Lemma forallb_map {A B} (f : A -> B) (p : B -> bool) l :
  forallb p (map f l) = forallb (fun x => p (f x)) l.
Proof. induction l as [|x l IH]; cbn; [reflexivity|]. now rewrite IH. Qed.

Lemma keepsFile_lower query file :
  keepsFile query file
  = (Js.includes (toLowerCase query) (toLowerCase (relativePath file))
     || existsb (fun cls => Js.includes (toLowerCase query) (toLowerCase (c_name cls)))
          (classes file)
     || forallb (fun part => Js.includes part (toLowerCase (relativePath file)))
          (Js.split "/" (slashes (toLowerCase query)))).
Proof.
  unfold keepsFile. cbv zeta. f_equal.
  now rewrite <- query_parts, forallb_map.
Qed.

Lemma filter_idem {A} (p : A -> bool) l : filter p (filter p l) = filter p l.
Proof.
  induction l as [|x l IH]; [reflexivity|]. cbn [filter].
  destruct (p x) eqn:E; [|exact IH]. cbn [filter]. now rewrite E, IH.
Qed.

(** ** The filtered call graph *)

Lemma set_fresh {V} (m : OMap.t V) k v :
  ~ In k (OMap.keys m) -> OMap.set k v m = m ++ [(k, v)].
Proof.
  unfold OMap.keys. induction m as [|[k' v'] m IH]; cbn; [reflexivity|].
  intros H. destruct (String.eqb k k') eqn:E.
  - apply String.eqb_eq in E. exfalso. apply H. now left.
  - rewrite IH; [reflexivity|]. intros Hin. apply H. now right.
Qed.

Lemma setAll_fresh {V} (es : list (string * V)) : forall acc,
  NoDup (OMap.keys (acc ++ es)) ->
  fold_left (fun g e => OMap.set (fst e) (snd e) g) es acc = acc ++ es.
Proof.
  induction es as [|[k v] es IH]; intros acc Hnd; cbn [fold_left fst snd].
  - now rewrite app_nil_r.
  - rewrite set_fresh.
    + rewrite IH; rewrite <- app_assoc; [reflexivity|exact Hnd].
    + unfold OMap.keys in *. rewrite map_app in Hnd. cbn in Hnd.
      apply NoDup_remove_2 in Hnd. intros Hin. apply Hnd. apply in_or_app. now left.
Qed.

Lemma filterCallGraph_fold query files cg :
  filterCallGraph query files cg
  = fold_left (fun filtered (e : string * list string) =>
      if keepsKey query files (fst e) && ownKey (fst e)
      then OMap.set (fst e) (snd e) filtered else filtered) cg [].
Proof.
  unfold filterCallGraph, OMap.entries. generalize (@nil (string * list string)).
  induction cg as [|[k v] cg IH]; intros acc; [reflexivity|].
  cbn [fold_left fst snd]. rewrite <- IH. f_equal.
  unfold Obj.assign, ownKey.
  destruct (keepsKey query files k), (String.eqb k "__proto__"); reflexivity.
Qed.

Lemma filterCallGraph_keys query files cg :
  NoDup (OMap.keys (filterCallGraph query files cg))
  /\ forall k, In k (OMap.keys (filterCallGraph query files cg)) ->
       keepsKey query files k && ownKey k = true.
Proof.
  rewrite filterCallGraph_fold.
  assert (H : forall es acc,
    NoDup (OMap.keys acc) ->
    (forall k, In k (OMap.keys acc) -> keepsKey query files k && ownKey k = true) ->
    let r := fold_left (fun filtered (e : string * list string) =>
               if keepsKey query files (fst e) && ownKey (fst e)
               then OMap.set (fst e) (snd e) filtered
               else filtered) es acc in
    NoDup (OMap.keys r)
    /\ forall k, In k (OMap.keys r) -> keepsKey query files k && ownKey k = true).
  { induction es as [|[k v] es IH]; intros acc Hnd Hk; cbn [fold_left fst snd].
    - auto.
    - apply IH.
      + destruct (keepsKey query files k && ownKey k); auto using keys_NoDup_set.
      + intros k' Hin. destruct (keepsKey query files k && ownKey k) eqn:E; [|auto].
        apply keys_set in Hin. destruct Hin as [->|Hin]; auto. }
  apply H; [constructor|intros k []].
Qed.

Lemma filterCallGraph_get query files key : forall cg,
  NoDup (OMap.keys cg) ->
  OMap.get key (filterCallGraph query files cg)
  = if keepsKey query files key && ownKey key then OMap.get key cg else None.
Proof.
  intros cg. rewrite filterCallGraph_fold. revert cg.
  assert (H : forall es acc,
    NoDup (OMap.keys es) ->
    OMap.get key (fold_left (fun filtered (e : string * list string) =>
        if keepsKey query files (fst e) && ownKey (fst e)
        then OMap.set (fst e) (snd e) filtered
        else filtered) es acc)
    = match (if keepsKey query files key && ownKey key
             then OMap.get key es else None) with
      | Some v => Some v
      | None => OMap.get key acc
      end).
  { induction es as [|[k v] es IH]; intros acc Hnd; cbn [fold_left fst snd].
    - now destruct (keepsKey query files key && ownKey key).
    - unfold OMap.keys in Hnd. cbn [map fst] in Hnd.
      inversion Hnd as [|? ? Hnot Hnd']; subst. rewrite (IH _ Hnd').
      cbn [OMap.get]. destruct (String.eqb key k) eqn:E.
      + apply String.eqb_eq in E. subst k.
        assert (Hnone : OMap.get key es = None).
        { destruct (OMap.get key es) as [v'|] eqn:Eg; [|reflexivity].
          exfalso. apply Hnot. apply get_In in Eg.
          change key with (fst (key, v')). now apply in_map. }
        rewrite Hnone. destruct (keepsKey query files key && ownKey key).
        * now rewrite get_set_eq.
        * reflexivity.
      + apply String.eqb_neq in E.
        destruct (keepsKey query files k && ownKey k);
          [rewrite get_set_ne by congruence|]; reflexivity. }
  intros cg Hnd. rewrite (H cg [] Hnd). cbn [OMap.get].
  destruct (keepsKey query files key && ownKey key); [|reflexivity].
  now destruct (OMap.get key cg).
Qed.

Lemma filterCallGraph_idem query files cg :
  filterCallGraph query files (filterCallGraph query files cg)
  = filterCallGraph query files cg.
Proof.
  destruct (filterCallGraph_keys query files cg) as [Hnd Hk].
  generalize dependent (filterCallGraph query files cg). intros cg1 Hnd Hk.
  rewrite filterCallGraph_fold.
  transitivity (fold_left (fun g (e : string * list string) =>
                   OMap.set (fst e) (snd e) g) cg1 []).
  - generalize (@nil (string * list string)).
    induction cg1 as [|[k v] cg1 IH]; intros acc; [reflexivity|].
    cbn [fold_left fst snd]. rewrite (Hk k) by now left.
    apply IH.
    + unfold OMap.keys in *. now inversion Hnd.
    + intros k' Hin. apply Hk. now right.
  - now apply (setAll_fresh cg1 []).
Qed.

(** ** The filtered tree *)

Lemma name_insertPath parts t : nodeName (insertPath parts t) = nodeName t.
Proof.
  destruct parts as [|part rest]; [reflexivity|]. cbn [insertPath].
  destruct (find (named part) (default [] (nodeChildren t))); reflexivity.
Qed.

Lemma name_cleanup t : nodeName (cleanup t) = nodeName t.
Proof. destruct t as [name type [[|c cs]|]]; reflexivity. Qed.

Lemma split_nonempty c s : Js.split c s <> [].
Proof.
  destruct s as [|a s]; cbn; [discriminate|].
  destruct (Ascii.eqb a c); [discriminate|]. destruct (Js.split c s); discriminate.
Qed.

(** a path that has just been put in is there *)
Lemma insertPath_found q : forall t,
  q <> [] ->
  exists n, findPath q (insertPath q t) = Some n /\ nodeName n = last q EmptyString.
Proof.
  induction q as [|part rest IH]; intros t Hne; [congruence|].
  assert (Hsub : forall c, named part c = true ->
    exists n, findPath rest (insertPath rest c) = Some n
              /\ nodeName n = last (part :: rest) EmptyString).
  { intros c Hc. destruct rest as [|r rest].
    - exists c. split; [reflexivity|]. unfold named in Hc. now apply String.eqb_eq in Hc.
    - destruct (IH c) as [n [Hn Hl]]; [discriminate|]. now exists n. }
  cbn [insertPath]. set (cs := default [] (nodeChildren t)).
  destruct (find (named part) cs) as [c0|] eqn:E0.
  - destruct (Hsub c0) as [n [Hn Hl]]; [now apply find_some in E0|].
    exists n. split; [|exact Hl]. cbn [findPath nodeChildren].
    rewrite (TreeFacts.find_updateFirst part (insertPath rest) cs (name_insertPath rest) part).
    now rewrite E0, String.eqb_refl.
  - set (fresh := Node part _ _).
    destruct (Hsub fresh) as [n [Hn Hl]]; [apply String.eqb_refl|].
    exists n. split; [|exact Hl]. cbn [findPath nodeChildren].
    rewrite (TreeFacts.find_app_none _ _ _ E0). unfold named at 1.
    now rewrite name_insertPath, String.eqb_refl.
Qed.

(** and what was there stays *)
Lemma insertPath_stays q : forall p t n,
  findPath p t = Some n ->
  exists n', findPath p (insertPath q t) = Some n' /\ nodeName n' = nodeName n.
Proof.
  induction q as [|part rest IH]; intros p t n Hp; [exists n; auto|].
  destruct p as [|seg p].
  - cbn in Hp. injection Hp as <-. eexists. split; [reflexivity|apply name_insertPath].
  - cbn [findPath] in Hp. destruct (nodeChildren t) as [cs|] eqn:Et; [|discriminate].
    destruct (find (named seg) cs) as [c|] eqn:Ec; [|discriminate].
    cbn [insertPath]. rewrite Et. cbn [default]. unfold id.
    destruct (find (named part) cs) as [c0|] eqn:E0.
    + cbn [findPath nodeChildren].
      rewrite (TreeFacts.find_updateFirst part (insertPath rest) cs
                 (name_insertPath rest) seg), Ec.
      destruct (String.eqb part seg); [now apply IH|exists n; auto].
    + cbn [findPath nodeChildren]. rewrite (TreeFacts.find_app_some _ _ _ _ Ec).
      exists n. auto.
Qed.

Lemma find_cleanup seg cs :
  find (named seg) (map cleanup cs) = option_map cleanup (find (named seg) cs).
Proof.
  induction cs as [|c cs IH]; [reflexivity|]. cbn [map find].
  unfold named at 1. rewrite name_cleanup. fold (named seg c).
  destruct (named seg c); [reflexivity|exact IH].
Qed.

Lemma findPath_cleanup p : forall t,
  findPath p (cleanup t) = option_map cleanup (findPath p t).
Proof.
  induction p as [|seg p IH]; intros t; [reflexivity|].
  destruct t as [name type [[|c cs]|]]; try reflexivity.
  change (cleanup (Node name type (Some (c :: cs))))
    with (Node name type (Some (map cleanup (c :: cs)))).
  cbn [findPath nodeChildren]. rewrite find_cleanup.
  destruct (find (named seg) (c :: cs)); [apply IH|reflexivity].
Qed.

(** ** The keys of kept files *)

Lemma ownedBy_relevant files key :
  OSet.has key (relevantMethods files) = true <-> ownedBy files key.
Proof.
  unfold relevantMethods, ownedBy. rewrite has_In, In_ofList, in_flat_map.
  split.
  - intros [file [Hfile Hin]]. exists file. split; [exact Hfile|].
    apply in_app_or in Hin. destruct Hin as [Hin|Hin].
    + left. apply in_flat_map in Hin. destruct Hin as [cls [Hcls Hin]].
      apply in_map_iff in Hin. destruct Hin as [method [<- Hm]].
      now exists cls, method.
    + right. apply in_map_iff in Hin. destruct Hin as [fn [<- Hfn]]. now exists fn.
  - intros [file [Hfile [[cls [method [Hcls [Hm ->]]]]|[fn [Hfn ->]]]]];
      exists file; (split; [exact Hfile|]); apply in_or_app.
    + left. apply in_flat_map. exists cls. split; [exact Hcls|].
      apply in_map_iff. now exists method.
    + right. apply in_map_iff. now exists fn.
Qed.

End FilterFacts.

(** X19.  The filter does not tell capitals from small letters in the query: two
    queries with the same lower-case form give the same output. *)
Theorem filter_ignores_case (output : Report) (q1 q2 : string) :
  toLowerCase q1 = toLowerCase q2 -> filterOutput output q1 = filterOutput output q2.
Proof.
  intros E.
  assert (Hfile : forall file, keepsFile q1 file = keepsFile q2 file)
    by (intros file; now rewrite !FilterFacts.keepsFile_lower, E).
  assert (Hfiles : filter (keepsFile q1) (r_files output)
                   = filter (keepsFile q2) (r_files output))
    by (apply filter_ext; exact Hfile).
  unfold filterOutput. cbv zeta. rewrite Hfiles.
  f_equal. unfold filterCallGraph, keepsKey. now rewrite E.
Qed.

Lemma filter_ignores_case_witness :
  filterOutput Query.report "A.RUN" = filterOutput Query.report "a.run".
Proof.
  apply filter_ignores_case. reflexivity.
Defined.

(** X20.  Filtering a filtered output again with the same query changes
    nothing; and a filtered output carries none of the five reports. *)
Theorem filter_twice (output : Report) (query : string) :
  filterOutput (filterOutput output query) query = filterOutput output query
  /\ r_analyses (filterOutput output query) = None.
Proof.
  split; [|reflexivity]. unfold filterOutput. cbv zeta. cbn [r_files r_callGraph
    r_path r_framework r_scannedAt].
  rewrite FilterFacts.filter_idem. f_equal. apply FilterFacts.filterCallGraph_idem.
Qed.

(** X21.  An entry of the call graph is in the filtered call graph, with the
    value it had, exactly when its key is [Class.method] of a method or the
    name of a function of a file of the filtered output, or holds the query,
    letters compared in lower case; an entry under the key [__proto__] is
    never taken over. *)
Theorem filtered_call_graph (output : Report) (query key : string)
    (value : list string) :
  NoDup (OMap.keys (r_callGraph output)) ->
  OMap.get key (r_callGraph (filterOutput output query)) = Some value
  <-> OMap.get key (r_callGraph output) = Some value
      /\ key <> "__proto__"
      /\ (ownedBy (r_files (filterOutput output query)) key
          \/ Js.includes (toLowerCase query) (toLowerCase key) = true).
Proof.
  intros Hnd. unfold filterOutput. cbv zeta. cbn [r_callGraph r_files].
  rewrite (FilterFacts.filterCallGraph_get _ _ _ _ Hnd).
  rewrite <- FilterFacts.ownedBy_relevant.
  unfold keepsKey, ownKey.
  destruct (String.eqb key "__proto__") eqn:Ek.
  - apply String.eqb_eq in Ek. rewrite Bool.andb_false_r.
    split; [discriminate|]. intros [_ [Hne _]]. congruence.
  - apply String.eqb_neq in Ek. rewrite Bool.andb_true_r.
    destruct (OSet.has key _ || Js.includes _ _) eqn:E.
    + apply Bool.orb_true_iff in E. tauto.
    + apply Bool.orb_false_iff in E. destruct E as [E1 E2].
      split; [discriminate|]. intros [_ [_ [H|H]]]; congruence.
Qed.

Lemma filtered_call_graph_witness :
  NoDup (OMap.keys (r_callGraph Query.report))
  /\ (OMap.get "B.go" (r_callGraph (filterOutput Query.report "b.go")) = Some []
      <-> OMap.get "B.go" (r_callGraph Query.report) = Some []
          /\ "B.go" <> "__proto__"
          /\ (ownedBy (r_files (filterOutput Query.report "b.go")) "B.go"
              \/ Js.includes (toLowerCase "b.go") (toLowerCase "B.go") = true)).
Proof.
  assert (Hnd : NoDup (OMap.keys (r_callGraph Query.report))).
  { vm_compute. repeat (constructor; [simpl; intuition discriminate|]). constructor. }
  split; [exact Hnd|].
  apply (filtered_call_graph Query.report "b.go" "B.go" [] Hnd).
Defined.

(** X22.  The tree of a filtered output holds every path it was built from: the
    segments of the path, taken one after the other, lead to a node with
    the name of the last segment. *)
Theorem filtered_tree_holds_the_paths (paths : list string) (filePath : string) :
  In filePath paths ->
  exists n,
    findPath (Js.split "/" (slashes filePath)) (buildTreeFromPaths paths) = Some n
    /\ nodeName n = last (Js.split "/" (slashes filePath)) EmptyString.
Proof.
  intros Hin. unfold buildTreeFromPaths. rewrite FilterFacts.findPath_cleanup.
  assert (H : exists n,
    findPath (Js.split "/" (slashes filePath))
      (fold_left (fun root p => insertPath (Js.split "/" (slashes p)) root)
         paths (Node "filtered" directory_node (Some []))) = Some n
    /\ nodeName n = last (Js.split "/" (slashes filePath)) EmptyString).
  { generalize (Node "filtered" directory_node (Some [])).
    induction paths as [|q paths IH]; intros t; [destruct Hin|].
    cbn [fold_left]. destruct Hin as [->|Hin]; [|now apply IH].
    destruct (FilterFacts.insertPath_found (Js.split "/" (slashes filePath)) t
                (FilterFacts.split_nonempty _ _)) as [n [Hn Hl]].
    revert Hn Hl. generalize (insertPath (Js.split "/" (slashes filePath)) t).
    generalize (Js.split "/" (slashes filePath)). intros parts.
    clear IH. revert n. induction paths as [|q paths IH]; intros n t' Hn Hl.
    - exists n. auto.
    - cbn [fold_left].
      destruct (FilterFacts.insertPath_stays (Js.split "/" (slashes q)) parts t' n Hn)
        as [n' [Hn' Hname]].
      apply (IH n'); [exact Hn'|congruence]. }
  destruct H as [n [Hn Hl]]. exists (cleanup n). rewrite Hn.
  split; [reflexivity|]. now rewrite FilterFacts.name_cleanup.
Qed.

Lemma filtered_tree_holds_the_paths_witness :
  exists n,
    findPath (Js.split "/" (slashes "a/b.ts")) (buildTreeFromPaths ["a"; "a/b.ts"]) = Some n
    /\ nodeName n = last (Js.split "/" (slashes "a/b.ts")) EmptyString.
Proof.
  apply filtered_tree_holds_the_paths. right. now left.
Defined.

(** * Dead methods of a scan *)

Module DeadScanFacts.

Lemma unreferenced_built fw sfs fileInfos this cls method :
  buildGraphs fw sfs emptyScanner = (fileInfos, this) ->
  methodIn (buildCallGraph this fileInfos) cls method ->
  unreferenced method <-> uncalledMethod this cls method /\ ~ exempt method.
Proof.
  intros Hb Hin.
  destruct (ChainFacts.calledBy_built _ _ _ _ _ _ Hb Hin) as [_ Hcallers].
  unfold unreferenced, uncalledMethod, exempt. split.
  - intros [Hnil [Hhook Hpriv]]. split; [|tauto].
    intros caller Hedge. apply Hcallers in Hedge. rewrite Hnil in Hedge. destruct Hedge.
  - intros [Hun Hex]. split; [|tauto].
    destruct (m_calledBy method) as [|c cs] eqn:E; [reflexivity|].
    exfalso. apply (Hun c). apply Hcallers. now left.
Qed.

End DeadScanFacts.

(** X23.  In a scan, a method is reported dead exactly when no caller is
    recorded under its [Class.method] in the reverse call graph and it is
    neither a lifecycle hook nor a private method whose name starts with
    an underscore. *)
Theorem dead_methods_of_a_scan (framework : Framework) (sourceFiles : list SourceFile)
    (fileInfos : list FileInfo) (this : Scanner) (d : DeadCodeItem) :
  buildGraphs framework sourceFiles emptyScanner = (fileInfos, this) ->
  (In d (detectDeadCode this (buildCallGraph this fileInfos)) /\ d_type d = dead_method)
  <-> exists file cls method,
        In file (buildCallGraph this fileInfos)
        /\ In cls (classes file) /\ In method (c_methods cls)
        /\ uncalledMethod this cls method /\ ~ exempt method
        /\ d = methodItem file cls method.
Proof.
  intros Hb. rewrite DeadCodeFacts.In_detectDeadCode. split.
  - intros [[file [Hf [[cls [m [Hc [Hm Hin]]]]|[fn [Hfn Hin]]]]] Hty].
    + exists file, cls, m.
      destruct (DeadCodeFacts.deadMethod_spec file cls m) as [[Hu E]|[_ E]];
        rewrite E in Hin; simpl in Hin; [|contradiction].
      destruct Hin as [<-|[]].
      apply (DeadScanFacts.unreferenced_built _ _ _ _ cls m Hb) in Hu;
        [|exists file; auto].
      destruct Hu. auto 8.
    + apply DeadCodeFacts.deadFunction_type in Hin. congruence.
  - intros [file [cls [m [Hf [Hc [Hm [Hun [Hex ->]]]]]]]]. split; [|reflexivity].
    exists file. split; auto. left. exists cls, m. split; auto. split; auto.
    destruct (DeadCodeFacts.deadMethod_spec file cls m) as [[_ E]|[Hn _]].
    + rewrite E. now left.
    + exfalso. apply Hn.
      apply (DeadScanFacts.unreferenced_built _ _ _ _ cls m Hb); [exists file; auto|auto].
Qed.

Lemma dead_methods_of_a_scan_witness :
  buildGraphs generic Frame.project emptyScanner
    = (fst (buildGraphs generic Frame.project emptyScanner), scanner Frame.model)
  /\ In (methodItem Unused.file Unused.cls Unused.method)
       (detectDeadCode (scanner Frame.model) (files Frame.model))
  /\ d_fullName (methodItem Unused.file Unused.cls Unused.method) = "A.run".
Proof.
  assert (Hb : buildGraphs generic Frame.project emptyScanner
               = (fst (buildGraphs generic Frame.project emptyScanner),
                  scanner Frame.model)) by (vm_compute; reflexivity).
  split; [exact Hb|]. split; [|reflexivity].
  apply (dead_methods_of_a_scan generic Frame.project _ _
           (methodItem Unused.file Unused.cls Unused.method) Hb).
  exists Unused.file, Unused.cls, Unused.method.
  split; [vm_compute; now left|]. split; [vm_compute; now left|].
  split; [vm_compute; now left|]. split; [|split; [|reflexivity]].
  - intros caller [callers [Hget _]]. vm_compute in Hget. discriminate.
  - intros [H|[H _]]; vm_compute in H; [intuition discriminate|discriminate].
Defined.

(** * Pass 1 over the classes *)

Module PassOneFacts.

Lemma constructorInjections_first known cls inj :
  match cd_constructors cls with
  | ctor :: _ => constructorInjections known ctor inj
  | [] => inj
  end = constructorInjections known (firstConstructor cls) inj.
Proof. unfold firstConstructor. now destruct (cd_constructors cls). Qed.

Lemma collectClass_step cls cpm s :
  (classMethodsMap (snd (collectClass cls cpm s)),
   injectionMap (snd (collectClass cls cpm s)))
  = collectStep (classMethodsMap s, injectionMap s) cls.
Proof.
  unfold collectClass, collectStep.
  destruct (cd_name cls) as [name|]; [|reflexivity].
  destruct (Js.truthy name); cbn [negb]; [|reflexivity].
  unfold bind, modify, gets, ret. cbn [fst snd classMethodsMap withClassMethodsMap].
  rewrite constructorInjections_first. fold (methodNames cls).
  fold (bindingsOf (<[name:=OSet.ofList (methodNames cls)]> (classMethodsMap s)) cls).
  now destruct (bool_decide _).
Qed.

Lemma collectClasses_fold clss : forall cpm s,
  (classMethodsMap (snd (collectClasses clss cpm s)),
   injectionMap (snd (collectClasses clss cpm s)))
  = fold_left collectStep clss (classMethodsMap s, injectionMap s).
Proof.
  induction clss as [|cls clss IH]; intros cpm s; [reflexivity|].
  cbn [collectClasses fold_left]. rewrite ScanFacts.run_bind, IH.
  now rewrite collectClass_step.
Qed.

Lemma passOne_fold sfs :
  (classMethodsMap (passOne sfs), injectionMap (passOne sfs))
  = fold_left collectStep (flat_map sf_classes sfs) (∅, ∅).
Proof.
  unfold passOne, collectClassInfo. rewrite ScanFacts.run_bind.
  unfold modify. cbn [snd classMethodsMap injectionMap withNestedInjectionMap].
  apply (collectClasses_fold _ ∅ emptyScanner).
Qed.

Lemma declares_spec k cls :
  declares k cls = true <-> cd_name cls = Some k /\ k <> EmptyString.
Proof.
  unfold declares. destruct (cd_name cls) as [name|]; [|split; [discriminate|now intros [? _]]].
  rewrite Bool.andb_true_iff, String.eqb_eq, CallTextFacts.truthy_ne. split.
  - intros [-> Hne]. auto.
  - intros [E Hne]. injection E as ->. auto.
Qed.

Lemma step_declares k cls st :
  declares k cls = true ->
  fst (collectStep st cls) !! k = Some (OSet.ofList (methodNames cls))
  /\ snd (collectStep st cls) !! k
     = let b := bindingsOf (<[k := OSet.ofList (methodNames cls)]> (fst st)) cls in
       if bool_decide (b = ∅) then snd st !! k else Some b.
Proof.
  unfold declares, collectStep. destruct (cd_name cls) as [name|]; [|discriminate].
  intros H. apply Bool.andb_true_iff in H. destruct H as [E Ht].
  apply String.eqb_eq in E. subst name. rewrite Ht. cbn [fst snd]. split.
  - apply lookup_insert_eq.
  - cbv zeta. destruct (bool_decide _); [reflexivity|apply lookup_insert_eq].
Qed.

Lemma step_other k cls st :
  declares k cls = false ->
  fst (collectStep st cls) !! k = fst st !! k
  /\ snd (collectStep st cls) !! k = snd st !! k.
Proof.
  unfold declares, collectStep. destruct (cd_name cls) as [name|]; [|auto].
  destruct (Js.truthy name); [|auto]. rewrite Bool.andb_true_r. intros E.
  apply String.eqb_neq in E. cbn [fst snd]. split.
  - now apply lookup_insert_ne.
  - destruct (bool_decide _); [reflexivity|now apply lookup_insert_ne].
Qed.

Lemma fold_other k clss : forall st,
  (forall c, In c clss -> declares k c = false) ->
  fst (fold_left collectStep clss st) !! k = fst st !! k
  /\ snd (fold_left collectStep clss st) !! k = snd st !! k.
Proof.
  induction clss as [|c clss IH]; intros st H; [auto|].
  cbn [fold_left]. destruct (IH (collectStep st c)) as [E1 E2].
  { intros c' Hc'. apply H. now right. }
  destruct (step_other k c st) as [F1 F2]; [apply H; now left|].
  split; congruence.
Qed.

Lemma known_fold k clss : forall st,
  is_Some (fst (fold_left collectStep clss st) !! k)
  <-> is_Some (fst st !! k) \/ existsb (declares k) clss = true.
Proof.
  induction clss as [|c clss IH]; intros st.
  - cbn. split; [auto|]. now intros [H|H].
  - cbn [fold_left existsb]. rewrite IH, Bool.orb_true_iff.
    destruct (declares k c) eqn:E.
    + destruct (step_declares k c st E) as [-> _]. split; auto.
    + destruct (step_other k c st E) as [-> _]. split.
      * intros [H|H]; auto.
      * intros [H|[H|H]]; auto. discriminate.
Qed.

(** the last class registered under [k] decides both entries of [k] *)
Lemma fold_last k before cls after :
  declares k cls = true ->
  (forall c, In c after -> declares k c = false) ->
  fst (fold_left collectStep (before ++ cls :: after) (∅, ∅)) !! k
  = Some (OSet.ofList (methodNames cls))
  /\ snd (fold_left collectStep (before ++ cls :: after) (∅, ∅)) !! k
     = if bool_decide
            (bindingsOf (<[k := OSet.ofList (methodNames cls)]>
                           (fst (fold_left collectStep before (∅, ∅)))) cls = ∅)
       then snd (fold_left collectStep before (∅, ∅)) !! k
       else Some (bindingsOf (<[k := OSet.ofList (methodNames cls)]>
                                (fst (fold_left collectStep before (∅, ∅)))) cls).
Proof.
  intros Hd Ha. rewrite fold_left_app. cbn [fold_left].
  destruct (fold_other k after (collectStep (fold_left collectStep before (∅, ∅)) cls) Ha)
    as [-> ->].
  exact (step_declares k cls _ Hd).
Qed.

Lemma known_before k T before cls :
  declares k cls = true ->
  is_Some ((<[k := OSet.ofList (methodNames cls)]>
              (fst (fold_left collectStep before (∅, ∅)))) !! T)
  <-> existsb (declares T) (before ++ [cls]) = true.
Proof.
  intros Hd. rewrite existsb_app. cbn [existsb]. rewrite Bool.orb_false_r, Bool.orb_true_iff.
  destruct (String.eqb k T) eqn:E.
  - apply String.eqb_eq in E. subst T. rewrite lookup_insert_eq. split; eauto.
  - apply String.eqb_neq in E. rewrite lookup_insert_ne by assumption.
    rewrite known_fold. cbn [fst]. rewrite lookup_empty. split.
    + intros [[x H]|H]; [discriminate|auto].
    + intros [H|H]; [auto|]. exfalso. apply E.
      apply declares_spec in Hd. apply declares_spec in H.
      destruct Hd as [E1 _], H as [E2 _]. congruence.
Qed.

(** a parameter whose name no later parameter repeats keeps what its own
    step gives it *)
Lemma params_other known x ps : forall inj,
  ~ In x (map pa_name ps) ->
  constructorInjections known ps inj !! x = inj !! x.
Proof.
  unfold constructorInjections.
  induction ps as [|p ps IH]; intros inj Hx; [reflexivity|].
  cbn [fold_left]. cbn [map] in Hx. rewrite IH by (intros H; apply Hx; now right).
  destruct (pa_typeNode p) as [ty|]; [|reflexivity].
  destruct (_ || _); [|reflexivity].
  apply lookup_insert_ne. intros E. apply Hx. now left.
Qed.

Lemma params_bound known p T ps : forall inj,
  In p ps -> NoDup (map pa_name ps) -> pa_typeNode p = Some T ->
  constructorInjections known ps inj !! pa_name p
  = if Js.endsWith "Service" T || bool_decide (is_Some (known !! T))
    then Some T else inj !! pa_name p.
Proof.
  induction ps as [|q ps IH]; intros inj Hin Hnd Hty; [destruct Hin|].
  cbn [map] in Hnd. apply NoDup_cons_iff in Hnd. destruct Hnd as [Hq Hnd].
  destruct Hin as [->|Hin].
  - change (constructorInjections known (p :: ps) inj)
      with (constructorInjections known ps
              (match pa_typeNode p with
               | Some typeName =>
                   if Js.endsWith "Service" typeName
                      || bool_decide (is_Some (known !! typeName))
                   then <[pa_name p := typeName]> inj else inj
               | None => inj
               end)).
    rewrite params_other by assumption. rewrite Hty.
    destruct (_ || _); [apply lookup_insert_eq|reflexivity].
  - change (constructorInjections known (q :: ps) inj)
      with (constructorInjections known ps
              (match pa_typeNode q with
               | Some typeName =>
                   if Js.endsWith "Service" typeName
                      || bool_decide (is_Some (known !! typeName))
                   then <[pa_name q := typeName]> inj else inj
               | None => inj
               end)).
    rewrite (IH _ Hin Hnd Hty).
    destruct (Js.endsWith "Service" T || bool_decide (is_Some (known !! T)));
      [reflexivity|].
    assert (Hne : pa_name q <> pa_name p).
    { intros E. apply Hq. rewrite E. now apply in_map. }
    destruct (pa_typeNode q) as [ty|]; [|reflexivity].
    destruct (_ || _); [|reflexivity]. now apply lookup_insert_ne.
Qed.

Lemma unregistered_fold k clss : forall st,
  (forall c, In c clss -> declares k c = false) ->
  snd st !! k = None -> snd (fold_left collectStep clss st) !! k = None.
Proof.
  intros st H E. destruct (fold_other k clss st H) as [_ ->]. exact E.
Qed.

End PassOneFacts.

(** X24.  After [collectClassInfo] a name has a method set exactly when some class
    is registered under it, and the set is made of the method names of the
    last class registered under that name. *)
Theorem class_methods_after_pass_one (sourceFiles : list SourceFile) (k : string) :
  (is_Some (classMethodsMap (passOne sourceFiles) !! k)
   <-> exists cls, In cls (flat_map sf_classes sourceFiles)
                   /\ cd_name cls = Some k /\ k <> EmptyString)
  /\ forall before cls after,
       flat_map sf_classes sourceFiles = before ++ cls :: after ->
       declares k cls = true ->
       (forall c, In c after -> declares k c = false) ->
       exists methods,
         classMethodsMap (passOne sourceFiles) !! k = Some methods
         /\ NoDup methods
         /\ forall m, In m methods <-> In m (methodNames cls).
Proof.
  pose proof (PassOneFacts.passOne_fold sourceFiles) as E.
  assert (E1 : classMethodsMap (passOne sourceFiles)
               = fst (fold_left collectStep (flat_map sf_classes sourceFiles) (∅, ∅)))
    by now rewrite <- E.
  rewrite E1. split.
  - rewrite PassOneFacts.known_fold. cbn [fst]. rewrite lookup_empty, existsb_exists.
    split.
    + intros [[x H]|[cls [Hin Hd]]]; [discriminate|].
      exists cls. split; [exact Hin|now apply PassOneFacts.declares_spec].
    + intros [cls [Hin Hd]]. right. exists cls.
      split; [exact Hin|now apply PassOneFacts.declares_spec].
  - intros before cls after Hsplit Hd Ha. rewrite Hsplit.
    exists (OSet.ofList (methodNames cls)).
    split; [exact (proj1 (PassOneFacts.fold_last k before cls after Hd Ha))|].
    split; [apply OSetFacts.NoDup_ofList|]. intros m. apply OSetFacts.In_ofList.
Qed.

(** X25.  Constructor parameters in [collectClassInfo]: for the only class
    registered under [k], a typed parameter of its first constructor is bound
    to its type when the type name ends in [Service] or names a class met no
    later than the class itself; otherwise, also when the type is declared
    further on in the scan, the name keeps the binding of the property
    initializers, if any. *)
Theorem constructor_bindings_follow_scan_order
    (sourceFiles : list SourceFile) (before after : list ClassDecl) (cls : ClassDecl)
    (k : string) (p : ParamDecl) (T : string) :
  flat_map sf_classes sourceFiles = before ++ cls :: after ->
  declares k cls = true ->
  (forall c, In c (before ++ after) -> declares k c = false) ->
  In p (firstConstructor cls) ->
  NoDup (map pa_name (firstConstructor cls)) ->
  pa_typeNode p = Some T ->
  boundTo (passOne sourceFiles) k (pa_name p)
  = if Js.endsWith "Service" T || existsb (declares T) (before ++ [cls])
    then Some T
    else propertyInjections (cd_properties cls) ∅ !! pa_name p.
Proof.
  intros Hsplit Hd Hothers Hin Hnd Hty.
  pose proof (PassOneFacts.passOne_fold sourceFiles) as E.
  assert (E2 : injectionMap (passOne sourceFiles)
               = snd (fold_left collectStep (flat_map sf_classes sourceFiles) (∅, ∅)))
    by now rewrite <- E.
  unfold boundTo. rewrite E2, Hsplit.
  destruct (PassOneFacts.fold_last k before cls after Hd) as [_ ->].
  { intros c Hc. apply Hothers. apply in_or_app. now right. }
  set (known := <[k := OSet.ofList (methodNames cls)]>
                  (fst (fold_left collectStep before (∅, ∅)))).
  assert (Hb : bindingsOf known cls !! pa_name p
               = if Js.endsWith "Service" T || existsb (declares T) (before ++ [cls])
                 then Some T
                 else propertyInjections (cd_properties cls) ∅ !! pa_name p).
  { unfold bindingsOf. rewrite (PassOneFacts.params_bound known p T _ _ Hin Hnd Hty).
    replace (bool_decide (is_Some (known !! T)))
      with (existsb (declares T) (before ++ [cls])); [reflexivity|].
    pose proof (PassOneFacts.known_before k T before cls Hd) as Hk. fold known in Hk.
    destruct (existsb (declares T) (before ++ [cls])).
    - symmetry. apply bool_decide_eq_true. now apply Hk.
    - symmetry. apply bool_decide_eq_false. intros H. apply Hk in H. discriminate. }
  destruct (bool_decide (bindingsOf known cls = ∅)) eqn:Eb.
  - apply bool_decide_eq_true in Eb.
    rewrite (PassOneFacts.unregistered_fold k before (∅, ∅)).
    + cbn. rewrite <- Hb, Eb. now rewrite lookup_empty.
    + intros c Hc. apply Hothers. apply in_or_app. now left.
    + apply lookup_empty.
  - cbn. exact Hb.
Qed.

(** In [Order.project] the parameter typed by the earlier class [Store] is
    bound, the one typed by the later class [Cache] is not. *)
Lemma constructor_bindings_follow_scan_order_witness :
  boundTo (passOne Order.project) "Page" "store" = Some "Store"
  /\ boundTo (passOne Order.project) "Page" "cache" = None.
Proof.
  split.
  - apply (constructor_bindings_follow_scan_order Order.project
             [Order.store] [Order.cache] Order.page "Page"
             (Order.param "store" "Store") "Store");
      try reflexivity.
    + intros c [<-|[<-|[]]]; reflexivity.
    + cbn. auto.
    + cbn. repeat constructor; cbn; intuition discriminate.
  - apply (constructor_bindings_follow_scan_order Order.project
             [Order.store] [Order.cache] Order.page "Page"
             (Order.param "cache" "Cache") "Cache");
      try reflexivity.
    + intros c [<-|[<-|[]]]; reflexivity.
    + cbn. auto.
    + cbn. repeat constructor; cbn; intuition discriminate.
Defined.

(** * The bindings of a template text *)

Module TemplateTextFacts.
Import Regex.

#[local] Arguments String.append !s1 s2 : simpl nomatch.

Lemma just_eq a b : just a b = true -> b = a.
Proof. unfold just. intros H. apply Ascii.eqb_eq in H. congruence. Qed.

Lemma stops_but a s : stops (but a) (String a s) = true.
Proof. unfold stops, but. now rewrite Ascii.eqb_refl. Qed.

Lemma occurs_shift text pre s : occurs text s -> occurs text (pre +:+ s).
Proof.
  intros [p [q ->]]. exists (pre +:+ p), q. now rewrite RegexFacts.append_assoc.
Qed.

Lemma occurs_front text rest : occurs text (text +:+ rest).
Proof. now exists EmptyString, rest. Qed.

Lemma shorter used rest :
  used <> EmptyString -> String.length rest < String.length (used +:+ rest).
Proof.
  intros H. rewrite InjectionFacts.length_append.
  destruct used; [congruence|]. cbn [String.length]. lia.
Qed.

(** ** What a successful match has read *)

Section Read.
Context {A : Type}.
Implicit Types (k : string -> list string -> option A).

Lemma star_read c (k : string -> option A) s r :
  star c k s = Some r ->
  exists run rest, s = run +:+ rest /\ every c run = true /\ k rest = Some r.
Proof.
  induction s as [|a s IH]; cbn [star]; intros H.
  - now exists EmptyString, EmptyString.
  - destruct (c a) eqn:Ea; [|now exists EmptyString, (String a s)].
    destruct (star c k s) as [r'|] eqn:Es; [|now exists EmptyString, (String a s)].
    destruct (IH H) as [run [rest [-> [Hrun Hk]]]].
    exists (String a run), rest. cbn [String.append every]. now rewrite Ea.
Qed.

Lemma chr_read c r2 s caps k r :
  exec (Seq (Chr c) r2) s caps k = Some r ->
  exists a rest, s = String a rest /\ c a = true /\ exec r2 rest caps k = Some r.
Proof.
  cbn [exec]. destruct s as [|a s]; [discriminate|].
  destruct (c a) eqn:Ea; [|discriminate]. intros H. now exists a, s.
Qed.

Lemma chr_last c s caps k r :
  exec (Chr c) s caps k = Some r ->
  exists a rest, s = String a rest /\ c a = true /\ k rest caps = Some r.
Proof.
  cbn [exec]. destruct s as [|a s]; [discriminate|].
  destruct (c a) eqn:Ea; [|discriminate]. intros H. now exists a, s.
Qed.

Lemma star_seq_read c r2 s caps k r :
  exec (Seq (Star c) r2) s caps k = Some r ->
  exists run rest, s = run +:+ rest /\ every c run = true
                   /\ exec r2 rest caps k = Some r.
Proof. cbn [exec]. apply star_read. Qed.

Lemma plus_read c s caps k r :
  exec (Plus c) s caps k = Some r ->
  exists run rest, s = run +:+ rest /\ run <> EmptyString /\ every c run = true
                   /\ k rest caps = Some r.
Proof.
  cbn [exec]. destruct s as [|a s]; [discriminate|].
  destruct (c a) eqn:Ea; [|discriminate]. intros H.
  apply star_read in H. destruct H as [run [rest [-> [Hrun Hk]]]].
  exists (String a run), rest. cbn [String.append every]. rewrite Ea.
  repeat split; auto; try discriminate.
Qed.

Lemma group_read c r2 s caps k r :
  exec (Seq (Grp (Plus c)) r2) s caps k = Some r ->
  exists run rest, s = run +:+ rest /\ run <> EmptyString /\ every c run = true
                   /\ exec r2 rest (caps ++ [run]) k = Some r.
Proof.
  rewrite RegexFacts.exec_seq, RegexFacts.exec_grp. intros H.
  apply plus_read in H. destruct H as [run [rest [-> [Hne [Hrun Hk]]]]].
  rewrite RegexFacts.substring_prefix in Hk. now exists run, rest.
Qed.

Lemma lit_read l : forall s caps k r,
  exec (lit l) s caps k = Some r ->
  exists rest, s = l +:+ rest /\ k rest caps = Some r.
Proof.
  induction l as [|a l IH]; intros s caps k r; cbn [lit].
  - cbn [exec]. intros H. now exists s.
  - intros H. apply chr_read in H. destruct H as [b [rest [-> [Hb H]]]].
    apply just_eq in Hb. subst b. apply IH in H. destruct H as [rest' [-> H]].
    now exists rest'.
Qed.

Lemma keyword_read kw r2 s caps k r :
  exec (Seq (Grp (lit kw)) r2) s caps k = Some r ->
  exists rest, s = kw +:+ rest /\ exec r2 rest (caps ++ [kw]) k = Some r.
Proof.
  rewrite RegexFacts.exec_seq, RegexFacts.exec_grp. intros H.
  apply lit_read in H. destruct H as [rest [-> H]].
  rewrite RegexFacts.substring_prefix in H. now exists rest.
Qed.

(** ** What a run in front of its stop gives *)

Lemma plus_run c k run tail caps r :
  run <> EmptyString -> every c run = true -> stops c tail = true ->
  k tail caps = Some r ->
  exec (Plus c) (run +:+ tail) caps k = Some r.
Proof.
  intros Hne Hrun Hstop Hk. destruct run as [|a run]; [congruence|].
  cbn [every] in Hrun. apply andb_prop in Hrun. destruct Hrun as [Ha Hrun].
  cbn [String.append exec]. rewrite Ha.
  now apply (RegexFacts.star_run c (fun s => k s caps)).
Qed.

Lemma group_run c r2 k run tail caps r :
  run <> EmptyString -> every c run = true -> stops c tail = true ->
  exec r2 tail (caps ++ [run]) k = Some r ->
  exec (Seq (Grp (Plus c)) r2) (run +:+ tail) caps k = Some r.
Proof.
  intros Hne Hrun Hstop Hk. rewrite RegexFacts.exec_seq, RegexFacts.exec_grp.
  apply plus_run; auto. now rewrite RegexFacts.substring_prefix.
Qed.

End Read.

(** ** The leftmost match *)

Lemma search_read r s m :
  search r s = Some m ->
  exists pre s' m',
    s = pre +:+ s' /\ matchHere r s' = Some m'
    /\ groups m = groups m' /\ after m = after m'.
Proof.
  revert m. induction s as [|a s IH]; intros m; cbn [search].
  - destruct (matchHere r EmptyString) as [m'|] eqn:E; [|discriminate].
    intros H. injection H as <-. now exists EmptyString, EmptyString, m'.
  - destruct (matchHere r (String a s)) as [m'|] eqn:E.
    + intros H. injection H as <-. now exists EmptyString, (String a s), m'.
    + destruct (search r s) as [m0|]; [|discriminate]. cbn [option_map].
      intros H. injection H as <-.
      destruct (IH m0 eq_refl) as [pre [s' [m' [-> [Hm [Hg Ha]]]]]].
      now exists (String a pre), s', m'.
Qed.

Lemma execRegex_read r s gs rest :
  execRegex r s = Some (gs, rest) ->
  exists pre s' m,
    s = pre +:+ s' /\ matchHere r s' = Some m /\ gs = groups m /\ rest = after m.
Proof.
  unfold execRegex. destruct (search r s) as [m|] eqn:E; [|discriminate].
  cbn [option_map]. intros H. injection H as <- <-.
  destruct (search_read r s m E) as [pre [s' [m' [-> [Hm [Hg Ha]]]]]].
  now exists pre, s', m'.
Qed.

(** ** The attribute patterns *)

Lemma attribute_here opening closing s m :
  matchHere (attributeRegex opening closing) s = Some m ->
  exists name e,
    s = attributeText opening closing name e +:+ after m
    /\ groups m = [name; e]
    /\ name <> EmptyString /\ lacks closing name = true
    /\ e <> EmptyString /\ lacks dquote e = true.
Proof.
  unfold matchHere, attributeRegex. cbn [seq]. intros H.
  apply chr_read in H. destruct H as [a [s1 [-> [Ha H]]]]. apply just_eq in Ha. subst a.
  apply group_read in H. destruct H as [name [s2 [-> [Hne [Hname H]]]]].
  apply chr_read in H. destruct H as [a [s3 [-> [Ha H]]]]. apply just_eq in Ha. subst a.
  apply chr_read in H. destruct H as [a [s4 [-> [Ha H]]]]. apply just_eq in Ha. subst a.
  apply chr_read in H. destruct H as [a [s5 [-> [Ha H]]]]. apply just_eq in Ha. subst a.
  apply group_read in H. destruct H as [e [s6 [-> [Hee [He H]]]]].
  apply chr_last in H. destruct H as [a [s7 [-> [Ha H]]]]. apply just_eq in Ha. subst a.
  injection H as <-. cbn [after groups app].
  exists name, e. repeat split; auto.
  unfold attributeText. cbn [String.append].
  do 3 (rewrite ?RegexFacts.append_assoc; cbn [String.append]). reflexivity.
Qed.

Lemma attribute_there opening closing name e rest :
  name <> EmptyString -> lacks closing name = true ->
  e <> EmptyString -> lacks dquote e = true ->
  matchHere (attributeRegex opening closing)
    (attributeText opening closing name e +:+ rest)
  = Some {| before := EmptyString; groups := [name; e]; after := rest |}.
Proof.
  intros Hne Hname Hee He. unfold matchHere, attributeRegex, attributeText. cbn [seq].
  rewrite !RegexFacts.append_assoc. cbn [String.append].
  rewrite RegexFacts.exec_seq, RegexFacts.exec_chr.
  unfold just at 1. rewrite Ascii.eqb_refl.
  apply group_run; [exact Hne|exact Hname|apply stops_but|].
  rewrite RegexFacts.exec_seq, RegexFacts.exec_chr.
  unfold just at 1. rewrite Ascii.eqb_refl.
  rewrite RegexFacts.exec_seq, RegexFacts.exec_chr.
  unfold just at 1. rewrite Ascii.eqb_refl.
  rewrite RegexFacts.exec_seq, RegexFacts.exec_chr.
  unfold just at 1. rewrite Ascii.eqb_refl.
  apply group_run; [exact Hee|exact He|apply stops_but|].
  rewrite RegexFacts.exec_chr. unfold just at 1. now rewrite Ascii.eqb_refl.
Qed.

(** nothing matches where the opening bracket is missing *)
Lemma attribute_skip opening closing pre s :
  lacks opening pre = true ->
  execRegex (attributeRegex opening closing) (pre +:+ s)
  = execRegex (attributeRegex opening closing) s.
Proof.
  induction pre as [|a pre IH]; intros Hl; [reflexivity|].
  unfold lacks in Hl. cbn [every] in Hl. apply andb_prop in Hl. destruct Hl as [Ha Hl].
  specialize (IH Hl). unfold execRegex in *. cbn [String.append search].
  assert (E : matchHere (attributeRegex opening closing) (String a (pre +:+ s)) = None).
  { unfold matchHere, attributeRegex. cbn [seq].
    rewrite RegexFacts.exec_seq, RegexFacts.exec_chr.
    unfold but in Ha. unfold just. now destruct (Ascii.eqb opening a). }
  rewrite E. destruct (search _ (pre +:+ s)) as [m|]; cbn [option_map] in *;
    [|exact IH].
  exact IH.
Qed.

Lemma attribute_found opening closing pre name e post :
  lacks opening pre = true ->
  name <> EmptyString -> lacks closing name = true ->
  e <> EmptyString -> lacks dquote e = true ->
  execRegex (attributeRegex opening closing)
    (pre +:+ attributeText opening closing name e +:+ post)
  = Some ([name; e], post).
Proof.
  intros Hpre Hne Hname Hee He. rewrite attribute_skip by assumption.
  unfold execRegex.
  assert (E : search (attributeRegex opening closing)
                (attributeText opening closing name e +:+ post)
              = Some {| before := EmptyString; groups := [name; e]; after := post |}).
  { pose proof (attribute_there opening closing name e post Hne Hname Hee He) as Hm.
    destruct (attributeText opening closing name e +:+ post); cbn [search];
      now rewrite Hm. }
  now rewrite E.
Qed.

Lemma attributeText_nonempty opening closing name e :
  attributeText opening closing name e <> EmptyString.
Proof. discriminate. Qed.

Lemma attribute_consuming opening closing :
  consuming (execRegex (attributeRegex opening closing)).
Proof.
  intros s gs rest H. apply execRegex_read in H.
  destruct H as [pre [s' [m [-> [Hm [-> ->]]]]]].
  apply attribute_here in Hm. destruct Hm as [name [e [-> _]]].
  exists (pre +:+ attributeText opening closing name e).
  split; [|now rewrite RegexFacts.append_assoc].
  destruct pre; discriminate.
Qed.

(** ** The loop *)

Section Loop.
Context {A : Type} (exec : string -> option (A * string)).

Lemma execAll_more : forall fuel s xs,
  execAll fuel exec s = Some xs ->
  forall fuel', fuel <= fuel' -> execAll fuel' exec s = Some xs.
Proof.
  induction fuel as [|fuel IH]; intros s xs H fuel' Hle; [discriminate|].
  destruct fuel' as [|fuel']; [lia|]. cbn [execAll] in *.
  destruct (exec s) as [[x rest]|]; [|exact H].
  destruct (execAll fuel exec rest) as [ys|] eqn:E; [|discriminate].
  now rewrite (IH rest ys E fuel') by lia.
Qed.

Lemma execAll_spec (Q : A -> string -> Prop) :
  (forall s x rest, exec s = Some (x, rest) ->
     Q x s /\ exists used, used <> EmptyString /\ s = used +:+ rest) ->
  (forall x pre s, Q x s -> Q x (pre +:+ s)) ->
  forall fuel s, String.length s < fuel ->
    exists xs, execAll fuel exec s = Some xs /\ forall x, In x xs -> Q x s.
Proof.
  intros Hexec Hshift. induction fuel as [|fuel IH]; intros s Hlt; [lia|].
  cbn [execAll]. destruct (exec s) as [[x rest]|] eqn:E.
  - destruct (Hexec _ _ _ E) as [Hq [used [Hne ->]]].
    destruct (IH rest) as [xs [-> Hall]].
    { pose proof (shorter used rest Hne). lia. }
    exists (x :: xs). split; [reflexivity|].
    intros y [<-|Hy]; [exact Hq|]. apply Hshift. now apply Hall.
  - exists []. split; [reflexivity|]. intros x [].
Qed.

Lemma execAll_fuel :
  consuming exec ->
  forall fuel fuel' s, String.length s < fuel -> String.length s < fuel' ->
    execAll fuel exec s = execAll fuel' exec s.
Proof.
  intros Hc fuel fuel' s H1 H2.
  destruct (execAll_spec (fun _ _ => True)) with (fuel := S (String.length s)) (s := s)
    as [xs [E _]]; auto.
  { intros s0 x rest H. split; [exact I|]. now apply (Hc s0 x rest). }
  rewrite (execAll_more _ _ _ E fuel) by lia.
  now rewrite (execAll_more _ _ _ E fuel') by lia.
Qed.

End Loop.

(** ** Attributes, one loop *)

Lemma attribute_loop opening closing fuel template :
  String.length template < fuel ->
  exists gss,
    execAll fuel (execRegex (attributeRegex opening closing)) template = Some gss
    /\ forall gs, In gs gss ->
         attributeSite opening closing (nthGroup 1 gs) template.
Proof.
  intros Hlt.
  destruct (execAll_spec (execRegex (attributeRegex opening closing))
              (fun gs s => attributeSite opening closing (nthGroup 1 gs) s))
    with (fuel := fuel) (s := template) as [gss [E Hall]]; auto.
  - intros s gs rest H. split; [|now apply (attribute_consuming opening closing s gs rest)].
    apply execRegex_read in H. destruct H as [pre [s' [m [-> [Hm [-> ->]]]]]].
    apply attribute_here in Hm.
    destruct Hm as [name [e [-> [-> [Hne [Hname [Hee He]]]]]]].
    cbn [nthGroup nth]. exists name. repeat split; auto.
    apply occurs_shift, occurs_front.
  - intros gs pre s [name [H1 [H2 [H3 [H4 H5]]]]]. exists name.
    repeat split; auto. now apply occurs_shift.
  - now exists gss.
Qed.

(** ** Interpolations *)

Lemma interpolation_here s m :
  matchHere TemplateRegex.interpRegex s = Some m ->
  exists ws1 g ws2,
    s = ("{{" +:+ ws1 +:+ g +:+ ws2 +:+ "}}") +:+ after m
    /\ groups m = [g]
    /\ every space ws1 = true /\ every space ws2 = true
    /\ g <> EmptyString /\ lacks "}" g = true.
Proof.
  unfold matchHere, TemplateRegex.interpRegex. cbn [seq]. intros H.
  apply chr_read in H. destruct H as [a [s1 [-> [Ha H]]]]. apply just_eq in Ha. subst a.
  apply chr_read in H. destruct H as [a [s2 [-> [Ha H]]]]. apply just_eq in Ha. subst a.
  apply star_seq_read in H. destruct H as [ws1 [s3 [-> [Hw1 H]]]].
  apply group_read in H. destruct H as [g [s4 [-> [Hne [Hg H]]]]].
  apply star_seq_read in H. destruct H as [ws2 [s5 [-> [Hw2 H]]]].
  apply chr_read in H. destruct H as [a [s6 [-> [Ha H]]]]. apply just_eq in Ha. subst a.
  apply chr_last in H. destruct H as [a [s7 [-> [Ha H]]]]. apply just_eq in Ha. subst a.
  injection H as <-. cbn [after groups app].
  exists ws1, g, ws2. repeat split; auto.
  do 3 (rewrite ?RegexFacts.append_assoc; cbn [String.append]). reflexivity.
Qed.

Lemma interpolation_loop fuel template :
  String.length template < fuel ->
  exists gss,
    execAll fuel (execRegex TemplateRegex.interpRegex) template = Some gss
    /\ forall gs, In gs gss -> interpolationSite (trim (nthGroup 0 gs)) template.
Proof.
  intros Hlt.
  destruct (execAll_spec (execRegex TemplateRegex.interpRegex)
              (fun gs s => interpolationSite (trim (nthGroup 0 gs)) s))
    with (fuel := fuel) (s := template) as [gss [E Hall]]; auto.
  - intros s gs rest H.
    apply execRegex_read in H. destruct H as [pre [s' [m [-> [Hm [-> ->]]]]]].
    apply interpolation_here in Hm.
    destruct Hm as [ws1 [g [ws2 [-> [-> [Hw1 [Hw2 [Hne Hg]]]]]]]]. split.
    + cbn [nthGroup nth]. exists ws1, g, ws2. repeat split; auto.
      apply occurs_shift, occurs_front.
    + exists (pre +:+ "{{" +:+ ws1 +:+ g +:+ ws2 +:+ "}}").
      split; [destruct pre; discriminate|].
      now rewrite !RegexFacts.append_assoc.
  - intros gs pre s [ws1 [g [ws2 [H1 [H2 [H3 [H4 [H5 H6]]]]]]]].
    exists ws1, g, ws2. repeat split; auto. now apply occurs_shift.
  - now exists gss.
Qed.

(** ** Structural directives and blocks *)

Lemma quoted_branch_here kw s m :
  matchHere (TemplateRegex.structuralBranch kw true) s = Some m ->
  exists e,
    s = (kw +:+ String "=" (String dquote e) +:+ String dquote EmptyString) +:+ after m
    /\ groups m = [kw; e] /\ e <> EmptyString /\ lacks dquote e = true.
Proof.
  unfold matchHere, TemplateRegex.structuralBranch, TemplateRegex.quotedTail.
  cbn [seq]. intros H.
  apply keyword_read in H. destruct H as [s1 [-> H]].
  apply chr_read in H. destruct H as [a [s2 [-> [Ha H]]]]. apply just_eq in Ha. subst a.
  apply chr_read in H. destruct H as [a [s3 [-> [Ha H]]]]. apply just_eq in Ha. subst a.
  apply group_read in H. destruct H as [e [s4 [-> [Hne [He H]]]]].
  apply chr_last in H. destruct H as [a [s5 [-> [Ha H]]]]. apply just_eq in Ha. subst a.
  injection H as <-. cbn [after groups app].
  exists e. repeat split; auto.
  do 3 (rewrite ?RegexFacts.append_assoc; cbn [String.append]). reflexivity.
Qed.

Lemma paren_branch_here kw s m :
  matchHere (TemplateRegex.structuralBranch kw false) s = Some m ->
  exists ws e,
    s = (kw +:+ ws +:+ String "(" e +:+ ")") +:+ after m
    /\ groups m = [kw; e] /\ every space ws = true
    /\ e <> EmptyString /\ lacks ")" e = true.
Proof.
  unfold matchHere, TemplateRegex.structuralBranch, TemplateRegex.parenTail.
  cbn [seq]. intros H.
  apply keyword_read in H. destruct H as [s1 [-> H]].
  apply star_seq_read in H. destruct H as [ws [s2 [-> [Hws H]]]].
  apply chr_read in H. destruct H as [a [s3 [-> [Ha H]]]]. apply just_eq in Ha. subst a.
  apply group_read in H. destruct H as [e [s4 [-> [Hne [He H]]]]].
  apply chr_last in H. destruct H as [a [s5 [-> [Ha H]]]]. apply just_eq in Ha. subst a.
  injection H as <-. cbn [after groups app].
  exists ws, e. repeat split; auto.
  do 3 (rewrite ?RegexFacts.append_assoc; cbn [String.append]). reflexivity.
Qed.

Lemma keyword_nonempty kw : In kw TemplateRegex.structuralKeywords -> kw <> EmptyString.
Proof. intros H. repeat (destruct H as [<-|H]; [discriminate|]). destruct H. Qed.

Lemma branch_keyword kw quoted :
  In (kw, quoted) TemplateRegex.structuralBranches ->
  In kw TemplateRegex.structuralKeywords.
Proof.
  unfold TemplateRegex.structuralBranches. rewrite in_flat_map.
  intros [kw' [Hin [H|[H|[]]]]]; injection H as -> _; exact Hin.
Qed.

Lemma firstBranch_read branches s gs rest :
  (forall kw quoted, In (kw, quoted) branches -> In kw TemplateRegex.structuralKeywords) ->
  firstBranch branches s = Some (gs, rest) -> structuralFound gs s rest.
Proof.
  induction branches as [|[kw quoted] branches IH]; intros Hkw H; [discriminate|].
  cbn [firstBranch] in H.
  destruct (matchHere (TemplateRegex.structuralBranch kw quoted) s) as [m|] eqn:E.
  - injection H as <- <-.
    assert (Hin : In kw TemplateRegex.structuralKeywords)
      by (apply (Hkw kw quoted); now left).
    destruct quoted.
    + apply quoted_branch_here in E. destruct E as [e [Hs [Hg [Hne He]]]].
      exists kw, e. split; [exact Hin|]. split; [exact Hne|]. left.
      rewrite Hg. cbn [nth_error]. auto.
    + apply paren_branch_here in E. destruct E as [ws [e [Hs [Hg [Hws [Hne He]]]]]].
      exists kw, e. split; [exact Hin|]. split; [exact Hne|]. right. exists ws.
      rewrite Hg. cbn [nth_error]. auto.
  - apply IH; [|exact H]. intros kw' quoted' Hin. apply (Hkw kw' quoted'). now right.
Qed.

Lemma execStructural_read s : forall gs rest,
  execStructural s = Some (gs, rest) ->
  exists pre s', s = pre +:+ s' /\ structuralFound gs s' rest.
Proof.
  induction s as [|a s IH]; intros gs rest; cbn [execStructural].
  - destruct (firstBranch TemplateRegex.structuralBranches EmptyString)
      as [[gs' rest']|] eqn:E; [|discriminate].
    intros H. injection H as <- <-. exists EmptyString, EmptyString.
    split; [reflexivity|]. apply (firstBranch_read _ _ _ _ branch_keyword E).
  - destruct (firstBranch TemplateRegex.structuralBranches (String a s))
      as [[gs' rest']|] eqn:E.
    + intros H. injection H as <- <-. exists EmptyString, (String a s).
      split; [reflexivity|]. apply (firstBranch_read _ _ _ _ branch_keyword E).
    + intros H. destruct (IH gs rest H) as [pre [s' [-> Hf]]].
      now exists (String a pre), s'.
Qed.

Lemma structural_expression gs s rest :
  structuralFound gs s rest ->
  structuralSite (Js.orElse (fst gs) (Js.orElse (snd gs) "")) s
  /\ exists used, used <> EmptyString /\ s = used +:+ rest.
Proof.
  intros [kw [e [Hin [Hne [[-> [He ->]]|[ws [-> [Hws [He ->]]]]]]]]].
  - assert (Ht : Js.truthy e = true) by now apply CallTextFacts.truthy_ne.
    cbn [fst snd Js.orElse]. rewrite Ht. split.
    + exists kw. split; [exact Hin|]. split; [exact Hne|]. left.
      split; [exact He|apply occurs_front].
    + eexists. split; [|reflexivity]. destruct kw; discriminate.
  - assert (Ht : Js.truthy e = true) by now apply CallTextFacts.truthy_ne.
    cbn [fst snd Js.orElse]. rewrite Ht. split.
    + exists kw. split; [exact Hin|]. split; [exact Hne|]. right. exists ws.
      split; [exact Hws|]. split; [exact He|apply occurs_front].
    + eexists. split; [|reflexivity].
      apply keyword_nonempty in Hin. destruct kw; [congruence|discriminate].
Qed.

Lemma structural_loop fuel template :
  String.length template < fuel ->
  exists gss,
    execAll fuel execStructural template = Some gss
    /\ forall gs, In gs gss ->
         structuralSite (Js.orElse (fst gs) (Js.orElse (snd gs) "")) template.
Proof.
  intros Hlt.
  destruct (execAll_spec execStructural
              (fun gs s => structuralSite (Js.orElse (fst gs) (Js.orElse (snd gs) "")) s))
    with (fuel := fuel) (s := template) as [gss [E Hall]]; auto.
  - intros s gs rest H. apply execStructural_read in H.
    destruct H as [pre [s' [-> Hf]]]. apply structural_expression in Hf.
    destruct Hf as [Hsite [used [Hne ->]]]. split.
    + destruct Hsite as [kw [H1 [H2 H3]]]. exists kw. split; [exact H1|].
      split; [exact H2|].
      destruct H3 as [[H3 H4]|[ws [H3 [H4 H5]]]].
      * left. split; [exact H3|now apply occurs_shift].
      * right. exists ws. split; [exact H3|]. split; [exact H4|now apply occurs_shift].
    + exists (pre +:+ used). split; [|now rewrite RegexFacts.append_assoc].
      destruct pre; [exact Hne|discriminate].
  - intros gs pre s [kw [H1 [H2 H3]]]. exists kw. split; [exact H1|].
    split; [exact H2|].
    destruct H3 as [[H3 H4]|[ws [H3 [H4 H5]]]].
    + left. split; [exact H3|now apply occurs_shift].
    + right. exists ws. split; [exact H3|]. split; [exact H4|now apply occurs_shift].
  - now exists gss.
Qed.

(** ** The first attribute of a template *)

Lemma attribute_first opening closing fuel pre name e post :
  lacks opening pre = true ->
  name <> EmptyString -> lacks closing name = true ->
  e <> EmptyString -> lacks dquote e = true ->
  String.length (pre +:+ attributeText opening closing name e +:+ post) < fuel ->
  exists gss,
    execAll fuel (execRegex (attributeRegex opening closing)) post = Some gss
    /\ execAll fuel (execRegex (attributeRegex opening closing))
         (pre +:+ attributeText opening closing name e +:+ post)
       = Some ([name; e] :: gss).
Proof.
  intros Hpre Hne Hname Hee He Hlt.
  assert (Hpost : String.length post
                  < String.length (pre +:+ attributeText opening closing name e +:+ post)).
  { rewrite <- RegexFacts.append_assoc. apply shorter. destruct pre; discriminate. }
  destruct fuel as [|fuel]; [lia|].
  destruct (attribute_loop opening closing fuel post) as [gss [E _]]; [lia|].
  exists gss. split.
  - apply (execAll_more _ _ _ _ E). lia.
  - cbn [execAll]. rewrite attribute_found by assumption. now rewrite E.
Qed.

(** ** An interpolation of blanks *)

Lemma star_back {A : Type} c (k : string -> option A) run a tail r :
  every c run = true -> c a = true -> stops c tail = true ->
  k tail = None -> k (String a tail) = Some r ->
  star c k (run +:+ String a tail) = Some r.
Proof.
  intros Hrun Ha Hstop Hnone Hk. induction run as [|b run IH].
  - cbn [String.append star]. rewrite Ha, (RegexFacts.star_stop c k tail Hstop), Hnone.
    exact Hk.
  - cbn [every] in Hrun. apply andb_prop in Hrun. destruct Hrun as [Hb Hrun].
    cbn [String.append star]. now rewrite Hb, (IH Hrun).
Qed.

Lemma last_char s :
  s <> EmptyString -> exists front a, s = front +:+ String a EmptyString.
Proof.
  induction s as [|b s IH]; [congruence|]. intros _.
  destruct s as [|c s].
  - now exists EmptyString, b.
  - destruct IH as [front [a E]]; [discriminate|]. rewrite E.
    now exists (String b front), a.
Qed.

Lemma every_app c a b : every c (a +:+ b) = every c a && every c b.
Proof.
  induction a as [|x a IH]; cbn [String.append every]; [reflexivity|].
  now rewrite IH, Bool.andb_assoc.
Qed.

Lemma space_not_brace a : space a = true -> but "}" a = true.
Proof. destruct a as [[] [] [] [] [] [] [] []]; vm_compute; congruence. Qed.

Lemma blanks_here front a post :
  every space front = true -> space a = true ->
  matchHere TemplateRegex.interpRegex
    ("{{" +:+ (front +:+ String a EmptyString) +:+ "}}" +:+ post)
  = Some {| before := EmptyString; groups := [String a EmptyString]; after := post |}.
Proof.
  intros Hfront Ha. unfold matchHere, TemplateRegex.interpRegex. cbn [seq].
  rewrite RegexFacts.append_assoc. cbn [String.append].
  rewrite RegexFacts.exec_seq, RegexFacts.exec_chr.
  unfold just at 1. rewrite Ascii.eqb_refl.
  rewrite RegexFacts.exec_seq, RegexFacts.exec_chr.
  unfold just at 1. rewrite Ascii.eqb_refl.
  rewrite RegexFacts.exec_seq, RegexFacts.exec_star.
  apply star_back; auto.
  change (String a (String "}" (String "}" post)))
    with (String a EmptyString +:+ String "}" (String "}" post)).
  apply group_run.
  - discriminate.
  - cbn [every]. now rewrite (space_not_brace a Ha).
  - reflexivity.
  - rewrite RegexFacts.exec_seq, RegexFacts.exec_star.
    rewrite RegexFacts.star_stop by reflexivity.
    rewrite RegexFacts.exec_seq, RegexFacts.exec_chr.
    unfold just at 1. rewrite Ascii.eqb_refl.
    rewrite RegexFacts.exec_chr. unfold just at 1. now rewrite Ascii.eqb_refl.
Qed.

Lemma blanks_first fuel ws post :
  ws <> EmptyString -> every space ws = true ->
  String.length ("{{" +:+ ws +:+ "}}" +:+ post) < fuel ->
  exists a gss,
    space a = true
    /\ execAll fuel (execRegex TemplateRegex.interpRegex) post = Some gss
    /\ execAll fuel (execRegex TemplateRegex.interpRegex)
         ("{{" +:+ ws +:+ "}}" +:+ post)
       = Some ([String a EmptyString] :: gss).
Proof.
  intros Hne Hws Hlt. destruct (last_char ws Hne) as [front [a ->]].
  rewrite every_app in Hws. apply andb_prop in Hws. destruct Hws as [Hfront Ha].
  cbn [every] in Ha. rewrite Bool.andb_true_r in Ha.
  assert (Hpost : String.length post
                  < String.length ("{{" +:+ (front +:+ String a EmptyString)
                                   +:+ "}}" +:+ post)).
  { rewrite <- !RegexFacts.append_assoc. apply shorter. discriminate. }
  destruct fuel as [|fuel]; [lia|].
  destruct (interpolation_loop fuel post) as [gss [E _]]; [lia|].
  exists a, gss. split; [exact Ha|]. split.
  - apply (execAll_more _ _ _ _ E). lia.
  - cbn [execAll]. unfold execRegex at 1.
    pose proof (blanks_here front a post Hfront Ha) as Hm.
    cbn [String.append] in Hm |- *. cbn [search]. rewrite Hm.
    cbn [option_map groups after]. now rewrite E.
Qed.

Lemma trim_blank a : space a = true -> trim (String a EmptyString) = EmptyString.
Proof. intros Ha. unfold trim. cbn [trimStart]. now rewrite Ha. Qed.

End TemplateTextFacts.

(** X26.  With fuel beyond the length of the template the four loops of
    [parseAngularTemplate] end, and the result lists event bindings, then
    property bindings, then interpolations, then structural bindings; every
    event expression is the quoted, non-empty value of an attribute in round
    brackets of the template, every property expression that of an attribute
    in square brackets, every interpolation the trimmed text between double
    braces, every structural expression the non-empty text behind one of the
    five keywords. *)
Theorem template_bindings_come_from_the_text (template : string) (fuel : nat) :
  String.length template < fuel ->
  exists events props interps structs,
    parseAngularTemplate fuel template = Some (events ++ props ++ interps ++ structs)
    /\ (forall b, In b events ->
          tb_type b = event /\ attributeSite "(" ")" (tb_expression b) template)
    /\ (forall b, In b props ->
          tb_type b = property /\ attributeSite "[" "]" (tb_expression b) template)
    /\ (forall b, In b interps ->
          tb_type b = interpolation /\ interpolationSite (tb_expression b) template)
    /\ (forall b, In b structs ->
          tb_type b = structural /\ structuralSite (tb_expression b) template).
Proof.
  intros Hlt.
  destruct (TemplateTextFacts.attribute_loop "(" ")" fuel template Hlt) as [es [E1 H1]].
  destruct (TemplateTextFacts.attribute_loop "[" "]" fuel template Hlt) as [ps [E2 H2]].
  destruct (TemplateTextFacts.interpolation_loop fuel template Hlt) as [xs [E3 H3]].
  destruct (TemplateTextFacts.structural_loop fuel template Hlt) as [ss [E4 H4]].
  unfold parseAngularTemplate, eventBindings, propertyBindings,
    interpolationBindings, structuralBindings.
  change TemplateRegex.eventRegex with (attributeRegex "(" ")").
  change TemplateRegex.propRegex with (attributeRegex "[" "]").
  rewrite E1, E2, E3, E4. cbn [option_map].
  eexists _, _, _, _. split; [reflexivity|].
  repeat split.
  - apply in_map_iff in H. now destruct H as [gs [<- _]].
  - apply in_map_iff in H. destruct H as [gs [<- Hin]]. now apply H1.
  - apply in_map_iff in H. now destruct H as [gs [<- _]].
  - apply in_map_iff in H. destruct H as [gs [<- Hin]]. now apply H2.
  - apply in_map_iff in H. now destruct H as [gs [<- _]].
  - apply in_map_iff in H. destruct H as [gs [<- Hin]]. now apply H3.
  - apply in_map_iff in H. now destruct H as [gs [<- _]].
  - apply in_map_iff in H. destruct H as [gs [<- Hin]]. now apply H4.
Qed.

(** The markup of [Markup.text] is parsed with fuel 60. *)
Lemma template_bindings_come_from_the_text_witness :
  String.length Markup.text < 60
  /\ exists events props interps structs,
       parseAngularTemplate 60 Markup.text = Some (events ++ props ++ interps ++ structs)
       /\ (forall b, In b events ->
             tb_type b = event /\ attributeSite "(" ")" (tb_expression b) Markup.text)
       /\ (forall b, In b props ->
             tb_type b = property /\ attributeSite "[" "]" (tb_expression b) Markup.text)
       /\ (forall b, In b interps ->
             tb_type b = interpolation
             /\ interpolationSite (tb_expression b) Markup.text)
       /\ (forall b, In b structs ->
             tb_type b = structural /\ structuralSite (tb_expression b) Markup.text).
Proof.
  split; [vm_compute; lia|].
  apply (template_bindings_come_from_the_text Markup.text 60). vm_compute. lia.
Defined.

(** What the parser makes of [Markup.text]. *)
Example markup_bindings :
  parseAngularTemplate 60 Markup.text
  = Some [ {| tb_type := event; tb_expression := "go()" |};
           {| tb_type := property; tb_expression := "key" |};
           {| tb_type := interpolation; tb_expression := "title" |} ].
Proof. vm_compute. reflexivity. Qed.

(** X27.  Events of [parseAngularTemplate]: when no round bracket opens
    before it, an attribute in round brackets with a non-empty name and a
    non-empty quoted value gives the first event binding, and the event
    bindings of the text behind it follow. *)
Theorem event_attribute_is_reported (pre name e post : string) (fuel : nat) :
  lacks "(" pre = true ->
  name <> EmptyString -> lacks ")" name = true ->
  e <> EmptyString -> lacks dquote e = true ->
  String.length (pre +:+ attributeText "(" ")" name e +:+ post) < fuel ->
  exists rest,
    eventBindings fuel post = Some rest
    /\ eventBindings fuel (pre +:+ attributeText "(" ")" name e +:+ post)
       = Some ({| tb_type := event; tb_expression := e |} :: rest).
Proof.
  intros Hpre Hne Hname Hee He Hlt.
  destruct (TemplateTextFacts.attribute_first "(" ")" fuel pre name e post
              Hpre Hne Hname Hee He Hlt) as [gss [E1 E2]].
  unfold eventBindings. change TemplateRegex.eventRegex with (attributeRegex "(" ")").
  rewrite E1, E2. cbn [option_map map Regex.nthGroup nth]. eexists. split; reflexivity.
Qed.

Lemma event_attribute_is_reported_witness :
  exists rest,
    eventBindings 40 ">go</a>" = Some rest
    /\ eventBindings 40 ("<a " +:+ attributeText "(" ")" "click" "go()" +:+ ">go</a>")
       = Some ({| tb_type := event; tb_expression := "go()" |} :: rest).
Proof.
  apply (event_attribute_is_reported "<a " "click" "go()" ">go</a>" 40);
    try reflexivity; try discriminate.
  vm_compute. lia.
Defined.

(** X28.  Properties of [parseAngularTemplate]: when no square bracket
    opens before it, an attribute in square brackets with a non-empty name
    and a non-empty quoted value gives the first property binding, and the
    property bindings of the text behind it follow. *)
Theorem property_attribute_is_reported (pre name e post : string) (fuel : nat) :
  lacks "[" pre = true ->
  name <> EmptyString -> lacks "]" name = true ->
  e <> EmptyString -> lacks dquote e = true ->
  String.length (pre +:+ attributeText "[" "]" name e +:+ post) < fuel ->
  exists rest,
    propertyBindings fuel post = Some rest
    /\ propertyBindings fuel (pre +:+ attributeText "[" "]" name e +:+ post)
       = Some ({| tb_type := property; tb_expression := e |} :: rest).
Proof.
  intros Hpre Hne Hname Hee He Hlt.
  destruct (TemplateTextFacts.attribute_first "[" "]" fuel pre name e post
              Hpre Hne Hname Hee He Hlt) as [gss [E1 E2]].
  unfold propertyBindings. change TemplateRegex.propRegex with (attributeRegex "[" "]").
  rewrite E1, E2. cbn [option_map map Regex.nthGroup nth]. eexists. split; reflexivity.
Qed.

Lemma property_attribute_is_reported_witness :
  exists rest,
    propertyBindings 40 "/>" = Some rest
    /\ propertyBindings 40 ("<img " +:+ attributeText "[" "]" "src" "logo" +:+ "/>")
       = Some ({| tb_type := property; tb_expression := "logo" |} :: rest).
Proof.
  apply (property_attribute_is_reported "<img " "src" "logo" "/>" 40);
    try reflexivity; try discriminate.
  vm_compute. lia.
Defined.

(** X29.  Interpolations of [parseAngularTemplate]: double braces around
    nothing but white space are reported, as an interpolation with the empty
    expression, and the interpolations of the text behind them follow. *)
Theorem blank_interpolation_is_reported (ws post : string) (fuel : nat) :
  ws <> EmptyString -> every Regex.space ws = true ->
  String.length ("{{" +:+ ws +:+ "}}" +:+ post) < fuel ->
  exists rest,
    interpolationBindings fuel post = Some rest
    /\ interpolationBindings fuel ("{{" +:+ ws +:+ "}}" +:+ post)
       = Some ({| tb_type := interpolation; tb_expression := EmptyString |} :: rest).
Proof.
  intros Hne Hws Hlt.
  destruct (TemplateTextFacts.blanks_first fuel ws post Hne Hws Hlt)
    as [a [gss [Ha [E1 E2]]]].
  unfold interpolationBindings. rewrite E1, E2.
  cbn [option_map map Regex.nthGroup nth].
  rewrite (TemplateTextFacts.trim_blank a Ha). eexists. split; reflexivity.
Qed.

Lemma blank_interpolation_is_reported_witness :
  exists rest,
    interpolationBindings 20 "</b>" = Some rest
    /\ interpolationBindings 20 ("{{" +:+ "  " +:+ "}}" +:+ "</b>")
       = Some ({| tb_type := interpolation; tb_expression := EmptyString |} :: rest).
Proof.
  apply (blank_interpolation_is_reported "  " "</b>" 20);
    try reflexivity; try discriminate.
  vm_compute. lia.
Defined.

(** * What the analysis phase reads and writes *)

Module BlindFacts.

Lemma withoutCallChains_map fileInfos : withoutCallChains fileInfos = map clearFile fileInfos.
Proof. reflexivity. Qed.

Lemma classes_cleared fileInfos :
  flat_map classes (map clearFile fileInfos) = map clearClass (flat_map classes fileInfos).
Proof.
  induction fileInfos as [|file fileInfos IH]; [reflexivity|].
  cbn [map flat_map]. rewrite IH, map_app. reflexivity.
Qed.

Lemma fold_left_blind {A B} (f : A -> B -> A) (h : B -> B) l :
  (forall a x, f a (h x) = f a x) ->
  forall a, fold_left f (map h l) a = fold_left f l a.
Proof.
  intros Hf. induction l as [|x l IH]; intros a; [reflexivity|].
  cbn [map fold_left]. now rewrite Hf, IH.
Qed.

Lemma flat_map_blind {A B} (f : A -> list B) (h : A -> A) l :
  (forall x, f (h x) = f x) -> flat_map f (map h l) = flat_map f l.
Proof.
  intros Hf. induction l as [|x l IH]; [reflexivity|].
  cbn [map flat_map]. now rewrite Hf, IH.
Qed.

Lemma map_blind {A B} (f : A -> B) (h : A -> A) l :
  (forall x, f (h x) = f x) -> map f (map h l) = map f l.
Proof. intros Hf. rewrite map_map. apply map_ext. exact Hf. Qed.

Lemma names_cleared cls :
  map m_name (c_methods (clearClass cls)) = map m_name (c_methods cls).
Proof. cbn [clearClass c_methods withMethods]. now apply map_blind. Qed.

(** ** None of the five analyzers reads a [callChain] *)

Lemma deadInFile_blind this file : deadInFile this (clearFile file) = deadInFile this file.
Proof.
  unfold deadInFile. cbn [clearFile classes functions withClasses]. f_equal.
  rewrite flat_map_concat_map, map_map, <- flat_map_concat_map.
  apply flat_map_ext. intros cls.
  cbn [clearClass c_methods withMethods]. now apply flat_map_blind.
Qed.

Lemma detectDeadCode_blind this fileInfos :
  detectDeadCode this (withoutCallChains fileInfos) = detectDeadCode this fileInfos.
Proof.
  rewrite withoutCallChains_map. unfold detectDeadCode.
  apply flat_map_blind. apply deadInFile_blind.
Qed.

Lemma inheritanceOf_blind mc ec cls :
  inheritanceOf mc ec (clearClass cls) = inheritanceOf mc ec cls.
Proof. unfold inheritanceOf. now rewrite names_cleared. Qed.

Lemma analyzeInheritance_blind fileInfos :
  analyzeInheritance (withoutCallChains fileInfos) = analyzeInheritance fileInfos.
Proof.
  rewrite withoutCallChains_map. unfold analyzeInheritance. cbv zeta.
  rewrite classes_cleared.
  rewrite (fold_left_blind
             (fun c cls =>
                OMap.set (c_name cls) (OSet.ofList (map m_name (c_methods cls))) c)
             clearClass)
    by (intros c cls; now rewrite names_cleared).
  rewrite (fold_left_blind (fun c cls => OMap.set (c_name cls) (c_extends cls) c)
             clearClass) by reflexivity.
  apply flat_map_blind. intros cls. apply inheritanceOf_blind.
Qed.

Lemma buildImportGraph_blind projectPaths fileInfos :
  buildImportGraph projectPaths (withoutCallChains fileInfos)
  = buildImportGraph projectPaths fileInfos.
Proof.
  rewrite withoutCallChains_map. unfold buildImportGraph.
  now apply fold_left_blind.
Qed.

Lemma detectCircularDependencies_blind projectPaths fileInfos :
  detectCircularDependencies projectPaths (withoutCallChains fileInfos)
  = detectCircularDependencies projectPaths fileInfos.
Proof. unfold detectCircularDependencies. now rewrite buildImportGraph_blind. Qed.

Lemma initialCounts_blind fileInfos :
  initialCounts (withoutCallChains fileInfos) = initialCounts fileInfos.
Proof.
  rewrite withoutCallChains_map. unfold initialCounts. rewrite classes_cleared.
  apply fold_left_blind. intros acc cls. f_equal.
  cbn [clearClass c_methods c_name withMethods]. now apply fold_left_blind.
Qed.

Lemma countUses_blind this fileInfos su :
  countUses this (withoutCallChains fileInfos) su = countUses this fileInfos su.
Proof.
  rewrite withoutCallChains_map. unfold countUses. rewrite classes_cleared.
  apply fold_left_blind. intros acc cls.
  cbn [clearClass c_methods withMethods]. now apply fold_left_blind.
Qed.

Lemma classSizes_blind fileInfos :
  classSizes (withoutCallChains fileInfos) = classSizes fileInfos.
Proof.
  rewrite withoutCallChains_map. unfold classSizes. apply flat_map_blind.
  intros file. cbn [clearFile classes relativePath withClasses].
  apply map_blind. intros cls. cbn [clearClass c_methods c_name withMethods].
  now rewrite length_map.
Qed.

Lemma importCounts_blind fileInfos :
  importCounts (withoutCallChains fileInfos) = importCounts fileInfos.
Proof.
  rewrite withoutCallChains_map. unfold importCounts. now apply map_blind.
Qed.

Lemma generateSummary_blind this fileInfos :
  generateSummary this (withoutCallChains fileInfos) = generateSummary this fileInfos.
Proof.
  unfold generateSummary.
  rewrite initialCounts_blind, classSizes_blind, importCounts_blind.
  destruct (initialCounts fileInfos) as [mc su]. now rewrite countUses_blind.
Qed.

Lemma analyzeInterfaceImplementations_blind fileInfos :
  analyzeInterfaceImplementations (withoutCallChains fileInfos)
  = analyzeInterfaceImplementations fileInfos.
Proof.
  rewrite withoutCallChains_map. unfold analyzeInterfaceImplementations. cbv zeta.
  rewrite classes_cleared.
  now rewrite (fold_left_blind
                 (fun im cls =>
                    fold_left (fun im iface => addImplementor iface (c_name cls) im)
                      (c_implements cls) im) clearClass).
Qed.

Lemma reportsOn_blind projectPaths this fileInfos :
  reportsOn projectPaths this (withoutCallChains fileInfos)
  = reportsOn projectPaths this fileInfos.
Proof.
  unfold reportsOn.
  now rewrite detectDeadCode_blind, analyzeInheritance_blind,
    detectCircularDependencies_blind, generateSummary_blind,
    analyzeInterfaceImplementations_blind.
Qed.

(** ** The back-fill done twice *)

Lemma backfill_twice this cls cls' method :
  c_name cls' = c_name cls ->
  backfill this cls' (backfill this cls method) = backfill this cls method.
Proof.
  intros Hname. unfold backfill at 1. rewrite Hname, ChainFacts.backfill_name.
  unfold backfill.
  destruct (OMap.get (c_name cls +:+ "." +:+ m_name method) (reverseCallGraph this));
    reflexivity.
Qed.

Lemma buildCallGraph_twice this fileInfos :
  buildCallGraph this (buildCallGraph this fileInfos) = buildCallGraph this fileInfos.
Proof.
  unfold buildCallGraph, updateMethods. rewrite map_map. apply map_ext. intros file.
  cbn [classes withClasses]. unfold withClasses. cbn. f_equal.
  rewrite map_map. apply map_ext. intros cls.
  cbn [c_methods withMethods]. unfold withMethods. cbn. f_equal.
  rewrite map_map. apply map_ext. intros method. now apply backfill_twice.
Qed.

End BlindFacts.

(** C9, amended.  For the model [m] of a scan after the back-fill and the
    model [m'] the analysis phase leaves:

    - the back-fill ran against the reverse graph as resolution left it:
      every [calledBy] of [m] lists exactly the callers recorded under
      [Class.method], each once, no [callChain] is set yet, and a further
      back-fill would change nothing;
    - the analysis phase leaves the scanner instance, hence both call-graph
      maps, as it found them;
    - the file infos of [m'] differ from those of [m] in [callChain] fields
      only, and a [callChain] is written exactly for the methods that have
      callers: one to five chains of two to four names, each ending with the
      method's own [Class.method] and linked by recorded callers;
    - the five reports are those of the analyzers on [m], and no analyzer
      reads a [callChain]: run on [m'] they give the same reports. *)
Theorem analysis_frame (framework : Framework) (sourceFiles : list SourceFile)
    (projectPaths : list string) :
  let m := builtModel framework sourceFiles in
  let reports := fst (analyze projectPaths m) in
  let m' := snd (analyze projectPaths m) in
  (forall cls method,
     methodIn (files m) cls method ->
     NoDup (m_calledBy method)
     /\ (forall caller,
           In caller (m_calledBy method)
           <-> edge (reverseCallGraph (scanner m))
                 (c_name cls +:+ "." +:+ m_name method) caller)
     /\ m_callChain method = None)
  /\ buildCallGraph (scanner m) (files m) = files m
  /\ scanner m' = scanner m
  /\ withoutCallChains (files m') = withoutCallChains (files m)
  /\ (forall cls method,
        methodIn (files m') cls method ->
        (m_callChain method = None <-> m_calledBy method = [])
        /\ forall chains,
             m_callChain method = Some chains ->
             1 <= length chains <= 5
             /\ forall chain, In chain chains ->
                  2 <= length chain <= 4
                  /\ last chain EmptyString = c_name cls +:+ "." +:+ m_name method
                  /\ linkedBy (recordedCall (scanner m)) chain)
  /\ reports = reportsOn projectPaths (scanner m) (files m)
  /\ reports = reportsOn projectPaths (scanner m') (files m').
Proof.
  unfold builtModel.
  destruct (buildGraphs framework sourceFiles emptyScanner) as [fileInfos this] eqn:Hb.
  cbv zeta. unfold analyze. cbn [fst snd scanner files].
  assert (Hclear : withoutCallChains (buildCallChains this (buildCallGraph this fileInfos) 3)
                   = withoutCallChains (buildCallGraph this fileInfos)).
  { unfold buildCallChains. apply FrameFacts.withoutCallChains_updateMethods.
    intros cls me. apply FrameFacts.clear_traceMethod. }
  split.
  { intros cls method Hin.
    destruct (ChainFacts.calledBy_built _ _ _ _ cls method Hb Hin) as [Hnd Hcallers].
    split; [exact Hnd|]. split; [exact Hcallers|].
    destruct Hin as [file [Hf [Hc Hm]]].
    exact (ChainFacts.unchained_built _ _ _ _ Hb file cls method Hf Hc Hm). }
  split; [apply BlindFacts.buildCallGraph_twice|].
  split; [reflexivity|].
  split; [exact Hclear|].
  split.
  { intros cls method Hin. split.
    - exact (ChainFacts.chains_presence _ _ _ _ 2 Hb cls method Hin).
    - intros chains Hchains.
      exact (ChainFacts.chains_shape this _ 3
               (ChainFacts.unchained_built _ _ _ _ Hb) cls method chains Hin Hchains). }
  split; [reflexivity|].
  change (reportsOn projectPaths this (buildCallGraph this fileInfos)
          = reportsOn projectPaths this
              (buildCallChains this (buildCallGraph this fileInfos) 3)).
  rewrite <- (BlindFacts.reportsOn_blind projectPaths this
                (buildCallChains this (buildCallGraph this fileInfos) 3)).
  rewrite Hclear. now rewrite BlindFacts.reportsOn_blind.
Qed.
